(** * A shallow embedding of [gen_random_toml.py]

    The random TOML document generator [TomlGenerator] and its tree model
    [TomlGenerator.Context], embedded as pure functions over an explicit
    pseudo-random source, together with the properties of the generator
    that the specification states.

    Conventions of the embedding:
    - a Python [str] is the list of its code points ([pystr]);
    - the [random.Random] instance is a tape of raw draws ([Rng]); every
      primitive consumes one draw and maps it into its range, so that a
      statement quantified over all tapes covers every seed;
    - generator methods live in the monad [M], which threads the tape and
      carries the ways a Python call can end: a value, a failed [assert],
      another exception, or no result within the fuel given to the loops
      and recursive calls that Python leaves unbounded;
    - the tree of [Table] / [TableArray] objects is an inductive type, a
      [dict] is an association list in insertion order, and the reference
      [Context.active_table] is the key path of the table it points to. *)

From Stdlib Require Import String Ascii.
From Stdlib Require Import ZArith List Bool Lia QArith.
Import ListNotations.

Local Open Scope Z_scope.

Set Warnings "-register-all,-notation-for-abbreviation".

(** ** Python strings *)

Notation pystr := (list Z) (only parsing).

(** The code points of an ASCII literal. *)
Definition py (s : string) : pystr :=
  map (fun a => Z.of_N (N_of_ascii a)) (list_ascii_of_string s).

Definition chr (c : Z) : pystr := [c].

Definition len {A} (l : list A) : Z := Z.of_nat (length l).

Fixpoint pystr_eqb (a b : pystr) : bool :=
  match a, b with
  | [], [] => true
  | x :: a', y :: b' => (x =? y) && pystr_eqb a' b'
  | _, _ => false
  end.

(** A key or table name: a tuple of strings. *)
Notation KeyType := (list pystr) (only parsing).

Fixpoint key_eqb (a b : KeyType) : bool :=
  match a, b with
  | [], [] => true
  | x :: a', y :: b' => pystr_eqb x y && key_eqb a' b'
  | _, _ => false
  end.

(** [key in keys] for a list or tuple of keys. *)
Definition key_in (k : KeyType) (keys : list KeyType) : bool :=
  existsb (key_eqb k) keys.

(** [c in s] for a one-character [c]. *)
Definition char_in (c : Z) (s : pystr) : bool := existsb (Z.eqb c) s.

Fixpoint starts_with (p s : pystr) : bool :=
  match p, s with
  | [], _ => true
  | x :: p', y :: s' => (x =? y) && starts_with p' s'
  | _ :: _, [] => false
  end.

(** [a in b] for strings: substring test. *)
Fixpoint str_in (a b : pystr) : bool :=
  starts_with a b ||
  match b with
  | [] => false
  | _ :: b' => str_in a b'
  end.

(** Tuples of strings compare lexicographically, strings by code point. *)
Fixpoint pystr_ltb (a b : pystr) : bool :=
  match a, b with
  | _, [] => false
  | [], _ :: _ => true
  | x :: a', y :: b' => (x <? y) || ((x =? y) && pystr_ltb a' b')
  end.

Fixpoint key_ltb (a b : KeyType) : bool :=
  match a, b with
  | _, [] => false
  | [], _ :: _ => true
  | x :: a', y :: b' => pystr_ltb x y || (pystr_eqb x y && key_ltb a' b')
  end.

Fixpoint insert_sorted (k : KeyType) (l : list KeyType) : list KeyType :=
  match l with
  | [] => [k]
  | x :: l' => if key_ltb k x then k :: l else x :: insert_sorted k l'
  end.

(** [sorted(keys)] *)
Definition sorted (l : list KeyType) : list KeyType :=
  fold_right insert_sorted [] l.

(** ** Outcomes and the generator monad *)

Inductive result (A : Type) : Type :=
| Ok (a : A)
| AssertionError
| Raised
| Diverged.

Arguments Ok {A} a.
Arguments AssertionError {A}.
Arguments Raised {A}.
Arguments Diverged {A}.

Definition rbind {A B} (r : result A) (k : A -> result B) : result B :=
  match r with
  | Ok a => k a
  | AssertionError => AssertionError
  | Raised => Raised
  | Diverged => Diverged
  end.

Definition Rng := list Z.

Definition M (A : Type) : Type := Rng -> result (A * Rng).

Definition ret {A} (a : A) : M A := fun rng => Ok (a, rng).

Definition bind {A B} (m : M A) (k : A -> M B) : M B :=
  fun rng =>
    match m rng with
    | Ok (a, rng') => k a rng'
    | AssertionError => AssertionError
    | Raised => Raised
    | Diverged => Diverged
    end.

Definition lift {A} (r : result A) : M A :=
  fun rng => rbind r (fun a => Ok (a, rng)).

Definition diverge {A} : M A := fun _ => Diverged.
Definition raise {A} : M A := fun _ => Raised.

Declare Scope gen_scope.
Delimit Scope gen_scope with gen.
Notation "x <- m ;; k" := (bind m (fun x => k))
  (at level 61, m at next level, right associativity) : gen_scope.
Notation "' p <- m ;; k" := (bind m (fun x => match x with p => k end))
  (at level 61, p pattern, m at next level, right associativity) : gen_scope.
Notation "x <-r m ;; k" := (rbind m (fun x => k))
  (at level 61, m at next level, right associativity) : gen_scope.
Open Scope gen_scope.

(** [for i in range(n): acc = body(i, acc)] *)
Fixpoint for_range_from {A} (i : Z) (n : nat) (body : Z -> A -> M A) (acc : A)
  : M A :=
  match n with
  | O => ret acc
  | S n' => acc' <- body i acc ;; for_range_from (i + 1) n' body acc'
  end.

Definition for_range {A} (n : Z) (body : Z -> A -> M A) (acc : A) : M A :=
  for_range_from 0 (Z.to_nat n) body acc.

(** [for x in xs: acc = body(x, acc)] *)
Fixpoint for_each {X A} (xs : list X) (body : X -> A -> M A) (acc : A) : M A :=
  match xs with
  | [] => ret acc
  | x :: xs' => acc' <- body x acc ;; for_each xs' body acc'
  end.

(** ** The random source

    One raw draw per call; an exhausted tape keeps yielding 0. *)

Definition next_raw (rng : Rng) : Z * Rng :=
  match rng with
  | [] => (0, [])
  | z :: rng' => (z, rng')
  end.

(** [rng.random()]: a multiple of 2^-53 in [0, 1). *)
Definition rng_random : M Q :=
  fun rng => let (z, rng') := next_raw rng in
             Ok (Qmake (z mod 2 ^ 53) (2 ^ 53)%positive, rng').

(** [rng.randint(a, b)]: an integer in [a, b]; [ValueError] on an empty
    range. *)
Definition rng_randint (a b : Z) : M Z :=
  fun rng => if b <? a then Raised
             else let (z, rng') := next_raw rng in
                  Ok (a + z mod (b - a + 1), rng').

(** [rng.choice(seq)]; [IndexError] on an empty sequence. *)
Definition rng_choice {A} (seq : list A) : M A :=
  fun rng => match seq with
             | [] => Raised
             | d :: _ =>
                 let (z, rng') := next_raw rng in
                 Ok (nth (Z.to_nat (z mod len seq)) seq d, rng')
             end.

(** [rng.choices(population, weights, k=k)]: [k] independent draws.  All the
    weight vectors of the generator are strictly positive, so each draw can
    be any element; the weights themselves shape only the distribution. *)
Fixpoint rng_choices {A} (population : list A) (weights : list Q) (k : nat)
  : M (list A) :=
  match k with
  | O => ret []
  | S k' => x <- rng_choice population ;;
            xs <- rng_choices population weights k' ;;
            ret (x :: xs)
  end.

Definition Qltb (x y : Q) : bool :=
  (Qnum x * Zpos (Qden y) <? Qnum y * Zpos (Qden x))%Z.

(** [a / b] rounded to the nearest integer, ties to the even one. *)
Definition round_half_even (a b : Z) : Z :=
  let q := a / b in
  let r := a mod b in
  if 2 * r <? b then q
  else if b <? 2 * r then q + 1
  else if Z.even q then q else q + 1.

(** The double nearest to a rational [0 < q < 1]: the value a decimal
    literal of the source denotes, and the result of an addition of two
    doubles.  The draws of [rng_random] are doubles too, so the comparisons
    of the source are decided exactly. *)
Definition dbl (q : Q) : Q :=
  let n := Qnum q in
  let d := Zpos (Qden q) in
  if n <=? 0 then q
  else
    let e := 52 - Z.log2 n + Z.log2 d in
    let e := if n * 2 ^ e <? 2 ^ 52 * d then e + 1 else e in
    Qmake (round_half_even (n * 2 ^ e) d) (Z.to_pos (2 ^ e)).

(** ** Values and the table tree *)

(** [_ValueType].  A float is kept as the decimal literal it was read from
    ([float(text)]); dates and times as their fields, a timezone as its
    offset in minutes. *)
Inductive value : Type :=
| VStr (s : pystr)
| VBool (b : bool)
| VInt (z : Z)
| VFloat (literal : pystr)
| VDate (year month day : Z)
| VTime (hour minute second usec : Z)
| VDateTime (year month day hour minute second usec : Z) (tz : option Z)
| VList (l : list value)
| VDict (d : list (pystr * value)).

(** The children of a table in the internal tree: a plain value, a
    [TomlGenerator.Table] or a [TomlGenerator.TableArray]. *)
Inductive node : Type :=
| NValue (v : value)
| Table (defined dotted : bool) (elems : list (pystr * node))
| TableArray (elems : list (list (pystr * node))).

Notation InternalTableType := (list (pystr * node)) (only parsing).

(** *** Dictionaries in insertion order *)

Section Dict.
Context {V : Type}.

(** [d.get(p)] *)
Fixpoint dict_get (p : pystr) (d : list (pystr * V)) : option V :=
  match d with
  | [] => None
  | (k, v) :: d' => if pystr_eqb k p then Some v else dict_get p d'
  end.

(** [p in d] *)
Definition dict_has (p : pystr) (d : list (pystr * V)) : bool :=
  match dict_get p d with Some _ => true | None => false end.

(** [d[p] = v]: overwrite in place, or append a new entry. *)
Fixpoint dict_set (p : pystr) (v : V) (d : list (pystr * V))
  : list (pystr * V) :=
  match d with
  | [] => [(p, v)]
  | (k, w) :: d' =>
      if pystr_eqb k p then (k, v) :: d' else (k, w) :: dict_set p v d'
  end.
End Dict.

(** [l[:-1]] and [l[-1]] of a non-empty list. *)
Fixpoint split_last {A} (l : list A) : option (list A * A) :=
  match l with
  | [] => None
  | x :: l' =>
      match split_last l' with
      | None => Some ([], x)
      | Some (init, z) => Some (x :: init, z)
      end
  end.

Section Traversal.
Context {X R : Type} (f : X -> result (list R)).

(** Run [f] on every element and chain the results in order. *)
Fixpoint collect (l : list X) : result (list R) :=
  match l with
  | [] => Ok []
  | x :: l' => a <-r f x ;; b <-r collect l' ;; Ok (a ++ b)
  end.

(** Run [f] on [l[-1]]; [IndexError] on an empty list. *)
Fixpoint on_last (l : list X) : result (list R) :=
  match l with
  | [] => Raised
  | [x] => f x
  | _ :: l' => on_last l'
  end.
End Traversal.

(** *** Queries *)

(** The walk of [get_active_item_keys] and [get_item_keys], entered at the
    child [v] found under [path]. *)
Fixpoint rec_item_keys (v : node) (path : KeyType) : result (list KeyType) :=
  match v with
  | Table _ _ elems =>
      collect (fun pv => rec_item_keys (snd pv) (path ++ [fst pv])) elems
  | TableArray elems =>
      on_last
        (collect (fun pv => rec_item_keys (snd pv) (path ++ [fst pv])))
        elems
  | NValue _ => Ok [path]
  end.

Definition item_keys_of (tbl : InternalTableType) : result (list KeyType) :=
  collect (fun pv => rec_item_keys (snd pv) [fst pv]) tbl.

(** The walk of [get_active_item_prefixes]. *)
Fixpoint rec_item_prefixes (v : node) (path : KeyType) : list KeyType :=
  match v with
  | Table _ true elems =>
      path :: flat_map (fun pv => rec_item_prefixes (snd pv) (path ++ [fst pv]))
                       elems
  | _ => []
  end.

Definition item_prefixes_of (tbl : InternalTableType) : list KeyType :=
  flat_map (fun pv => rec_item_prefixes (snd pv) [fst pv]) tbl.

Definition is_not_true (o : option bool) : bool :=
  match o with Some true => false | _ => true end.

Definition is_not_false (o : option bool) : bool :=
  match o with Some false => false | _ => true end.

Definition none_or_eq (o : option bool) (b : bool) : bool :=
  match o with None => true | Some x => Bool.eqb x b end.

(** The walk of [get_table_keys]. *)
Fixpoint rec_table_keys (defined array : option bool) (v : node)
  (path : KeyType) : result (list KeyType) :=
  match v with
  | Table d _ elems =>
      below <-r collect (fun pv => rec_table_keys defined array (snd pv)
                                     (path ++ [fst pv])) elems ;;
      Ok ((if is_not_true array && none_or_eq defined d then [path] else [])
            ++ below)
  | TableArray elems =>
      below <-r on_last
                  (collect (fun pv => rec_table_keys defined array (snd pv)
                                        (path ++ [fst pv]))) elems ;;
      Ok ((if is_not_false array then [path] else []) ++ below)
  | NValue _ => Ok []
  end.

Definition table_keys_of (defined array : option bool)
  (tbl : InternalTableType) : result (list KeyType) :=
  collect (fun pv => rec_table_keys defined array (snd pv) [fst pv]) tbl.

(** *** References into the tree

    A reference to a table dictionary is the key path that leads to it;
    walking a path enters the last element of every table array on it. *)

Definition last_table (elems : list InternalTableType)
  : result (list InternalTableType * InternalTableType) :=
  match split_last elems with
  | None => Raised
  | Some r => Ok r
  end.

(** The dictionary a path refers to. *)
Fixpoint table_at (tbl : InternalTableType) (key : KeyType)
  : result InternalTableType :=
  match key with
  | [] => Ok tbl
  | p :: key' =>
      match dict_get p tbl with
      | Some (Table _ _ elems) => table_at elems key'
      | Some (TableArray elems) =>
          r <-r last_table elems ;; table_at (snd r) key'
      | _ => Raised
      end
  end.

(** Mutation of the dictionary a path refers to. *)
Fixpoint update_at (tbl : InternalTableType) (key : KeyType)
  (f : InternalTableType -> result InternalTableType)
  : result InternalTableType :=
  match key with
  | [] => f tbl
  | p :: key' =>
      match dict_get p tbl with
      | Some (Table d dt elems) =>
          sub <-r update_at elems key' f ;;
          Ok (dict_set p (Table d dt sub) tbl)
      | Some (TableArray elems) =>
          r <-r last_table elems ;;
          sub <-r update_at (snd r) key' f ;;
          Ok (dict_set p (TableArray (fst r ++ [sub])) tbl)
      | _ => Raised
      end
  end.

(** *** The context *)

Record Context : Type := mkContext {
  data : InternalTableType;
  (** the path of the dictionary [self.active_table] refers to *)
  active_table : KeyType
}.

(** [Context()] *)
Definition new_Context : Context := mkContext [] [].

Definition get_active_table (ctx : Context) : result InternalTableType :=
  table_at (data ctx) (active_table ctx).

Definition get_active_item_keys (ctx : Context) : result (list KeyType) :=
  tbl <-r get_active_table ctx ;;
  keys <-r item_keys_of tbl ;;
  Ok (sorted keys).

Definition get_active_item_prefixes (ctx : Context) : result (list KeyType) :=
  tbl <-r get_active_table ctx ;;
  Ok (sorted (item_prefixes_of tbl)).

Definition get_active_subtable_keys (ctx : Context) : result (list KeyType) :=
  tbl <-r get_active_table ctx ;;
  Ok (sorted (flat_map (fun pv =>
                          match snd pv with
                          | Table _ dotted _ =>
                              if negb dotted then [[fst pv]] else []
                          | TableArray _ => [[fst pv]]
                          | NValue _ => []
                          end) tbl)).

Definition get_item_keys (ctx : Context) : result (list KeyType) :=
  keys <-r item_keys_of (data ctx) ;;
  Ok (sorted keys).

Definition get_table_keys (ctx : Context) (defined array : option bool)
  : result (list KeyType) :=
  keys <-r table_keys_of defined array (data ctx) ;;
  Ok (sorted keys).

(** [_make_subtable(tbl, key, dotted)]: the tables missing along [key] are
    created; the dictionary returned by Python is the one [key] refers to in
    the result. *)
Fixpoint _make_subtable (tbl : InternalTableType) (key : KeyType)
  (dotted : bool) : result InternalTableType :=
  match key with
  | [] => Ok tbl
  | p :: key' =>
      let tbl1 :=
        if negb (dict_has p tbl) then dict_set p (Table dotted dotted []) tbl
        else tbl in
      match dict_get p tbl1 with
      | Some (Table d dt elems) =>
          sub <-r _make_subtable elems key' dotted ;;
          Ok (dict_set p (Table d dt sub) tbl1)
      | Some (TableArray elems) =>
          r <-r last_table elems ;;
          sub <-r _make_subtable (snd r) key' dotted ;;
          Ok (dict_set p (TableArray (fst r ++ [sub])) tbl1)
      | Some (NValue _) => AssertionError
      | None => Raised
      end
  end.

Definition open_table (ctx : Context) (key : KeyType) : result Context :=
  match split_last key with
  | None => Raised
  | Some (parent, p) =>
      data1 <-r _make_subtable (data ctx) parent false ;;
      data2 <-r update_at data1 parent (fun tbl =>
        let tbl1 :=
          if negb (dict_has p tbl) then dict_set p (Table false false []) tbl
          else tbl in
        match dict_get p tbl1 with
        | Some (Table defined dotted elems) =>
            if defined then AssertionError
            else if dotted then AssertionError
            else Ok (dict_set p (Table true dotted elems) tbl1)
        | Some _ => AssertionError
        | None => Raised
        end) ;;
      Ok (mkContext data2 key)
  end.

Definition open_table_array (ctx : Context) (key : KeyType) : result Context :=
  match split_last key with
  | None => Raised
  | Some (parent, p) =>
      data1 <-r _make_subtable (data ctx) parent false ;;
      data2 <-r update_at data1 parent (fun tbl =>
        let tbl1 :=
          if negb (dict_has p tbl) then dict_set p (TableArray []) tbl
          else tbl in
        match dict_get p tbl1 with
        | Some (TableArray elems) =>
            Ok (dict_set p (TableArray (elems ++ [[]])) tbl1)
        | Some _ => AssertionError
        | None => Raised
        end) ;;
      Ok (mkContext data2 key)
  end.

Definition assign (ctx : Context) (key : KeyType) (v : value)
  : result Context :=
  match split_last key with
  | None => Raised
  | Some (parent, p) =>
      data1 <-r update_at (data ctx) (active_table ctx) (fun act =>
        act1 <-r _make_subtable act parent true ;;
        update_at act1 parent (fun tbl =>
          if dict_has p tbl then AssertionError
          else Ok (dict_set p (NValue v) tbl))) ;;
      Ok (mkContext data1 (active_table ctx))
  end.

Fixpoint _simplify_node (v : node) : value :=
  match v with
  | Table _ _ elems =>
      VDict (map (fun kv => (fst kv, _simplify_node (snd kv))) elems)
  | TableArray elems =>
      VList (map (fun t => VDict (map (fun kv => (fst kv, _simplify_node (snd kv))) t))
                 elems)
  | NValue x => x
  end.

Definition _simplify_tables (tbl : InternalTableType) : list (pystr * value) :=
  map (fun kv => (fst kv, _simplify_node (snd kv))) tbl.

Definition get_data (ctx : Context) : list (pystr * value) :=
  _simplify_tables (data ctx).

(** ** Python built-ins used by the generator *)

(** Digits of a non-negative integer in a base up to 10, most significant
    first: [str(v)], ["{:o}".format(v)], ["{:b}".format(v)]. *)
Fixpoint digits_loop (fuel : nat) (base v : Z) (acc : pystr) : pystr :=
  match fuel with
  | O => acc
  | S fuel' =>
      let acc' := (48 + v mod base) :: acc in
      if v / base =? 0 then acc' else digits_loop fuel' base (v / base) acc'
  end.

Definition format_base (base v : Z) : pystr :=
  digits_loop (S (Z.to_nat (Z.log2 v))) base v [].

(** [str(v)] for an integer. *)
Definition str_int (v : Z) : pystr :=
  if v <? 0 then 45 :: format_base 10 (- v) else format_base 10 v.

(** ["{:02d}".format(v)] and wider zero-padded fields, for [v >= 0]. *)
Definition zero_pad (width : nat) (v : Z) : pystr :=
  let s := format_base 10 v in
  repeat 48 (width - length s) ++ s.

(** [n * s] *)
Definition str_repeat (n : Z) (s : pystr) : pystr :=
  concat (repeat s (Z.to_nat n)).

(** ** The generator: constants *)

Definition MAX_EXPRESSIONS : Z := 200.
Definition MEAN_WS_LEN : Q := 2%Q.
Definition MAX_WS_LEN : Z := 100.
Definition MEAN_COMMENT_LEN : Q := 8%Q.
Definition MAX_COMMENT_LEN : Z := 100.
Definition MEAN_KEY_LEN : Q := 5%Q.
Definition MAX_KEY_LEN : Z := 100.
Definition MEAN_STRING_LEN : Q := 10%Q.
Definition MAX_STRING_LEN : Z := 100.
Definition MEAN_MLSTRING_LEN : Q := 25%Q.
Definition MAX_MLSTRING_LEN : Z := 200.
Definition MEAN_ARRAY_ELEMS : Q := 2%Q.
Definition MAX_ARRAY_ELEMS : Z := 10.
Definition MAX_DOTTED_LEN : Z := 3.
Definition MAX_INT_VALUE : Z := 2 ^ 80.

(** The probabilities are the doubles that the decimal literals of the
    source denote. *)
Definition PROB_COMMENT : Q := Eval vm_compute in dbl (5 # 10).
Definition PROB_EXPR_KEYVAL : Q := Eval vm_compute in dbl (7 # 10).
Definition PROB_EXPR_TABLE : Q := Eval vm_compute in dbl (1 # 10).
Definition PROB_COMMENT_WS : Q := Eval vm_compute in dbl (1 # 10).
Definition PROB_COMMENT_NASTY : Q := Eval vm_compute in dbl (1 # 10).
Definition PROB_COMMENT_NONASCII : Q := Eval vm_compute in dbl (1 # 10).
Definition PROB_QUOTED_KEY : Q := Eval vm_compute in dbl (4 # 10).
Definition PROB_EXISTING_KEY : Q := Eval vm_compute in dbl (5 # 10).
Definition PROB_ESCAPE_CHAR : Q := Eval vm_compute in dbl (1 # 10).
Definition PROB_ML_NEWLINE : Q := Eval vm_compute in dbl (1 # 10).
Definition PROB_ML_ESCAPED_NEWLINE : Q := Eval vm_compute in dbl (5 # 100).
Definition PROB_ML_QUOTE : Q := Eval vm_compute in dbl (1 # 10).
Definition PROB_SPECIAL_FLOAT : Q := Eval vm_compute in dbl (1 # 10).

(** [0.5]; a product with it is exact. *)
Definition half : Q := (1 # 2)%Q.

(** [ESCAPE_CHARS], in the order of its keys. *)
Definition ESCAPE_CHARS : list (Z * pystr) :=
  [ (0x08, py "b"); (0x09, py "t"); (0x0a, py "n"); (0x0c, py "f");
    (0x0d, py "r"); (0x22, [0x22]); (0x5c, [0x5c]) ].

Fixpoint escape_get (c : Z) (l : list (Z * pystr)) : option pystr :=
  match l with
  | [] => None
  | (k, e) :: l' => if k =? c then Some e else escape_get c l'
  end.

(** ** Lengths, hexadecimal digits, white space and comments *)

(** [_rand_exp(mean, minval, maxval)].  The value [v] that the source
    computes in floating point from one uniform draw is taken from the tape;
    the clamp is the source's [max(minval, min(maxval, v))]. *)
Definition _rand_exp (mean : Q) (minval maxval : Z) : M Z :=
  fun rng => let (v, rng') := next_raw rng in
             Ok (Z.max minval (Z.min maxval v), rng').

(** The loop of [_rand_format_hex]: [s] grows to the left while it is
    shorter than [minwidth] or digits of [val] remain. *)
Fixpoint hex_loop (fuel : nat) (minwidth val : Z) (s : pystr) : M pystr :=
  if (len s <? minwidth) || (0 <? val) then
    match fuel with
    | O => diverge
    | S fuel' =>
        let c := val mod 16 in
        let val' := val / 16 in
        if c <? 10 then hex_loop fuel' minwidth val' (str_int c ++ s)
        else
          r <- rng_randint 0 1 ;;
          if r =? 0 then hex_loop fuel' minwidth val' (chr (97 + c - 10) ++ s)
          else hex_loop fuel' minwidth val' (chr (65 + c - 10) ++ s)
    end
  else ret s.

(** Enough iterations for any [val] and [minwidth]. *)
Definition hex_iterations (val minwidth : Z) : nat :=
  (Z.to_nat minwidth + S (Z.to_nat (Z.log2 val)))%nat.

Definition _rand_format_hex (val minwidth : Z) : M pystr :=
  hex_loop (hex_iterations val minwidth) minwidth val [].

Definition _gen_newline : M pystr :=
  rng_choice [ [0x0a]; [0x0d; 0x0a] ].

Definition _gen_ws : M pystr :=
  n <- _rand_exp MEAN_WS_LEN 0 MAX_WS_LEN ;;
  if n =? 0 then ret []
  else rng_choices [0x09; 0x20] [1%Q; 4%Q] (Z.to_nat n).

Definition comment_weights : list Q :=
  let weights := [ PROB_COMMENT_WS; PROB_COMMENT_NASTY;
                   (half * PROB_COMMENT_NONASCII)%Q;
                   (half * PROB_COMMENT_NONASCII)%Q ] in
  weights ++ [ (1 - fold_right Qplus 0 weights)%Q ].

Definition _gen_comment : M pystr :=
  n <- _rand_exp MEAN_COMMENT_LEN 0 MAX_COMMENT_LEN ;;
  char_types <- rng_choices [1; 2; 3; 4; 5] comment_weights (Z.to_nat n) ;;
  comment_chars <- for_each char_types (fun t comment_chars =>
    c <- (if t =? 1 then rng_choice [0x09; 0x20; 0x20; 0x20; 0x20]
          else if t =? 2 then rng_choice [0x23; 0x22; 0x27; 0x5c]
          else if t =? 3 then rng_randint 0x80 0xd7ff
          else if t =? 4 then rng_randint 0xe000 0x10ffff
          else rng_randint 0x21 0x7e) ;;
    ret (comment_chars ++ [c])) [] ;;
  ret (0x23 :: comment_chars).

(** ** Strings *)

(** [\uXXXX] when [c < 0x10000 and r < 0.9], else [\UXXXXXXXX]. *)
Definition unicode_escape (c : Z) (r : Q) : M pystr :=
  if (c <? 0x10000) && Qltb r (dbl (9 # 10)) then
    h <- _rand_format_hex c 4 ;; ret (py "\u" ++ h)
  else
    h <- _rand_format_hex c 8 ;; ret (py "\U" ++ h).

Definition _gen_basic_char : M (pystr * pystr) :=
  r <- rng_random ;;
  if Qltb r (half * PROB_ESCAPE_CHAR) then
    let escapes := ESCAPE_CHARS in
    r <- rng_randint 0 (len escapes - 1) ;;
    let '(c, escsym) := nth (Z.to_nat r) escapes (0, []) in
    ret (0x5c :: escsym, chr c)
  else if Qltb r PROB_ESCAPE_CHAR then
    r <- rng_random ;;
    c <- (if Qltb r half then rng_randint 0 0xd7ff
          else rng_randint 0xe000 0x10ffff) ;;
    e <- unicode_escape c r ;;
    ret (e, chr c)
  else
    r <- rng_random ;;
    c <- (if Qltb r (dbl (1 # 10)) then
            c <- rng_randint 0x20 0x2f ;;
            ret (if c =? 0x22 then 0x09 else c)
          else if Qltb r (dbl (8 # 10)) then
            c <- rng_randint 0x30 0x7e ;;
            ret (if c =? 0x5c then 0x41 else c)
          else if Qltb r (dbl (9 # 10)) then rng_randint 0x80 0xd7ff
          else rng_randint 0xe000 0x10ffff) ;;
    ret (chr c, chr c).

Definition _gen_basic_string : M (pystr * pystr) :=
  n <- _rand_exp MEAN_STRING_LEN 0 MAX_STRING_LEN ;;
  '(doc_chars, val_chars) <- for_range n (fun _ acc =>
    '(doc_char, val_char) <- _gen_basic_char ;;
    ret (fst acc ++ [doc_char], snd acc ++ [val_char])) ([], []) ;;
  ret (0x22 :: concat doc_chars ++ [0x22], concat val_chars).

Definition _gen_literal_char : M pystr :=
  r <- rng_random ;;
  c <- (if Qltb r (dbl (1 # 10)) then
          c <- rng_randint 0x20 0x2f ;;
          ret (if c =? 0x27 then 0x09 else c)
        else if Qltb r (dbl (8 # 10)) then rng_randint 0x30 0x7e
        else if Qltb r (dbl (9 # 10)) then rng_randint 0x80 0xd7ff
        else rng_randint 0xe000 0x10ffff) ;;
  ret (chr c).

Definition _gen_literal_string : M (pystr * pystr) :=
  n <- _rand_exp MEAN_STRING_LEN 0 MAX_STRING_LEN ;;
  chars <- for_range n (fun _ chars =>
    c <- _gen_literal_char ;; ret (chars ++ [c])) [] ;;
  let val := concat chars in
  ret (0x27 :: val ++ [0x27], val).

(** The state of the loops that build a multi-line string. *)
Record ml_state : Type := mk_ml_state {
  doc_chars : list pystr;
  val_chars : list pystr;
  allow_quote : bool;
  allow_whitespace : bool
}.

(** [doc_chars.append(d); val_chars.append(v)] *)
Definition ml_append (st : ml_state) (d v : pystr) : ml_state :=
  mk_ml_state (doc_chars st ++ [d]) (val_chars st ++ [v])
              (allow_quote st) (allow_whitespace st).

Definition ml_append_doc (st : ml_state) (d : pystr) : ml_state :=
  mk_ml_state (doc_chars st ++ [d]) (val_chars st)
              (allow_quote st) (allow_whitespace st).

Definition ml_flags (st : ml_state) (q w : bool) : ml_state :=
  mk_ml_state (doc_chars st) (val_chars st) q w.

Definition nonempty {A} (l : list A) : bool :=
  match l with [] => false | _ :: _ => true end.

(** The inner [while True] of [_gen_ml_basic_string]: draw basic characters
    until one is acceptable. *)
Fixpoint ml_basic_char (fuel : nat) (allow_ws : bool) : M (pystr * pystr) :=
  match fuel with
  | O => diverge
  | S fuel' =>
      '(doc_char, val_char) <- _gen_basic_char ;;
      if allow_ws || negb (str_in doc_char [0x09; 0x20])
      then ret (doc_char, val_char)
      else ml_basic_char fuel' allow_ws
  end.

(** One iteration of the [for] loop of [_gen_ml_basic_string]. *)
Definition ml_basic_iteration (fuel : nat) (st : ml_state) : M ml_state :=
  r <- rng_random ;;
  if allow_quote st && Qltb r PROB_ML_QUOTE then
    let st := ml_append st [0x22] [0x22] in
    let st := if Qltb r (half * PROB_ML_QUOTE)
              then ml_append st [0x22] [0x22] else st in
    ret (ml_flags st false true)
  else
    let st := ml_flags st true (allow_whitespace st) in
    r <- rng_random ;;
    if Qltb r PROB_ML_NEWLINE && nonempty (val_chars st) && allow_whitespace st
    then
      eol <- _gen_newline ;;
      ret (ml_append st eol [0x0a])
    else if Qltb r (dbl (PROB_ML_NEWLINE + PROB_ML_ESCAPED_NEWLINE)) then
      ws <- _gen_ws ;;
      eol <- _gen_newline ;;
      let st := ml_append_doc st (0x5c :: ws ++ eol) in
      k <- rng_randint 0 2 ;;
      st <- for_range k (fun _ st =>
        ws <- _gen_ws ;;
        eol <- _gen_newline ;;
        ret (ml_append_doc st (ws ++ eol))) st ;;
      ws <- _gen_ws ;;
      let st := ml_append_doc st ws in
      ret (ml_flags st (allow_quote st) false)
    else
      '(doc_char, val_char) <- ml_basic_char fuel (allow_whitespace st) ;;
      let st := ml_append st doc_char val_char in
      ret (ml_flags st (allow_quote st) true).

(** The optional newline right after the opening delimiter. *)
Definition ml_leading_newline : M (list pystr) :=
  b <- rng_randint 0 1 ;;
  if 0 <? b then (eol <- _gen_newline ;; ret [eol]) else ret [].

Definition _gen_ml_basic_string (fuel : nat) : M (pystr * pystr) :=
  n <- _rand_exp MEAN_MLSTRING_LEN 0 MAX_MLSTRING_LEN ;;
  lead <- ml_leading_newline ;;
  st <- for_range n (fun _ st => ml_basic_iteration fuel st)
          (mk_ml_state lead [] true true) ;;
  ret ([0x22; 0x22; 0x22] ++ concat (doc_chars st) ++ [0x22; 0x22; 0x22],
       concat (val_chars st)).

(** One iteration of the [for] loop of [_gen_ml_literal_string]; the flag
    [allow_whitespace] is not used by this loop. *)
Definition ml_literal_iteration (st : ml_state) : M ml_state :=
  r <- rng_random ;;
  if allow_quote st && Qltb r PROB_ML_QUOTE then
    let st := ml_append st [0x27] [0x27] in
    let st := if Qltb r (half * PROB_ML_QUOTE)
              then ml_append st [0x27] [0x27] else st in
    ret (ml_flags st false (allow_whitespace st))
  else
    let st := ml_flags st true (allow_whitespace st) in
    r <- rng_random ;;
    if Qltb r PROB_ML_NEWLINE && nonempty (val_chars st) then
      eol <- _gen_newline ;;
      ret (ml_append st eol [0x0a])
    else
      c <- _gen_literal_char ;;
      ret (ml_append st c c).

Definition _gen_ml_literal_string : M (pystr * pystr) :=
  n <- _rand_exp MEAN_MLSTRING_LEN 0 MAX_MLSTRING_LEN ;;
  lead <- ml_leading_newline ;;
  st <- for_range n (fun _ st => ml_literal_iteration st)
          (mk_ml_state lead [] true true) ;;
  ret ([0x27; 0x27; 0x27] ++ concat (doc_chars st) ++ [0x27; 0x27; 0x27],
       concat (val_chars st)).

(** [_gen_string]: one of the four string forms. *)
Definition _gen_string (fuel : nat) : M (pystr * pystr) :=
  func <- rng_choice [ _gen_ml_basic_string fuel; _gen_basic_string;
                       _gen_ml_literal_string; _gen_literal_string ] ;;
  func.

(** ** Keys *)

Definition between (lo c hi : Z) : bool := (lo <=? c) && (c <=? hi).

(** The character classes tested by [_format_simple_key]. *)
Definition is_bare_char (c : Z) : bool :=
  char_in c (py "-_") || between 0x30 c 0x39
  || between 97 c 122 || between 65 c 90.

Definition is_literal_char (c : Z) : bool :=
  (c =? 0x09) || (between 0x20 c 0x7e && negb (c =? 0x27))
  || between 0x80 c 0xd7ff || between 0xe000 c 0x10ffff.

Definition is_basic_unescaped (c : Z) : bool :=
  (c =? 0x09)
  || (between 0x20 c 0x7e && negb (c =? 0x22) && negb (c =? 0x5c))
  || between 0x80 c 0xd7ff || between 0xe000 c 0x10ffff.

Definition _gen_unquoted_key : M (pystr * pystr) :=
  n <- _rand_exp MEAN_KEY_LEN 1 MAX_KEY_LEN ;;
  key_chars <- for_range n (fun _ key_chars =>
    r <- rng_random ;;
    c <- (if Qltb r half then rng_choice (py "0123456789-_")
          else rng_choice (py "abcdefghijklmnopqrstuvwxyz"
                           ++ py "ABCDEFGHIJKLMNOPQRSTUVWXYZ")) ;;
    ret (key_chars ++ [c])) [] ;;
  ret (key_chars, key_chars).

Definition _gen_simple_key : M (pystr * pystr) :=
  r <- rng_random ;;
  if Qltb r PROB_QUOTED_KEY then
    if Qltb r (half * PROB_QUOTED_KEY) then _gen_basic_string
    else _gen_literal_string
  else _gen_unquoted_key.

(** [a or rng.random() < p]: the draw is made only when [a] is false. *)
Definition or_random_below (a : bool) (p : Q) : M bool :=
  if a then ret true else (r <- rng_random ;; ret (Qltb r p)).

(** The rendering of one character inside the basic-string form of
    [_format_simple_key]. *)
Definition format_basic_key_char (c : Z) : M pystr :=
  let need_escape := negb (is_basic_unescaped c) in
  r <- rng_random ;;
  if need_escape || Qltb r PROB_ESCAPE_CHAR then
    r <- rng_random ;;
    match escape_get c ESCAPE_CHARS with
    | Some e => if Qltb r half then ret (0x5c :: e) else unicode_escape c r
    | None => unicode_escape c r
    end
  else ret (chr c).

Definition _format_simple_key (key : pystr) : M pystr :=
  let need_quote :=
    (len key =? 0) || existsb (fun c => negb (is_bare_char c)) key in
  let need_basic := existsb (fun c => negb (is_literal_char c)) key in
  quote <- or_random_below need_quote PROB_QUOTED_KEY ;;
  if quote then
    basic <- or_random_below need_basic half ;;
    if basic then
      key_chars <- for_each key (fun c key_chars =>
        s <- format_basic_key_char c ;; ret (key_chars ++ [s])) [] ;;
      ret (0x22 :: concat key_chars ++ [0x22])
    else ret (0x27 :: key ++ [0x27])
  else ret key.

(** [self._gen_ws() + "." + self._gen_ws()] *)
Definition dot_sep : M pystr :=
  ws1 <- _gen_ws ;; ws2 <- _gen_ws ;; ret (ws1 ++ 0x2e :: ws2).

(** [if key_str: key_str.append(dot-sep)] *)
Definition append_dot_sep (key_str : list pystr) : M (list pystr) :=
  if nonempty key_str then (d <- dot_sep ;; ret (key_str ++ [d]))
  else ret key_str.

Definition _format_key (key : KeyType) : M pystr :=
  key_str <- for_each key (fun k key_str =>
    key_str <- append_dot_sep key_str ;;
    s <- _format_simple_key k ;;
    ret (key_str ++ [s])) [] ;;
  ret (concat key_str).

Definition _gen_dotted_key (prefix : KeyType) : M (pystr * KeyType) :=
  '(key_str, key) <- for_each prefix (fun k acc =>
    key_str <- append_dot_sep (fst acc) ;;
    s <- _format_simple_key k ;;
    ret (key_str ++ [s], snd acc ++ [k])) ([], []) ;;
  n <- rng_randint 1 MAX_DOTTED_LEN ;;
  '(key_str, key) <- for_range n (fun _ acc =>
    key_str <- append_dot_sep (fst acc) ;;
    '(s, k) <- _gen_simple_key ;;
    ret (key_str ++ [s], snd acc ++ [k])) (key_str, key) ;;
  ret (concat key_str, key).

(** [key[:i] in exclude_prefix] for some [i] in [range(1, len(key))]. *)
Definition has_excluded_prefix (key : KeyType) (exclude_prefix : list KeyType)
  : bool :=
  existsb (fun i => key_in (firstn i key) exclude_prefix)
          (seq 1 (length key - 1)).

(** The rejection loop of [_gen_key]. *)
Fixpoint gen_key_search (fuel : nat) (prefix : KeyType)
  (exclude_prefix exclude_key : list KeyType) : M (pystr * KeyType) :=
  match fuel with
  | O => diverge
  | S fuel' =>
      '(key_str, key) <- _gen_dotted_key prefix ;;
      if key_in key exclude_key
      then gen_key_search fuel' prefix exclude_prefix exclude_key
      else if has_excluded_prefix key exclude_prefix
      then gen_key_search fuel' prefix exclude_prefix exclude_key
      else ret (key_str, key)
  end.

(** [(reuse_prefix or reuse_key) and rng.random() < PROB_EXISTING_KEY] *)
Definition consider_reuse (reuse_prefix reuse_key : list KeyType) : M bool :=
  if nonempty reuse_prefix || nonempty reuse_key
  then (r <- rng_random ;; ret (Qltb r PROB_EXISTING_KEY))
  else ret false.

Definition _gen_key (fuel : nat)
  (exclude_prefix exclude_key reuse_prefix reuse_key : list KeyType)
  : M (pystr * KeyType) :=
  reuse <- consider_reuse reuse_prefix reuse_key ;;
  if reuse then
    let n := len reuse_prefix + len reuse_key in
    r <- rng_randint 0 (n - 1) ;;
    if r <? len reuse_key then
      let key := nth (Z.to_nat r) reuse_key [] in
      key_str <- _format_key key ;;
      ret (key_str, key)
    else
      let prefix := nth (Z.to_nat (r - len reuse_key)) reuse_prefix [] in
      gen_key_search fuel prefix exclude_prefix exclude_key
  else
    gen_key_search fuel [] exclude_prefix exclude_key.

(** ** Numbers *)

(** ["sep".join(parts)] *)
Fixpoint str_join (sep : pystr) (parts : list pystr) : pystr :=
  match parts with
  | [] => []
  | [x] => x
  | x :: parts' => x ++ sep ++ str_join sep parts'
  end.

(** [s[p:i]] *)
Definition slice (s : pystr) (p i : Z) : pystr :=
  firstn (Z.to_nat (i - p)) (skipn (Z.to_nat p) s).

Definition _splice_number (s : pystr) : M pystr :=
  '(parts, p) <- for_range_from 1 (length s - 1) (fun i acc =>
    r <- rng_random ;;
    if Qltb r (dbl (1 # 10)) then ret (fst acc ++ [slice s (snd acc) i], i)
    else ret acc) ([], 0) ;;
  ret (str_join (py "_") (parts ++ [skipn (Z.to_nat p) s])).

(** The rows of [formats] in [_gen_integer]:
    (prefix, fmtfunc, add_zeros, sign). *)
Definition integer_formats : list (pystr * (Z -> M pystr) * bool * Z) :=
  [ ([], fun v => ret (str_int v), false, 1);
    (py "+", fun v => ret (str_int v), false, 1);
    (py "-", fun v => ret (str_int v), false, -1);
    (py "0x", fun v => _rand_format_hex v 1, true, 1);
    (py "0o", fun v => ret (format_base 8 v), true, 1);
    (py "0b", fun v => ret (format_base 2 v), true, 1) ].

(** [_gen_integer] from the magnitude [val] on. *)
Definition gen_integer_from (val : Z) : M (pystr * Z) :=
  '(prefix, fmtfunc, add_zeros, sign) <- rng_choice integer_formats ;;
  s <- fmtfunc val ;;
  s <- (if add_zeros : bool
        then (n <- rng_randint 0 3 ;; ret (str_repeat n (py "0") ++ s))
        else ret s) ;;
  s <- _splice_number s ;;
  ret (prefix ++ s, sign * val).

(** [_gen_integer].  The source computes the magnitude
    [round(math.exp(r**2 * math.log(MAX_INT_VALUE + 1)) - 1)] from one
    uniform draw in IEEE doubles, through the [pow], [log] and [exp] of the
    C library, whose roundings the source does not fix.  As in [_rand_exp],
    the rounded result is taken from the tape in place of the draw.  All
    that is kept of the computation is that its result is not negative:
    the exponent is a product of two doubles that are not negative, and
    the one thing assumed of [exp] is that it returns at least 1 on such a
    number.  No upper bound is kept. *)
Definition _gen_integer : M (pystr * Z) :=
  fun rng => let (v, rng') := next_raw rng in
             gen_integer_from (Z.max 0 v) rng'.

Definition _gen_dec_int (max_val : Z) (signed zero_prefixable : bool)
  : M (pystr * Z) :=
  v <- rng_randint 0 max_val ;;
  sign_str <- (if signed then rng_choice [ []; py "+"; py "-" ] else ret []) ;;
  prefix <- (if zero_prefixable
             then (n <- rng_randint 0 3 ;; ret (str_repeat n (py "0")))
             else ret []) ;;
  s <- _splice_number (prefix ++ str_int v) ;;
  ret (sign_str ++ s, if pystr_eqb sign_str (py "-") then - v else v).

(** [s.replace] of every underscore by the empty string. *)
Definition strip_underscores (s : pystr) : pystr :=
  filter (fun c => negb (c =? 0x5f)) s.

Definition _gen_float : M (pystr * value) :=
  r <- rng_random ;;
  if Qltb r PROB_SPECIAL_FLOAT then
    prefix <- rng_choice [ []; py "+"; py "-" ] ;;
    sym <- rng_choice [ py "inf"; py "nan" ] ;;
    let s := prefix ++ sym in
    ret (s, VFloat s)
  else
    '(int_str, int_val) <- _gen_dec_int 999999 true false ;;
    r <- rng_randint 0 2 ;;
    exp_str <- (if (r =? 0) || (r =? 2) then
                  '(exp_str, exp_val) <- _gen_dec_int 100 true true ;;
                  e <- rng_choice (py "eE") ;;
                  ret (e :: exp_str)
                else ret []) ;;
    frac_str <- (if (r =? 1) || (r =? 2) then
                   '(frac_str, frac_val) <- _gen_dec_int 99999 false true ;;
                   ret (0x2e :: frac_str)
                 else ret []) ;;
    let s := int_str ++ frac_str ++ exp_str in
    ret (s, VFloat (strip_underscores s)).

Definition _gen_boolean : M (pystr * value) :=
  rng_choice [ (py "true", VBool true); (py "false", VBool false) ].

(** ** Dates and times *)

(** [datetime.date.isoformat()] *)
Definition date_isoformat (year month day : Z) : pystr :=
  zero_pad 4 year ++ py "-" ++ zero_pad 2 month ++ py "-" ++ zero_pad 2 day.

(** [datetime.time.isoformat()] of a time without timezone. *)
Definition time_isoformat (hour minute second usec : Z) : pystr :=
  zero_pad 2 hour ++ py ":" ++ zero_pad 2 minute ++ py ":" ++ zero_pad 2 second
  ++ (if usec =? 0 then [] else py "." ++ zero_pad 6 usec).

Definition _gen_local_date : M (pystr * (Z * Z * Z)) :=
  year <- rng_randint 1000 9999 ;;
  month <- rng_randint 1 12 ;;
  let maxday :=
    if month =? 2 then
      if (year mod 400 =? 0)
         || ((year mod 4 =? 0) && negb (year mod 100 =? 0))
      then 29 else 28
    else if existsb (Z.eqb month) [4; 6; 9; 11] then 30
    else 31 in
  day <- rng_randint 1 maxday ;;
  ret (date_isoformat year month day, (year, month, day)).

Definition _gen_local_time : M (pystr * (Z * Z * Z * Z)) :=
  hour <- rng_randint 0 23 ;;
  minute <- rng_randint 0 59 ;;
  second <- rng_randint 0 59 ;;
  b <- rng_random ;;
  '(usec, usec_suffix) <-
    (if Qltb b half then
       r <- rng_randint 1 6 ;;
       ret (0, py "." ++ str_repeat r (py "0"))
     else
       r <- rng_randint 0 6 ;;
       usec <- rng_randint 0 999999 ;;
       ret (usec - usec mod 10 ^ r, [])) ;;
  ret (time_isoformat hour minute second usec ++ usec_suffix,
       (hour, minute, second, usec)).

(** [_gen_timezone]: the text and the offset in minutes
    ([datetime.timezone.utc] is the offset 0). *)
Definition _gen_timezone : M (pystr * Z) :=
  r <- rng_random ;;
  if Qltb r (dbl (2 # 10)) then ret (py "Z", 0)
  else
    delta <- rng_randint (1 - 24 * 60) (24 * 60 - 1) ;;
    let s := (if delta <? 0 then py "-" else py "+")
             ++ zero_pad 2 (Z.abs delta / 60) ++ py ":"
             ++ zero_pad 2 (Z.abs delta mod 60) in
    ret (s, delta).

Definition _gen_offset_date_time : M (pystr * value) :=
  '(date_str, (year, month, day)) <- _gen_local_date ;;
  '(time_str, (hour, minute, second, usec)) <- _gen_local_time ;;
  '(tz_str, tz) <- _gen_timezone ;;
  delim <- rng_choice (py "Tt ") ;;
  ret (date_str ++ delim :: time_str ++ tz_str,
       VDateTime year month day hour minute second usec (Some tz)).

Definition _gen_local_date_time : M (pystr * value) :=
  '(date_str, (year, month, day)) <- _gen_local_date ;;
  '(time_str, (hour, minute, second, usec)) <- _gen_local_time ;;
  delim <- rng_choice (py "Tt ") ;;
  ret (date_str ++ delim :: time_str,
       VDateTime year month day hour minute second usec None).

Definition _gen_date_time : M (pystr * value) :=
  func <- rng_choice
    [ _gen_offset_date_time;
      _gen_local_date_time;
      ('(s, (year, month, day)) <- _gen_local_date ;;
       ret (s, VDate year month day));
      ('(s, (hour, minute, second, usec)) <- _gen_local_time ;;
       ret (s, VTime hour minute second usec)) ] ;;
  func.

(** ** Arrays, inline tables and values *)

Definition _gen_ws_comment_newline : M pystr :=
  n <- _rand_exp 2 0 5 ;;
  parts <- for_range n (fun _ parts =>
    r <- rng_randint 0 5 ;;
    parts <- (if r <? 4 then (ws <- _gen_ws ;; ret (parts ++ [ws]))
              else ret parts) ;;
    parts <- (if (r =? 2) || (r =? 4)
              then (c <- _gen_comment ;; ret (parts ++ [c]))
              else ret parts) ;;
    if 2 <=? r then (eol <- _gen_newline ;; ret (parts ++ [eol]))
    else ret parts) [] ;;
  ret (concat parts).

(** The nested insertion at the end of an iteration of
    [_gen_inline_table]: [subtbl[p] = {}] along [key[:-1]], then
    [subtbl[key[-1]] = v]. *)
Fixpoint inline_insert (tbl : list (pystr * value)) (key : KeyType)
  (v : value) : result (list (pystr * value)) :=
  match key with
  | [] => Raised
  | p :: key' =>
      match key' with
      | [] => Ok (dict_set p v tbl)
      | _ :: _ =>
          let tbl1 := if negb (dict_has p tbl) then dict_set p (VDict []) tbl
                      else tbl in
          match dict_get p tbl1 with
          | Some (VDict sub) =>
              sub' <-r inline_insert sub key' v ;;
              Ok (dict_set p (VDict sub') tbl1)
          | _ => Raised
          end
      end
  end.

(** [for i in range(1, len(key)): if key[:i] not in item_prefixes:
    item_prefixes.append(key[:i])] *)
Definition add_prefixes (key : KeyType) (item_prefixes : list KeyType)
  : list KeyType :=
  fold_left (fun acc i =>
               if negb (key_in (firstn i key) acc) then acc ++ [firstn i key]
               else acc)
            (seq 1 (length key - 1)) item_prefixes.

(** The loop state of [_gen_inline_table]. *)
Record inline_state : Type := mk_inline_state {
  il_parts : list pystr;
  il_tbl : list (pystr * value);
  il_item_keys : list KeyType;
  il_item_prefixes : list KeyType
}.

Section Values.
(** The recursive call [self._gen_val()]. *)
Variable gen_val : M (pystr * value).
Variable fuel : nat.

Definition gen_array_with : M (pystr * value) :=
  n <- _rand_exp MEAN_ARRAY_ELEMS 0 MAX_ARRAY_ELEMS ;;
  '(parts, val) <- for_range n (fun i acc =>
    parts <- (if 0 <? i then
                w <- _gen_ws_comment_newline ;;
                ret (fst acc ++ [w; py ","])
              else ret (fst acc)) ;;
    w <- _gen_ws_comment_newline ;;
    '(s, v) <- gen_val ;;
    ret (parts ++ [w; s], snd acc ++ [v])) ([], []) ;;
  parts <- (trailing <- (if 0 <? n then (r <- rng_random ;; ret (Qltb r half))
                         else ret false) ;;
            if trailing : bool then
              w <- _gen_ws_comment_newline ;;
              ret (parts ++ [w; py ","])
            else ret parts) ;;
  w <- _gen_ws_comment_newline ;;
  ret (py "[" ++ concat (parts ++ [w]) ++ py "]", VList val).

Definition gen_inline_table_with : M (pystr * value) :=
  n <- _rand_exp MEAN_ARRAY_ELEMS 0 MAX_ARRAY_ELEMS ;;
  st <- for_range n (fun i st =>
    '(key_str, key) <- _gen_key fuel
                         (il_item_keys st)
                         (il_item_keys st ++ il_item_prefixes st)
                         (il_item_prefixes st)
                         [] ;;
    '(val_str, v) <- gen_val ;;
    parts <- (if 0 <? i then (ws <- _gen_ws ;; ret (il_parts st ++ [ws; py ","]))
              else ret (il_parts st)) ;;
    ws1 <- _gen_ws ;;
    ws2 <- _gen_ws ;;
    ws3 <- _gen_ws ;;
    let parts := parts ++ [ws1; key_str; ws2; py "="; ws3; val_str] in
    tbl <- lift (inline_insert (il_tbl st) key v) ;;
    ret (mk_inline_state parts tbl
           (il_item_keys st ++ [key])
           (add_prefixes key (il_item_prefixes st))))
    (mk_inline_state [] [] [] []) ;;
  ws <- _gen_ws ;;
  ret (py "{" ++ concat (il_parts st ++ [ws]) ++ py "}", VDict (il_tbl st)).
End Values.

Fixpoint _gen_val (fuel : nat) : M (pystr * value) :=
  match fuel with
  | O => diverge
  | S fuel' =>
      func <- rng_choice
        [ ('(s, v) <- _gen_string fuel' ;; ret (s, VStr v));
          _gen_boolean;
          ('(s, v) <- _gen_integer ;; ret (s, VInt v));
          _gen_float;
          gen_array_with (_gen_val fuel');
          gen_inline_table_with (_gen_val fuel') fuel';
          _gen_date_time ] ;;
      func
  end.

Definition _gen_array (fuel : nat) : M (pystr * value) :=
  gen_array_with (_gen_val fuel).

Definition _gen_inline_table (fuel : nat) : M (pystr * value) :=
  gen_inline_table_with (_gen_val fuel) fuel.

(** ** Key/value pairs, table headers and the document *)

Definition _gen_keyval (fuel : nat) (ctx : Context) : M (pystr * Context) :=
  item_keys <- lift (get_active_item_keys ctx) ;;
  item_prefixes <- lift (get_active_item_prefixes ctx) ;;
  table_keys <- lift (get_active_subtable_keys ctx) ;;
  '(key_str, key) <- _gen_key fuel
                       (item_keys ++ table_keys)
                       (item_keys ++ item_prefixes ++ table_keys)
                       item_prefixes
                       [] ;;
  '(val_str, val) <- _gen_val fuel ;;
  ws1 <- _gen_ws ;;
  ws2 <- _gen_ws ;;
  ctx' <- lift (assign ctx key val) ;;
  ret (key_str ++ ws1 ++ py "=" ++ ws2 ++ val_str, ctx').

Definition _gen_table (fuel : nat) (ctx : Context) : M (pystr * Context) :=
  b <- rng_randint 0 1 ;;
  if 0 <? b then
    item_keys <- lift (get_item_keys ctx) ;;
    table_keys <- lift (get_table_keys ctx None (Some false)) ;;
    array_keys <- lift (get_table_keys ctx None (Some true)) ;;
    '(key_str, key) <- _gen_key fuel
                         item_keys
                         (item_keys ++ table_keys)
                         (table_keys ++ array_keys)
                         array_keys ;;
    ctx' <- lift (open_table_array ctx key) ;;
    ws1 <- _gen_ws ;;
    ws2 <- _gen_ws ;;
    ret (py "[[" ++ ws1 ++ key_str ++ ws2 ++ py "]]", ctx')
  else
    item_keys <- lift (get_item_keys ctx) ;;
    implicit_table_keys <- lift (get_table_keys ctx (Some false) (Some false)) ;;
    defined_table_keys <- lift (get_table_keys ctx (Some true) (Some false)) ;;
    array_keys <- lift (get_table_keys ctx None (Some true)) ;;
    '(key_str, key) <- _gen_key fuel
                         item_keys
                         (item_keys ++ defined_table_keys ++ array_keys)
                         (implicit_table_keys ++ defined_table_keys)
                         implicit_table_keys ;;
    ctx' <- lift (open_table ctx key) ;;
    ws1 <- _gen_ws ;;
    ws2 <- _gen_ws ;;
    ret (py "[" ++ ws1 ++ key_str ++ ws2 ++ py "]", ctx').

Definition _gen_expression (fuel : nat) (ctx : Context)
  : M (pystr * Context) :=
  doc <- _gen_ws ;;
  r <- rng_random ;;
  '(doc, ctx) <-
    (if Qltb r PROB_EXPR_KEYVAL then
       '(s, ctx') <- _gen_keyval fuel ctx ;;
       ws <- _gen_ws ;;
       ret (doc ++ s ++ ws, ctx')
     else if Qltb r (dbl (PROB_EXPR_KEYVAL + PROB_EXPR_TABLE)) then
       '(s, ctx') <- _gen_table fuel ctx ;;
       ws <- _gen_ws ;;
       ret (doc ++ s ++ ws, ctx')
     else ret (doc, ctx)) ;;
  c <- rng_random ;;
  if Qltb c PROB_COMMENT then (s <- _gen_comment ;; ret (doc ++ s, ctx))
  else ret (doc, ctx).

(** [gen_toml]: the document and the data of the context it was built in. *)
Definition gen_toml (fuel : nat) : M (pystr * list (pystr * value)) :=
  let ctx := new_Context in
  num_expressions <- rng_randint 1 MAX_EXPRESSIONS ;;
  '(doc, ctx) <- for_range num_expressions (fun i acc =>
    doc <- (if 0 <? i then (eol <- _gen_newline ;; ret (fst acc ++ [eol]))
            else ret (fst acc)) ;;
    '(expr, ctx') <- _gen_expression fuel (snd acc) ;;
    ret (doc ++ [expr], ctx')) ([], ctx) ;;
  ret (concat doc, get_data ctx).

(** * Specification-side definitions *)

(** ** Postconditions of generator calls *)

(** [m] always returns, and what it returns satisfies [Q]. *)
Definition returns {A} (m : M A) (Q : A -> Prop) : Prop :=
  forall rng, exists a rng', m rng = Ok (a, rng') /\ Q a.

(** [m] never fails an assertion and never raises; what it returns, if it
    returns within its fuel, satisfies [Q]. *)
Definition yields {A} (m : M A) (Q : A -> Prop) : Prop :=
  forall rng,
    match m rng with
    | Ok (a, _) => Q a
    | Diverged => True
    | AssertionError | Raised => False
    end.

(** Every result of [m1] is a result of [m2]. *)
Definition refines {A} (m1 m2 : M A) : Prop :=
  forall rng x, m1 rng = Ok x -> m2 rng = Ok x.

(** The first uniform draw on a tape. *)
Definition first_uniform (rng : Rng) : Q :=
  Qmake (fst (next_raw rng) mod 2 ^ 53) (2 ^ 53)%positive.

(** ** Reading a numeric time offset *)

Definition digit_val (c : Z) : option Z :=
  if between 48 c 57 then Some (c - 48) else None.

(** The signed total of minutes that a text [+HH:MM] or [-HH:MM] denotes. *)
Definition read_offset (s : pystr) : option Z :=
  match s with
  | [sg; h1; h2; colon; m1; m2] =>
      match digit_val h1, digit_val h2, digit_val m1, digit_val m2 with
      | Some a, Some b, Some c, Some d =>
          let total := (10 * a + b) * 60 + (10 * c + d) in
          if negb (colon =? 0x3a) then None
          else if sg =? 0x2b then Some total
          else if sg =? 0x2d then Some (- total)
          else None
      | _, _, _, _ => None
      end
  | _ => None
  end.

(** The integers [lo, lo + 1, ..., lo + n - 1]. *)
Definition zrange (lo : Z) (n : nat) : list Z :=
  map (fun i => lo + Z.of_nat i) (seq 0 n).

(** ** Hexadecimal digits *)

Definition hex_digit_val (c : Z) : option Z :=
  if between 48 c 57 then Some (c - 48)
  else if between 97 c 102 then Some (c - 97 + 10)
  else if between 65 c 70 then Some (c - 65 + 10)
  else None.

Definition is_hex_digit (c : Z) : bool :=
  match hex_digit_val c with Some _ => true | None => false end.

(** The number a string of hexadecimal digits denotes. *)
Definition hex_value (s : pystr) : Z :=
  fold_left (fun acc c => 16 * acc + match hex_digit_val c with
                                     | Some d => d
                                     | None => 0
                                     end) s 0.

(** The iterations [hex_loop] still needs for the digits of [val]. *)
Definition hex_measure (val : Z) : nat :=
  if 0 <? val then S (Z.to_nat (Z.log2 val)) else O.

(** ** Character sets *)

(** The code points of the charset bound as the specification states it. *)
Definition is_spec_char (c : Z) : bool :=
  (c =? 0x09) || between 0x20 c 0xd7ff || between 0xe000 c 0x10ffff.

(** The code points a generated document consists of: those of the stated
    bound, and the two characters of a newline. *)
Definition is_doc_char (c : Z) : bool :=
  (c =? 0x0a) || (c =? 0x0d) || is_spec_char c.

Definition doc_ok (s : pystr) : Prop := forallb is_doc_char s = true.

(** Unicode scalar values: what a character of a TOML string can be. *)
Definition is_scalar (c : Z) : bool :=
  between 0 c 0xd7ff || between 0xe000 c 0x10ffff.

(** ** The units of a basic string *)

(** The letters that may follow the backslash of an escape. *)
Definition escape_letters : pystr := py "btnfr" ++ [0x22; 0x5c] ++ py "uU".

(** What [_gen_basic_char] writes into the document for one character: the
    character itself when it needs no escape, or a backslash, an escape
    letter and the hexadecimal digits of a [\u] / [\U] escape (none for the
    short escapes). *)
Definition basic_char_unit (d : pystr) : Prop :=
  (exists c, d = [c] /\ is_basic_unescaped c = true)
  \/ (exists x rest, d = 0x5c :: x :: rest
                     /\ In x escape_letters
                     /\ forallb is_hex_digit rest = true).

(** A [\uXXXX] or [\UXXXXXXXX] escape of the code point [c]. *)
Definition unicode_escape_of (c : Z) (e : pystr) : Prop :=
  exists rest,
    forallb is_hex_digit rest = true
    /\ hex_value rest = c
    /\ ((e = py "\u" ++ rest /\ len rest = 4 /\ c < 0x10000)
        \/ (e = py "\U" ++ rest /\ len rest = 8)).

(** ** Runs of quotes in a multi-line string body *)

(** [q q q] occurs in [s]. *)
Fixpoint has_triple (q : Z) (s : pystr) : bool :=
  match s with
  | a :: s' =>
      match s' with
      | b :: c :: _ => ((a =? q) && (b =? q) && (c =? q)) || has_triple q s'
      | _ => false
      end
  | [] => false
  end.

(** Reading the body of a multi-line basic string: either [k] unescaped
    quotes have just been read, or a backslash, which takes the next
    character with it. *)
Inductive scan_state : Type :=
| Run (k : nat)
| Esc.

(** Reading one more character; [None] at a third unescaped quote in a
    row. *)
Definition scan_char (st : scan_state) (c : Z) : option scan_state :=
  match st with
  | Esc => Some (Run 0)
  | Run k =>
      if c =? 0x5c then Some Esc
      else if c =? 0x22 then
        if (k <? 2)%nat then Some (Run (S k)) else None
      else Some (Run 0)
  end.

Fixpoint scan_quotes (st : scan_state) (s : pystr) : option scan_state :=
  match s with
  | [] => Some st
  | c :: s' =>
      match scan_char st c with
      | Some st' => scan_quotes st' s'
      | None => None
      end
  end.

(** The body never shows three unescaped quotes in a row, and does not end
    inside an escape. *)
Definition unescaped_quotes_ok (body : pystr) : Prop :=
  exists k, scan_quotes (Run 0) body = Some (Run k).

(** The length of the run of [q] that [s] ends with, when that run started
    with [k] of them before [s]; [None] once a run reaches three. *)
Fixpoint quote_run (q : Z) (k : nat) (s : pystr) : option nat :=
  match s with
  | [] => Some k
  | c :: s' =>
      if c =? q then
        if (k <? 2)%nat then quote_run q (S k) s' else None
      else quote_run q 0 s'
  end.

(** ** One iteration of the multi-line string loops *)

Definition is_ws_nl_char (c : Z) : bool :=
  (c =? 0x09) || (c =? 0x20) || (c =? 0x0a) || (c =? 0x0d).

Definition is_newline (eol : pystr) : Prop :=
  eol = [0x0a] \/ eol = [0x0d; 0x0a].

(** The four things an iteration of [_gen_ml_basic_string] can do. *)
Inductive ml_basic_step (st st' : ml_state) : Prop :=
| basic_step_quote units :
    allow_quote st = true ->
    units = [[0x22]] \/ units = [[0x22]; [0x22]] ->
    doc_chars st' = doc_chars st ++ units ->
    val_chars st' = val_chars st ++ units ->
    allow_quote st' = false -> allow_whitespace st' = true ->
    ml_basic_step st st'
| basic_step_newline eol :
    val_chars st <> [] -> allow_whitespace st = true ->
    is_newline eol ->
    doc_chars st' = doc_chars st ++ [eol] ->
    val_chars st' = val_chars st ++ [[0x0a]] ->
    allow_quote st' = true -> allow_whitespace st' = true ->
    ml_basic_step st st'
| basic_step_continuation units w :
    doc_chars st' = doc_chars st ++ units ->
    concat units = 0x5c :: w ->
    w <> [] -> forallb is_ws_nl_char w = true ->
    val_chars st' = val_chars st ->
    allow_quote st' = true -> allow_whitespace st' = false ->
    ml_basic_step st st'
| basic_step_char d c :
    basic_char_unit d ->
    (allow_whitespace st = false -> str_in d [0x09; 0x20] = false) ->
    is_scalar c = true ->
    doc_chars st' = doc_chars st ++ [d] ->
    val_chars st' = val_chars st ++ [[c]] ->
    allow_quote st' = true -> allow_whitespace st' = true ->
    ml_basic_step st st'.

(** The three things an iteration of [_gen_ml_literal_string] can do. *)
Inductive ml_literal_step (st st' : ml_state) : Prop :=
| literal_step_quote units :
    allow_quote st = true ->
    units = [[0x27]] \/ units = [[0x27]; [0x27]] ->
    doc_chars st' = doc_chars st ++ units ->
    val_chars st' = val_chars st ++ units ->
    allow_quote st' = false ->
    ml_literal_step st st'
| literal_step_newline eol :
    val_chars st <> [] ->
    is_newline eol ->
    doc_chars st' = doc_chars st ++ [eol] ->
    val_chars st' = val_chars st ++ [[0x0a]] ->
    allow_quote st' = true ->
    ml_literal_step st st'
| literal_step_char c :
    is_literal_char c = true ->
    doc_chars st' = doc_chars st ++ [[c]] ->
    val_chars st' = val_chars st ++ [[c]] ->
    allow_quote st' = true ->
    ml_literal_step st st'.

(** [s] does not begin with a line feed or a carriage return. *)
Definition no_leading_newline (s : pystr) : Prop :=
  match s with
  | [] => True
  | c :: _ => c <> 0x0a /\ c <> 0x0d
  end.

(** ** Reading a simple key

    The reading of a bare, literal or basic key according to the TOML
    grammar, against which the renderings of [_format_simple_key] are
    judged. *)

(** The character a short escape letter stands for. *)
Definition short_escape (e : Z) : option Z :=
  if e =? 98 then Some 0x08
  else if e =? 116 then Some 0x09
  else if e =? 110 then Some 0x0a
  else if e =? 102 then Some 0x0c
  else if e =? 114 then Some 0x0d
  else if e =? 0x22 then Some 0x22
  else if e =? 0x5c then Some 0x5c
  else None.

Inductive read_state : Type :=
| RNormal
| REscape
| RHex (remaining : nat) (acc : Z).

(** The string that the body of a basic string denotes; [None] when the
    body is not well formed. *)
Fixpoint decode_basic (st : read_state) (s out : pystr) : option pystr :=
  match s with
  | [] => match st with RNormal => Some out | _ => None end
  | c :: s' =>
      match st with
      | RNormal =>
          if c =? 0x5c then decode_basic REscape s' out
          else if is_basic_unescaped c then decode_basic RNormal s' (out ++ [c])
          else None
      | REscape =>
          if c =? 117 then decode_basic (RHex 4 0) s' out
          else if c =? 85 then decode_basic (RHex 8 0) s' out
          else match short_escape c with
               | Some v => decode_basic RNormal s' (out ++ [v])
               | None => None
               end
      | RHex O _ => None
      | RHex (S n) acc =>
          match hex_digit_val c with
          | Some d =>
              let acc' := 16 * acc + d in
              match n with
              | O => if is_scalar acc'
                     then decode_basic RNormal s' (out ++ [acc'])
                     else None
              | S _ => decode_basic (RHex n acc') s' out
              end
          | None => None
          end
      end
  end.

(** The segment a rendered simple key denotes. *)
Definition read_simple_key (s : pystr) : option pystr :=
  match s with
  | c :: rest =>
      if c =? 0x22 then
        match split_last rest with
        | Some (body, z) =>
            if z =? 0x22 then decode_basic RNormal body [] else None
        | None => None
        end
      else if c =? 0x27 then
        match split_last rest with
        | Some (body, z) =>
            if (z =? 0x27) && forallb is_literal_char body then Some body
            else None
        | None => None
        end
      else if forallb is_bare_char s then Some s else None
  | [] => None
  end.

(** [u] renders the character [c] inside a basic string: [c] itself if it
    needs no escape, or an escape that stands for [c]. *)
Definition renders (c : Z) (u : pystr) : Prop :=
  (u = [c] /\ is_basic_unescaped c = true)
  \/ (exists e, u = [0x5c; e] /\ short_escape e = Some c)
  \/ unicode_escape_of c u.

(** ** What the key sampler returns *)

(** A key returned by [_gen_key]: an element of [reuse_key], or new segments
    (one to [MAX_DOTTED_LEN] of them) after a prefix that is empty or an
    element of [reuse_prefix], in which case the key passed the exclusion
    tests. *)
Definition sampled_key (exclude_prefix exclude_key reuse_prefix reuse_key
                          : list KeyType) (key : KeyType) : Prop :=
  In key reuse_key
  \/ exists prefix fresh,
       key = prefix ++ fresh
       /\ (prefix = [] \/ In prefix reuse_prefix)
       /\ (1 <= length fresh <= 3)%nat
       /\ key_in key exclude_key = false
       /\ has_excluded_prefix key exclude_prefix = false.

(** ** Digit runs *)

(** [s] continues a run of the form digit, then digits each optionally
    preceded by one underscore; [prev_digit] tells whether the character
    before [s] was a digit.  From [false], the whole of [s] is such a run:
    it is not empty, begins and ends with a digit, and no underscore is next
    to another one. *)
Fixpoint digit_run (prev_digit : bool) (s : pystr) : bool :=
  match s with
  | [] => prev_digit
  | c :: s' =>
      if c =? 0x5f then prev_digit && digit_run false s'
      else is_hex_digit c && digit_run true s'
  end.

(** A non-empty string of digits. *)
Definition is_digits (s : pystr) : Prop :=
  s <> [] /\ forallb is_hex_digit s = true.

(** ** Looking into the table tree *)

(** The child that a key names, walking as the context does: through
    tables and through the last element of table arrays. *)
Fixpoint find_node (tbl : InternalTableType) (key : KeyType) : option node :=
  match key with
  | [] => None
  | p :: key' =>
      match key' with
      | [] => dict_get p tbl
      | _ :: _ =>
          match dict_get p tbl with
          | Some (Table _ _ elems) => find_node elems key'
          | Some (TableArray elems) =>
              match split_last elems with
              | Some (_, t) => find_node t key'
              | None => None
              end
          | _ => None
          end
      end
  end.

(** [_make_subtable] followed by a mutation of the dictionary it returns,
    in one walk: the tables missing along [key] are created, then [f] acts
    on the dictionary [key] refers to. *)
Fixpoint insert_at (tbl : InternalTableType) (key : KeyType) (dotted : bool)
  (f : InternalTableType -> result InternalTableType)
  : result InternalTableType :=
  match key with
  | [] => f tbl
  | p :: key' =>
      match dict_get p tbl with
      | None =>
          sub <-r insert_at [] key' dotted f ;;
          Ok (dict_set p (Table dotted dotted sub) tbl)
      | Some (Table d dt elems) =>
          sub <-r insert_at elems key' dotted f ;;
          Ok (dict_set p (Table d dt sub) tbl)
      | Some (TableArray elems) =>
          r <-r last_table elems ;;
          sub <-r insert_at (snd r) key' dotted f ;;
          Ok (dict_set p (TableArray (fst r ++ [sub])) tbl)
      | Some (NValue _) => AssertionError
      end
  end.

(** The mutations that the three operations of the context apply to the
    dictionary of the parent of their key. *)
Definition define_table (p : pystr) (tbl : InternalTableType)
  : result InternalTableType :=
  let tbl1 :=
    if negb (dict_has p tbl) then dict_set p (Table false false []) tbl
    else tbl in
  match dict_get p tbl1 with
  | Some (Table defined dotted elems) =>
      if defined then AssertionError
      else if dotted then AssertionError
      else Ok (dict_set p (Table true dotted elems) tbl1)
  | Some _ => AssertionError
  | None => Raised
  end.

Definition append_table (p : pystr) (tbl : InternalTableType)
  : result InternalTableType :=
  let tbl1 :=
    if negb (dict_has p tbl) then dict_set p (TableArray []) tbl
    else tbl in
  match dict_get p tbl1 with
  | Some (TableArray elems) =>
      Ok (dict_set p (TableArray (elems ++ [[]])) tbl1)
  | Some _ => AssertionError
  | None => Raised
  end.

Definition set_item (p : pystr) (v : value) (tbl : InternalTableType)
  : result InternalTableType :=
  if dict_has p tbl then AssertionError
  else Ok (dict_set p (NValue v) tbl).

(** The dictionary in which a walk along [key] ends: a dictionary of the
    tree, or an empty one where the walk leaves the tree and
    [_make_subtable] creates tables.  A value on the way fails the
    assertion of [_make_subtable]; an empty table array raises. *)
Fixpoint target (tbl : InternalTableType) (key : KeyType)
  : result InternalTableType :=
  match key with
  | [] => Ok tbl
  | p :: key' =>
      match dict_get p tbl with
      | None => Ok []
      | Some (Table _ _ elems) => target elems key'
      | Some (TableArray elems) =>
          r <-r last_table elems ;; target (snd r) key'
      | Some (NValue _) => AssertionError
      end
  end.

(** ** Well-formed trees *)

Fixpoint keys_unique (keys : list pystr) : bool :=
  match keys with
  | [] => true
  | k :: keys' => negb (existsb (pystr_eqb k) keys') && keys_unique keys'
  end.

(** No key occurs twice in a dictionary. *)
Definition dict_ok {V} (d : list (pystr * V)) : bool :=
  keys_unique (map fst d).

(** A table that no dotted key made, or a table array: what
    [get_active_subtable_keys] lists. *)
Definition is_subtable (v : node) : bool :=
  match v with
  | Table _ dotted _ => negb dotted
  | TableArray _ => true
  | NValue _ => false
  end.

(** A value, or a dotted table that holds only values and dotted tables:
    what key/value pairs alone build. *)
Fixpoint is_pure (v : node) : bool :=
  match v with
  | NValue _ => true
  | Table _ dotted elems => dotted && forallb (fun pv => is_pure (snd pv)) elems
  | TableArray _ => false
  end.

(** The shape every tree built by the context has: keys are unique, a table
    array is not empty, and a table that is not yet defined is not dotted
    and holds only sub-tables. *)
Fixpoint node_wf (v : node) : bool :=
  match v with
  | NValue _ => true
  | Table defined dotted elems =>
      dict_ok elems
      && forallb (fun pv => node_wf (snd pv)) elems
      && (defined
          || (negb dotted && forallb (fun pv => is_subtable (snd pv)) elems))
  | TableArray elems =>
      nonempty elems
      && forallb (fun t => dict_ok t && forallb (fun pv => node_wf (snd pv)) t)
                 elems
  end.

Definition table_wf (tbl : InternalTableType) : bool :=
  dict_ok tbl && forallb (fun pv => node_wf (snd pv)) tbl.

Definition all_subtables (tbl : InternalTableType) : bool :=
  forallb (fun pv => is_subtable (snd pv)) tbl.

Definition all_pure (tbl : InternalTableType) : bool :=
  forallb (fun pv => is_pure (snd pv)) tbl.

(** The children of the active table: sub-tables that headers made, and
    what the key/value pairs of the table itself built. *)
Definition active_ok (tbl : InternalTableType) : bool :=
  forallb (fun pv => is_subtable (snd pv) || is_pure (snd pv)) tbl.

(** The walk along [key] ends in a table array or in a table that is
    defined. *)
Fixpoint ends_defined (tbl : InternalTableType) (key : KeyType) : bool :=
  match key with
  | [] => true
  | p :: key' =>
      match dict_get p tbl with
      | Some (Table defined _ elems) =>
          match key' with
          | [] => defined
          | _ :: _ => ends_defined elems key'
          end
      | Some (TableArray elems) =>
          match split_last elems with
          | Some (_, t) => ends_defined t key'
          | None => false
          end
      | _ => false
      end
  end.

(** The invariant of the context during generation. *)
Definition ctx_ok (ctx : Context) : Prop :=
  table_wf (data ctx) = true
  /\ ends_defined (data ctx) (active_table ctx) = true
  /\ exists act, table_at (data ctx) (active_table ctx) = Ok act
                 /\ active_ok act = true.

(** A mutation of a dictionary by a table header: it keeps the tree well
    formed and adds only sub-tables. *)
Definition header_step (f : InternalTableType -> result InternalTableType)
  : Prop :=
  forall t t', table_wf t = true -> f t = Ok t' ->
               table_wf t' = true
               /\ (all_subtables t = true -> all_subtables t' = true).

(** An ancestor after a table header, against what was there before: a
    table created by the header is neither defined nor dotted, and what
    existed keeps its kind and flags. *)
Definition ancestor_kept (before : option node) (after : node) : Prop :=
  match before, after with
  | None, Table defined dotted _ => defined = false /\ dotted = false
  | Some (Table d dt _), Table defined dotted _ => defined = d /\ dotted = dt
  | Some (TableArray _), TableArray _ => True
  | _, _ => False
  end.

(** ** The dictionary of an inline table under construction *)

(** The entry [v] under [path] is an assigned item, or a dictionary made
    for a dotted key whose entries are again such. *)
Fixpoint inline_ok (item_keys : list KeyType) (path : KeyType) (v : value)
  : bool :=
  key_in path item_keys
  || match v with
     | VDict d =>
         forallb (fun kv => inline_ok item_keys (path ++ [fst kv]) (snd kv)) d
     | _ => false
     end.

Definition inline_tbl_ok (item_keys : list KeyType) (path : KeyType)
  (tbl : list (pystr * value)) : bool :=
  forallb (fun kv => inline_ok item_keys (path ++ [fst kv]) (snd kv)) tbl.

(** ** What the queries list *)

(** A node listed by [get_table_keys(defined, array)]. *)
Definition listed_table (defined array : option bool) (n : node) : bool :=
  match n with
  | Table d _ _ => is_not_true array && none_or_eq defined d
  | TableArray _ => is_not_false array
  | NValue _ => false
  end.

(** [key] leads through dotted tables only and names one: what
    [get_active_item_prefixes] lists. *)
Fixpoint dotted_path (tbl : InternalTableType) (key : KeyType) : bool :=
  match key with
  | [] => false
  | p :: key' =>
      match dict_get p tbl with
      | Some (Table _ true elems) =>
          match key' with
          | [] => true
          | _ :: _ => dotted_path elems key'
          end
      | _ => false
      end
  end.

(** [assign] can place the entry [p] at the end of the walk along
    [parent]: the walk passes only through dotted tables that hold nothing
    but values and dotted tables, or leaves the tree, and [p] is new
    there. *)
Fixpoint can_assign (tbl : InternalTableType) (parent : KeyType) (p : pystr)
  : bool :=
  match parent with
  | [] => negb (dict_has p tbl)
  | q :: rest =>
      match dict_get q tbl with
      | None => true
      | Some (Table _ dotted elems) =>
          dotted && all_pure elems && can_assign elems rest p
      | Some _ => false
      end
  end.

(** The dictionary a child leads into. *)
Definition enter (v : node) : option InternalTableType :=
  match v with
  | Table _ _ elems => Some elems
  | TableArray elems =>
      match split_last elems with
      | Some (_, t) => Some t
      | None => None
      end
  | NValue _ => None
  end.

(** The keys that the walk of [get_table_keys] adds at the child [v] found
    under [path]: [path] itself if [v] is listed, and the keys of the listed
    nodes below [v]. *)
Definition table_keys_at (defined array : option bool) (v : node)
  (path k : KeyType) : Prop :=
  (k = path /\ listed_table defined array v = true)
  \/ exists t k' n,
       enter v = Some t /\ k' <> [] /\ k = path ++ k'
       /\ find_node t k' = Some n /\ listed_table defined array n = true.


(** ** Postconditions and loop invariants *)

(** What one run of the loop of [_rand_format_hex] appends in front of [s]:
    hexadecimal digits that denote [val], at least as many as the width
    asks for and no more than [val] needs. *)
Definition hex_loop_post (minwidth val : Z) (s s' : pystr) : Prop :=
  exists t,
    s' = t ++ s
    /\ forallb is_hex_digit t = true
    /\ hex_value t = val
    /\ minwidth - len s <= len t
    /\ forall k, 0 <= k -> minwidth - len s <= k -> val < 16 ^ k -> len t <= k.

(** A character that is neither a backslash nor a double quote. *)
Definition is_plain (c : Z) : bool := negb (c =? 0x5c) && negb (c =? 0x22).

(** The invariant of the basic loop: the text so far reads without a third
    unescaped quote, ends outside an escape, and ends outside a run of
    quotes whenever a quote may come next. *)
Definition basic_quote_inv (st : ml_state) : Prop :=
  exists k, scan_quotes (Run 0) (concat (doc_chars st)) = Some (Run k)
            /\ (allow_quote st = true -> k = O).

(** The invariant of the literal loop: the text so far holds no three
    single quotes in a row and ends outside a run of quotes whenever a
    quote may come next. *)
Definition literal_quote_inv (st : ml_state) : Prop :=
  exists k, quote_run 0x27 0 (concat (doc_chars st)) = Some k
            /\ (allow_quote st = true -> k = O).

(** The invariant for the start of the body: after the optional leading
    newline, the text does not begin with a newline, and as long as that
    text is empty so is the value. *)
Definition body_start_inv (lead : list pystr) (st : ml_state) : Prop :=
  exists units,
    doc_chars st = lead ++ units
    /\ (concat units = [] -> val_chars st = [])
    /\ no_leading_newline (concat units).

(** What [_format_simple_key] returns for a segment of scalar values. *)
Definition simple_key_rendering (s out : pystr) : Prop :=
  (out = s /\ s <> [] /\ forallb is_bare_char s = true)
  \/ (out = 0x27 :: s ++ [0x27] /\ forallb is_literal_char s = true)
  \/ (exists units, out = 0x22 :: concat units ++ [0x22]
                    /\ Forall2 renders s units).

(** ** Character classes of the TOML grammar *)

(** [wschar]: a tab or a space. *)
Definition is_wschar (c : Z) : bool := (c =? 0x09) || (c =? 0x20).

(** [non-eol]: what a comment may hold after its [#]. *)
Definition is_non_eol (c : Z) : bool :=
  (c =? 0x09) || between 0x20 c 0x7e || between 0x80 c 0xd7ff
  || between 0xe000 c 0x10ffff.


(** ** Reading multi-line strings

    The reading of the body of a multi-line string according to the TOML
    grammar, character by character: a newline right after the opening
    delimiter is dropped, a backslash at the end of a line drops the
    newline and all white space and newlines that follow, and every
    newline is read as a line feed, which is how the generator records it
    in the value. *)

Inductive ml_mode : Type :=
| MStart
| MStartCr
| MNormal
| MCr
| MEsc
| MHex (remaining : nat) (acc : Z)
| MContWs
| MContCr
| MSkip
| MSkipCr.

(** A character read outside an escape. *)
Definition ml_plain (c : Z) (out : pystr) : option (ml_mode * pystr) :=
  if c =? 0x5c then Some (MEsc, out)
  else if c =? 0x0a then Some (MNormal, out ++ [0x0a])
  else if c =? 0x0d then Some (MCr, out)
  else if is_basic_unescaped c || (c =? 0x22) then Some (MNormal, out ++ [c])
  else None.

Definition ml_basic_next (m : ml_mode) (c : Z) (out : pystr)
  : option (ml_mode * pystr) :=
  match m with
  | MStart =>
      if c =? 0x0a then Some (MNormal, out)
      else if c =? 0x0d then Some (MStartCr, out)
      else ml_plain c out
  | MStartCr => if c =? 0x0a then Some (MNormal, out) else None
  | MNormal => ml_plain c out
  | MCr => if c =? 0x0a then Some (MNormal, out ++ [0x0a]) else None
  | MEsc =>
      if c =? 117 then Some (MHex 4 0, out)
      else if c =? 85 then Some (MHex 8 0, out)
      else if is_wschar c then Some (MContWs, out)
      else if c =? 0x0a then Some (MSkip, out)
      else if c =? 0x0d then Some (MContCr, out)
      else match short_escape c with
           | Some v => Some (MNormal, out ++ [v])
           | None => None
           end
  | MHex O _ => None
  | MHex (S n) acc =>
      match hex_digit_val c with
      | Some d =>
          let acc' := 16 * acc + d in
          match n with
          | O => if is_scalar acc' then Some (MNormal, out ++ [acc'])
                 else None
          | S _ => Some (MHex n acc', out)
          end
      | None => None
      end
  | MContWs =>
      if is_wschar c then Some (MContWs, out)
      else if c =? 0x0a then Some (MSkip, out)
      else if c =? 0x0d then Some (MContCr, out)
      else None
  | MContCr => if c =? 0x0a then Some (MSkip, out) else None
  | MSkip =>
      if is_wschar c then Some (MSkip, out)
      else if c =? 0x0a then Some (MSkip, out)
      else if c =? 0x0d then Some (MSkipCr, out)
      else ml_plain c out
  | MSkipCr => if c =? 0x0a then Some (MSkip, out) else None
  end.

Fixpoint ml_basic_scan (m : ml_mode) (s out : pystr)
  : option (ml_mode * pystr) :=
  match s with
  | [] => Some (m, out)
  | c :: s' =>
      match ml_basic_next m c out with
      | Some (m', out') => ml_basic_scan m' s' out'
      | None => None
      end
  end.

(** The string that the body of a multi-line basic string denotes. *)
Definition read_ml_basic (body : pystr) : option pystr :=
  match ml_basic_scan MStart body [] with
  | Some (MStart, out) | Some (MNormal, out) | Some (MSkip, out) => Some out
  | _ => None
  end.

Inductive mll_mode : Type :=
| LStart
| LStartCr
| LNormal
| LCr.

Definition mll_plain (c : Z) (out : pystr) : option (mll_mode * pystr) :=
  if c =? 0x0a then Some (LNormal, out ++ [0x0a])
  else if c =? 0x0d then Some (LCr, out)
  else if is_literal_char c || (c =? 0x27) then Some (LNormal, out ++ [c])
  else None.

Definition ml_literal_next (m : mll_mode) (c : Z) (out : pystr)
  : option (mll_mode * pystr) :=
  match m with
  | LStart =>
      if c =? 0x0a then Some (LNormal, out)
      else if c =? 0x0d then Some (LStartCr, out)
      else mll_plain c out
  | LStartCr => if c =? 0x0a then Some (LNormal, out) else None
  | LNormal => mll_plain c out
  | LCr => if c =? 0x0a then Some (LNormal, out ++ [0x0a]) else None
  end.

Fixpoint ml_literal_scan (m : mll_mode) (s out : pystr)
  : option (mll_mode * pystr) :=
  match s with
  | [] => Some (m, out)
  | c :: s' =>
      match ml_literal_next m c out with
      | Some (m', out') => ml_literal_scan m' s' out'
      | None => None
      end
  end.

(** The string that the body of a multi-line literal string denotes. *)
Definition read_ml_literal (body : pystr) : option pystr :=
  match ml_literal_scan LStart body [] with
  | Some (LStart, out) | Some (LNormal, out) => Some out
  | _ => None
  end.

(** The modes in which a unit of the body can begin. *)
Definition ml_unit_start (m : ml_mode) : Prop :=
  m = MStart \/ m = MNormal \/ m = MSkip.

(** The invariant of the loop of [_gen_ml_basic_string]: the text so far
    reads as the value so far; nothing but the dropped newline has been
    read while the value is empty and the reader is at the start; and
    white space may not come next while the reader skips it. *)
Definition ml_basic_reads (st : ml_state) : Prop :=
  exists m,
    ml_basic_scan MStart (concat (doc_chars st)) []
    = Some (m, concat (val_chars st))
    /\ ((m = MStart /\ val_chars st = [])
        \/ m = MNormal
        \/ (m = MSkip /\ allow_whitespace st = false)).

Definition ml_literal_reads (st : ml_state) : Prop :=
  exists m,
    ml_literal_scan LStart (concat (doc_chars st)) []
    = Some (m, concat (val_chars st))
    /\ ((m = LStart /\ val_chars st = []) \/ m = LNormal).


(** ** Reading a string of any of the four forms *)

(** [doc] without the delimiter [q] at its two ends. *)
Definition unquote (q doc : pystr) : option pystr :=
  if starts_with q doc
     && (2 * length q <=? length doc)%nat
     && pystr_eqb (skipn (length doc - length q) doc) q
  then Some (firstn (length doc - 2 * length q) (skipn (length q) doc))
  else None.

(** The value a TOML string denotes: the multi-line forms are tried first,
    as their delimiters begin with those of the one-line forms. *)
Definition read_string (doc : pystr) : option pystr :=
  match unquote [0x22; 0x22; 0x22] doc with
  | Some body => read_ml_basic body
  | None =>
      match unquote [0x27; 0x27; 0x27] doc with
      | Some body => read_ml_literal body
      | None =>
          match unquote [0x22] doc with
          | Some body => decode_basic RNormal body []
          | None =>
              match unquote [0x27] doc with
              | Some body =>
                  if forallb is_literal_char body then Some body else None
              | None => None
              end
          end
      end
  end.


(** ** Reading a dotted key

    The reading of a key according to the TOML grammar: simple keys, bare
    or quoted, joined by dots, with white space allowed around the dots. *)

Inductive key_mode : Type :=
| KStart
| KDot
| KBare (acc : pystr)
| KLit (acc : pystr)
| KBas (rs : read_state) (acc : pystr)
| KEnd
| KWs.

(** The first character of a simple key. *)
Definition key_begin (c : Z) (done : KeyType)
  : option (key_mode * KeyType) :=
  if c =? 0x22 then Some (KBas RNormal [], done)
  else if c =? 0x27 then Some (KLit [], done)
  else if is_bare_char c then Some (KBare [c], done)
  else None.

Definition key_next (m : key_mode) (c : Z) (done : KeyType)
  : option (key_mode * KeyType) :=
  match m with
  | KStart => key_begin c done
  | KDot => if is_wschar c then Some (KDot, done) else key_begin c done
  | KBare acc =>
      if is_bare_char c then Some (KBare (acc ++ [c]), done)
      else if is_wschar c then Some (KWs, done ++ [acc])
      else if c =? 0x2e then Some (KDot, done ++ [acc])
      else None
  | KLit acc =>
      if c =? 0x27 then Some (KEnd, done ++ [acc])
      else if is_literal_char c then Some (KLit (acc ++ [c]), done)
      else None
  | KBas RNormal acc =>
      if c =? 0x22 then Some (KEnd, done ++ [acc])
      else if c =? 0x5c then Some (KBas REscape acc, done)
      else if is_basic_unescaped c then Some (KBas RNormal (acc ++ [c]), done)
      else None
  | KBas REscape acc =>
      if c =? 117 then Some (KBas (RHex 4 0) acc, done)
      else if c =? 85 then Some (KBas (RHex 8 0) acc, done)
      else match short_escape c with
           | Some v => Some (KBas RNormal (acc ++ [v]), done)
           | None => None
           end
  | KBas (RHex O _) _ => None
  | KBas (RHex (S n) a) acc =>
      match hex_digit_val c with
      | Some d =>
          let a' := 16 * a + d in
          match n with
          | O => if is_scalar a' then Some (KBas RNormal (acc ++ [a']), done)
                 else None
          | S _ => Some (KBas (RHex n a') acc, done)
          end
      | None => None
      end
  | KEnd | KWs =>
      if is_wschar c then Some (KWs, done)
      else if c =? 0x2e then Some (KDot, done)
      else None
  end.

Fixpoint key_scan (m : key_mode) (done : KeyType) (s : pystr)
  : option (key_mode * KeyType) :=
  match s with
  | [] => Some (m, done)
  | c :: s' =>
      match key_next m c done with
      | Some (m', done') => key_scan m' done' s'
      | None => None
      end
  end.

(** The key a text denotes. *)
Definition read_key (s : pystr) : option KeyType :=
  match key_scan KStart [] s with
  | Some (KBare acc, done) => Some (done ++ [acc])
  | Some (KEnd, done) => Some done
  | _ => None
  end.

(** The reader has just read the last character of the last segment of
    [key]. *)
Definition key_closes (m : key_mode) (done key : KeyType) : Prop :=
  (m = KEnd /\ done = key) \/ (exists k, m = KBare k /\ key = done ++ [k]).

(** The invariant of the loops that render a key: the text so far is empty
    and so is the key, or the text reads as the key. *)
Definition key_text_reads (key_str : list pystr) (key : KeyType) : Prop :=
  (key_str = [] /\ key = [])
  \/ (key_str <> []
      /\ exists m done, key_scan KStart [] (concat key_str) = Some (m, done)
                        /\ key_closes m done key).


(** ** Reading numbers *)

(** The number that the digits [s] denote in [base], most significant digit
    first; [None] when a character is not a digit of the base. *)
Definition digits_value (base : Z) (s : pystr) : option Z :=
  fold_left (fun acc c =>
               match acc, hex_digit_val c with
               | Some a, Some d => if d <? base then Some (base * a + d)
                                   else None
               | _, _ => None
               end) s (Some 0).

(** Digits of [base] with single underscores between them. *)
Definition read_digits (base : Z) (s : pystr) : option Z :=
  if digit_run false s then digits_value base (strip_underscores s) else None.

(** An unsigned decimal number; unless [zero_prefixable], the only number
    that may begin with a zero is the single digit zero. *)
Definition read_decimal (zero_prefixable : bool) (s : pystr) : option Z :=
  if negb zero_prefixable && starts_with [0x30] s && (1 <? len s) then None
  else read_digits 10 s.

(** A decimal number with an optional sign. *)
Definition read_signed (zero_prefixable : bool) (s : pystr) : option Z :=
  match s with
  | [] => None
  | c :: s' =>
      if c =? 0x2b then read_decimal zero_prefixable s'
      else if c =? 0x2d then option_map Z.opp (read_decimal zero_prefixable s')
      else read_decimal zero_prefixable s
  end.

(** A TOML integer: hexadecimal, octal or binary digits after their prefix,
    or a signed decimal number without leading zeros. *)
Definition read_integer (s : pystr) : option Z :=
  if starts_with (py "0x") s then read_digits 16 (skipn 2 s)
  else if starts_with (py "0o") s then read_digits 8 (skipn 2 s)
  else if starts_with (py "0b") s then read_digits 2 (skipn 2 s)
  else read_signed false s.


(** What [_splice_number] makes of a digit string [s]. *)
Definition spliced (s out : pystr) : Prop :=
  digit_run false out = true
  /\ strip_underscores out = s
  /\ (forall c, starts_with [c] out = starts_with [c] s)
  /\ (forall c, s = [c] -> out = [c]).

(** ** Reading a float *)

(** [s] up to the first character that satisfies [p], and what follows
    that character if there is one. *)
Fixpoint split_at (p : Z -> bool) (s : pystr) : pystr * option pystr :=
  match s with
  | [] => ([], None)
  | c :: s' =>
      if p c then ([], Some s')
      else let (a, b) := split_at p s' in (c :: a, b)
  end.

Definition is_some {A} (o : option A) : bool :=
  match o with Some _ => true | None => false end.

(** The letter that begins an exponent. *)
Definition is_exp_letter (c : Z) : bool := (c =? 0x65) || (c =? 0x45).

(** A TOML float: a signed decimal number without leading zeros, then a
    fraction, an exponent or both (the fraction digits and the signed
    exponent may begin with zeros); or an optionally signed [inf] or
    [nan]. *)
Definition is_float_text (s : pystr) : bool :=
  if existsb (pystr_eqb s)
       [ py "inf"; py "+inf"; py "-inf"; py "nan"; py "+nan"; py "-nan" ]
  then true
  else
    let (mantissa, exponent) := split_at is_exp_letter s in
    let (int_part, fraction) := split_at (Z.eqb 0x2e) mantissa in
    is_some (read_signed false int_part)
    && match fraction with
       | Some f => is_some (read_decimal true f)
       | None => true
       end
    && match exponent with
       | Some e => is_some (read_signed true e)
       | None => true
       end
    && (is_some fraction || is_some exponent).

(** A character of a signed decimal number. *)
Definition is_number_char (c : Z) : bool :=
  between 48 c 57 || (c =? 0x5f) || (c =? 0x2b) || (c =? 0x2d).

(** ** Reading dates and times *)

(** A leap year of the Gregorian calendar. *)
Definition is_leap_year (year : Z) : bool :=
  (year mod 4 =? 0) && (negb (year mod 100 =? 0) || (year mod 400 =? 0)).

Definition days_in_month (year month : Z) : Z :=
  if (month =? 2) && is_leap_year year then 29
  else nth (Z.to_nat (month - 1))
           [31; 28; 31; 30; 31; 30; 31; 31; 30; 31; 30; 31] 0.

(** The calendar date that a text [YYYY-MM-DD] denotes. *)
Definition read_date (s : pystr) : option (Z * Z * Z) :=
  match s with
  | [y1; y2; y3; y4; dash1; m1; m2; dash2; d1; d2] =>
      match digits_value 10 [y1; y2; y3; y4], digits_value 10 [m1; m2],
            digits_value 10 [d1; d2] with
      | Some year, Some month, Some day =>
          if (dash1 =? 0x2d) && (dash2 =? 0x2d)
             && (1 <=? month) && (month <=? 12)
             && (1 <=? day) && (day <=? days_in_month year month)
          then Some (year, month, day) else None
      | _, _, _ => None
      end
  | _ => None
  end.

(** The microseconds that the fraction of a time denotes: nothing, or a
    point and one to six digits. *)
Definition read_fraction (s : pystr) : option Z :=
  match s with
  | [] => Some 0
  | c :: ds =>
      if (c =? 0x2e) && nonempty ds && (len ds <=? 6)
      then option_map (fun v => v * 10 ^ (6 - len ds)) (digits_value 10 ds)
      else None
  end.

(** The time of day that a text [HH:MM:SS] with an optional fraction
    denotes. *)
Definition read_time (s : pystr) : option (Z * Z * Z * Z) :=
  match s with
  | h1 :: h2 :: colon1 :: m1 :: m2 :: colon2 :: s1 :: s2 :: fraction =>
      match digits_value 10 [h1; h2], digits_value 10 [m1; m2],
            digits_value 10 [s1; s2], read_fraction fraction with
      | Some hour, Some minute, Some second, Some usec =>
          if (colon1 =? 0x3a) && (colon2 =? 0x3a)
             && (hour <=? 23) && (minute <=? 59) && (second <=? 59)
          then Some (hour, minute, second, usec) else None
      | _, _, _, _ => None
      end
  | _ => None
  end.

(** A text cut before its first [Z], [z], [+] or [-]. *)
Fixpoint split_offset (s : pystr) : pystr * pystr :=
  match s with
  | [] => ([], [])
  | c :: s' =>
      if char_in c (py "Zz+-") then ([], s)
      else let (a, b) := split_offset s' in (c :: a, b)
  end.

(** The offset in minutes that the end of a date-time denotes: none,
    zero for [Z], or a numeric offset. *)
Definition read_time_offset (s : pystr) : option (option Z) :=
  match s with
  | [] => Some None
  | _ :: _ =>
      if pystr_eqb s (py "Z") || pystr_eqb s (py "z") then Some (Some 0)
      else option_map Some (read_offset s)
  end.

(** The value that a TOML date-time denotes: a time, a date, or a date and
    a time with an optional offset. *)
Definition read_date_time (s : pystr) : option value :=
  match read_time s with
  | Some (hour, minute, second, usec) => Some (VTime hour minute second usec)
  | None =>
      match read_date (firstn 10 s), skipn 10 s with
      | Some (year, month, day), [] => Some (VDate year month day)
      | Some (year, month, day), delim :: t =>
          let (time_text, offset_text) := split_offset t in
          match read_time time_text, read_time_offset offset_text with
          | Some (hour, minute, second, usec), Some tz =>
              if char_in delim (py "Tt ")
              then Some (VDateTime year month day hour minute second usec tz)
              else None
          | _, _ => None
          end
      | None, _ => None
      end
  end.

(** What [_gen_local_date] returns: a date of the calendar and its text. *)
Definition local_date_post (r : pystr * (Z * Z * Z)) : Prop :=
  let '(s, (year, month, day)) := r in
  1000 <= year <= 9999
  /\ read_date s = Some (year, month, day)
  /\ length s = 10%nat
  /\ forall rest, read_time (s ++ rest) = None.

(** A character of a time of day. *)
Definition is_time_char (c : Z) : bool :=
  between 48 c 57 || (c =? 0x3a) || (c =? 0x2e).

(** What [_gen_local_time] returns: a time of day and a text that denotes
    it. *)
Definition local_time_post (r : pystr * (Z * Z * Z * Z)) : Prop :=
  let '(s, (hour, minute, second, usec)) := r in
  read_time s = Some (hour, minute, second, usec)
  /\ 0 <= usec <= 999999
  /\ forallb is_time_char s = true.

(** ** What the item query lists *)

(** The keys that the walk of [get_item_keys] adds at the child [v] found
    under [path]: [path] itself if [v] is a value, and the keys of the
    values below [v]. *)
Definition item_keys_at (v : node) (path k : KeyType) : Prop :=
  (k = path /\ exists x, v = NValue x)
  \/ exists t k' x,
       enter v = Some t /\ k' <> [] /\ k = path ++ k'
       /\ find_node t k' = Some (NValue x).

(** ** Looking into the data of a document *)

(** The value that a key names in the data of a document: the walk goes
    through dictionaries and into the last element of every list on the
    way. *)
Fixpoint value_at (d : list (pystr * value)) (key : KeyType) : option value :=
  match key with
  | [] => None
  | p :: key' =>
      match key' with
      | [] => dict_get p d
      | _ :: _ =>
          match dict_get p d with
          | Some (VDict sub) => value_at sub key'
          | Some (VList l) =>
              match split_last l with
              | Some (_, VDict sub) => value_at sub key'
              | _ => None
              end
          | _ => None
          end
      end
  end.

(** Two keys that differ in a segment which both have: neither is a
    prefix of the other. *)
Fixpoint diverges (a b : KeyType) : bool :=
  match a, b with
  | x :: a', y :: b' => negb (pystr_eqb x y) || diverges a' b'
  | _, _ => false
  end.

(** A mutation of a dictionary that leaves every entry but [p] as it
    was. *)
Definition touches_only (p : pystr)
  (f : InternalTableType -> result InternalTableType) : Prop :=
  forall t t' q, f t = Ok t' -> q <> p -> dict_get q t' = dict_get q t.

(** ** White space, comments and newlines between values *)

(** Where a text of white space, comments and newlines stands: outside a
    comment, inside one, or after a carriage return that a line feed must
    follow. *)
Inductive wcn_mode : Type := WOut | WComment | WCr.

(** [ws-comment-newline = *( wschar / [ comment ] newline )]: white space
    and newlines, with comments that each end in a newline. *)
Fixpoint wcn_scan (m : wcn_mode) (s : pystr) : bool :=
  match s with
  | [] => match m with WOut => true | _ => false end
  | c :: s' =>
      match m with
      | WOut =>
          if is_wschar c || (c =? 0x0a) then wcn_scan WOut s'
          else if c =? 0x0d then wcn_scan WCr s'
          else if c =? 0x23 then wcn_scan WComment s'
          else false
      | WComment =>
          if c =? 0x0a then wcn_scan WOut s'
          else if c =? 0x0d then wcn_scan WCr s'
          else if is_non_eol c then wcn_scan WComment s'
          else false
      | WCr => if c =? 0x0a then wcn_scan WOut s' else false
      end
  end.

Definition is_ws_comment_newline (s : pystr) : bool := wcn_scan WOut s.

(** * Properties *)

(** ** Rules for [returns], [yields] and [refines] *)

Lemma bind_Ok {A B} (m : M A) (k : A -> M B) rng r :
  bind m k rng = Ok r ->
  exists a rng1, m rng = Ok (a, rng1) /\ k a rng1 = Ok r.
Proof.
  unfold bind. destruct (m rng) as [[a rng1]| | |]; try discriminate.
  intros H. exists a, rng1. auto.
Qed.

Lemma returns_ret {A} (a : A) (Q : A -> Prop) : Q a -> returns (ret a) Q.
Proof. intros H rng. exists a, rng. split; [reflexivity | exact H]. Qed.

Lemma returns_bind {A B} (m : M A) (k : A -> M B) (P : A -> Prop)
  (Q : B -> Prop) :
  returns m P -> (forall a, P a -> returns (k a) Q) -> returns (bind m k) Q.
Proof.
  intros Hm Hk rng. destruct (Hm rng) as (a & rng1 & E & Pa).
  destruct (Hk a Pa rng1) as (b & rng2 & E2 & Qb).
  exists b, rng2. unfold bind. rewrite E. auto.
Qed.

Lemma returns_weaken {A} (m : M A) (P Q : A -> Prop) :
  returns m P -> (forall a, P a -> Q a) -> returns m Q.
Proof.
  intros Hm HPQ rng. destruct (Hm rng) as (a & rng1 & E & Pa).
  exists a, rng1. auto.
Qed.

Lemma returns_Ok {A} (m : M A) (Q : A -> Prop) rng a rng' :
  returns m Q -> m rng = Ok (a, rng') -> Q a.
Proof.
  intros Hm E. destruct (Hm rng) as (a1 & rng1 & E1 & Qa).
  rewrite E in E1. inversion E1; subst. exact Qa.
Qed.

Lemma returns_yields {A} (m : M A) (Q : A -> Prop) :
  returns m Q -> yields m Q.
Proof.
  intros Hm rng. destruct (Hm rng) as (a & rng1 & E & Qa). rewrite E. exact Qa.
Qed.

Lemma yields_ret {A} (a : A) (Q : A -> Prop) : Q a -> yields (ret a) Q.
Proof. intros H rng. exact H. Qed.

Lemma yields_bind {A B} (m : M A) (k : A -> M B) (P : A -> Prop)
  (Q : B -> Prop) :
  yields m P -> (forall a, P a -> yields (k a) Q) -> yields (bind m k) Q.
Proof.
  intros Hm Hk rng. specialize (Hm rng). unfold bind.
  destruct (m rng) as [[a rng1]| | |]; try contradiction; [|exact I].
  apply (Hk a Hm rng1).
Qed.

Lemma yields_weaken {A} (m : M A) (P Q : A -> Prop) :
  yields m P -> (forall a, P a -> Q a) -> yields m Q.
Proof.
  intros Hm HPQ rng. specialize (Hm rng).
  destruct (m rng) as [[a rng1]| | |]; auto.
Qed.

Lemma yields_Ok {A} (m : M A) (Q : A -> Prop) rng a rng' :
  yields m Q -> m rng = Ok (a, rng') -> Q a.
Proof. intros Hm E. specialize (Hm rng). rewrite E in Hm. exact Hm. Qed.

Lemma yields_diverge {A} (Q : A -> Prop) : yields diverge Q.
Proof. intros rng. exact I. Qed.

Lemma yields_lift {A} (r : result A) (Q : A -> Prop) :
  match r with Ok a => Q a | Diverged => True | _ => False end ->
  yields (lift r) Q.
Proof. intros H rng. unfold lift. destruct r; simpl; auto. Qed.

Lemma returns_random : returns rng_random (fun _ => True).
Proof.
  intros rng. unfold rng_random. destruct (next_raw rng) as [z rng1].
  eauto.
Qed.

Lemma returns_randint a b :
  a <= b -> returns (rng_randint a b) (fun z => a <= z <= b).
Proof.
  intros Hab rng. unfold rng_randint.
  destruct (Z.ltb_spec b a); [lia|].
  destruct (next_raw rng) as [z rng1].
  eexists _, _. split; [reflexivity|].
  pose proof (Z.mod_pos_bound z (b - a + 1)). lia.
Qed.

Lemma returns_choice {A} (seq : list A) :
  seq <> [] -> returns (rng_choice seq) (fun x => In x seq).
Proof.
  intros Hne rng. unfold rng_choice. destruct seq as [|d seq']; [congruence|].
  destruct (next_raw rng) as [z rng1].
  eexists _, _. split; [reflexivity|].
  apply nth_In.
  pose proof (Z.mod_pos_bound z (len (d :: seq'))).
  unfold len in *. simpl length in *. lia.
Qed.

Lemma returns_choices {A} (population : list A) weights k :
  population <> [] ->
  returns (rng_choices population weights k)
          (fun l => Forall (fun x => In x population) l /\ length l = k).
Proof.
  intros Hne. induction k as [|k IH]; simpl.
  - apply returns_ret. auto.
  - eapply returns_bind; [apply (returns_choice _ Hne)|]. intros x Hx.
    eapply returns_bind; [apply IH|]. intros xs [Hxs Hl].
    apply returns_ret. split; [constructor; auto | simpl; congruence].
Qed.

Lemma returns_rand_exp mean lo hi :
  lo <= hi -> returns (_rand_exp mean lo hi) (fun z => lo <= z <= hi).
Proof.
  intros H rng. unfold _rand_exp. destruct (next_raw rng) as [v rng1].
  eexists _, _. split; [reflexivity|]. lia.
Qed.

Lemma returns_for_range_from {A} (I : A -> Prop) body n : forall i (acc : A),
  I acc -> (forall j acc, I acc -> returns (body j acc) I) ->
  returns (for_range_from i n body acc) I.
Proof.
  induction n as [|n IH]; intros i acc Hacc Hbody; simpl.
  - apply returns_ret. exact Hacc.
  - eapply returns_bind; [apply Hbody; exact Hacc|].
    intros acc' Hacc'. apply IH; assumption.
Qed.

Lemma returns_for_range {A} (I : A -> Prop) body n (acc : A) :
  I acc -> (forall j acc, I acc -> returns (body j acc) I) ->
  returns (for_range n body acc) I.
Proof. apply returns_for_range_from. Qed.

Lemma returns_for_each {X A} (I : A -> Prop) (P : X -> Prop) body (xs : list X) :
  forall acc : A,
  I acc -> Forall P xs ->
  (forall x acc, P x -> I acc -> returns (body x acc) I) ->
  returns (for_each xs body acc) I.
Proof.
  induction xs as [|x xs IH]; intros acc Hacc Hxs Hbody; simpl.
  - apply returns_ret. exact Hacc.
  - inversion Hxs; subst.
    eapply returns_bind; [apply Hbody; eassumption|].
    intros acc' Hacc'. apply IH; assumption.
Qed.

Lemma returns_for_each_indexed {X A} (I : list X -> A -> Prop)
  (P : X -> Prop) body (xs : list X) : forall done (acc : A),
  I done acc -> Forall P xs ->
  (forall x done acc, P x -> I done acc ->
                      returns (body x acc) (I (done ++ [x]))) ->
  returns (for_each xs body acc) (I (done ++ xs)).
Proof.
  induction xs as [|x xs IH]; intros done acc Hacc Hxs Hbody; simpl.
  - apply returns_ret. rewrite app_nil_r. exact Hacc.
  - inversion Hxs; subst.
    eapply returns_bind; [apply Hbody; eassumption|].
    intros acc' Hacc'.
    replace (done ++ x :: xs) with ((done ++ [x]) ++ xs)
      by (rewrite <- app_assoc; reflexivity).
    apply IH; assumption.
Qed.

Lemma yields_for_range_from {A} (I : A -> Prop) body n : forall i (acc : A),
  I acc -> (forall j acc, I acc -> yields (body j acc) I) ->
  yields (for_range_from i n body acc) I.
Proof.
  induction n as [|n IH]; intros i acc Hacc Hbody; simpl.
  - apply yields_ret. exact Hacc.
  - eapply yields_bind; [apply Hbody; exact Hacc|].
    intros acc' Hacc'. apply IH; assumption.
Qed.

Lemma yields_for_range {A} (I : A -> Prop) body n (acc : A) :
  I acc -> (forall j acc, I acc -> yields (body j acc) I) ->
  yields (for_range n body acc) I.
Proof. apply yields_for_range_from. Qed.

(** ** Equality tests *)

Lemma pystr_eqb_eq a : forall b, pystr_eqb a b = true <-> a = b.
Proof.
  induction a as [|x a IH]; intros [|y b]; simpl; split; intros H;
    try discriminate; try reflexivity.
  - apply andb_true_iff in H. destruct H as [H1 H2].
    apply Z.eqb_eq in H1. apply IH in H2. congruence.
  - inversion H; subst. rewrite Z.eqb_refl. simpl. apply IH. reflexivity.
Qed.

Lemma pystr_eqb_refl a : pystr_eqb a a = true.
Proof. apply pystr_eqb_eq. reflexivity. Qed.

Lemma pystr_eqb_neq a b : pystr_eqb a b = false <-> a <> b.
Proof.
  split.
  - intros H E. apply pystr_eqb_eq in E. congruence.
  - intros H. destruct (pystr_eqb a b) eqn:E; [|reflexivity].
    apply pystr_eqb_eq in E. contradiction.
Qed.

Lemma key_eqb_eq a : forall b, key_eqb a b = true <-> a = b.
Proof.
  induction a as [|x a IH]; intros [|y b]; simpl; split; intros H;
    try discriminate; try reflexivity.
  - apply andb_true_iff in H. destruct H as [H1 H2].
    apply pystr_eqb_eq in H1. apply IH in H2. congruence.
  - inversion H; subst. rewrite pystr_eqb_refl. simpl. apply IH. reflexivity.
Qed.

Lemma key_in_In k keys : key_in k keys = true <-> In k keys.
Proof.
  unfold key_in. rewrite existsb_exists. split.
  - intros (x & Hx & E). apply key_eqb_eq in E. subst. exact Hx.
  - intros H. exists k. split; [exact H | apply key_eqb_eq; reflexivity].
Qed.

Lemma key_in_false k keys : key_in k keys = false <-> ~ In k keys.
Proof.
  rewrite <- key_in_In. destruct (key_in k keys); split; congruence.
Qed.

(** ** Checking a finite range of integers by evaluation *)

Lemma in_zrange lo n z : lo <= z < lo + Z.of_nat n -> In z (zrange lo n).
Proof.
  intros H. unfold zrange. apply in_map_iff.
  exists (Z.to_nat (z - lo)). split; [lia|].
  apply in_seq. lia.
Qed.

Lemma zrange_forallb (f : Z -> bool) lo n :
  forallb f (zrange lo n) = true ->
  forall z, lo <= z < lo + Z.of_nat n -> f z = true.
Proof.
  intros H z Hz. rewrite forallb_forall in H. apply H, in_zrange, Hz.
Qed.

(** ** Time zones (claim C2) *)

Lemma read_offset_timezone_text delta :
  1 - 24 * 60 <= delta <= 24 * 60 - 1 ->
  read_offset ((if delta <? 0 then py "-" else py "+")
               ++ zero_pad 2 (Z.abs delta / 60) ++ py ":"
               ++ zero_pad 2 (Z.abs delta mod 60)) = Some delta.
Proof.
  intros H.
  pose (f := fun d =>
    match read_offset ((if d <? 0 then py "-" else py "+")
                       ++ zero_pad 2 (Z.abs d / 60) ++ py ":"
                       ++ zero_pad 2 (Z.abs d mod 60)) with
    | Some x => x =? d
    | None => false
    end).
  assert (E : f delta = true).
  { apply (zrange_forallb f (-1439) 2879); [vm_compute; reflexivity | lia]. }
  unfold f in E.
  destruct (read_offset _) as [x|]; [|discriminate].
  apply Z.eqb_eq in E. congruence.
Qed.

Lemma gen_timezone_returns :
  returns _gen_timezone
    (fun r => (fst r = py "Z" /\ snd r = 0)
              \/ (read_offset (fst r) = Some (snd r)
                  /\ - (24 * 60 - 1) <= snd r <= 24 * 60 - 1)).
Proof.
  unfold _gen_timezone.
  eapply returns_bind; [apply returns_random|]. intros r _.
  destruct (Qltb r (dbl (2 # 10))).
  - apply returns_ret. left. auto.
  - eapply returns_bind; [apply returns_randint; lia|].
    cbv beta. intros delta Hd.
    apply returns_ret. right. simpl fst; simpl snd.
    split; [apply read_offset_timezone_text; lia | lia].
Qed.

Lemma gen_local_date_returns : returns _gen_local_date (fun _ => True).
Proof.
  unfold _gen_local_date.
  eapply returns_bind; [apply returns_randint; lia|]. intros year _.
  eapply returns_bind; [apply returns_randint; lia|]. intros month _.
  eapply returns_bind.
  - apply returns_randint.
    repeat match goal with
           | |- context [if ?c then _ else _] => destruct c
           end; lia.
  - intros day _. apply returns_ret. exact I.
Qed.

Lemma gen_local_time_returns : returns _gen_local_time (fun _ => True).
Proof.
  unfold _gen_local_time.
  eapply returns_bind; [apply returns_randint; lia|]. intros hour _.
  eapply returns_bind; [apply returns_randint; lia|]. intros minute _.
  eapply returns_bind; [apply returns_randint; lia|]. intros second _.
  eapply returns_bind; [apply returns_random|]. intros b _.
  eapply returns_bind with (P := fun _ => True).
  - destruct (Qltb b half).
    + eapply returns_bind; [apply returns_randint; lia|]. intros r _.
      apply returns_ret. exact I.
    + eapply returns_bind; [apply returns_randint; lia|]. intros r _.
      eapply returns_bind; [apply returns_randint; lia|]. intros usec _.
      apply returns_ret. exact I.
  - intros [usec suffix] _. apply returns_ret. exact I.
Qed.

(** C2, as the code has it: an offset date-time always comes out, and its
    text ends with a time zone that is either [Z] (offset 0) or a numeric
    [+HH:MM] / [-HH:MM] whose total of minutes is the offset of the value
    and lies in [-(24*60-1), 24*60-1]; zero is one of the numeric offsets.
    [Z] is chosen exactly when the uniform draw of [_gen_timezone] is below
    the double [0.2]. *)
Theorem offset_date_time_timezone :
  (forall rng, exists doc v rng',
      _gen_offset_date_time rng = Ok ((doc, v), rng')
      /\ exists local tz_str year month day hour minute second usec tz,
           doc = local ++ tz_str
           /\ v = VDateTime year month day hour minute second usec (Some tz)
           /\ ((tz_str = py "Z" /\ tz = 0)
               \/ (read_offset tz_str = Some tz
                   /\ - (24 * 60 - 1) <= tz <= 24 * 60 - 1)))
  /\ (forall rng, exists s tz rng',
         _gen_timezone rng = Ok ((s, tz), rng')
         /\ (s = py "Z" <-> Qltb (first_uniform rng) (dbl (2 # 10)) = true)).
Proof.
  split.
  - intros rng.
    assert (H : returns _gen_offset_date_time (fun r =>
      exists local tz_str year month day hour minute second usec tz,
        fst r = local ++ tz_str
        /\ snd r = VDateTime year month day hour minute second usec (Some tz)
        /\ ((tz_str = py "Z" /\ tz = 0)
            \/ (read_offset tz_str = Some tz
                /\ - (24 * 60 - 1) <= tz <= 24 * 60 - 1)))).
    { unfold _gen_offset_date_time.
      eapply returns_bind; [apply gen_local_date_returns|].
      intros [date_str [[year month] day]] _.
      eapply returns_bind; [apply gen_local_time_returns|].
      intros [time_str [[[hour minute] second] usec]] _.
      eapply returns_bind; [apply gen_timezone_returns|].
      intros [tz_str tz] Htz.
      eapply returns_bind; [apply returns_choice; discriminate|].
      intros delim _. apply returns_ret.
      exists (date_str ++ delim :: time_str), tz_str,
        year, month, day, hour, minute, second, usec, tz.
      split; [simpl; rewrite <- app_assoc; reflexivity|].
      split; [reflexivity | exact Htz]. }
    destruct (H rng) as ([doc v] & rng' & E & P).
    exists doc, v, rng'. split; [exact E | exact P].
  - intros rng. unfold _gen_timezone, bind, rng_random, first_uniform.
    destruct (next_raw rng) as [z rng1]. simpl fst.
    destruct (Qltb (z mod 2 ^ 53 # 2 ^ 53) (dbl (2 # 10))) eqn:E.
    + exists (py "Z"), 0, rng1. split; [reflexivity | tauto].
    + destruct (returns_randint (1 - 24 * 60) (24 * 60 - 1) ltac:(lia) rng1)
        as (delta & rng2 & E2 & _).
      rewrite E2. unfold ret.
      eexists _, _, _. split; [reflexivity|].
      split; [|discriminate].
      destruct (delta <? 0); discriminate.
Qed.

(** C2 as stated fails: with the draw [1439] the offset is zero minutes,
    written [+00:00]. *)
Lemma offset_date_time_zero_offset :
  _gen_offset_date_time [0; 0; 0; 0; 0; 0; 0; 1; 2 ^ 52; 1439; 0]
  = Ok ((py "1000-01-01T00:00:00.00+00:00",
         VDateTime 1000 1 1 0 0 0 0 (Some 0)), [])
  /\ _gen_timezone [2 ^ 52; 1439] = Ok ((py "+00:00", 0), [])
  /\ read_offset (py "+00:00") = Some 0.
Proof. vm_compute. auto. Qed.

(** ** Hexadecimal formatting *)

Lemma returns_and {A} (m : M A) (P Q : A -> Prop) :
  returns m P -> returns m Q -> returns m (fun a => P a /\ Q a).
Proof.
  intros HP HQ rng. destruct (HP rng) as (a & rng1 & E & Pa).
  exists a, rng1. split; [exact E|]. split; [exact Pa|].
  exact (returns_Ok _ _ _ _ _ HQ E).
Qed.

Lemma yields_and {A} (m : M A) (P Q : A -> Prop) :
  yields m P -> yields m Q -> yields m (fun a => P a /\ Q a).
Proof.
  intros HP HQ rng. specialize (HP rng). specialize (HQ rng).
  destruct (m rng) as [[a rng1]| | |]; auto.
Qed.

Lemma str_int_digit c : 0 <= c < 10 -> str_int c = [48 + c].
Proof.
  intros H.
  pose (f := fun d => pystr_eqb (str_int d) [48 + d]).
  assert (E : f c = true).
  { apply (zrange_forallb f 0 10); [vm_compute; reflexivity | lia]. }
  unfold f in E. apply pystr_eqb_eq in E. exact E.
Qed.

Lemma hex_measure_step val :
  0 < val -> (S (hex_measure (val / 16)) <= hex_measure val)%nat.
Proof.
  intros Hpos. unfold hex_measure.
  destruct (Z.ltb_spec 0 val); [|lia].
  destruct (Z.ltb_spec 0 (val / 16)); [|lia].
  assert (H2 : 2 * (val / 16) <= val).
  { pose proof (Z.mul_div_le val 16). lia. }
  pose proof (Z.log2_le_mono _ _ H2) as Hm.
  rewrite Z.log2_double in Hm by lia.
  pose proof (Z.log2_nonneg (val / 16)). lia.
Qed.

Lemma hex_value_snoc t c :
  hex_value (t ++ [c])
  = 16 * hex_value t + match hex_digit_val c with Some d => d | None => 0 end.
Proof. unfold hex_value. rewrite fold_left_app. reflexivity. Qed.

Lemma hex_digit_cases c :
  0 <= c < 16 ->
  (c < 10 /\ hex_digit_val (48 + c) = Some c)
  \/ (10 <= c /\ hex_digit_val (97 + c - 10) = Some c
      /\ hex_digit_val (65 + c - 10) = Some c).
Proof.
  intros H.
  assert (c = 0 \/ c = 1 \/ c = 2 \/ c = 3 \/ c = 4 \/ c = 5 \/ c = 6 \/ c = 7
          \/ c = 8 \/ c = 9 \/ c = 10 \/ c = 11 \/ c = 12 \/ c = 13
          \/ c = 14 \/ c = 15) as D by lia.
  repeat (destruct D as [D|D];
          [subst c;
           first [ left; split; [lia | reflexivity]
                 | right; split; [lia | split; reflexivity] ] |]).
  subst c. right. split; [lia | split; reflexivity].
Qed.

Lemma hex_loop_returns minwidth : forall fuel val s,
  0 <= val ->
  (Z.to_nat (minwidth - len s) + hex_measure val <= fuel)%nat ->
  returns (hex_loop fuel minwidth val s) (hex_loop_post minwidth val s).
Proof.
  induction fuel as [|fuel IH]; intros val s Hval Hfuel.
  - (* no iteration left: the loop condition is false *)
    assert (Hw : minwidth - len s <= 0) by lia.
    assert (Hv : val = 0).
    { unfold hex_measure in Hfuel. destruct (Z.ltb_spec 0 val); lia. }
    subst val. simpl.
    destruct (Z.ltb_spec (len s) minwidth); [lia|]. simpl.
    apply returns_ret. exists [].
    unfold len in *. simpl.
    repeat split; try reflexivity; try lia.
  - simpl.
    destruct ((len s <? minwidth) || (0 <? val)) eqn:Econd.
    + assert (Hc : 0 <= val mod 16 < 16) by (apply Z.mod_pos_bound; lia).
      assert (Hdiv : 0 <= val / 16) by (apply Z.div_pos; lia).
      assert (Hstep : forall ch,
        hex_digit_val ch = Some (val mod 16) ->
        returns (hex_loop fuel minwidth (val / 16) (ch :: s))
                (hex_loop_post minwidth val s)).
      { intros ch Hch.
        eapply returns_weaken.
        - apply IH; [exact Hdiv|].
          assert (Hlen : len (ch :: s) = len s + 1)
            by (unfold len; simpl length; lia).
          rewrite Hlen.
          apply orb_true_iff in Econd. destruct Econd as [E|E].
          + apply Z.ltb_lt in E.
            destruct (Z.ltb_spec 0 val) as [Hp|Hp].
            * pose proof (hex_measure_step val Hp). lia.
            * assert (val = 0) by lia. subst val.
              change (0 / 16) with 0. unfold hex_measure in *. simpl in *. lia.
          + apply Z.ltb_lt in E. pose proof (hex_measure_step val E). lia.
        - intros s' (t & Hs' & Hhex & Hvalue & Hmin & Hmax).
          assert (Hlen : len (ch :: s) = len s + 1)
            by (unfold len; simpl length; lia).
          rewrite Hlen in *.
          exists (t ++ [ch]). rewrite <- app_assoc. simpl.
          split; [exact Hs'|].
          split.
          { rewrite forallb_app, Hhex. simpl. unfold is_hex_digit.
            rewrite Hch. reflexivity. }
          split.
          { rewrite hex_value_snoc, Hch, Hvalue.
            pose proof (Z.div_mod val 16). lia. }
          assert (Hlt : len (t ++ [ch]) = len t + 1).
          { unfold len. rewrite length_app. simpl. lia. }
          rewrite Hlt. split; [lia|].
          intros k Hk Hwk Hvk.
          assert (Hk1 : 1 <= k).
          { apply orb_true_iff in Econd. destruct Econd as [E|E];
              apply Z.ltb_lt in E; [lia|].
            destruct (Z.eq_dec k 0) as [->|]; [simpl in Hvk; lia | lia]. }
          assert (len t <= k - 1); [|lia].
          apply Hmax; [lia | lia |].
          apply Z.div_lt_upper_bound; [lia|].
          replace (16 * 16 ^ (k - 1)) with (16 ^ k); [exact Hvk|].
          replace k with (Z.succ (k - 1)) at 1 by lia.
          rewrite Z.pow_succ_r by lia. reflexivity. }
      destruct (hex_digit_cases _ Hc) as [[Hlt Hd]|[Hge [Hlo Hup]]].
      * destruct (Z.ltb_spec (val mod 16) 10); [|lia].
        rewrite str_int_digit by lia. simpl. apply Hstep, Hd.
      * destruct (Z.ltb_spec (val mod 16) 10); [lia|].
        eapply returns_bind; [apply returns_randint; lia|].
        intros r _. unfold chr. simpl.
        destruct (r =? 0); apply Hstep; assumption.
    + apply orb_false_iff in Econd. destruct Econd as [E1 E2].
      apply Z.ltb_ge in E1. apply Z.ltb_ge in E2.
      assert (val = 0) by lia. subst val.
      apply returns_ret. exists [].
      unfold len in *. simpl.
      repeat split; try reflexivity; try lia.
Qed.

Lemma rand_format_hex_returns val minwidth :
  0 <= val ->
  returns (_rand_format_hex val minwidth)
    (fun h => forallb is_hex_digit h = true
              /\ hex_value h = val
              /\ minwidth <= len h
              /\ forall k, 0 <= k -> minwidth <= k -> val < 16 ^ k ->
                           len h <= k).
Proof.
  intros Hval. unfold _rand_format_hex.
  eapply returns_weaken.
  - apply (hex_loop_returns minwidth); [exact Hval|].
    unfold hex_iterations, hex_measure, len. simpl length.
    destruct (0 <? val); lia.
  - intros h (t & Hh & Hhex & Hv & Hmin & Hmax).
    rewrite app_nil_r in Hh. subst t.
    unfold len in Hmin, Hmax. simpl length in Hmin, Hmax.
    split; [exact Hhex|]. split; [exact Hv|]. unfold len.
    split; [lia|].
    intros k Hk Hw Hlt. apply Hmax; lia.
Qed.

(** ** The characters of the lexical generators *)

Ltac char_lia :=
  unfold is_doc_char, is_spec_char, is_scalar, is_bare_char, is_literal_char,
    is_basic_unescaped, between in *;
  repeat rewrite ?orb_true_iff, ?andb_true_iff, ?negb_true_iff, ?Z.eqb_eq,
    ?Z.eqb_neq, ?Z.leb_le in *;
  lia.

Lemma doc_ok_nil : doc_ok [].
Proof. reflexivity. Qed.

Lemma doc_ok_app a b : doc_ok a -> doc_ok b -> doc_ok (a ++ b).
Proof. unfold doc_ok. intros Ha Hb. rewrite forallb_app, Ha, Hb. reflexivity. Qed.

Lemma doc_ok_cons c s : is_doc_char c = true -> doc_ok s -> doc_ok (c :: s).
Proof. unfold doc_ok. simpl. intros -> ->. reflexivity. Qed.

Lemma doc_ok_snoc s c : doc_ok s -> is_doc_char c = true -> doc_ok (s ++ [c]).
Proof.
  intros Hs Hc. apply doc_ok_app; [exact Hs|].
  apply doc_ok_cons; [exact Hc | apply doc_ok_nil].
Qed.

Lemma doc_ok_concat l : Forall doc_ok l -> doc_ok (concat l).
Proof.
  induction 1 as [|x l Hx Hl IH]; simpl; [apply doc_ok_nil|].
  apply doc_ok_app; assumption.
Qed.

Lemma Forall_snoc {A} (P : A -> Prop) l x :
  Forall P l -> P x -> Forall P (l ++ [x]).
Proof. intros Hl Hx. apply Forall_app. split; [exact Hl | constructor; auto]. Qed.

Lemma forallb_of_members {A} (f : A -> bool) population l :
  forallb f population = true ->
  Forall (fun x => In x population) l -> forallb f l = true.
Proof.
  intros Hp Hl. rewrite forallb_forall in *. rewrite Forall_forall in Hl.
  intros x Hx. apply Hp, Hl, Hx.
Qed.

Lemma in_forallb {A} (f : A -> bool) l x :
  forallb f l = true -> In x l -> f x = true.
Proof. intros H Hx. rewrite forallb_forall in H. auto. Qed.

Lemma gen_newline_returns :
  returns _gen_newline (fun s => s = [0x0a] \/ s = [0x0d; 0x0a]).
Proof.
  eapply returns_weaken; [apply returns_choice; discriminate|].
  simpl. intros s [H|[H|[]]]; auto.
Qed.

Lemma gen_newline_doc_ok : returns _gen_newline doc_ok.
Proof.
  eapply returns_weaken; [apply gen_newline_returns|].
  intros s [->| ->]; reflexivity.
Qed.

(** White space is a run of tabs and spaces. *)
Lemma gen_ws_returns :
  returns _gen_ws (fun s => forallb (fun c => (c =? 0x09) || (c =? 0x20)) s = true).
Proof.
  unfold _gen_ws.
  eapply returns_bind; [apply returns_rand_exp; unfold MAX_WS_LEN; lia|].
  cbv beta. intros n Hn.
  destruct (n =? 0).
  - apply returns_ret. reflexivity.
  - eapply returns_weaken; [apply returns_choices; discriminate|].
    cbv beta. intros l [Hl _].
    eapply forallb_of_members; [|exact Hl]. reflexivity.
Qed.

Lemma forallb_impl {A} (f g : A -> bool) l :
  (forall x, f x = true -> g x = true) ->
  forallb f l = true -> forallb g l = true.
Proof.
  intros H. rewrite !forallb_forall. intros Hf x Hx. auto.
Qed.

Lemma gen_ws_doc_ok : returns _gen_ws doc_ok.
Proof.
  eapply returns_weaken; [apply gen_ws_returns|].
  intros s. apply forallb_impl. intros c Hc. char_lia.
Qed.

(** A comment is [#] followed by characters of the charset bound, none of
    them a newline. *)
Lemma gen_comment_returns :
  returns _gen_comment (fun s => forallb is_spec_char s = true).
Proof.
  unfold _gen_comment.
  eapply returns_bind; [apply returns_rand_exp; unfold MAX_COMMENT_LEN; lia|].
  cbv beta. intros n Hn.
  eapply returns_bind; [apply returns_choices; discriminate|].
  cbv beta. intros char_types [Htypes _].
  eapply returns_bind.
  - apply (returns_for_each (fun l => forallb is_spec_char l = true)
             (fun _ => True)); [reflexivity | | ].
    + apply Forall_forall. auto.
    + intros t acc _ Hacc.
      eapply returns_bind with (P := fun c => is_spec_char c = true).
      * destruct (t =? 1).
        { eapply returns_weaken; [apply returns_choice; discriminate|].
          cbv beta. intros c Hc.
          eapply in_forallb; [|exact Hc]. reflexivity. }
        destruct (t =? 2).
        { eapply returns_weaken; [apply returns_choice; discriminate|].
          cbv beta. intros c Hc.
          eapply in_forallb; [|exact Hc]. reflexivity. }
        destruct (t =? 3).
        { eapply returns_weaken; [apply returns_randint; lia|].
          cbv beta. intros c Hc. char_lia. }
        destruct (t =? 4).
        { eapply returns_weaken; [apply returns_randint; lia|].
          cbv beta. intros c Hc. char_lia. }
        eapply returns_weaken; [apply returns_randint; lia|].
        cbv beta. intros c Hc. char_lia.
      * cbv beta. intros c Hc. apply returns_ret.
        rewrite forallb_app, Hacc. simpl. rewrite Hc. reflexivity.
  - cbv beta. intros chars Hchars. apply returns_ret.
    simpl. exact Hchars.
Qed.

Lemma spec_char_doc_ok s : forallb is_spec_char s = true -> doc_ok s.
Proof.
  apply forallb_impl. intros c Hc. unfold is_doc_char. rewrite Hc.
  apply orb_true_r.
Qed.

Lemma gen_comment_doc_ok : returns _gen_comment doc_ok.
Proof.
  eapply returns_weaken; [apply gen_comment_returns | apply spec_char_doc_ok].
Qed.

(** ** Basic and literal strings *)

Lemma unicode_escape_returns c r :
  0 <= c <= 0x10ffff ->
  returns (unicode_escape c r) (unicode_escape_of c).
Proof.
  intros Hc. unfold unicode_escape.
  destruct ((c <? 0x10000) && Qltb r (dbl (9 # 10))) eqn:E.
  - apply andb_true_iff in E. destruct E as [E _]. apply Z.ltb_lt in E.
    eapply returns_bind; [apply rand_format_hex_returns; lia|].
    cbv beta. intros h (Hhex & Hv & Hmin & Hmax).
    apply returns_ret. exists h. split; [exact Hhex|]. split; [exact Hv|].
    left. split; [reflexivity|]. split; [|exact E].
    specialize (Hmax 4). change (16 ^ 4) with 0x10000 in Hmax. lia.
  - eapply returns_bind; [apply rand_format_hex_returns; lia|].
    cbv beta. intros h (Hhex & Hv & Hmin & Hmax).
    apply returns_ret. exists h. split; [exact Hhex|]. split; [exact Hv|].
    right. split; [reflexivity|].
    specialize (Hmax 8). change (16 ^ 8) with 0x100000000 in Hmax. lia.
Qed.

Lemma unicode_escape_unit c e :
  unicode_escape_of c e ->
  exists x rest, e = 0x5c :: x :: rest
                 /\ In x escape_letters
                 /\ forallb is_hex_digit rest = true.
Proof.
  intros (rest & Hhex & _ & [[-> _]|[-> _]]).
  - exists 117, rest. split; [reflexivity|]. split; [|exact Hhex].
    unfold escape_letters. simpl. tauto.
  - exists 85, rest. split; [reflexivity|]. split; [|exact Hhex].
    unfold escape_letters. simpl. tauto.
Qed.

Lemma gen_basic_char_returns :
  returns _gen_basic_char
    (fun r => basic_char_unit (fst r)
              /\ exists c, snd r = [c] /\ is_scalar c = true).
Proof.
  unfold _gen_basic_char.
  eapply returns_bind; [apply returns_random|]. intros r _.
  destruct (Qltb r (half * PROB_ESCAPE_CHAR)).
  - eapply returns_bind; [apply returns_randint; vm_compute; discriminate|].
    cbv beta. intros i Hi.
    assert (Hin : In (nth (Z.to_nat i) ESCAPE_CHARS (0, [])) ESCAPE_CHARS).
    { apply nth_In. unfold len in Hi. simpl in Hi. simpl. lia. }
    destruct (nth (Z.to_nat i) ESCAPE_CHARS (0, [])) as [c escsym].
    apply returns_ret. simpl fst; simpl snd.
    unfold ESCAPE_CHARS in Hin. simpl in Hin.
    repeat (destruct Hin as [Hin|Hin];
            [inversion Hin; subst; split;
             [right; eexists _, []; split; [reflexivity|]; split;
              [unfold escape_letters; simpl; tauto | reflexivity]
             | eexists; split; [reflexivity | reflexivity]] |]).
    contradiction.
  - destruct (Qltb r PROB_ESCAPE_CHAR).
    + eapply returns_bind; [apply returns_random|]. intros r2 _.
      eapply returns_bind with (P := fun c => 0 <= c <= 0x10ffff
                                             /\ is_scalar c = true).
      * destruct (Qltb r2 half);
          (eapply returns_weaken; [apply returns_randint; lia|]);
          cbv beta; intros c Hc; (split; [lia | char_lia]).
      * cbv beta. intros c [Hc Hs].
        eapply returns_bind; [apply unicode_escape_returns; exact Hc|].
        intros e He. apply returns_ret. simpl. split.
        { right. apply (unicode_escape_unit c), He. }
        eexists; split; [reflexivity | exact Hs].
    + eapply returns_bind; [apply returns_random|]. intros r2 _.
      eapply returns_bind with (P := fun c => is_basic_unescaped c = true).
      * destruct (Qltb r2 (dbl (1 # 10))).
        { eapply returns_bind; [apply returns_randint; lia|].
          cbv beta. intros c Hc. apply returns_ret.
          destruct (Z.eqb_spec c 0x22); [reflexivity | char_lia]. }
        destruct (Qltb r2 (dbl (8 # 10))).
        { eapply returns_bind; [apply returns_randint; lia|].
          cbv beta. intros c Hc. apply returns_ret.
          destruct (Z.eqb_spec c 0x5c); [reflexivity | char_lia]. }
        destruct (Qltb r2 (dbl (9 # 10)));
          (eapply returns_weaken; [apply returns_randint; lia|]);
          cbv beta; intros c Hc; char_lia.
      * cbv beta. intros c Hc. apply returns_ret. simpl. split.
        { left. exists c. auto. }
        exists c. split; [reflexivity | char_lia].
Qed.

Lemma hex_digit_doc_char c : is_hex_digit c = true -> is_spec_char c = true.
Proof.
  unfold is_hex_digit, hex_digit_val.
  destruct (between 48 c 57) eqn:E1; [intros _; char_lia|].
  destruct (between 97 c 102) eqn:E2; [intros _; char_lia|].
  destruct (between 65 c 70) eqn:E3; [intros _; char_lia | discriminate].
Qed.

Lemma basic_unescaped_spec_char c :
  is_basic_unescaped c = true -> is_spec_char c = true.
Proof. intros H. char_lia. Qed.

Lemma bare_char_cases c :
  is_bare_char c = true ->
  c = 45 \/ c = 95 \/ 0x30 <= c <= 0x39 \/ 97 <= c <= 122 \/ 65 <= c <= 90.
Proof.
  unfold is_bare_char, char_in. change (py "-_") with [45; 95].
  cbn [existsb]. unfold between.
  repeat rewrite ?orb_true_iff, ?andb_true_iff, ?Z.eqb_eq, ?Z.leb_le.
  intros H. intuition (try discriminate; auto).
Qed.

Lemma bare_spec_char c : is_bare_char c = true -> is_spec_char c = true.
Proof. intros H. apply bare_char_cases in H. char_lia. Qed.

Lemma bare_scalar c : is_bare_char c = true -> is_scalar c = true.
Proof. intros H. apply bare_char_cases in H. char_lia. Qed.

Lemma literal_scalar c : is_literal_char c = true -> is_scalar c = true.
Proof. intros H. char_lia. Qed.

Lemma literal_spec_char c : is_literal_char c = true -> is_spec_char c = true.
Proof. intros H. char_lia. Qed.

(** The text of a basic character has no newline in it. *)
Lemma basic_char_unit_spec_chars d :
  basic_char_unit d -> forallb is_spec_char d = true.
Proof.
  intros [(c & -> & Hc)|(x & rest & -> & Hx & Hrest)].
  - simpl. rewrite (basic_unescaped_spec_char _ Hc). reflexivity.
  - simpl. rewrite (forallb_impl _ _ _ hex_digit_doc_char Hrest).
    rewrite (in_forallb is_spec_char escape_letters x eq_refl Hx).
    reflexivity.
Qed.

Lemma forallb_concat {A} (f : A -> bool) l :
  Forall (fun s => forallb f s = true) l -> forallb f (concat l) = true.
Proof.
  induction 1 as [|x l Hx Hl IH]; simpl; [reflexivity|].
  rewrite forallb_app, Hx, IH. reflexivity.
Qed.

(** A basic string: quotes around basic characters; its value is a string
    of Unicode scalar values. *)
Lemma gen_basic_string_returns :
  returns _gen_basic_string
    (fun r => (exists units, fst r = 0x22 :: concat units ++ [0x22]
                             /\ Forall basic_char_unit units)
              /\ forallb is_scalar (snd r) = true).
Proof.
  unfold _gen_basic_string.
  eapply returns_bind; [apply returns_rand_exp; unfold MAX_STRING_LEN; lia|].
  cbv beta. intros n Hn.
  eapply returns_bind.
  - apply (returns_for_range
             (fun acc => Forall basic_char_unit (fst acc)
                         /\ forallb is_scalar (concat (snd acc)) = true)).
    + simpl. auto.
    + intros j [docs vals] [Hd Hv].
      eapply returns_bind; [apply gen_basic_char_returns|].
      cbv beta. intros [d v] [Hunit (c & Hvc & Hs)]. simpl in *. subst v.
      apply returns_ret. simpl. split.
      * apply Forall_snoc; assumption.
      * rewrite concat_app, forallb_app, Hv. simpl. rewrite Hs. reflexivity.
  - cbv beta. intros [docs vals] [Hd Hv]. apply returns_ret. simpl.
    split; [|exact Hv]. exists docs. auto.
Qed.

Lemma gen_literal_char_returns :
  returns _gen_literal_char
    (fun s => exists c, s = [c] /\ is_literal_char c = true).
Proof.
  unfold _gen_literal_char.
  eapply returns_bind; [apply returns_random|]. intros r _.
  eapply returns_bind with (P := fun c => is_literal_char c = true).
  - destruct (Qltb r (dbl (1 # 10))).
    { eapply returns_bind; [apply returns_randint; lia|].
      cbv beta. intros c Hc. apply returns_ret.
      destruct (Z.eqb_spec c 0x27); [reflexivity | char_lia]. }
    destruct (Qltb r (dbl (8 # 10))).
    { eapply returns_weaken; [apply returns_randint; lia|].
      cbv beta; intros c Hc; char_lia. }
    destruct (Qltb r (dbl (9 # 10)));
      (eapply returns_weaken; [apply returns_randint; lia|]);
      cbv beta; intros c Hc; char_lia.
  - cbv beta. intros c Hc. apply returns_ret. exists c. auto.
Qed.

(** A literal string: single quotes around literal characters, which are
    the value. *)
Lemma gen_literal_string_returns :
  returns _gen_literal_string
    (fun r => fst r = 0x27 :: snd r ++ [0x27]
              /\ forallb is_literal_char (snd r) = true).
Proof.
  unfold _gen_literal_string.
  eapply returns_bind; [apply returns_rand_exp; unfold MAX_STRING_LEN; lia|].
  cbv beta. intros n Hn.
  eapply returns_bind.
  - apply (returns_for_range
             (fun chars => forallb is_literal_char (concat chars) = true)).
    + reflexivity.
    + intros j chars Hchars.
      eapply returns_bind; [apply gen_literal_char_returns|].
      cbv beta. intros s (c & -> & Hc). apply returns_ret.
      rewrite concat_app, forallb_app, Hchars. simpl. rewrite Hc. reflexivity.
  - cbv beta. intros chars Hchars. apply returns_ret. simpl. auto.
Qed.

(** ** Multi-line strings: what an iteration does *)

Lemma nonempty_true {A} (l : list A) : nonempty l = true <-> l <> [].
Proof. destruct l; simpl; split; congruence. Qed.

Lemma ml_basic_char_yields fuel allow_ws :
  yields (ml_basic_char fuel allow_ws)
    (fun r => basic_char_unit (fst r)
              /\ (allow_ws = false -> str_in (fst r) [0x09; 0x20] = false)
              /\ exists c, snd r = [c] /\ is_scalar c = true).
Proof.
  induction fuel as [|fuel IH]; [apply yields_diverge|].
  cbn [ml_basic_char].
  eapply yields_bind; [apply returns_yields, gen_basic_char_returns|].
  cbv beta. intros [d v] [Hd Hv]. cbn [fst snd] in Hd, Hv.
  destruct (allow_ws || negb (str_in d [0x09; 0x20])) eqn:E.
  - apply yields_ret. cbn [fst snd]. split; [exact Hd|]. split; [|exact Hv].
    intros ->. cbn [orb] in E. apply negb_true_iff in E. exact E.
  - exact IH.
Qed.

Lemma gen_ws_newline_chars :
  returns (ws <- _gen_ws ;; eol <- _gen_newline ;; ret (ws ++ eol))
    (fun s => s <> [] /\ forallb is_ws_nl_char s = true).
Proof.
  eapply returns_bind; [apply gen_ws_returns|]. cbv beta. intros ws Hws.
  eapply returns_bind; [apply gen_newline_returns|]. cbv beta. intros eol Heol.
  apply returns_ret. split.
  - destruct Heol as [->| ->]; destruct ws; discriminate.
  - rewrite forallb_app. apply andb_true_iff. split.
    + revert Hws. apply forallb_impl. intros c Hc.
      unfold is_ws_nl_char. apply orb_true_iff in Hc.
      destruct Hc as [->| ->]; reflexivity || (rewrite !orb_true_r; reflexivity).
    + destruct Heol as [->| ->]; reflexivity.
Qed.

Lemma ml_basic_iteration_yields fuel st :
  yields (ml_basic_iteration fuel st) (ml_basic_step st).
Proof.
  unfold ml_basic_iteration.
  eapply yields_bind; [apply returns_yields, returns_random|]. intros r _.
  destruct (allow_quote st && Qltb r PROB_ML_QUOTE) eqn:Equote.
  - apply andb_true_iff in Equote. destruct Equote as [Eq _].
    apply yields_ret.
    destruct (Qltb r (half * PROB_ML_QUOTE)).
    + apply (basic_step_quote _ _ [[0x22]; [0x22]]); simpl; auto;
        rewrite <- app_assoc; reflexivity.
    + apply (basic_step_quote _ _ [[0x22]]); simpl; auto.
  - eapply yields_bind; [apply returns_yields, returns_random|]. intros r2 _.
    cbn [val_chars allow_whitespace ml_flags].
    destruct (Qltb r2 PROB_ML_NEWLINE && nonempty (val_chars st)
              && allow_whitespace st) eqn:Enl.
    + apply andb_true_iff in Enl. destruct Enl as [Enl Ews].
      apply andb_true_iff in Enl. destruct Enl as [_ Eval].
      apply nonempty_true in Eval.
      eapply yields_bind; [apply returns_yields, gen_newline_returns|].
      cbv beta. intros eol Heol. apply yields_ret.
      apply (basic_step_newline _ _ eol); simpl; auto.
    + destruct (Qltb r2 (dbl (PROB_ML_NEWLINE + PROB_ML_ESCAPED_NEWLINE))).
      * eapply yields_bind; [apply returns_yields, gen_ws_returns|].
        cbv beta. intros ws Hws.
        eapply yields_bind; [apply returns_yields, gen_newline_returns|].
        cbv beta. intros eol Heol.
        eapply yields_bind;
          [apply returns_yields, returns_randint; lia|].
        cbv beta. intros k Hk.
        assert (Hws' : forallb is_ws_nl_char ws = true).
        { revert Hws. apply forallb_impl. intros c Hc.
          unfold is_ws_nl_char. apply orb_true_iff in Hc.
          destruct Hc as [->| ->];
            reflexivity || (rewrite !orb_true_r; reflexivity). }
        assert (Heol' : eol <> [] /\ forallb is_ws_nl_char eol = true).
        { destruct Heol as [->| ->]; split; discriminate || reflexivity. }
        eapply yields_bind.
        { apply returns_yields.
          apply (returns_for_range
                   (fun s : ml_state =>
                      exists more,
                        doc_chars s = doc_chars st ++ (0x5c :: ws ++ eol) :: more
                        /\ forallb is_ws_nl_char (concat more) = true
                        /\ val_chars s = val_chars st
                        /\ allow_quote s = true)).
          - exists []. simpl. auto.
          - intros j s (more & Hdoc & Hmore & Hval & Haq).
            eapply returns_bind; [apply gen_ws_returns|].
            cbv beta. intros ws2 Hws2.
            eapply returns_bind; [apply gen_newline_returns|].
            cbv beta. intros eol2 Heol2. apply returns_ret.
            exists (more ++ [ws2 ++ eol2]). simpl.
            rewrite Hdoc. split; [rewrite <- app_assoc; reflexivity|].
            split; [|auto].
            rewrite concat_app, forallb_app, Hmore. simpl.
            rewrite app_nil_r, forallb_app.
            apply andb_true_iff. split.
            + revert Hws2. apply forallb_impl. intros c Hc.
              unfold is_ws_nl_char. apply orb_true_iff in Hc.
              destruct Hc as [->| ->];
                reflexivity || (rewrite !orb_true_r; reflexivity).
            + destruct Heol2 as [->| ->]; reflexivity. }
        cbv beta. intros s (more & Hdoc & Hmore & Hval & Haq).
        eapply yields_bind; [apply returns_yields, gen_ws_returns|].
        cbv beta. intros ws3 Hws3. apply yields_ret.
        apply (basic_step_continuation _ _
                 ((0x5c :: ws ++ eol) :: more ++ [ws3])
                 ((ws ++ eol) ++ concat more ++ ws3)); simpl; auto.
        -- rewrite Hdoc, <- app_assoc. reflexivity.
        -- rewrite concat_app. simpl. rewrite app_nil_r, <- !app_assoc.
           reflexivity.
        -- destruct Heol' as [Hne _]. destruct ws; [|discriminate].
           destruct eol; [congruence | discriminate].
        -- rewrite !forallb_app, Hws', Hmore. simpl.
           destruct Heol' as [_ ->]. simpl.
           revert Hws3. apply forallb_impl. intros c Hc.
           unfold is_ws_nl_char. apply orb_true_iff in Hc.
           destruct Hc as [->| ->];
             reflexivity || (rewrite !orb_true_r; reflexivity).
      * eapply yields_bind; [apply ml_basic_char_yields|].
        cbv beta. intros [d v] (Hd & Hws & c & Hv & Hc). simpl in *. subst v.
        apply yields_ret.
        apply (basic_step_char _ _ d c); simpl; auto.
Qed.

Lemma ml_literal_iteration_returns st :
  returns (ml_literal_iteration st) (ml_literal_step st).
Proof.
  unfold ml_literal_iteration.
  eapply returns_bind; [apply returns_random|]. intros r _.
  destruct (allow_quote st && Qltb r PROB_ML_QUOTE) eqn:Equote.
  - apply andb_true_iff in Equote. destruct Equote as [Eq _].
    apply returns_ret.
    destruct (Qltb r (half * PROB_ML_QUOTE)).
    + apply (literal_step_quote _ _ [[0x27]; [0x27]]); simpl; auto;
        rewrite <- app_assoc; reflexivity.
    + apply (literal_step_quote _ _ [[0x27]]); simpl; auto.
  - eapply returns_bind; [apply returns_random|]. intros r2 _.
    cbn [val_chars allow_whitespace ml_flags].
    destruct (Qltb r2 PROB_ML_NEWLINE && nonempty (val_chars st)) eqn:Enl.
    + apply andb_true_iff in Enl. destruct Enl as [_ Eval].
      apply nonempty_true in Eval.
      eapply returns_bind; [apply gen_newline_returns|].
      cbv beta. intros eol Heol. apply returns_ret.
      apply (literal_step_newline _ _ eol); simpl; auto.
    + eapply returns_bind; [apply gen_literal_char_returns|].
      cbv beta. intros s (c & -> & Hc). apply returns_ret.
      apply (literal_step_char _ _ c); simpl; auto.
Qed.

Lemma ml_leading_newline_returns :
  returns ml_leading_newline
    (fun lead => lead = [] \/ exists eol, is_newline eol /\ lead = [eol]).
Proof.
  unfold ml_leading_newline.
  eapply returns_bind; [apply returns_randint; lia|]. intros b _.
  destruct (0 <? b).
  - eapply returns_bind; [apply gen_newline_returns|].
    cbv beta. intros eol Heol. apply returns_ret. right. exists eol. auto.
  - apply returns_ret. left. reflexivity.
Qed.

(** ** Multi-line strings: the loops *)

(** Whatever an iteration preserves holds of the string that comes out. *)
Lemma gen_ml_basic_string_yields fuel (I : list pystr -> ml_state -> Prop) :
  (forall lead,
      lead = [] \/ (exists eol, is_newline eol /\ lead = [eol]) ->
      I lead (mk_ml_state lead [] true true)) ->
  (forall lead st st', I lead st -> ml_basic_step st st' -> I lead st') ->
  yields (_gen_ml_basic_string fuel)
    (fun r => exists lead st,
         I lead st
         /\ fst r = [0x22; 0x22; 0x22] ++ concat (doc_chars st)
                    ++ [0x22; 0x22; 0x22]
         /\ snd r = concat (val_chars st)).
Proof.
  intros Hinit Hstep. unfold _gen_ml_basic_string.
  eapply yields_bind;
    [apply returns_yields, returns_rand_exp; unfold MAX_MLSTRING_LEN; lia|].
  cbv beta. intros n Hn.
  eapply yields_bind; [apply returns_yields, ml_leading_newline_returns|].
  cbv beta. intros lead Hlead.
  eapply yields_bind.
  - apply (yields_for_range (I lead)); [apply Hinit, Hlead|].
    intros j st Hst.
    eapply yields_weaken; [apply ml_basic_iteration_yields|].
    intros st' Hst'. eapply Hstep; eassumption.
  - cbv beta. intros st Hst. apply yields_ret.
    exists lead, st. simpl. auto.
Qed.

Lemma gen_ml_literal_string_returns (I : list pystr -> ml_state -> Prop) :
  (forall lead,
      lead = [] \/ (exists eol, is_newline eol /\ lead = [eol]) ->
      I lead (mk_ml_state lead [] true true)) ->
  (forall lead st st', I lead st -> ml_literal_step st st' -> I lead st') ->
  returns _gen_ml_literal_string
    (fun r => exists lead st,
         I lead st
         /\ fst r = [0x27; 0x27; 0x27] ++ concat (doc_chars st)
                    ++ [0x27; 0x27; 0x27]
         /\ snd r = concat (val_chars st)).
Proof.
  intros Hinit Hstep. unfold _gen_ml_literal_string.
  eapply returns_bind;
    [apply returns_rand_exp; unfold MAX_MLSTRING_LEN; lia|].
  cbv beta. intros n Hn.
  eapply returns_bind; [apply ml_leading_newline_returns|].
  cbv beta. intros lead Hlead.
  eapply returns_bind.
  - apply (returns_for_range (I lead)); [apply Hinit, Hlead|].
    intros j st Hst.
    eapply returns_weaken; [apply ml_literal_iteration_returns|].
    intros st' Hst'. eapply Hstep; eassumption.
  - cbv beta. intros st Hst. apply returns_ret.
    exists lead, st. simpl. auto.
Qed.

(** ** The quote guard of multi-line strings (claim C5) *)

Lemma scan_quotes_app a : forall st b,
  scan_quotes st (a ++ b)
  = match scan_quotes st a with
    | Some st' => scan_quotes st' b
    | None => None
    end.
Proof.
  induction a as [|c a IH]; intros st b; simpl; [reflexivity|].
  destruct (scan_char st c); [apply IH | reflexivity].
Qed.

Lemma scan_plain s : forall k,
  forallb is_plain s = true ->
  scan_quotes (Run k) s = Some (Run (match s with [] => k | _ => O end)).
Proof.
  induction s as [|c s IH]; intros k H; simpl; [reflexivity|].
  simpl in H. apply andb_true_iff in H. destruct H as [Hc Hs].
  unfold is_plain in Hc. apply andb_true_iff in Hc. destruct Hc as [H1 H2].
  apply negb_true_iff in H1, H2. rewrite H1, H2.
  rewrite (IH O Hs). destruct s; reflexivity.
Qed.

Lemma scan_plain_0 s :
  forallb is_plain s = true -> scan_quotes (Run 0) s = Some (Run 0).
Proof. intros H. rewrite (scan_plain s O H). destruct s; reflexivity. Qed.

Lemma scan_plain_nonempty s k :
  s <> [] -> forallb is_plain s = true -> scan_quotes (Run k) s = Some (Run 0).
Proof.
  intros Hne H. rewrite (scan_plain s k H). destruct s; congruence.
Qed.

Lemma hex_digit_plain c : is_hex_digit c = true -> is_plain c = true.
Proof.
  intros H. unfold is_plain.
  destruct (Z.eqb_spec c 0x5c) as [->|]; [vm_compute in H; discriminate|].
  destruct (Z.eqb_spec c 0x22) as [->|]; [vm_compute in H; discriminate|].
  reflexivity.
Qed.

Lemma ws_nl_plain c : is_ws_nl_char c = true -> is_plain c = true.
Proof.
  unfold is_ws_nl_char, is_plain. intros H.
  repeat rewrite orb_true_iff in H. rewrite !Z.eqb_eq in H.
  destruct H as [[[->| ->]| ->]| ->]; reflexivity.
Qed.

Lemma scan_basic_char_unit d k :
  basic_char_unit d -> scan_quotes (Run k) d = Some (Run 0).
Proof.
  intros [(c & -> & Hc)|(x & rest & -> & Hx & Hrest)].
  - apply scan_plain_nonempty; [discriminate|]. simpl.
    rewrite andb_true_r. unfold is_plain.
    destruct (Z.eqb_spec c 0x5c) as [->|]; [discriminate|].
    destruct (Z.eqb_spec c 0x22) as [->|]; [discriminate | reflexivity].
  - simpl. apply scan_plain_0.
    revert Hrest. apply forallb_impl, hex_digit_plain.
Qed.

Lemma scan_newline eol k :
  is_newline eol -> scan_quotes (Run k) eol = Some (Run 0).
Proof. intros [->| ->]; reflexivity. Qed.

Lemma basic_quote_inv_step st st' :
  basic_quote_inv st -> ml_basic_step st st' -> basic_quote_inv st'.
Proof.
  intros (k & Hscan & Hk) Hstep. unfold basic_quote_inv.
  destruct Hstep as
    [units Haq Hunits Hdoc Hval Haq' Hws'
    |eol Hne Hws Heol Hdoc Hval Haq' Hws'
    |units w Hdoc Hcat Hne Hw Hval Haq' Hws'
    |d c Hd Hnows Hc Hdoc Hval Haq' Hws'];
    rewrite Hdoc, concat_app, scan_quotes_app, Hscan.
  - rewrite (Hk Haq).
    destruct Hunits as [->| ->]; simpl; eexists; (split; [reflexivity|]);
      rewrite Haq'; discriminate.
  - simpl. rewrite app_nil_r, (scan_newline _ _ Heol). eauto.
  - rewrite Hcat. simpl. destruct w as [|c w]; [congruence|]. simpl.
    exists O. split; [|reflexivity]. apply scan_plain_0.
    simpl in Hw. apply andb_true_iff in Hw. destruct Hw as [_ Hw].
    revert Hw. apply forallb_impl, ws_nl_plain.
  - simpl. rewrite app_nil_r, (scan_basic_char_unit _ _ Hd). eauto.
Qed.

Lemma quote_run_app q a : forall k b,
  quote_run q k (a ++ b)
  = match quote_run q k a with
    | Some k' => quote_run q k' b
    | None => None
    end.
Proof.
  induction a as [|c a IH]; intros k b; simpl; [reflexivity|].
  destruct (c =? q); [destruct (k <? 2)%nat|]; auto.
Qed.

Lemma has_triple_cons3 q a b c s :
  has_triple q (a :: b :: c :: s)
  = ((a =? q) && (b =? q) && (c =? q)) || has_triple q (b :: c :: s).
Proof. reflexivity. Qed.

Lemma has_triple_after_other q c s :
  c <> q -> has_triple q s = false ->
  has_triple q (c :: s) = false /\ has_triple q (q :: c :: s) = false
  /\ has_triple q (q :: q :: c :: s) = false.
Proof.
  intros Hc Hs. apply Z.eqb_neq in Hc.
  assert (H0 : has_triple q (c :: s) = false).
  { destruct s as [|b [|c2 s]]; try reflexivity.
    rewrite has_triple_cons3, Hc. simpl. exact Hs. }
  assert (H1 : has_triple q (q :: c :: s) = false).
  { destruct s as [|b s]; [reflexivity|].
    rewrite has_triple_cons3, Hc, andb_false_r. simpl. exact H0. }
  split; [exact H0|]. split; [exact H1|].
  rewrite has_triple_cons3, Hc, andb_false_r. simpl. exact H1.
Qed.

Lemma repeat_snoc {A} (x : A) n : repeat x n ++ [x] = x :: repeat x n.
Proof. induction n as [|n IH]; simpl; [reflexivity | rewrite IH; reflexivity]. Qed.

Lemma quote_run_no_triple q s : forall k k',
  (k <= 2)%nat -> quote_run q k s = Some k' ->
  has_triple q (repeat q k ++ s) = false.
Proof.
  induction s as [|c s IH]; intros k k' Hk H.
  - rewrite app_nil_r.
    destruct k as [|[|[|k]]]; try reflexivity; lia.
  - simpl in H. destruct (Z.eqb_spec c q) as [->|Hne].
    + destruct (Nat.ltb_spec k 2); [|discriminate].
      replace (repeat q k ++ q :: s) with (repeat q (S k) ++ s).
      * apply (IH (S k) k'); [lia | exact H].
      * change (repeat q (S k)) with (q :: repeat q k).
        rewrite <- repeat_snoc, <- app_assoc. reflexivity.
    + pose proof (IH O k' ltac:(lia) H) as Hs. simpl in Hs.
      destruct (has_triple_after_other q c s Hne Hs) as (H0 & H1 & H2).
      destruct k as [|[|[|k]]]; simpl; auto; lia.
Qed.

Lemma quote_run_plain q s : forall k,
  forallb (fun c => negb (c =? q)) s = true -> s <> [] ->
  quote_run q k s = Some O.
Proof.
  induction s as [|c s IH]; intros k H Hne; [congruence|].
  simpl in H. apply andb_true_iff in H. destruct H as [Hc Hs].
  apply negb_true_iff in Hc. simpl. rewrite Hc.
  destruct s as [|c2 s]; [reflexivity|]. apply IH; [exact Hs | discriminate].
Qed.

Lemma literal_quote_inv_step st st' :
  literal_quote_inv st -> ml_literal_step st st' -> literal_quote_inv st'.
Proof.
  intros (k & Hrun & Hk) Hstep. unfold literal_quote_inv.
  destruct Hstep as
    [units Haq Hunits Hdoc Hval Haq'
    |eol Hne Heol Hdoc Hval Haq'
    |c Hc Hdoc Hval Haq'];
    rewrite Hdoc, concat_app, quote_run_app, Hrun.
  - rewrite (Hk Haq).
    destruct Hunits as [->| ->]; simpl; eexists; (split; [reflexivity|]);
      rewrite Haq'; discriminate.
  - simpl. rewrite app_nil_r. exists O. split; [|reflexivity].
    destruct Heol as [->| ->]; reflexivity.
  - simpl. exists O. split; [|reflexivity].
    assert ((c =? 0x27) = false) as ->; [|reflexivity].
    destruct (Z.eqb_spec c 0x27) as [->|]; [discriminate | reflexivity].
Qed.

(** C5, as the code has it: in the body of a multi-line basic string three
    unescaped double quotes never come in a row (the quote of the escape
    backslash-quote may be followed by up to two raw quotes, which makes
    three quote characters in a row); the body of a multi-line literal string, which
    always comes out, never contains three single quotes in a row. *)
Theorem ml_string_quote_guard :
  (forall fuel rng doc val rng',
      _gen_ml_basic_string fuel rng = Ok ((doc, val), rng') ->
      exists body, doc = [0x22; 0x22; 0x22] ++ body ++ [0x22; 0x22; 0x22]
                   /\ unescaped_quotes_ok body)
  /\ (forall rng, exists doc val rng',
         _gen_ml_literal_string rng = Ok ((doc, val), rng')
         /\ exists body, doc = [0x27; 0x27; 0x27] ++ body ++ [0x27; 0x27; 0x27]
                         /\ has_triple 0x27 body = false).
Proof.
  split.
  - intros fuel rng doc val rng' E.
    pose proof (gen_ml_basic_string_yields fuel (fun _ => basic_quote_inv))
      as H.
    eapply yields_Ok in H; [| | |exact E].
    + destruct H as (lead & st & Hinv & Hdoc & _). simpl in Hdoc.
      destruct Hinv as (k & Hk & _).
      exists (concat (doc_chars st)). split; [exact Hdoc | exists k; exact Hk].
    + intros lead [->|(eol & Heol & ->)]; unfold basic_quote_inv; simpl.
      * exists O. auto.
      * rewrite app_nil_r, (scan_newline _ _ Heol). eauto.
    + intros lead st st'. apply basic_quote_inv_step.
  - intros rng.
    pose proof (gen_ml_literal_string_returns (fun _ => literal_quote_inv))
      as H.
    destruct (H ltac:(intros lead [->|(eol & [->| ->] & ->)];
                       exists O; simpl; auto)
                ltac:(intros lead st st'; apply literal_quote_inv_step) rng)
      as ([doc val] & rng' & E & lead & st & (k & Hrun & _) & Hdoc & _).
    exists doc, val, rng'. split; [exact E|].
    exists (concat (doc_chars st)). split; [exact Hdoc|].
    apply (quote_run_no_triple 0x27 _ O k); [lia | exact Hrun].
Qed.

Lemma ml_string_quote_guard_witness :
  _gen_ml_basic_string 1 [2; 0; 2 ^ 52; 2 ^ 52; 0; 5; 0]
  = Ok (([0x22; 0x22; 0x22; 0x5c; 0x22; 0x22; 0x22; 0x22; 0x22; 0x22],
         [0x22; 0x22; 0x22]), [])
  /\ exists body,
       [0x22; 0x22; 0x22; 0x5c; 0x22; 0x22; 0x22; 0x22; 0x22; 0x22]
       = [0x22; 0x22; 0x22] ++ body ++ [0x22; 0x22; 0x22]
       /\ unescaped_quotes_ok body.
Proof.
  assert (E : _gen_ml_basic_string 1 [2; 0; 2 ^ 52; 2 ^ 52; 0; 5; 0]
              = Ok (([0x22; 0x22; 0x22; 0x5c; 0x22; 0x22; 0x22; 0x22; 0x22;
                      0x22], [0x22; 0x22; 0x22]), []))
    by (vm_compute; reflexivity).
  split; [exact E|].
  exact (proj1 ml_string_quote_guard _ _ _ _ _ E).
Defined.

(** C5 as stated fails for the basic form: after the escape
    backslash-quote the loop may emit two raw quotes, so the body
    (a backslash and three quotes) holds three double-quote characters in a
    row, and so does the value. *)
Lemma ml_basic_string_three_quotes :
  _gen_ml_basic_string 1 [2; 0; 2 ^ 52; 2 ^ 52; 0; 5; 0]
  = Ok (([0x22; 0x22; 0x22] ++ [0x5c; 0x22; 0x22; 0x22] ++ [0x22; 0x22; 0x22],
         [0x22; 0x22; 0x22]), [])
  /\ has_triple 0x22 [0x5c; 0x22; 0x22; 0x22] = true.
Proof. vm_compute. auto. Qed.

(** ** Raw newlines in multi-line strings (claim C9) *)

Lemma no_leading_newline_app a b :
  no_leading_newline a -> (a = [] -> no_leading_newline b) ->
  no_leading_newline (a ++ b).
Proof. destruct a; simpl; auto. Qed.

Lemma basic_char_unit_start d :
  basic_char_unit d -> d <> [] /\ no_leading_newline d.
Proof.
  intros [(c & -> & Hc)|(x & rest & -> & _)]; (split; [discriminate|]); simpl.
  - split; intros ->; discriminate.
  - split; discriminate.
Qed.

Lemma body_start_inv_basic lead st st' :
  body_start_inv lead st -> ml_basic_step st st' -> body_start_inv lead st'.
Proof.
  intros (units & Hdoc0 & Hempty & Hstart) Hstep.
  destruct Hstep as
    [new Haq Hnew Hdoc Hval Haq' Hws'
    |eol Hne Hws Heol Hdoc Hval Haq' Hws'
    |new w Hdoc Hcat Hne Hw Hval Haq' Hws'
    |d c Hd Hnows Hc Hdoc Hval Haq' Hws'].
  - exists (units ++ new). rewrite Hdoc, Hdoc0, app_assoc.
    split; [reflexivity|]. rewrite concat_app. split.
    + intros E. apply app_eq_nil in E.
      destruct E as [_ E]. destruct Hnew as [->| ->]; discriminate.
    + apply no_leading_newline_app; [exact Hstart|]. intros _.
      destruct Hnew as [->| ->]; simpl; split; discriminate.
  - exists (units ++ [eol]). rewrite Hdoc, Hdoc0, app_assoc.
    split; [reflexivity|]. rewrite concat_app. split.
    + intros E. apply app_eq_nil in E. destruct E as [_ E].
      destruct Heol as [->| ->]; discriminate.
    + apply no_leading_newline_app; [exact Hstart|]. intros E.
      apply Hempty in E. contradiction.
  - exists (units ++ new). rewrite Hdoc, Hdoc0, app_assoc.
    split; [reflexivity|]. rewrite concat_app, Hcat. split.
    + intros E. apply app_eq_nil in E. destruct E as [_ E]. discriminate.
    + apply no_leading_newline_app; [exact Hstart|]. intros _.
      simpl. split; discriminate.
  - destruct (basic_char_unit_start d Hd) as [Hdne Hds].
    exists (units ++ [d]). rewrite Hdoc, Hdoc0, app_assoc.
    split; [reflexivity|]. rewrite concat_app. simpl. rewrite app_nil_r.
    split.
    + intros E. apply app_eq_nil in E. destruct E as [_ E]. contradiction.
    + apply no_leading_newline_app; [exact Hstart | auto].
Qed.

Lemma body_start_inv_literal lead st st' :
  body_start_inv lead st -> ml_literal_step st st' -> body_start_inv lead st'.
Proof.
  intros (units & Hdoc0 & Hempty & Hstart) Hstep.
  destruct Hstep as
    [new Haq Hnew Hdoc Hval Haq'
    |eol Hne Heol Hdoc Hval Haq'
    |c Hc Hdoc Hval Haq'].
  - exists (units ++ new). rewrite Hdoc, Hdoc0, app_assoc.
    split; [reflexivity|]. rewrite concat_app. split.
    + intros E. apply app_eq_nil in E.
      destruct E as [_ E]. destruct Hnew as [->| ->]; discriminate.
    + apply no_leading_newline_app; [exact Hstart|]. intros _.
      destruct Hnew as [->| ->]; simpl; split; discriminate.
  - exists (units ++ [eol]). rewrite Hdoc, Hdoc0, app_assoc.
    split; [reflexivity|]. rewrite concat_app. split.
    + intros E. apply app_eq_nil in E. destruct E as [_ E].
      destruct Heol as [->| ->]; discriminate.
    + apply no_leading_newline_app; [exact Hstart|]. intros E.
      apply Hempty in E. contradiction.
  - exists (units ++ [[c]]). rewrite Hdoc, Hdoc0, app_assoc.
    split; [reflexivity|]. rewrite concat_app. simpl. split.
    + intros E. apply app_eq_nil in E. destruct E as [_ E]. discriminate.
    + apply no_leading_newline_app; [exact Hstart|]. intros _.
      simpl. split; intros ->; discriminate.
Qed.

Lemma body_start_inv_init lead :
  body_start_inv lead (mk_ml_state lead [] true true).
Proof.
  exists []. simpl. rewrite app_nil_r. auto.
Qed.

Lemma snoc_inj {A} (l : list A) x y : l ++ [x] = l ++ [y] -> x = y.
Proof. intros H. apply app_inv_head in H. congruence. Qed.

Lemma app_not_self {A} (l : list A) x : l <> l ++ [x].
Proof.
  intros H. apply (f_equal (@length A)) in H.
  rewrite length_app in H. simpl in H. lia.
Qed.

Lemma basic_newline_step_needs_value st st' eol :
  ml_basic_step st st' -> is_newline eol ->
  doc_chars st' = doc_chars st ++ [eol] ->
  val_chars st' = val_chars st ++ [[0x0a]] ->
  val_chars st <> [].
Proof.
  intros Hstep Heol Hd Hv.
  destruct Hstep as
    [new Haq Hnew Hdoc Hval Haq' Hws'
    |eol2 Hne Hws Heol2 Hdoc Hval Haq' Hws'
    |new w Hdoc Hcat Hne Hw Hval Haq' Hws'
    |d c Hdu Hnows Hc Hdoc Hval Haq' Hws'].
  - exfalso. rewrite Hdoc in Hd. apply app_inv_head in Hd.
    destruct Hnew as [->| ->]; inversion Hd; subst;
      destruct Heol; discriminate.
  - exact Hne.
  - exfalso. rewrite Hval in Hv. exact (app_not_self _ _ Hv).
  - exfalso. rewrite Hdoc in Hd. apply snoc_inj in Hd. subst d.
    destruct (basic_char_unit_start eol Hdu) as [_ Hs].
    destruct Heol as [->| ->]; simpl in Hs; destruct Hs; congruence.
Qed.

Lemma literal_newline_step_needs_value st st' eol :
  ml_literal_step st st' -> is_newline eol ->
  doc_chars st' = doc_chars st ++ [eol] ->
  val_chars st' = val_chars st ++ [[0x0a]] ->
  val_chars st <> [].
Proof.
  intros Hstep Heol Hd Hv.
  destruct Hstep as
    [new Haq Hnew Hdoc Hval Haq'
    |eol2 Hne Heol2 Hdoc Hval Haq'
    |c Hc Hdoc Hval Haq'].
  - exfalso. rewrite Hdoc in Hd. apply app_inv_head in Hd.
    destruct Hnew as [->| ->]; inversion Hd; subst;
      destruct Heol; discriminate.
  - exact Hne.
  - exfalso. rewrite Hdoc in Hd. apply snoc_inj in Hd. subst eol.
    destruct Heol as [E|E]; inversion E; subst; discriminate.
Qed.

(** C9: an iteration of either multi-line loop that appends a raw newline
    to the document and a line feed to the value started from a non-empty
    value; so the body of the string, after the optional newline that
    follows the opening delimiter and adds nothing to the value, never
    begins with a raw newline. *)
Theorem ml_newline_needs_value :
  (forall fuel st rng st' rng' eol,
      ml_basic_iteration fuel st rng = Ok (st', rng') ->
      is_newline eol ->
      doc_chars st' = doc_chars st ++ [eol] ->
      val_chars st' = val_chars st ++ [[0x0a]] ->
      val_chars st <> [])
  /\ (forall st rng st' rng' eol,
         ml_literal_iteration st rng = Ok (st', rng') ->
         is_newline eol ->
         doc_chars st' = doc_chars st ++ [eol] ->
         val_chars st' = val_chars st ++ [[0x0a]] ->
         val_chars st <> [])
  /\ (forall fuel rng doc val rng',
         _gen_ml_basic_string fuel rng = Ok ((doc, val), rng') ->
         exists lead rest,
           doc = [0x22; 0x22; 0x22] ++ lead ++ rest ++ [0x22; 0x22; 0x22]
           /\ (lead = [] \/ is_newline lead)
           /\ no_leading_newline rest
           /\ (rest = [] -> val = []))
  /\ (forall rng doc val rng',
         _gen_ml_literal_string rng = Ok ((doc, val), rng') ->
         exists lead rest,
           doc = [0x27; 0x27; 0x27] ++ lead ++ rest ++ [0x27; 0x27; 0x27]
           /\ (lead = [] \/ is_newline lead)
           /\ no_leading_newline rest
           /\ (rest = [] -> val = [])).
Proof.
  assert (Hfinal : forall q lead st (doc val : pystr),
    (lead = [] \/ (exists eol, is_newline eol /\ lead = [eol])) ->
    body_start_inv lead st ->
    doc = [q; q; q] ++ concat (doc_chars st) ++ [q; q; q] ->
    val = concat (val_chars st) ->
    exists l rest,
      doc = [q; q; q] ++ l ++ rest ++ [q; q; q]
      /\ (l = [] \/ is_newline l)
      /\ no_leading_newline rest
      /\ (rest = [] -> val = [])).
  { intros q lead st doc val Hlead (units & Hdoc0 & Hempty & Hstart) -> ->.
    exists (concat lead), (concat units).
    rewrite Hdoc0, concat_app, <- app_assoc.
    split; [reflexivity|].
    split.
    { destruct Hlead as [->|(eol & Heol & ->)]; [left; reflexivity|].
      right. simpl. rewrite app_nil_r. exact Heol. }
    split; [exact Hstart|].
    intros E. rewrite (Hempty E). reflexivity. }
  split; [|split; [|split]].
  - intros fuel st rng st' rng' eol E.
    apply basic_newline_step_needs_value.
    exact (yields_Ok _ _ _ _ _ (ml_basic_iteration_yields fuel st) E).
  - intros st rng st' rng' eol E.
    apply literal_newline_step_needs_value.
    exact (returns_Ok _ _ _ _ _ (ml_literal_iteration_returns st) E).
  - intros fuel rng doc val rng' E.
    pose proof (gen_ml_basic_string_yields fuel
                  (fun lead st =>
                     (lead = [] \/ (exists eol, is_newline eol /\ lead = [eol]))
                     /\ body_start_inv lead st)) as H.
    eapply yields_Ok in H; [| | |exact E].
    + destruct H as (lead & st & [Hlead Hinv] & Hdoc & Hval).
      apply (Hfinal 0x22 lead st); assumption.
    + intros lead Hlead. split; [exact Hlead | apply body_start_inv_init].
    + intros lead st st' [Hlead Hinv] Hstep.
      split; [exact Hlead | eapply body_start_inv_basic; eassumption].
  - intros rng doc val rng' E.
    pose proof (gen_ml_literal_string_returns
                  (fun lead st =>
                     (lead = [] \/ (exists eol, is_newline eol /\ lead = [eol]))
                     /\ body_start_inv lead st)) as H.
    eapply returns_Ok in H; [| | |exact E].
    + destruct H as (lead & st & [Hlead Hinv] & Hdoc & Hval).
      apply (Hfinal 0x27 lead st); assumption.
    + intros lead Hlead. split; [exact Hlead | apply body_start_inv_init].
    + intros lead st st' [Hlead Hinv] Hstep.
      split; [exact Hlead | eapply body_start_inv_literal; eassumption].
Qed.

(** ** Rendering a key segment (claim C10) *)

Lemma split_last_snoc {A} (l : list A) x : split_last (l ++ [x]) = Some (l, x).
Proof.
  induction l as [|y l IH]; simpl; [reflexivity|]. rewrite IH. reflexivity.
Qed.

Lemma existsb_negb_false {A} (f : A -> bool) l :
  existsb (fun c => negb (f c)) l = false <-> forallb f l = true.
Proof.
  induction l as [|x l IH]; simpl; [tauto|].
  rewrite orb_false_iff, andb_true_iff, IH, negb_false_iff. tauto.
Qed.

Lemma or_random_below_returns a p :
  returns (or_random_below a p) (fun b => a = true -> b = true).
Proof.
  unfold or_random_below. destruct a.
  - apply returns_ret. auto.
  - eapply returns_bind; [apply returns_random|]. intros r _.
    apply returns_ret. discriminate.
Qed.

Lemma escape_get_short c e :
  escape_get c ESCAPE_CHARS = Some e ->
  exists x, e = [x] /\ short_escape x = Some c.
Proof.
  unfold ESCAPE_CHARS. cbn [escape_get].
  repeat match goal with
         | |- context [?k =? c] => destruct (Z.eqb_spec k c) as [<-|_]
         end;
    intros H; inversion H; subst; eexists; split; reflexivity.
Qed.

Lemma format_basic_key_char_returns c :
  is_scalar c = true ->
  returns (format_basic_key_char c) (renders c).
Proof.
  intros Hc. unfold format_basic_key_char.
  assert (Hrange : 0 <= c <= 0x10ffff) by char_lia.
  eapply returns_bind; [apply returns_random|]. intros r _.
  destruct (negb (is_basic_unescaped c) || Qltb r PROB_ESCAPE_CHAR) eqn:E.
  - eapply returns_bind; [apply returns_random|]. intros r2 _.
    destruct (escape_get c ESCAPE_CHARS) as [e|] eqn:Ee.
    + destruct (Qltb r2 half).
      * apply returns_ret. right. left.
        destruct (escape_get_short c e Ee) as (x & -> & Hx). exists x. auto.
      * eapply returns_weaken; [apply unicode_escape_returns, Hrange|].
        intros u Hu. right. right. exact Hu.
    + eapply returns_weaken; [apply unicode_escape_returns, Hrange|].
      intros u Hu. right. right. exact Hu.
  - apply orb_false_iff in E. destruct E as [E _].
    apply negb_false_iff in E. apply returns_ret. left. auto.
Qed.

Lemma decode_hex h : forall n acc rest out,
  length h = S n -> forallb is_hex_digit h = true ->
  decode_basic (RHex (S n) acc) (h ++ rest) out
  = let v := fold_left (fun a c => 16 * a + match hex_digit_val c with
                                            | Some d => d
                                            | None => 0
                                            end) h acc in
    if is_scalar v then decode_basic RNormal rest (out ++ [v]) else None.
Proof.
  induction h as [|c h IH]; intros n acc rest out Hlen Hhex;
    [discriminate|].
  simpl in Hhex. apply andb_true_iff in Hhex. destruct Hhex as [Hc Hh].
  unfold is_hex_digit in Hc.
  cbn [app decode_basic fold_left].
  destruct (hex_digit_val c) as [d|]; [|discriminate].
  destruct n as [|n].
  - destruct h; [|discriminate]. reflexivity.
  - apply IH; [simpl in Hlen; lia | exact Hh].
Qed.

Lemma decode_unit c u rest out :
  is_scalar c = true -> renders c u ->
  decode_basic RNormal (u ++ rest) out = decode_basic RNormal rest (out ++ [c]).
Proof.
  intros Hc [[-> Hu]|[(e & -> & He)|(h & Hhex & Hv & Hform)]].
  - cbn [app decode_basic]. rewrite Hu.
    destruct (Z.eqb_spec c 0x5c) as [->|]; [discriminate | reflexivity].
  - cbn [app decode_basic]. simpl (0x5c =? 0x5c).
    cbv iota.
    destruct (Z.eqb_spec e 117) as [->|]; [discriminate|].
    destruct (Z.eqb_spec e 85) as [->|]; [discriminate|].
    rewrite He. reflexivity.
  - unfold hex_value in Hv.
    destruct Hform as [(-> & Hlen & _)|(-> & Hlen)];
      change (py "\u" ++ h) with (0x5c :: 117 :: h);
      change (py "\U" ++ h) with (0x5c :: 85 :: h);
      cbn [app decode_basic]; simpl (0x5c =? 0x5c); cbv iota.
    + simpl (117 =? 117). cbv iota.
      rewrite (decode_hex h 3 0); [|unfold len in Hlen; lia | exact Hhex].
      cbv zeta. rewrite Hv, Hc. reflexivity.
    + simpl (85 =? 117). simpl (85 =? 85). cbv iota.
      rewrite (decode_hex h 7 0); [|unfold len in Hlen; lia | exact Hhex].
      cbv zeta. rewrite Hv, Hc. reflexivity.
Qed.

Lemma decode_units s : forall units out,
  forallb is_scalar s = true -> Forall2 renders s units ->
  decode_basic RNormal (concat units) out = Some (out ++ s).
Proof.
  induction s as [|c s IH]; intros units out Hs Hr; inversion Hr; subst.
  - simpl. rewrite app_nil_r. reflexivity.
  - simpl in Hs. apply andb_true_iff in Hs. destruct Hs as [Hc Hs].
    simpl. rewrite (decode_unit c _ _ _ Hc H1), (IH _ _ Hs H3).
    rewrite <- app_assoc. reflexivity.
Qed.

Lemma renders_first c u :
  renders c u -> exists x rest, u = x :: rest /\ is_spec_char x = true
                                /\ forallb is_spec_char rest = true.
Proof.
  intros [[-> Hu]|[(e & -> & He)|Hu]].
  - exists c, []. split; [reflexivity|]. split; [char_lia | reflexivity].
  - exists 0x5c, [e]. split; [reflexivity|]. split; [reflexivity|].
    simpl. rewrite andb_true_r. unfold short_escape in He.
    repeat match type of He with
           | context [e =? ?k] =>
               destruct (Z.eqb_spec e k) as [E|_]; [rewrite E; reflexivity|]
           end.
    discriminate.
  - destruct (unicode_escape_unit c u Hu) as (x & rest & -> & Hx & Hrest).
    exists 0x5c, (x :: rest). split; [reflexivity|]. split; [reflexivity|].
    simpl. rewrite (in_forallb is_spec_char escape_letters x eq_refl Hx).
    simpl. revert Hrest. apply forallb_impl, hex_digit_doc_char.
Qed.

Lemma format_simple_key_returns s :
  forallb is_scalar s = true ->
  returns (_format_simple_key s) (simple_key_rendering s).
Proof.
  intros Hs. unfold _format_simple_key.
  eapply returns_bind; [apply or_random_below_returns|].
  cbv beta. intros quote Hquote.
  destruct quote.
  - eapply returns_bind; [apply or_random_below_returns|].
    cbv beta. intros basic Hbasic.
    destruct basic.
    + eapply returns_bind.
      * apply (returns_for_each_indexed
                 (fun done units => Forall2 renders done units)
                 (fun c => is_scalar c = true) _ s []).
        -- constructor.
        -- apply Forall_forall. intros c Hc.
           exact (in_forallb _ _ _ Hs Hc).
        -- intros c done units Hc Hdone.
           eapply returns_bind; [apply format_basic_key_char_returns, Hc|].
           cbv beta. intros u Hu. apply returns_ret.
           apply Forall2_app; [exact Hdone|].
           constructor; [exact Hu | constructor].
      * cbv beta. intros units Hdone. apply returns_ret.
        right. right. exists units. split; [reflexivity | exact Hdone].
    + apply returns_ret. right. left. split; [reflexivity|].
      destruct (existsb (fun c => negb (is_literal_char c)) s) eqn:E.
      * discriminate (Hbasic eq_refl).
      * apply existsb_negb_false, E.
  - apply returns_ret. left. split; [reflexivity|].
    destruct ((len s =? 0) || existsb (fun c => negb (is_bare_char c)) s)
      eqn:E; [discriminate (Hquote eq_refl)|].
    apply orb_false_iff in E. destruct E as [E1 E2].
    split; [|apply existsb_negb_false, E2].
    intros ->. discriminate.
Qed.

Lemma rendering_reads_back s out :
  forallb is_scalar s = true ->
  simple_key_rendering s out -> read_simple_key out = Some s.
Proof.
  intros Hs [(-> & Hne & Hbare)|[(-> & Hlit)|(units & -> & Hunits)]].
  - destruct s as [|c s]; [congruence|].
    unfold read_simple_key. rewrite Hbare.
    simpl in Hbare. apply andb_true_iff in Hbare. destruct Hbare as [Hc _].
    destruct (Z.eqb_spec c 0x22) as [->|]; [discriminate|].
    destruct (Z.eqb_spec c 0x27) as [->|]; [discriminate|].
    reflexivity.
  - unfold read_simple_key. simpl (0x27 =? 0x22). simpl (0x27 =? 0x27).
    cbv iota. rewrite split_last_snoc, Hlit. reflexivity.
  - unfold read_simple_key. simpl (0x22 =? 0x22). cbv iota.
    rewrite split_last_snoc. simpl (0x22 =? 0x22). cbv iota.
    apply (decode_units s units []); assumption.
Qed.

(** C10: for a segment [s] of Unicode scalar values, [_format_simple_key]
    always returns a text that reads back as [s]; the text is [s] itself
    only if [s] is non-empty and all of its characters are bare-key
    characters, [s] in single quotes only if all of its characters are
    literal-string characters, and otherwise a double-quoted string in which
    each character of [s] is either itself, when it is basic-unescaped, or
    an escape sequence that stands for it. *)
Theorem format_simple_key_denotes s rng :
  forallb is_scalar s = true ->
  exists out rng',
    _format_simple_key s rng = Ok (out, rng')
    /\ read_simple_key out = Some s
    /\ ((out = s /\ s <> [] /\ forallb is_bare_char s = true)
        \/ (out = 0x27 :: s ++ [0x27] /\ forallb is_literal_char s = true)
        \/ (exists units, out = 0x22 :: concat units ++ [0x22]
                          /\ Forall2 renders s units)).
Proof.
  intros Hs.
  destruct (format_simple_key_returns s Hs rng) as (out & rng' & E & Hr).
  exists out, rng'. split; [exact E|].
  split; [apply rendering_reads_back; assumption | exact Hr].
Qed.

Lemma format_simple_key_denotes_witness :
  forallb is_scalar [97; 0x0a] = true
  /\ exists out rng',
       _format_simple_key [97; 0x0a] [2 ^ 52; 0; 0; 2 ^ 52] = Ok (out, rng')
       /\ read_simple_key out = Some [97; 0x0a]
       /\ ((out = [97; 0x0a] /\ [97; 0x0a] <> []
            /\ forallb is_bare_char [97; 0x0a] = true)
           \/ (out = 0x27 :: [97; 0x0a] ++ [0x27]
               /\ forallb is_literal_char [97; 0x0a] = true)
           \/ (exists units, out = 0x22 :: concat units ++ [0x22]
                             /\ Forall2 renders [97; 0x0a] units)).
Proof.
  split; [reflexivity|].
  apply (format_simple_key_denotes [97; 0x0a] [2 ^ 52; 0; 0; 2 ^ 52]).
  reflexivity.
Defined.

Lemma ml_newline_needs_value_witness :
  ml_basic_iteration 1 (mk_ml_state [[97]] [[97]] true true) [2 ^ 52; 0; 0]
  = Ok (mk_ml_state [[97]; [0x0a]] [[97]; [0x0a]] true true, [])
  /\ val_chars (mk_ml_state [[97]] [[97]] true true) <> [].
Proof.
  assert (E : ml_basic_iteration 1 (mk_ml_state [[97]] [[97]] true true)
                [2 ^ 52; 0; 0]
              = Ok (mk_ml_state [[97]; [0x0a]] [[97]; [0x0a]] true true, []))
    by (vm_compute; reflexivity).
  split; [exact E|].
  apply (proj1 ml_newline_needs_value _ _ _ _ _ [0x0a] E);
    [left; reflexivity | reflexivity | reflexivity].
Defined.

(** ** Totality of the key renderers

    The renderers return for every string, whatever its characters. *)

Lemma hex_loop_total minwidth : forall fuel val s,
  (Z.to_nat (minwidth - len s) + hex_measure val <= fuel)%nat ->
  returns (hex_loop fuel minwidth val s)
    (fun s' => exists t, s' = t ++ s /\ forallb is_hex_digit t = true).
Proof.
  induction fuel as [|fuel IH]; intros val s Hfuel.
  - assert (Hw : minwidth - len s <= 0) by lia.
    assert (Hv : (0 <? val) = false).
    { unfold hex_measure in Hfuel. destruct (0 <? val); [lia | reflexivity]. }
    simpl. rewrite Hv.
    destruct (Z.ltb_spec (len s) minwidth); [lia|]. simpl.
    apply returns_ret. exists []. auto.
  - simpl.
    destruct ((len s <? minwidth) || (0 <? val)) eqn:Econd.
    + assert (Hc : 0 <= val mod 16 < 16) by (apply Z.mod_pos_bound; lia).
      assert (Hstep : forall ch,
        hex_digit_val ch = Some (val mod 16) ->
        returns (hex_loop fuel minwidth (val / 16) (ch :: s))
                (fun s' => exists t, s' = t ++ s
                                     /\ forallb is_hex_digit t = true)).
      { intros ch Hch'.
        assert (Hch : is_hex_digit ch = true)
          by (unfold is_hex_digit; rewrite Hch'; reflexivity).
        eapply returns_weaken.
        - apply IH.
          assert (Hlen : len (ch :: s) = len s + 1)
            by (unfold len; simpl length; lia).
          rewrite Hlen.
          destruct (Z.ltb_spec 0 val) as [Hp|Hp].
          + pose proof (hex_measure_step val Hp). lia.
          + assert (Hm : hex_measure (val / 16) = O).
            { unfold hex_measure.
              destruct (Z.ltb_spec 0 (val / 16)) as [Hq|Hq]; [|reflexivity].
              assert (val / 16 <= 0); [|lia].
              apply Z.div_le_upper_bound; lia. }
            rewrite Hm.
            apply orb_true_iff in Econd. destruct Econd as [E|E];
              [apply Z.ltb_lt in E; lia | discriminate].
        - intros s' (t & -> & Hhex).
          exists (t ++ [ch]). rewrite <- app_assoc. split; [reflexivity|].
          rewrite forallb_app, Hhex. simpl. rewrite Hch. reflexivity. }
      destruct (hex_digit_cases _ Hc) as [[Hlt Hd]|[Hge [Hlo Hup]]].
      * destruct (Z.ltb_spec (val mod 16) 10); [|lia].
        rewrite str_int_digit by lia. simpl. apply Hstep, Hd.
      * destruct (Z.ltb_spec (val mod 16) 10); [lia|].
        eapply returns_bind; [apply returns_randint; lia|].
        intros r _. unfold chr. simpl.
        destruct (r =? 0); apply Hstep; assumption.
    + apply returns_ret. exists []. auto.
Qed.

Lemma rand_format_hex_total val minwidth :
  returns (_rand_format_hex val minwidth)
    (fun h => forallb is_hex_digit h = true).
Proof.
  unfold _rand_format_hex.
  eapply returns_weaken.
  - apply (hex_loop_total minwidth).
    unfold hex_iterations, hex_measure, len. simpl length.
    destruct (0 <? val); lia.
  - intros h (t & -> & Hhex). rewrite app_nil_r. exact Hhex.
Qed.

Lemma unicode_escape_total c r :
  returns (unicode_escape c r)
    (fun e => exists x rest, e = 0x5c :: x :: rest
                             /\ In x escape_letters
                             /\ forallb is_hex_digit rest = true).
Proof.
  unfold unicode_escape.
  destruct ((c <? 0x10000) && Qltb r (dbl (9 # 10)));
    (eapply returns_bind; [apply rand_format_hex_total|]);
    cbv beta; intros h Hh; apply returns_ret.
  - exists 117, h. split; [reflexivity|]. split; [|exact Hh].
    unfold escape_letters. simpl. tauto.
  - exists 85, h. split; [reflexivity|]. split; [|exact Hh].
    unfold escape_letters. simpl. tauto.
Qed.

Lemma escaped_spec_chars x rest :
  In x escape_letters -> forallb is_hex_digit rest = true ->
  forallb is_spec_char (0x5c :: x :: rest) = true.
Proof.
  intros Hx Hrest. simpl.
  rewrite (in_forallb is_spec_char escape_letters x eq_refl Hx).
  simpl. revert Hrest. apply forallb_impl, hex_digit_doc_char.
Qed.

Lemma format_basic_key_char_total c :
  returns (format_basic_key_char c) (fun u => forallb is_spec_char u = true).
Proof.
  unfold format_basic_key_char.
  eapply returns_bind; [apply returns_random|]. intros r _.
  destruct (negb (is_basic_unescaped c) || Qltb r PROB_ESCAPE_CHAR) eqn:E.
  - eapply returns_bind; [apply returns_random|]. intros r2 _.
    assert (Hu : returns (unicode_escape c r2)
                   (fun u => forallb is_spec_char u = true)).
    { eapply returns_weaken; [apply unicode_escape_total|].
      intros u (x & rest & -> & Hx & Hrest).
      apply escaped_spec_chars; assumption. }
    destruct (escape_get c ESCAPE_CHARS) as [e|] eqn:Ee; [|exact Hu].
    destruct (Qltb r2 half); [|exact Hu].
    apply returns_ret.
    destruct (escape_get_short c e Ee) as (x & -> & Hx).
    simpl. rewrite andb_true_r. unfold short_escape in Hx.
    repeat match type of Hx with
           | context [x =? ?k] =>
               destruct (Z.eqb_spec x k) as [E'|_]; [rewrite E'; reflexivity|]
           end.
    discriminate.
  - apply orb_false_iff in E. destruct E as [E _].
    apply negb_false_iff in E. apply returns_ret.
    simpl. rewrite (basic_unescaped_spec_char c E). reflexivity.
Qed.

(** A rendered segment has no newline in it. *)
Lemma format_simple_key_total s :
  returns (_format_simple_key s) (fun out => forallb is_spec_char out = true).
Proof.
  unfold _format_simple_key.
  eapply returns_bind; [apply or_random_below_returns|].
  cbv beta. intros quote Hquote.
  destruct quote.
  - eapply returns_bind; [apply or_random_below_returns|].
    cbv beta. intros basic Hbasic.
    destruct basic.
    + eapply returns_bind.
      * apply (returns_for_each
                 (fun units => forallb is_spec_char (concat units) = true)
                 (fun _ => True)).
        -- reflexivity.
        -- apply Forall_forall. auto.
        -- intros c units _ Hunits.
           eapply returns_bind; [apply format_basic_key_char_total|].
           cbv beta. intros u Hu. apply returns_ret.
           rewrite concat_app, forallb_app, Hunits. simpl.
           rewrite app_nil_r. exact Hu.
      * cbv beta. intros units Hunits. apply returns_ret.
        simpl. rewrite forallb_app, Hunits. reflexivity.
    + apply returns_ret. simpl. rewrite forallb_app. simpl.
      rewrite andb_true_r.
      destruct (existsb (fun c => negb (is_literal_char c)) s) eqn:E.
      * discriminate (Hbasic eq_refl).
      * apply existsb_negb_false in E. revert E.
        apply forallb_impl, literal_spec_char.
  - apply returns_ret.
    destruct ((len s =? 0) || existsb (fun c => negb (is_bare_char c)) s)
      eqn:E; [discriminate (Hquote eq_refl)|].
    apply orb_false_iff in E. destruct E as [_ E].
    apply existsb_negb_false in E. revert E.
    apply forallb_impl, bare_spec_char.
Qed.

(** ** The key sampler (claim C1) *)

Lemma returns_for_range_from_counted {A} (I : nat -> A -> Prop) body n :
  forall i k (acc : A),
  I k acc ->
  (forall j k acc, I k acc -> returns (body j acc) (I (S k))) ->
  returns (for_range_from i n body acc) (I (k + n)%nat).
Proof.
  induction n as [|n IH]; intros i k acc Hacc Hbody; simpl.
  - apply returns_ret. rewrite Nat.add_0_r. exact Hacc.
  - eapply returns_bind; [apply Hbody; exact Hacc|].
    intros acc' Hacc'. rewrite Nat.add_succ_r.
    apply (IH (i + 1) (S k)); assumption.
Qed.

Lemma ws_spec_chars s :
  forallb (fun c => (c =? 0x09) || (c =? 0x20)) s = true ->
  forallb is_spec_char s = true.
Proof.
  apply forallb_impl. intros c Hc. apply orb_true_iff in Hc.
  rewrite !Z.eqb_eq in Hc. destruct Hc as [->| ->]; reflexivity.
Qed.

Lemma gen_ws_spec : returns _gen_ws (fun s => forallb is_spec_char s = true).
Proof. eapply returns_weaken; [apply gen_ws_returns | apply ws_spec_chars]. Qed.

Lemma dot_sep_returns :
  returns dot_sep (fun s => forallb is_spec_char s = true).
Proof.
  unfold dot_sep.
  eapply returns_bind; [apply gen_ws_spec|]. cbv beta. intros ws1 H1.
  eapply returns_bind; [apply gen_ws_spec|]. cbv beta. intros ws2 H2.
  apply returns_ret. rewrite forallb_app, H1. simpl. exact H2.
Qed.

Lemma append_dot_sep_returns (key_str : list pystr) :
  forallb is_spec_char (concat key_str) = true ->
  returns (append_dot_sep key_str)
    (fun ks => forallb is_spec_char (concat ks) = true).
Proof.
  intros H. unfold append_dot_sep. destruct (nonempty key_str).
  - eapply returns_bind; [apply dot_sep_returns|]. cbv beta. intros d Hd.
    apply returns_ret. rewrite concat_app, forallb_app, H. simpl.
    rewrite app_nil_r. exact Hd.
  - apply returns_ret. exact H.
Qed.

Lemma gen_unquoted_key_returns :
  returns _gen_unquoted_key
    (fun r => fst r = snd r /\ forallb is_bare_char (snd r) = true).
Proof.
  unfold _gen_unquoted_key.
  eapply returns_bind; [apply returns_rand_exp; unfold MAX_KEY_LEN; lia|].
  cbv beta. intros n Hn.
  eapply returns_bind.
  - apply (returns_for_range (fun l => forallb is_bare_char l = true));
      [reflexivity|].
    intros j chars Hchars.
    eapply returns_bind; [apply returns_random|]. intros r _.
    eapply returns_bind with (P := fun c => is_bare_char c = true).
    + destruct (Qltb r half);
        (eapply returns_weaken; [apply returns_choice; discriminate|]);
        cbv beta; intros c Hc; (eapply in_forallb; [|exact Hc]);
        vm_compute; reflexivity.
    + cbv beta. intros c Hc. apply returns_ret.
      rewrite forallb_app, Hchars. simpl. rewrite Hc. reflexivity.
  - cbv beta. intros chars Hchars. apply returns_ret. simpl. auto.
Qed.

(** A sampled segment: its text has no newline, its value is a string of
    scalar values. *)
Lemma gen_simple_key_returns :
  returns _gen_simple_key
    (fun r => forallb is_spec_char (fst r) = true
              /\ forallb is_scalar (snd r) = true).
Proof.
  unfold _gen_simple_key.
  eapply returns_bind; [apply returns_random|]. intros r _.
  destruct (Qltb r PROB_QUOTED_KEY); [destruct (Qltb r (half * PROB_QUOTED_KEY))|].
  - eapply returns_weaken; [apply gen_basic_string_returns|].
    intros [d v] [(units & Hd & Hunits) Hv]. simpl in *. split; [|exact Hv].
    rewrite Hd. simpl. rewrite forallb_app. simpl. rewrite andb_true_r.
    apply forallb_concat.
    revert Hunits. apply Forall_impl. apply basic_char_unit_spec_chars.
  - eapply returns_weaken; [apply gen_literal_string_returns|].
    intros [d v] [Hd Hv]. simpl in *. rewrite Hd. split.
    + simpl. rewrite forallb_app. simpl. rewrite andb_true_r.
      revert Hv. apply forallb_impl, literal_spec_char.
    + revert Hv. apply forallb_impl, literal_scalar.
  - eapply returns_weaken; [apply gen_unquoted_key_returns|].
    intros [d v] [Hd Hv]. simpl in *. subst d. split.
    + revert Hv. apply forallb_impl, bare_spec_char.
    + revert Hv. apply forallb_impl, bare_scalar.
Qed.

Lemma format_key_returns key :
  returns (_format_key key) (fun s => forallb is_spec_char s = true).
Proof.
  unfold _format_key.
  eapply returns_bind.
  - apply (returns_for_each
             (fun ks => forallb is_spec_char (concat ks) = true)
             (fun _ => True)); [reflexivity | apply Forall_forall; auto |].
    intros k ks _ Hks.
    eapply returns_bind; [apply append_dot_sep_returns, Hks|].
    cbv beta. intros ks' Hks'.
    eapply returns_bind; [apply format_simple_key_total|].
    cbv beta. intros s Hs. apply returns_ret.
    rewrite concat_app, forallb_app, Hks'. simpl. rewrite app_nil_r.
    exact Hs.
  - cbv beta. intros ks Hks. apply returns_ret. exact Hks.
Qed.

(** A dotted key: the prefix, then one to [MAX_DOTTED_LEN] sampled
    segments. *)
Lemma gen_dotted_key_returns prefix :
  returns (_gen_dotted_key prefix)
    (fun r => forallb is_spec_char (fst r) = true
              /\ exists fresh,
                   snd r = prefix ++ fresh
                   /\ (1 <= length fresh <= 3)%nat
                   /\ Forall (fun k => forallb is_scalar k = true) fresh).
Proof.
  unfold _gen_dotted_key.
  eapply returns_bind.
  - apply (returns_for_each_indexed
             (fun done acc => forallb is_spec_char (concat (fst acc)) = true
                              /\ snd acc = done)
             (fun _ => True) _ prefix []);
      [split; reflexivity | apply Forall_forall; auto |].
    intros k done [ks key] _ [Hks Hkey]. simpl in Hks, Hkey.
    simpl fst; simpl snd.
    eapply returns_bind; [apply append_dot_sep_returns, Hks|].
    cbv beta. intros ks' Hks'.
    eapply returns_bind; [apply format_simple_key_total|].
    cbv beta. intros s Hs. apply returns_ret. simpl. split.
    + rewrite concat_app, forallb_app, Hks'. simpl. rewrite app_nil_r.
      exact Hs.
    + rewrite Hkey. reflexivity.
  - cbv beta. simpl app. intros [ks key] [Hks Hkey]. simpl in Hks, Hkey.
    subst key.
    eapply returns_bind;
      [apply returns_randint; unfold MAX_DOTTED_LEN; lia|].
    cbv beta. intros n Hn. unfold MAX_DOTTED_LEN in Hn.
    eapply returns_bind.
    + unfold for_range.
      apply (returns_for_range_from_counted
               (fun count acc =>
                  forallb is_spec_char (concat (fst acc)) = true
                  /\ exists fresh,
                       snd acc = prefix ++ fresh
                       /\ length fresh = count
                       /\ Forall (fun k => forallb is_scalar k = true) fresh)
               _ (Z.to_nat n) 0 O (ks, prefix)).
      * simpl. split; [exact Hks|]. exists []. rewrite app_nil_r. auto.
      * intros j count [ks1 key1] [Hks1 (fresh & Hkey1 & Hcount & Hfresh)].
        simpl in Hks1, Hkey1. simpl fst; simpl snd.
        eapply returns_bind; [apply append_dot_sep_returns, Hks1|].
        cbv beta. intros ks' Hks'.
        eapply returns_bind; [apply gen_simple_key_returns|].
        cbv beta. intros [s k] [Hs Hk]. simpl in Hs, Hk.
        apply returns_ret. simpl. split.
        -- rewrite concat_app, forallb_app, Hks'. simpl. rewrite app_nil_r.
           exact Hs.
        -- exists (fresh ++ [k]). rewrite Hkey1, <- app_assoc.
           split; [reflexivity|]. rewrite length_app. simpl.
           split; [lia|]. apply Forall_snoc; assumption.
    + cbv beta. intros [ks2 key2] [Hks2 (fresh & Hkey2 & Hcount & Hfresh)].
      simpl in Hks2, Hkey2. apply returns_ret. simpl.
      split; [exact Hks2|]. exists fresh.
      split; [exact Hkey2|]. split; [lia | exact Hfresh].
Qed.

Lemma gen_key_search_yields fuel prefix exclude_prefix exclude_key :
  yields (gen_key_search fuel prefix exclude_prefix exclude_key)
    (fun r => forallb is_spec_char (fst r) = true
              /\ exists fresh,
                   snd r = prefix ++ fresh
                   /\ (1 <= length fresh <= 3)%nat
                   /\ Forall (fun k => forallb is_scalar k = true) fresh
                   /\ key_in (snd r) exclude_key = false
                   /\ has_excluded_prefix (snd r) exclude_prefix = false).
Proof.
  induction fuel as [|fuel IH]; [apply yields_diverge|].
  cbn [gen_key_search].
  eapply yields_bind; [apply returns_yields, gen_dotted_key_returns|].
  cbv beta. intros [key_str key] [Hs (fresh & Hkey & Hlen & Hfresh)].
  simpl in Hs, Hkey.
  destruct (key_in key exclude_key) eqn:E1; [exact IH|].
  destruct (has_excluded_prefix key exclude_prefix) eqn:E2; [exact IH|].
  apply yields_ret. simpl. split; [exact Hs|].
  exists fresh. auto.
Qed.

(** What [_gen_key] yields: a text without newline and a sampled key. *)
Lemma gen_key_yields fuel exclude_prefix exclude_key reuse_prefix reuse_key :
  yields (_gen_key fuel exclude_prefix exclude_key reuse_prefix reuse_key)
    (fun r => forallb is_spec_char (fst r) = true
              /\ sampled_key exclude_prefix exclude_key reuse_prefix reuse_key
                             (snd r)).
Proof.
  unfold _gen_key.
  assert (Hsearch : forall prefix,
    prefix = [] \/ In prefix reuse_prefix ->
    yields (gen_key_search fuel prefix exclude_prefix exclude_key)
      (fun r => forallb is_spec_char (fst r) = true
                /\ sampled_key exclude_prefix exclude_key reuse_prefix
                               reuse_key (snd r))).
  { intros prefix Hprefix.
    eapply yields_weaken; [apply gen_key_search_yields|].
    intros [key_str key] [Hs (fresh & Hkey & Hlen & _ & He1 & He2)].
    simpl in *. split; [exact Hs|]. right. exists prefix, fresh. auto. }
  eapply yields_bind with (P := fun reuse =>
    reuse = true -> nonempty reuse_prefix || nonempty reuse_key = true).
  { unfold consider_reuse.
    destruct (nonempty reuse_prefix || nonempty reuse_key).
    - eapply yields_bind; [apply returns_yields, returns_random|].
      intros r _. apply yields_ret. auto.
    - apply yields_ret. discriminate. }
  cbv beta. intros reuse Hreuse.
  destruct reuse; [|apply Hsearch; left; reflexivity].
  specialize (Hreuse eq_refl).
  assert (Hn : 1 <= len reuse_prefix + len reuse_key).
  { unfold len. destruct reuse_prefix; destruct reuse_key; simpl in *;
      try discriminate; lia. }
  eapply yields_bind; [apply returns_yields, returns_randint; lia|].
  cbv beta. intros r Hr.
  destruct (Z.ltb_spec r (len reuse_key)) as [Hlt|Hge].
  - eapply yields_bind; [apply returns_yields, format_key_returns|].
    cbv beta. intros key_str Hs. apply yields_ret. simpl.
    split; [exact Hs|]. left. apply nth_In. unfold len in Hlt. lia.
  - apply Hsearch. right. apply nth_In. unfold len in *. lia.
Qed.

(** C1, as the code has it: a key returned by [_gen_key] is an element of
    [reuse_key] returned as it is, or a prefix, empty or taken from
    [reuse_prefix], followed by one to [MAX_DOTTED_LEN = 3] new segments; it
    has between 1 and 3 segments when nothing is reused, and up to 3 more
    than the reused prefix otherwise. *)
Theorem gen_key_segments fuel exclude_prefix exclude_key reuse_prefix reuse_key
  rng key_str key rng' :
  _gen_key fuel exclude_prefix exclude_key reuse_prefix reuse_key rng
  = Ok ((key_str, key), rng') ->
  (In key reuse_key
   \/ exists prefix fresh,
        key = prefix ++ fresh
        /\ (prefix = [] \/ In prefix reuse_prefix)
        /\ (1 <= length fresh <= 3)%nat)
  /\ (reuse_prefix = [] -> reuse_key = [] -> (1 <= length key <= 3)%nat).
Proof.
  intros E.
  pose proof (yields_Ok _ _ _ _ _
                (gen_key_yields fuel exclude_prefix exclude_key reuse_prefix
                   reuse_key) E) as [_ H].
  simpl in H.
  destruct H as [H|(prefix & fresh & Hkey & Hprefix & Hlen & _)].
  - split; [left; exact H|]. intros _ ->. contradiction.
  - split; [right; exists prefix, fresh; auto|].
    intros -> _. destruct Hprefix as [->|[]]. subst key. exact Hlen.
Qed.

Lemma gen_key_segments_witness :
  _gen_key 1 [] [] [] [] [0; 2 ^ 52; 1; 0; 0] = Ok ((py "0", [py "0"]), [])
  /\ (1 <= length [py "0"] <= 3)%nat.
Proof.
  assert (E : _gen_key 1 [] [] [] [] [0; 2 ^ 52; 1; 0; 0]
              = Ok ((py "0", [py "0"]), []))
    by (vm_compute; reflexivity).
  split; [exact E|].
  exact (proj2 (gen_key_segments _ _ _ _ _ _ _ _ _ E) eq_refl eq_refl).
Defined.

(** C1 as stated fails: with a reused prefix of one segment and three new
    segments the key has four segments. *)
Lemma gen_key_four_segments :
  _gen_key 1 [] [] [[py "a"]] []
    [0; 0; 2 ^ 52; 2;
     0; 0; 2 ^ 52; 1; 0; 0;
     0; 0; 2 ^ 52; 1; 0; 0;
     0; 0; 2 ^ 52; 1; 0; 0]
  = Ok ((py "a.0.0.0", [py "a"; py "0"; py "0"; py "0"]), [])
  /\ ~ (1 <= length [py "a"; py "0"; py "0"; py "0"] <= 3)%nat.
Proof. split; [vm_compute; reflexivity | simpl; lia]. Qed.

(** ** Integers *)

Lemma returns_for_range_from_indexed {A} (I : Z -> A -> Prop) body n :
  forall i (acc : A),
  I i acc ->
  (forall j acc, i <= j < i + Z.of_nat n -> I j acc ->
                 returns (body j acc) (I (j + 1))) ->
  returns (for_range_from i n body acc) (I (i + Z.of_nat n)).
Proof.
  induction n as [|n IH]; intros i acc Hacc Hbody; simpl for_range_from.
  - apply returns_ret. replace (i + Z.of_nat 0) with i by lia. exact Hacc.
  - eapply returns_bind; [apply Hbody; [lia | exact Hacc]|].
    intros acc' Hacc'.
    replace (i + Z.of_nat (S n)) with (i + 1 + Z.of_nat n) by lia.
    apply IH; [exact Hacc'|].
    intros j acc2 Hj. apply Hbody. lia.
Qed.

Lemma digits_loop_digits base : forall fuel v acc,
  2 <= base <= 10 ->
  exists d, digits_loop fuel base v acc = d ++ acc
            /\ forallb is_hex_digit d = true
            /\ (fuel <> O -> d <> []).
Proof.
  intros fuel v acc Hbase. revert v acc.
  induction fuel as [|fuel IH]; intros v acc; cbn [digits_loop].
  - exists []. auto.
  - assert (Hd : is_hex_digit (48 + v mod base) = true).
    { pose proof (Z.mod_pos_bound v base ltac:(lia)).
      unfold is_hex_digit, hex_digit_val, between.
      destruct (Z.leb_spec 48 (48 + v mod base)); [|lia].
      destruct (Z.leb_spec (48 + v mod base) 57); [|lia].
      reflexivity. }
    destruct (v / base =? 0).
    + exists [48 + v mod base]. cbn [forallb app]. rewrite Hd.
      repeat split; congruence.
    + destruct (IH (v / base) ((48 + v mod base) :: acc))
        as (d & E & Hhex & _).
      exists (d ++ [48 + v mod base]). rewrite E, <- app_assoc.
      split; [reflexivity|]. rewrite forallb_app, Hhex. cbn [forallb andb].
      rewrite Hd.
      split; [reflexivity|]. intros _. destruct d; discriminate.
Qed.

Lemma format_base_digits base v : 2 <= base <= 10 -> is_digits (format_base base v).
Proof.
  intros Hbase. unfold format_base.
  destruct (digits_loop_digits base (S (Z.to_nat (Z.log2 v))) v [] Hbase)
    as (d & E & Hhex & Hne).
  rewrite E, app_nil_r. split; [apply Hne; discriminate | exact Hhex].
Qed.

Lemma str_int_digits v : 0 <= v -> is_digits (str_int v).
Proof.
  intros Hv. unfold str_int. destruct (Z.ltb_spec v 0); [lia|].
  apply format_base_digits. lia.
Qed.

Lemma zeros_digits n s : is_digits s -> is_digits (str_repeat n (py "0") ++ s).
Proof.
  intros [Hne Hhex]. split.
  - destruct (str_repeat n (py "0")); [exact Hne | discriminate].
  - rewrite forallb_app, Hhex, andb_true_r. unfold str_repeat.
    induction (Z.to_nat n) as [|k IH]; simpl; [reflexivity | exact IH].
Qed.

Lemma digit_run_digits s : forall b rest,
  is_digits s -> digit_run b (s ++ rest) = digit_run true rest.
Proof.
  induction s as [|c s IH]; intros b rest [Hne Hhex]; [congruence|].
  simpl in Hhex. apply andb_true_iff in Hhex. destruct Hhex as [Hc Hs].
  simpl.
  destruct (Z.eqb_spec c 0x5f) as [->|_]; [discriminate|].
  rewrite Hc. simpl.
  destruct s as [|c2 s]; [reflexivity|].
  apply IH. split; [discriminate | exact Hs].
Qed.

(** Digit strings joined by single underscores form a digit run. *)
Lemma digit_run_join parts : forall b,
  parts <> [] -> Forall is_digits parts ->
  digit_run b (str_join (py "_") parts) = true.
Proof.
  induction parts as [|x parts IH]; intros b Hne Hall; [congruence|].
  inversion Hall as [|? ? Hx Hparts]; subst.
  destruct parts as [|y parts].
  - simpl. rewrite <- (app_nil_r x). rewrite digit_run_digits by exact Hx.
    reflexivity.
  - change (str_join (py "_") (x :: y :: parts))
      with (x ++ py "_" ++ str_join (py "_") (y :: parts)).
    rewrite digit_run_digits by exact Hx.
    change (py "_" ++ str_join (py "_") (y :: parts))
      with (0x5f :: str_join (py "_") (y :: parts)).
    cbn [digit_run]. simpl (0x5f =? 0x5f). cbv iota. simpl andb.
    apply IH; [discriminate | exact Hparts].
Qed.

Lemma forallb_firstn {A} (f : A -> bool) n l :
  forallb f l = true -> forallb f (firstn n l) = true.
Proof.
  revert l. induction n as [|n IH]; intros [|x l] H; simpl; auto.
  simpl in H. apply andb_true_iff in H. destruct H as [-> H]. simpl. auto.
Qed.

Lemma forallb_skipn {A} (f : A -> bool) n l :
  forallb f l = true -> forallb f (skipn n l) = true.
Proof.
  revert l. induction n as [|n IH]; intros [|x l] H; simpl; auto.
  simpl in H. apply andb_true_iff in H. destruct H as [_ H]. auto.
Qed.

Lemma nonempty_length {A} (l : list A) : (0 < length l)%nat -> l <> [].
Proof. destruct l; simpl; [lia | discriminate]. Qed.

(** [_splice_number] turns a digit string into a digit run. *)
Lemma splice_number_returns s :
  is_digits s ->
  returns (_splice_number s) (fun out => digit_run false out = true).
Proof.
  intros [Hne Hhex]. unfold _splice_number.
  assert (Hlen : (0 < length s)%nat) by (destruct s; simpl; [congruence | lia]).
  eapply returns_bind.
  - apply (returns_for_range_from_indexed
             (fun j (acc : list pystr * Z) =>
                0 <= snd acc < j /\ Forall is_digits (fst acc))).
    + cbn [fst snd]. split; [lia | constructor].
    + intros j [parts p] Hj [Hp Hparts]. cbn [fst snd] in Hp, Hparts.
      eapply returns_bind; [apply returns_random|]. intros r _.
      destruct (Qltb r (dbl (1 # 10))); apply returns_ret; cbn [fst snd].
      * split; [lia|]. apply Forall_snoc; [exact Hparts|].
        unfold slice. split.
        -- apply nonempty_length.
           rewrite length_firstn, length_skipn. lia.
        -- apply forallb_firstn, forallb_skipn, Hhex.
      * split; [lia | exact Hparts].
  - cbv beta. intros [parts p] [Hp Hparts]. cbn [fst snd] in Hp, Hparts.
    apply returns_ret. apply digit_run_join.
    + destruct parts; discriminate.
    + apply Forall_snoc; [exact Hparts|]. split.
      * apply nonempty_length. rewrite length_skipn. lia.
      * apply forallb_skipn, Hhex.
Qed.

Lemma gen_integer_from_returns val :
  0 <= val ->
  returns (gen_integer_from val)
    (fun r => Z.abs (snd r) = val
              /\ exists prefix digits,
                   fst r = prefix ++ digits
                   /\ In prefix [ []; py "+"; py "-"; py "0x"; py "0o"; py "0b" ]
                   /\ digit_run false digits = true).
Proof.
  intros Hval. unfold gen_integer_from.
  eapply returns_bind; [apply returns_choice; discriminate|].
  cbv beta. intros [[[prefix fmtfunc] add_zeros] sign] Hin.
  assert (Hrow : In prefix [ []; py "+"; py "-"; py "0x"; py "0o"; py "0b" ]
                 /\ Z.abs (sign * val) = val
                 /\ returns (fmtfunc val) is_digits).
  { unfold integer_formats in Hin. simpl in Hin.
    repeat (destruct Hin as [Hin|Hin];
            [inversion Hin; subst;
             split; [simpl; tauto|]; split; [lia|];
             first [ apply returns_ret;
                     first [apply str_int_digits, Hval
                           | apply format_base_digits; lia]
                   | eapply returns_weaken;
                     [apply rand_format_hex_returns, Hval|];
                     cbv beta; intros h (Hh & _ & Hmin & _);
                     split; [destruct h; [unfold len in Hmin; simpl in Hmin; lia
                                        | discriminate]
                            | exact Hh] ] |]).
    contradiction. }
  destruct Hrow as (Hprefix & Hsign & Hfmt).
  eapply returns_bind; [exact Hfmt|]. cbv beta. intros s Hs.
  eapply returns_bind with (P := is_digits).
  { destruct add_zeros; [|apply returns_ret; exact Hs].
    eapply returns_bind; [apply returns_randint; lia|]. intros n _.
    apply returns_ret. apply zeros_digits, Hs. }
  cbv beta. intros s2 Hs2.
  eapply returns_bind; [apply splice_number_returns, Hs2|].
  cbv beta. intros s3 Hs3. apply returns_ret. simpl.
  split; [exact Hsign|]. exists prefix, s3. auto.
Qed.

(** [_gen_integer] always returns, and its text is a sign or base prefix
    followed by a digit run: digits with single underscores between them,
    none at either end and none next to another. *)
Lemma gen_integer_returns :
  returns _gen_integer
    (fun r => exists prefix digits,
                fst r = prefix ++ digits
                /\ In prefix [ []; py "+"; py "-"; py "0x"; py "0o"; py "0b" ]
                /\ digit_run false digits = true).
Proof.
  intros rng. unfold _gen_integer.
  destruct (next_raw rng) as [z rng1].
  destruct (gen_integer_from_returns _ (Z.le_max_l 0 z) rng1)
    as ([s v] & rng' & E & _ & Htext).
  exists (s, v), rng'. split; [exact E | exact Htext].
Qed.

(** ** Dictionaries *)

Section DictFacts.
Context {V : Type}.
Implicit Types (d : list (pystr * V)) (p q : pystr) (v w : V).

Lemma dict_get_set_same p v d : dict_get p (dict_set p v d) = Some v.
Proof.
  induction d as [|[k w] d IH]; simpl.
  - rewrite pystr_eqb_refl. reflexivity.
  - destruct (pystr_eqb k p) eqn:E; simpl; rewrite E; [reflexivity | exact IH].
Qed.

Lemma dict_get_set_other p q v d :
  p <> q -> dict_get q (dict_set p v d) = dict_get q d.
Proof.
  intros Hne. induction d as [|[k w] d IH]; simpl.
  - destruct (pystr_eqb p q) eqn:E; [apply pystr_eqb_eq in E; congruence|].
    reflexivity.
  - destruct (pystr_eqb k p) eqn:E; simpl.
    + apply pystr_eqb_eq in E. subst k.
      destruct (pystr_eqb p q) eqn:E2; [apply pystr_eqb_eq in E2; congruence|].
      reflexivity.
    + destruct (pystr_eqb k q); [reflexivity | exact IH].
Qed.

Lemma dict_set_set p v w d : dict_set p v (dict_set p w d) = dict_set p v d.
Proof.
  induction d as [|[k u] d IH]; simpl.
  - rewrite pystr_eqb_refl. reflexivity.
  - destruct (pystr_eqb k p) eqn:E; simpl; rewrite E; [reflexivity|].
    rewrite IH. reflexivity.
Qed.

Lemma dict_has_set p v d : dict_has p (dict_set p v d) = true.
Proof. unfold dict_has. rewrite dict_get_set_same. reflexivity. Qed.

Lemma dict_get_In p v d : dict_get p d = Some v -> In (p, v) d.
Proof.
  induction d as [|[k w] d IH]; simpl; [discriminate|].
  destruct (pystr_eqb k p) eqn:E.
  - apply pystr_eqb_eq in E. intros H. inversion H; subst. left. reflexivity.
  - intros H. right. apply IH, H.
Qed.

Lemma dict_set_absent p v d :
  dict_get p d = None -> dict_set p v d = d ++ [(p, v)].
Proof.
  induction d as [|[k w] d IH]; simpl; [reflexivity|].
  destruct (pystr_eqb k p); [discriminate|].
  intros H. rewrite (IH H). reflexivity.
Qed.

Lemma dict_set_present p v d w :
  dict_get p d = Some w ->
  exists d1 d2, d = d1 ++ (p, w) :: d2
                /\ dict_set p v d = d1 ++ (p, v) :: d2
                /\ dict_get p d1 = None.
Proof.
  induction d as [|[k u] d IH]; simpl; [discriminate|].
  destruct (pystr_eqb k p) eqn:E.
  - apply pystr_eqb_eq in E. subst k. intros H. inversion H; subst.
    exists [], d. auto.
  - intros H. destruct (IH H) as (d1 & d2 & -> & -> & Hd1).
    exists ((k, u) :: d1), d2. simpl. rewrite E. auto.
Qed.
End DictFacts.

(** ** The operations of the context in one walk *)

Lemma rbind_assoc {A B C} (r : result A) (k1 : A -> result B)
  (k2 : B -> result C) :
  rbind (rbind r k1) k2 = rbind r (fun a => rbind (k1 a) k2).
Proof. destruct r; reflexivity. Qed.

Lemma last_table_snoc init t : last_table (init ++ [t]) = Ok (init, t).
Proof. unfold last_table. rewrite split_last_snoc. reflexivity. Qed.

Lemma make_subtable_then_update key dotted f : forall tbl,
  (data1 <-r _make_subtable tbl key dotted ;; update_at data1 key f)
  = insert_at tbl key dotted f.
Proof.
  induction key as [|p key IH]; intros tbl; [reflexivity|].
  cbn [_make_subtable insert_at].
  unfold dict_has.
  destruct (dict_get p tbl) as [[v|d dt elems|elems]|] eqn:Eget; cbn [negb].
  - rewrite Eget. reflexivity.
  - rewrite Eget, <- IH, !rbind_assoc.
    destruct (_make_subtable elems key dotted) as [sub| | |]; try reflexivity.
    cbn [rbind update_at]. rewrite dict_get_set_same.
    destruct (update_at sub key f); try reflexivity.
    cbn [rbind]. rewrite dict_set_set. reflexivity.
  - rewrite Eget.
    destruct (last_table elems) as [[init t]| | |]; try reflexivity.
    cbn [rbind fst snd]. rewrite <- IH, !rbind_assoc.
    destruct (_make_subtable t key dotted) as [sub| | |]; try reflexivity.
    cbn [rbind update_at]. rewrite dict_get_set_same, last_table_snoc.
    cbn [rbind fst snd].
    destruct (update_at sub key f); try reflexivity.
    cbn [rbind]. rewrite dict_set_set. reflexivity.
  - rewrite dict_get_set_same, <- IH, !rbind_assoc.
    destruct (_make_subtable [] key dotted) as [sub| | |]; try reflexivity.
    cbn [rbind update_at]. rewrite dict_get_set_same.
    destruct (update_at sub key f); try reflexivity.
    cbn [rbind]. rewrite !dict_set_set. reflexivity.
Qed.

Lemma open_table_insert ctx key :
  open_table ctx key
  = match split_last key with
    | None => Raised
    | Some (parent, p) =>
        data2 <-r insert_at (data ctx) parent false (define_table p) ;;
        Ok (mkContext data2 key)
    end.
Proof.
  unfold open_table. destruct (split_last key) as [[parent p]|]; [|reflexivity].
  rewrite <- make_subtable_then_update, rbind_assoc. reflexivity.
Qed.

Lemma open_table_array_insert ctx key :
  open_table_array ctx key
  = match split_last key with
    | None => Raised
    | Some (parent, p) =>
        data2 <-r insert_at (data ctx) parent false (append_table p) ;;
        Ok (mkContext data2 key)
    end.
Proof.
  unfold open_table_array.
  destruct (split_last key) as [[parent p]|]; [|reflexivity].
  rewrite <- make_subtable_then_update, rbind_assoc. reflexivity.
Qed.

Lemma update_at_ext key f g : forall tbl,
  (forall t, f t = g t) -> update_at tbl key f = update_at tbl key g.
Proof.
  induction key as [|p key IH]; intros tbl H; simpl; [apply H|].
  destruct (dict_get p tbl) as [[v|d dt elems|elems]|]; try reflexivity.
  - rewrite (IH elems H). reflexivity.
  - destruct (last_table elems) as [[init t]| | |]; try reflexivity.
    simpl. rewrite (IH t H). reflexivity.
Qed.

Lemma assign_insert ctx key v :
  assign ctx key v
  = match split_last key with
    | None => Raised
    | Some (parent, p) =>
        data1 <-r update_at (data ctx) (active_table ctx)
                    (fun act => insert_at act parent true (set_item p v)) ;;
        Ok (mkContext data1 (active_table ctx))
    end.
Proof.
  unfold assign. destruct (split_last key) as [[parent p]|]; [|reflexivity].
  erewrite update_at_ext; [reflexivity|].
  intros t. apply make_subtable_then_update.
Qed.

(** ** Well-formed trees: dictionaries *)

Lemma node_wf_table d dt elems :
  node_wf (Table d dt elems)
  = table_wf elems && (d || (negb dt && all_subtables elems)).
Proof. reflexivity. Qed.

Lemma node_wf_array elems :
  node_wf (TableArray elems) = nonempty elems && forallb table_wf elems.
Proof. reflexivity. Qed.

Lemma existsb_eqb_In k keys : existsb (pystr_eqb k) keys = true <-> In k keys.
Proof.
  rewrite existsb_exists. split.
  - intros (x & Hx & E). apply pystr_eqb_eq in E. subst. exact Hx.
  - intros H. exists k. split; [exact H | apply pystr_eqb_refl].
Qed.

Lemma keys_unique_snoc keys k :
  keys_unique keys = true -> ~ In k keys -> keys_unique (keys ++ [k]) = true.
Proof.
  induction keys as [|x keys IH]; intros Hu Hk; simpl; [reflexivity|].
  simpl in Hu. apply andb_true_iff in Hu. destruct Hu as [Hx Hu].
  apply andb_true_iff. split.
  - apply negb_true_iff. apply negb_true_iff in Hx.
    destruct (existsb (pystr_eqb x) (keys ++ [k])) eqn:E; [|reflexivity].
    apply existsb_eqb_In in E. apply in_app_or in E.
    destruct E as [E|[E|[]]].
    + apply existsb_eqb_In in E. congruence.
    + subst. exfalso. apply Hk. left. reflexivity.
  - apply IH; [exact Hu|]. intros H. apply Hk. right. exact H.
Qed.

Section DictWf.
Context {V : Type}.
Implicit Types (d : list (pystr * V)) (p : pystr) (v w : V).

Lemma dict_get_None_keys p d : dict_get p d = None -> ~ In p (map fst d).
Proof.
  induction d as [|[k w] d IH]; simpl; [tauto|].
  destruct (pystr_eqb k p) eqn:E; [discriminate|].
  intros H [Hk|Hin]; [|exact (IH H Hin)].
  subst. rewrite pystr_eqb_refl in E. discriminate.
Qed.

Lemma dict_ok_set p v d : dict_ok d = true -> dict_ok (dict_set p v d) = true.
Proof.
  unfold dict_ok. intros H.
  destruct (dict_get p d) as [w|] eqn:E.
  - destruct (dict_set_present p v d w E) as (d1 & d2 & Hd & -> & _).
    rewrite Hd in H. rewrite map_app in *. exact H.
  - rewrite (dict_set_absent p v d E), map_app. simpl.
    apply keys_unique_snoc; [exact H | apply dict_get_None_keys, E].
Qed.

Lemma forallb_dict_set (P : pystr * V -> bool) p v d :
  forallb P d = true -> P (p, v) = true -> forallb P (dict_set p v d) = true.
Proof.
  intros Hd Hv.
  destruct (dict_get p d) as [w|] eqn:E.
  - destruct (dict_set_present p v d w E) as (d1 & d2 & Hd' & -> & _).
    rewrite Hd' in Hd. rewrite forallb_app in *. simpl in *.
    apply andb_true_iff in Hd. destruct Hd as [H1 H2].
    apply andb_true_iff in H2. destruct H2 as [_ H2].
    rewrite H1, Hv, H2. reflexivity.
  - rewrite (dict_set_absent p v d E), forallb_app, Hd. simpl.
    rewrite Hv. reflexivity.
Qed.

Lemma dict_ok_In_get p v d :
  dict_ok d = true -> In (p, v) d -> dict_get p d = Some v.
Proof.
  unfold dict_ok. induction d as [|[k w] d IH]; simpl; [tauto|].
  intros Hu Hin. apply andb_true_iff in Hu. destruct Hu as [Hk Hu].
  destruct Hin as [Hin|Hin].
  - inversion Hin; subst. rewrite pystr_eqb_refl. reflexivity.
  - destruct (pystr_eqb k p) eqn:E; [|apply IH; assumption].
    apply pystr_eqb_eq in E. subst k. apply negb_true_iff in Hk.
    exfalso.
    assert (Hp : In p (map fst d)).
    { apply in_map_iff. exists (p, v). auto. }
    apply existsb_eqb_In in Hp. congruence.
Qed.

Lemma forallb_dict_get (P : pystr * V -> bool) p v d :
  forallb P d = true -> dict_get p d = Some v -> P (p, v) = true.
Proof.
  intros Hd Hget. apply dict_get_In in Hget.
  exact (in_forallb P d _ Hd Hget).
Qed.
End DictWf.

Lemma table_wf_split tbl :
  table_wf tbl = true <->
  dict_ok tbl = true /\ forallb (fun pv => node_wf (snd pv)) tbl = true.
Proof. unfold table_wf. apply andb_true_iff. Qed.

Lemma table_wf_get tbl p v :
  table_wf tbl = true -> dict_get p tbl = Some v -> node_wf v = true.
Proof.
  intros Hwf Hget. apply table_wf_split in Hwf. destruct Hwf as [_ Hall].
  exact (forallb_dict_get (fun pv => node_wf (snd pv)) p v tbl Hall Hget).
Qed.

Lemma table_wf_set tbl p v :
  table_wf tbl = true -> node_wf v = true ->
  table_wf (dict_set p v tbl) = true.
Proof.
  intros Hwf Hv. apply table_wf_split in Hwf. destruct Hwf as [Hd Hall].
  apply table_wf_split. split; [apply dict_ok_set, Hd|].
  apply forallb_dict_set; assumption.
Qed.

Lemma table_wf_nil : table_wf [] = true.
Proof. reflexivity. Qed.

Lemma wf_array_last elems :
  node_wf (TableArray elems) = true ->
  exists init t, elems = init ++ [t]
                 /\ last_table elems = Ok (init, t)
                 /\ table_wf t = true
                 /\ forallb table_wf init = true.
Proof.
  rewrite node_wf_array. intros H. apply andb_true_iff in H.
  destruct H as [Hne Hall].
  destruct (@exists_last _ elems) as (init & t & ->);
    [destruct elems; [discriminate | discriminate]|].
  exists init, t. rewrite last_table_snoc.
  rewrite forallb_app in Hall. apply andb_true_iff in Hall.
  destruct Hall as [Hinit Ht]. simpl in Ht. rewrite andb_true_r in Ht.
  auto.
Qed.

Lemma wf_array_snoc init t :
  forallb table_wf init = true -> table_wf t = true ->
  node_wf (TableArray (init ++ [t])) = true.
Proof.
  intros Hinit Ht. rewrite node_wf_array, forallb_app, Hinit. simpl.
  rewrite Ht. destruct init; reflexivity.
Qed.

Lemma all_subtables_set tbl p v :
  all_subtables tbl = true -> is_subtable v = true ->
  all_subtables (dict_set p v tbl) = true.
Proof. intros H Hv. apply forallb_dict_set; assumption. Qed.

(** ** Table headers: walking and creating *)

Lemma insert_at_header_step key f :
  header_step f -> header_step (fun t => insert_at t key false f).
Proof.
  intros Hf. induction key as [|p key IH]; [exact Hf|].
  intros tbl tbl' Hwf. cbn [insert_at].
  destruct (dict_get p tbl) as [[v|d dt elems|elems]|] eqn:Eget;
    [discriminate| | |].
  - pose proof (table_wf_get _ _ _ Hwf Eget) as Hnode.
    rewrite node_wf_table in Hnode. apply andb_true_iff in Hnode.
    destruct Hnode as [Helems Hflags].
    destruct (insert_at elems key false f) as [sub| | |] eqn:Esub;
      try discriminate.
    intros H. inversion H; subst. clear H.
    destruct (IH elems sub Helems Esub) as [Hsub Hkeep].
    split.
    + apply table_wf_set; [exact Hwf|].
      rewrite node_wf_table, Hsub. simpl.
      destruct d; [reflexivity|]. simpl in *.
      apply andb_true_iff in Hflags. destruct Hflags as [-> Hs].
      simpl. exact (Hkeep Hs).
    + intros Hs. apply all_subtables_set; [exact Hs|].
      exact (forallb_dict_get (fun pv => is_subtable (snd pv)) p _ tbl Hs Eget).
  - pose proof (table_wf_get _ _ _ Hwf Eget) as Hnode.
    destruct (wf_array_last elems Hnode) as (init & t & -> & -> & Ht & Hinit).
    cbn [rbind fst snd].
    destruct (insert_at t key false f) as [sub| | |] eqn:Esub;
      try discriminate.
    intros H. inversion H; subst. clear H.
    destruct (IH t sub Ht Esub) as [Hsub _].
    split.
    + apply table_wf_set; [exact Hwf|]. apply wf_array_snoc; assumption.
    + intros Hs. apply all_subtables_set; [exact Hs | reflexivity].
  - destruct (insert_at [] key false f) as [sub| | |] eqn:Esub;
      try discriminate.
    intros H. inversion H; subst. clear H.
    destruct (IH [] sub table_wf_nil Esub) as [Hsub Hkeep].
    split.
    + apply table_wf_set; [exact Hwf|].
      rewrite node_wf_table, Hsub. simpl. apply Hkeep. reflexivity.
    + intros Hs. apply all_subtables_set; [exact Hs | reflexivity].
Qed.

Lemma define_table_header_step p : header_step (define_table p).
Proof.
  intros t t' Hwf. unfold define_table, dict_has.
  destruct (dict_get p t) as [[v|d dt elems|elems]|] eqn:Eget; cbn [negb].
  - rewrite Eget. discriminate.
  - rewrite Eget. destruct d; [discriminate|]. destruct dt; [discriminate|].
    intros H. inversion H; subst. clear H.
    pose proof (table_wf_get _ _ _ Hwf Eget) as Hnode.
    rewrite node_wf_table in Hnode. apply andb_true_iff in Hnode.
    destruct Hnode as [Helems _].
    split.
    + apply table_wf_set; [exact Hwf|].
      rewrite node_wf_table, Helems. reflexivity.
    + intros Hs. apply all_subtables_set; [exact Hs | reflexivity].
  - rewrite Eget. discriminate.
  - rewrite dict_get_set_same. intros H. inversion H; subst. clear H.
    rewrite dict_set_set. split.
    + apply table_wf_set; [exact Hwf | reflexivity].
    + intros Hs. apply all_subtables_set; [exact Hs | reflexivity].
Qed.

Lemma append_table_header_step p : header_step (append_table p).
Proof.
  intros t t' Hwf. unfold append_table, dict_has.
  destruct (dict_get p t) as [[v|d dt elems|elems]|] eqn:Eget; cbn [negb].
  - rewrite Eget. discriminate.
  - rewrite Eget. discriminate.
  - rewrite Eget. intros H. inversion H; subst. clear H.
    pose proof (table_wf_get _ _ _ Hwf Eget) as Hnode.
    rewrite node_wf_array in Hnode. apply andb_true_iff in Hnode.
    destruct Hnode as [_ Hall].
    split.
    + apply table_wf_set; [exact Hwf|].
      apply wf_array_snoc; [exact Hall | reflexivity].
    + intros Hs. apply all_subtables_set; [exact Hs | reflexivity].
  - rewrite dict_get_set_same. intros H. inversion H; subst. clear H.
    rewrite dict_set_set. split.
    + apply table_wf_set; [exact Hwf | reflexivity].
    + intros Hs. apply all_subtables_set; [exact Hs | reflexivity].
Qed.

Lemma split_last_Some {A} (l : list A) init x :
  split_last l = Some (init, x) -> l = init ++ [x].
Proof.
  revert init. induction l as [|y l IH]; intros init; simpl; [discriminate|].
  destruct (split_last l) as [[i z]|] eqn:E.
  - intros H. inversion H; subst. simpl. rewrite (IH i eq_refl). reflexivity.
  - intros H. inversion H; subst. destruct l; [reflexivity|].
    simpl in E. destruct (split_last l) as [[? ?]|]; discriminate.
Qed.

Lemma split_last_None {A} (l : list A) : split_last l = None -> l = [].
Proof.
  destruct l as [|y l]; [reflexivity|]. simpl.
  destruct (split_last l) as [[? ?]|]; discriminate.
Qed.

Lemma last_table_Ok (elems : list (list (pystr * node))) init t :
  last_table elems = Ok (init, t) -> split_last elems = Some (init, t).
Proof.
  unfold last_table. destruct (split_last elems) as [[i z]|]; [|discriminate].
  intros H. inversion H. reflexivity.
Qed.

Lemma find_node_cons tbl p k :
  k <> [] ->
  find_node tbl (p :: k)
  = match dict_get p tbl with
    | Some (Table _ _ elems) => find_node elems k
    | Some (TableArray elems) =>
        match split_last elems with
        | Some (_, t) => find_node t k
        | None => None
        end
    | _ => None
    end.
Proof. destruct k; [congruence | reflexivity]. Qed.

Lemma ends_defined_cons tbl p k :
  k <> [] ->
  ends_defined tbl (p :: k)
  = match dict_get p tbl with
    | Some (Table _ _ elems) => ends_defined elems k
    | Some (TableArray elems) =>
        match split_last elems with
        | Some (_, t) => ends_defined t k
        | None => false
        end
    | _ => false
    end.
Proof. destruct k; [congruence | reflexivity]. Qed.

Lemma app_not_nil_r {A} (a b : list A) : b <> [] -> a ++ b <> [].
Proof. intros Hb H. apply app_eq_nil in H. tauto. Qed.

Lemma table_at_app k1 : forall tbl k2,
  table_at tbl (k1 ++ k2) = (t <-r table_at tbl k1 ;; table_at t k2).
Proof.
  induction k1 as [|p k1 IH]; intros tbl k2; [reflexivity|].
  cbn [app table_at].
  destruct (dict_get p tbl) as [[v|d dt elems|elems]|]; try reflexivity.
  - apply IH.
  - destruct (last_table elems) as [[init t]| | |]; try reflexivity.
    cbn [rbind snd]. apply IH.
Qed.

Lemma find_node_app k1 : forall tbl k2 t,
  table_at tbl k1 = Ok t -> k2 <> [] ->
  find_node tbl (k1 ++ k2) = find_node t k2.
Proof.
  induction k1 as [|p k1 IH]; intros tbl k2 t Hat Hne.
  - inversion Hat. reflexivity.
  - cbn [app table_at] in *.
    rewrite find_node_cons by (apply app_not_nil_r, Hne).
    destruct (dict_get p tbl) as [[v|d dt elems|elems]|]; try discriminate.
    + apply IH; assumption.
    + destruct (last_table elems) as [[init t0]| | |] eqn:El;
        try discriminate.
      rewrite (last_table_Ok _ _ _ El). cbn [rbind snd] in Hat.
      apply IH; assumption.
Qed.

Lemma ends_defined_app k1 : forall tbl k2 t,
  table_at tbl k1 = Ok t -> k2 <> [] ->
  ends_defined tbl (k1 ++ k2) = ends_defined t k2.
Proof.
  induction k1 as [|p k1 IH]; intros tbl k2 t Hat Hne.
  - inversion Hat. reflexivity.
  - cbn [app table_at] in *.
    rewrite ends_defined_cons by (apply app_not_nil_r, Hne).
    destruct (dict_get p tbl) as [[v|d dt elems|elems]|]; try discriminate.
    + apply IH; assumption.
    + destruct (last_table elems) as [[init t0]| | |] eqn:El;
        try discriminate.
      rewrite (last_table_Ok _ _ _ El). cbn [rbind snd] in Hat.
      apply IH; assumption.
Qed.

Lemma table_at_target key : forall tbl t,
  table_at tbl key = Ok t -> target tbl key = Ok t.
Proof.
  induction key as [|p key IH]; intros tbl t; simpl; [auto|].
  destruct (dict_get p tbl) as [[v|d dt elems|elems]|]; try discriminate.
  - apply IH.
  - destruct (last_table elems) as [[init t0]| | |]; try discriminate.
    simpl. apply IH.
Qed.

Lemma target_nil key : target [] key = Ok [].
Proof. destruct key; reflexivity. Qed.

(** The child named by [key ++ [p]] is the entry [p] of the dictionary in
    which the walk along [key] ends. *)
Lemma find_node_target key p : forall tbl t,
  target tbl key = Ok t -> find_node tbl (key ++ [p]) = dict_get p t.
Proof.
  induction key as [|q key IH]; intros tbl t Ht.
  - inversion Ht. reflexivity.
  - cbn [app target] in *.
    rewrite find_node_cons by (apply app_not_nil_r; discriminate).
    destruct (dict_get q tbl) as [[v|d dt elems|elems]|]; try discriminate.
    + apply IH, Ht.
    + destruct (last_table elems) as [[init t0]| | |] eqn:El;
        try discriminate.
      rewrite (last_table_Ok _ _ _ El). apply IH, Ht.
    + inversion Ht. reflexivity.
Qed.

(** The walk of [insert_at] succeeds exactly where [target] and the
    mutation do, and the mutated dictionary is then the one [key] refers
    to. *)
Lemma insert_at_ok key dotted f : forall tbl t t',
  target tbl key = Ok t -> f t = Ok t' ->
  exists tbl', insert_at tbl key dotted f = Ok tbl'
               /\ table_at tbl' key = Ok t'.
Proof.
  induction key as [|p key IH]; intros tbl t t' Ht Hf.
  - inversion Ht; subst. exists t'. auto.
  - cbn [target insert_at table_at] in *.
    destruct (dict_get p tbl) as [[v|d dt elems|elems]|] eqn:Eget;
      try discriminate.
    + destruct (IH elems t t' Ht Hf) as (sub & -> & Hat).
      eexists. split; [reflexivity|].
      rewrite dict_get_set_same. exact Hat.
    + destruct (last_table elems) as [[init t0]| | |] eqn:El;
        try discriminate.
      cbn [rbind fst snd] in *.
      destruct (IH t0 t t' Ht Hf) as (sub & -> & Hat).
      eexists. split; [reflexivity|].
      rewrite dict_get_set_same, last_table_snoc. exact Hat.
    + inversion Ht; subst.
      destruct (IH [] [] t' (target_nil key) Hf) as (sub & -> & Hat).
      eexists. split; [reflexivity|].
      rewrite dict_get_set_same. exact Hat.
Qed.

Lemma insert_at_inv key dotted f : forall tbl tbl',
  insert_at tbl key dotted f = Ok tbl' ->
  exists t t', target tbl key = Ok t /\ f t = Ok t'
               /\ table_at tbl' key = Ok t'.
Proof.
  induction key as [|p key IH]; intros tbl tbl' H.
  - exists tbl, tbl'. auto.
  - cbn [target insert_at table_at] in *.
    destruct (dict_get p tbl) as [[v|d dt elems|elems]|] eqn:Eget;
      try discriminate.
    + destruct (insert_at elems key dotted f) as [sub| | |] eqn:Esub;
        try discriminate.
      inversion H; subst. rewrite dict_get_set_same.
      exact (IH elems sub Esub).
    + destruct (last_table elems) as [[init t0]| | |] eqn:El;
        try discriminate.
      cbn [rbind fst snd] in *.
      destruct (insert_at t0 key dotted f) as [sub| | |] eqn:Esub;
        try discriminate.
      inversion H; subst. rewrite dict_get_set_same, last_table_snoc.
      exact (IH t0 sub Esub).
    + destruct (insert_at [] key dotted f) as [sub| | |] eqn:Esub;
        try discriminate.
      inversion H; subst. rewrite dict_get_set_same.
      destruct (IH [] sub Esub) as (t & t' & Ht & Hf & Hat).
      rewrite target_nil in Ht. inversion Ht; subst.
      exists [], t'. auto.
Qed.

(** A walk that meets no value ends well, in a well-formed dictionary. *)
Lemma target_ok key : forall tbl,
  table_wf tbl = true ->
  (forall i v, (0 < i <= length key)%nat ->
               find_node tbl (firstn i key) <> Some (NValue v)) ->
  exists t, target tbl key = Ok t /\ table_wf t = true.
Proof.
  induction key as [|p key IH]; intros tbl Hwf Hnov.
  - exists tbl. auto.
  - cbn [target].
    assert (Hshift : forall elems,
      (forall k, k <> [] -> find_node tbl (p :: k) = find_node elems k) ->
      forall i v, (0 < i <= length key)%nat ->
                  find_node elems (firstn i key) <> Some (NValue v)).
    { intros elems Hfind i v Hi.
      rewrite <- Hfind.
      - apply (Hnov (S i) v). simpl. lia.
      - destruct key; simpl in *; [lia|]. destruct i; [lia | discriminate]. }
    destruct (dict_get p tbl) as [[v|d dt elems|elems]|] eqn:Eget.
    + exfalso. apply (Hnov 1%nat v); [simpl; lia|].
      simpl. exact Eget.
    + pose proof (table_wf_get _ _ _ Hwf Eget) as Hnode.
      rewrite node_wf_table in Hnode. apply andb_true_iff in Hnode.
      apply IH; [tauto|]. apply Hshift.
      intros k Hk. rewrite (find_node_cons _ _ _ Hk), Eget. reflexivity.
    + pose proof (table_wf_get _ _ _ Hwf Eget) as Hnode.
      destruct (wf_array_last elems Hnode) as (init & t & -> & El & Ht & _).
      rewrite El. cbn [rbind snd].
      apply IH; [exact Ht|]. apply Hshift.
      intros k Hk. rewrite (find_node_cons _ _ _ Hk), Eget, split_last_snoc.
      reflexivity.
    + exists []. auto.
Qed.

Lemma define_table_Ok p t :
  dict_get p t = None \/ (exists elems, dict_get p t = Some (Table false false elems)) ->
  exists t' elems,
    define_table p t = Ok t'
    /\ dict_get p t' = Some (Table true false elems)
    /\ ((dict_get p t = None /\ elems = [])
        \/ dict_get p t = Some (Table false false elems)).
Proof.
  unfold define_table, dict_has.
  intros [E|(elems & E)]; rewrite E; cbn [negb].
  - rewrite dict_get_set_same. eexists _, []. split; [reflexivity|].
    rewrite dict_get_set_same. auto.
  - rewrite E. eexists _, elems. split; [reflexivity|].
    rewrite dict_get_set_same. auto.
Qed.

Lemma append_table_Ok p t :
  dict_get p t = None \/ (exists old, dict_get p t = Some (TableArray old)) ->
  exists t' old,
    append_table p t = Ok t'
    /\ dict_get p t' = Some (TableArray (old ++ [[]]))
    /\ ((dict_get p t = None /\ old = [])
        \/ dict_get p t = Some (TableArray old)).
Proof.
  unfold append_table, dict_has.
  intros [E|(old & E)]; rewrite E; cbn [negb].
  - rewrite dict_get_set_same. eexists _, []. split; [reflexivity|].
    rewrite dict_get_set_same. auto.
  - rewrite E. eexists _, old. split; [reflexivity|].
    rewrite dict_get_set_same. auto.
Qed.

(** ** Opening a table array (claim C8) *)

Lemma find_node_nil_tbl key : find_node [] key = None.
Proof. destruct key as [|p [|q k]]; reflexivity. Qed.

Lemma insert_at_ancestors key f : forall tbl tbl' i,
  insert_at tbl key false f = Ok tbl' ->
  (0 < i <= length key)%nat ->
  exists n, find_node tbl' (firstn i key) = Some n
            /\ ancestor_kept (find_node tbl (firstn i key)) n.
Proof.
  induction key as [|q key IH]; intros tbl tbl' i H Hi; [simpl in Hi; lia|].
  destruct i as [|j]; [lia|]. simpl in Hi.
  cbn [insert_at firstn] in *.
  destruct (dict_get q tbl) as [[v|d dt elems|elems]|] eqn:Eget;
    try discriminate.
  - destruct (insert_at elems key false f) as [sub| | |] eqn:Esub;
      try discriminate.
    inversion H; subst. clear H.
    destruct j as [|j].
    + simpl. rewrite dict_get_set_same, Eget. eexists. split; [reflexivity|].
      simpl. auto.
    + assert (Hne : firstn (S j) key <> [])
        by (destruct key; simpl in *; [lia | discriminate]).
      rewrite !(find_node_cons _ _ _ Hne), dict_get_set_same, Eget.
      apply (IH elems sub (S j) Esub). lia.
  - destruct (last_table elems) as [[init t]| | |] eqn:El; try discriminate.
    cbn [rbind fst snd] in H.
    destruct (insert_at t key false f) as [sub| | |] eqn:Esub;
      try discriminate.
    inversion H; subst. clear H.
    destruct j as [|j].
    + simpl. rewrite dict_get_set_same, Eget. eexists. split; [reflexivity|].
      simpl. auto.
    + assert (Hne : firstn (S j) key <> [])
        by (destruct key; simpl in *; [lia | discriminate]).
      rewrite !(find_node_cons _ _ _ Hne), dict_get_set_same, Eget.
      rewrite split_last_snoc, (last_table_Ok _ _ _ El).
      apply (IH t sub (S j) Esub). lia.
  - destruct (insert_at [] key false f) as [sub| | |] eqn:Esub;
      try discriminate.
    inversion H; subst. clear H.
    destruct j as [|j].
    + simpl. rewrite dict_get_set_same, Eget. eexists. split; [reflexivity|].
      simpl. auto.
    + assert (Hne : firstn (S j) key <> [])
        by (destruct key; simpl in *; [lia | discriminate]).
      rewrite !(find_node_cons _ _ _ Hne), dict_get_set_same, Eget.
      destruct (IH [] sub (S j) Esub ltac:(lia)) as (n & Hn & Hkept).
      rewrite find_node_nil_tbl in Hkept.
      exists n. split; assumption.
Qed.

Lemma firstn_snoc_prefix {A} (l : list A) x i :
  (i <= length l)%nat -> firstn i (l ++ [x]) = firstn i l.
Proof.
  intros Hi. rewrite firstn_app.
  replace (i - length l)%nat with O by lia. simpl. apply app_nil_r.
Qed.

(** What [open_table_array] does under its precondition. *)
Lemma open_table_array_post ctx key :
  table_wf (data ctx) = true ->
  key <> [] ->
  (forall i v, (0 < i < length key)%nat ->
               find_node (data ctx) (firstn i key) <> Some (NValue v)) ->
  (find_node (data ctx) key = None
   \/ exists old, find_node (data ctx) key = Some (TableArray old)) ->
  exists ctx',
    open_table_array ctx key = Ok ctx'
    /\ table_wf (data ctx') = true
    /\ (forall i, (0 < i < length key)%nat ->
          exists n, find_node (data ctx') (firstn i key) = Some n
                    /\ ancestor_kept (find_node (data ctx) (firstn i key)) n)
    /\ (exists old,
          ((find_node (data ctx) key = None /\ old = [])
           \/ find_node (data ctx) key = Some (TableArray old))
          /\ find_node (data ctx') key = Some (TableArray (old ++ [[]])))
    /\ active_table ctx' = key
    /\ get_active_table ctx' = Ok []
    /\ ends_defined (data ctx') key = true.
Proof.
  intros Hwf Hne Hnov Hterm.
  rewrite open_table_array_insert.
  destruct (split_last key) as [[parent p]|] eqn:Esplit;
    [|apply split_last_None in Esplit; congruence].
  apply split_last_Some in Esplit. subst key.
  rewrite length_app in Hnov. simpl in Hnov.
  destruct (target_ok parent (data ctx) Hwf) as (t & Ht & Htwf).
  { intros i v Hi. rewrite <- (firstn_snoc_prefix parent p i) by lia.
    apply Hnov. lia. }
  rewrite (find_node_target parent p _ _ Ht) in Hterm.
  destruct (append_table_Ok p t Hterm) as (t' & old & Happ & Hget' & Hold).
  destruct (insert_at_ok parent false (append_table p) _ _ _ Ht Happ)
    as (data' & Hins & Hat).
  rewrite Hins. cbn [rbind]. eexists. split; [reflexivity|].
  cbn [data active_table].
  split.
  { exact (proj1 (insert_at_header_step parent _
                    (append_table_header_step p) _ _ Hwf Hins)). }
  split.
  { intros i Hi. rewrite length_app in Hi. simpl in Hi.
    rewrite (firstn_snoc_prefix parent p i) by lia.
    apply (insert_at_ancestors parent _ _ _ i Hins). lia. }
  split.
  { exists old. rewrite (find_node_target parent p _ _ Ht).
    split; [exact Hold|].
    rewrite (find_node_target parent p _ _ (table_at_target _ _ _ Hat)).
    exact Hget'. }
  split; [reflexivity|].
  split.
  - unfold get_active_table. cbn [data active_table].
    rewrite table_at_app, Hat. cbn [rbind table_at]. rewrite Hget'.
    rewrite last_table_snoc. reflexivity.
  - rewrite (ends_defined_app parent _ [p] _ Hat) by discriminate.
    cbn [ends_defined]. rewrite Hget', split_last_snoc. reflexivity.
Qed.

(** C8: under its precondition (the key names neither a table nor a value
    and no proper prefix of it names a value) [open_table_array] returns;
    every proper prefix of the key then names a table or a table array,
    created as a table neither defined nor dotted where it was missing and
    unchanged in kind and flags where it was not; the key names a table
    array whose elements are the previous ones, none if the array is new,
    followed by an empty table; and that empty table is the active one.
    So two calls with the key [a] on a new context give the data
    [a = [{}, {}]], and an assignment after them lands in the second
    element only. *)
Theorem open_table_array_spec :
  (forall ctx key,
      table_wf (data ctx) = true ->
      key <> [] ->
      (forall i v, (0 < i < length key)%nat ->
                   find_node (data ctx) (firstn i key) <> Some (NValue v)) ->
      (find_node (data ctx) key = None
       \/ exists old, find_node (data ctx) key = Some (TableArray old)) ->
      exists ctx',
        open_table_array ctx key = Ok ctx'
        /\ (forall i, (0 < i < length key)%nat ->
              exists n, find_node (data ctx') (firstn i key) = Some n
                        /\ ancestor_kept
                             (find_node (data ctx) (firstn i key)) n)
        /\ (exists old,
              ((find_node (data ctx) key = None /\ old = [])
               \/ find_node (data ctx) key = Some (TableArray old))
              /\ find_node (data ctx') key = Some (TableArray (old ++ [[]])))
        /\ active_table ctx' = key
        /\ get_active_table ctx' = Ok [])
  /\ (forall x v,
         (ctx1 <-r open_table_array new_Context [py "a"] ;;
          ctx2 <-r open_table_array ctx1 [py "a"] ;;
          ctx3 <-r assign ctx2 [x] v ;;
          Ok (get_data ctx2, get_data ctx3))
         = Ok ([(py "a", VList [VDict []; VDict []])],
               [(py "a", VList [VDict []; VDict [(x, v)]])])).
Proof.
  split.
  - intros ctx key Hwf Hne Hnov Hterm.
    destruct (open_table_array_post ctx key Hwf Hne Hnov Hterm)
      as (ctx' & E & _ & Hanc & Hold & Hact & Htbl & _).
    exists ctx'. auto.
  - intros x v. reflexivity.
Qed.

Lemma open_table_array_spec_witness :
  exists ctx',
    open_table_array new_Context [py "a"] = Ok ctx'
    /\ (forall i, (0 < i < length [py "a"])%nat ->
          exists n, find_node (data ctx') (firstn i [py "a"]) = Some n
                    /\ ancestor_kept
                         (find_node (data new_Context) (firstn i [py "a"])) n)
    /\ (exists old,
          ((find_node (data new_Context) [py "a"] = None /\ old = [])
           \/ find_node (data new_Context) [py "a"] = Some (TableArray old))
          /\ find_node (data ctx') [py "a"] = Some (TableArray (old ++ [[]])))
    /\ active_table ctx' = [py "a"]
    /\ get_active_table ctx' = Ok [].
Proof.
  apply (proj1 open_table_array_spec new_Context [py "a"]).
  - reflexivity.
  - discriminate.
  - intros i v Hi. simpl in Hi. lia.
  - left. reflexivity.
Defined.

(** ** The characters of the value generators *)

Lemma yields_for_each {X A} (I : A -> Prop) body (xs : list X) :
  forall acc : A,
  I acc -> (forall x acc, I acc -> yields (body x acc) I) ->
  yields (for_each xs body acc) I.
Proof.
  induction xs as [|x xs IH]; intros acc Hacc Hbody; simpl.
  - apply yields_ret. exact Hacc.
  - eapply yields_bind; [apply Hbody; exact Hacc|].
    intros acc' Hacc'. apply IH; assumption.
Qed.

Lemma spec_ok s : forallb is_spec_char s = true -> doc_ok s.
Proof. apply spec_char_doc_ok. Qed.

Lemma hex_digits_doc_ok s : forallb is_hex_digit s = true -> doc_ok s.
Proof.
  intros H. apply spec_ok. revert H. apply forallb_impl, hex_digit_doc_char.
Qed.

Lemma digits_doc_ok s : is_digits s -> doc_ok s.
Proof. intros [_ H]. apply hex_digits_doc_ok, H. Qed.

Lemma digit_run_doc_ok s : forall b, digit_run b s = true -> doc_ok s.
Proof.
  induction s as [|c s IH]; intros b H; [reflexivity|].
  simpl in H. destruct (Z.eqb_spec c 0x5f) as [->|_].
  - apply andb_true_iff in H. destruct H as [_ H].
    apply doc_ok_cons; [reflexivity | exact (IH _ H)].
  - apply andb_true_iff in H. destruct H as [Hc H].
    apply doc_ok_cons; [|exact (IH _ H)].
    unfold is_doc_char. rewrite (hex_digit_doc_char c Hc).
    rewrite !orb_true_r. reflexivity.
Qed.

Lemma zero_pad_doc_ok width v : doc_ok (zero_pad width v).
Proof.
  unfold zero_pad. apply doc_ok_app.
  - induction (width - length (format_base 10 v))%nat as [|n IH];
      [reflexivity | apply doc_ok_cons; [reflexivity | exact IH]].
  - apply digits_doc_ok, format_base_digits. lia.
Qed.

Lemma str_repeat_zero_doc_ok n : doc_ok (str_repeat n (py "0")).
Proof.
  unfold str_repeat. induction (Z.to_nat n) as [|k IH]; [reflexivity|].
  simpl. apply doc_ok_cons; [reflexivity | exact IH].
Qed.

Ltac doc_ok_tac :=
  repeat first
    [ assumption
    | reflexivity
    | apply zero_pad_doc_ok
    | apply str_repeat_zero_doc_ok
    | apply doc_ok_app
    | apply doc_ok_cons ].

Lemma gen_local_date_doc_ok :
  returns _gen_local_date (fun r => doc_ok (fst r)).
Proof.
  unfold _gen_local_date.
  eapply returns_bind; [apply returns_randint; lia|]. intros year _.
  eapply returns_bind; [apply returns_randint; lia|]. intros month _.
  eapply returns_bind.
  - apply returns_randint.
    repeat match goal with
           | |- context [if ?c then _ else _] => destruct c
           end; lia.
  - intros day _. apply returns_ret. simpl fst.
    unfold date_isoformat. doc_ok_tac.
Qed.

Lemma gen_local_time_doc_ok :
  returns _gen_local_time (fun r => doc_ok (fst r)).
Proof.
  unfold _gen_local_time.
  eapply returns_bind; [apply returns_randint; lia|]. intros hour _.
  eapply returns_bind; [apply returns_randint; lia|]. intros minute _.
  eapply returns_bind; [apply returns_randint; lia|]. intros second _.
  eapply returns_bind; [apply returns_random|]. intros b _.
  eapply returns_bind with (P := fun r => doc_ok (snd r)).
  - destruct (Qltb b half).
    + eapply returns_bind; [apply returns_randint; lia|]. intros r _.
      apply returns_ret. simpl snd. doc_ok_tac.
    + eapply returns_bind; [apply returns_randint; lia|]. intros r _.
      eapply returns_bind; [apply returns_randint; lia|]. intros usec _.
      apply returns_ret. reflexivity.
  - cbv beta. intros [usec suffix] Hsuffix. simpl in Hsuffix.
    apply returns_ret. simpl fst. unfold time_isoformat.
    destruct (usec =? 0); doc_ok_tac.
Qed.

Lemma gen_timezone_doc_ok : returns _gen_timezone (fun r => doc_ok (fst r)).
Proof.
  unfold _gen_timezone.
  eapply returns_bind; [apply returns_random|]. intros r _.
  destruct (Qltb r (dbl (2 # 10))).
  - apply returns_ret. reflexivity.
  - eapply returns_bind; [apply returns_randint; lia|]. intros delta _.
    apply returns_ret. simpl fst. destruct (delta <? 0); doc_ok_tac.
Qed.

Lemma delim_doc_char delim : In delim (py "Tt ") -> is_doc_char delim = true.
Proof. intros H. eapply in_forallb; [|exact H]. reflexivity. Qed.

Lemma gen_date_time_doc_ok : returns _gen_date_time (fun r => doc_ok (fst r)).
Proof.
  assert (Hodt : returns _gen_offset_date_time (fun r => doc_ok (fst r))).
  { unfold _gen_offset_date_time.
    eapply returns_bind; [apply gen_local_date_doc_ok|].
    cbv beta. intros [date_str [[year month] day]] Hd. simpl in Hd.
    eapply returns_bind; [apply gen_local_time_doc_ok|].
    cbv beta. intros [time_str [[[hour minute] second] usec]] Ht.
    simpl in Ht.
    eapply returns_bind; [apply gen_timezone_doc_ok|].
    cbv beta. intros [tz_str tz] Hz. simpl in Hz.
    eapply returns_bind; [apply returns_choice; discriminate|].
    cbv beta. intros delim Hdelim. apply delim_doc_char in Hdelim.
    apply returns_ret. simpl fst. doc_ok_tac. }
  assert (Hldt : returns _gen_local_date_time (fun r => doc_ok (fst r))).
  { unfold _gen_local_date_time.
    eapply returns_bind; [apply gen_local_date_doc_ok|].
    cbv beta. intros [date_str [[year month] day]] Hd. simpl in Hd.
    eapply returns_bind; [apply gen_local_time_doc_ok|].
    cbv beta. intros [time_str [[[hour minute] second] usec]] Ht.
    simpl in Ht.
    eapply returns_bind; [apply returns_choice; discriminate|].
    cbv beta. intros delim Hdelim. apply delim_doc_char in Hdelim.
    apply returns_ret. simpl fst. doc_ok_tac. }
  unfold _gen_date_time.
  eapply returns_bind; [apply returns_choice; discriminate|].
  cbv beta. intros func Hfunc. simpl in Hfunc.
  destruct Hfunc as [<-|[<-|[<-|[<-|[]]]]].
  - exact Hodt.
  - exact Hldt.
  - eapply returns_bind; [apply gen_local_date_doc_ok|].
    cbv beta. intros [s [[year month] day]] Hs. apply returns_ret. exact Hs.
  - eapply returns_bind; [apply gen_local_time_doc_ok|].
    cbv beta. intros [s [[[hour minute] second] usec]] Hs.
    apply returns_ret. exact Hs.
Qed.

Lemma gen_dec_int_doc_ok max_val signed zero_prefixable :
  0 <= max_val ->
  returns (_gen_dec_int max_val signed zero_prefixable)
    (fun r => doc_ok (fst r)).
Proof.
  intros Hmax. unfold _gen_dec_int.
  eapply returns_bind; [apply returns_randint; lia|].
  cbv beta. intros v Hv.
  eapply returns_bind with (P := doc_ok).
  { destruct signed; [|apply returns_ret; reflexivity].
    eapply returns_weaken; [apply returns_choice; discriminate|].
    cbv beta. intros s Hs. simpl in Hs.
    destruct Hs as [<-|[<-|[<-|[]]]]; reflexivity. }
  cbv beta. intros sign_str Hsign.
  eapply returns_bind with (P := fun prefix => exists n, prefix = str_repeat n (py "0")).
  { destruct zero_prefixable.
    - eapply returns_bind; [apply returns_randint; lia|]. intros n _.
      apply returns_ret. exists n. reflexivity.
    - apply returns_ret. exists 0. reflexivity. }
  cbv beta. intros prefix (n & ->).
  eapply returns_bind.
  { apply splice_number_returns. apply zeros_digits, str_int_digits. lia. }
  cbv beta. intros s Hs. apply returns_ret. simpl fst.
  apply doc_ok_app; [exact Hsign | exact (digit_run_doc_ok _ _ Hs)].
Qed.

Lemma gen_float_doc_ok : returns _gen_float (fun r => doc_ok (fst r)).
Proof.
  unfold _gen_float.
  eapply returns_bind; [apply returns_random|]. intros r _.
  destruct (Qltb r PROB_SPECIAL_FLOAT).
  - eapply returns_bind; [apply returns_choice; discriminate|].
    cbv beta. intros prefix Hp.
    eapply returns_bind; [apply returns_choice; discriminate|].
    cbv beta. intros sym Hs. apply returns_ret. simpl fst.
    simpl in Hp, Hs.
    destruct Hp as [<-|[<-|[<-|[]]]]; destruct Hs as [<-|[<-|[]]];
      reflexivity.
  - eapply returns_bind; [apply gen_dec_int_doc_ok; lia|].
    cbv beta. intros [int_str int_val] Hint. simpl in Hint.
    eapply returns_bind; [apply returns_randint; lia|]. intros k _.
    eapply returns_bind with (P := doc_ok).
    { destruct ((k =? 0) || (k =? 2)); [|apply returns_ret; reflexivity].
      eapply returns_bind; [apply gen_dec_int_doc_ok; lia|].
      cbv beta. intros [exp_str exp_val] Hexp. simpl in Hexp.
      eapply returns_bind; [apply returns_choice; discriminate|].
      cbv beta. intros e He. apply returns_ret.
      apply doc_ok_cons; [|exact Hexp].
      eapply in_forallb; [|exact He]. reflexivity. }
    cbv beta. intros exp_str Hexp.
    eapply returns_bind with (P := doc_ok).
    { destruct ((k =? 1) || (k =? 2)); [|apply returns_ret; reflexivity].
      eapply returns_bind; [apply gen_dec_int_doc_ok; lia|].
      cbv beta. intros [frac_str frac_val] Hfrac. simpl in Hfrac.
      apply returns_ret. apply doc_ok_cons; [reflexivity | exact Hfrac]. }
    cbv beta. intros frac_str Hfrac. apply returns_ret. simpl fst.
    doc_ok_tac.
Qed.

Lemma gen_boolean_doc_ok : returns _gen_boolean (fun r => doc_ok (fst r)).
Proof.
  eapply returns_weaken; [apply returns_choice; discriminate|].
  cbv beta. intros r Hr. simpl in Hr. destruct Hr as [<-|[<-|[]]]; reflexivity.
Qed.

Lemma gen_ml_basic_string_doc_ok fuel :
  yields (_gen_ml_basic_string fuel) (fun r => doc_ok (fst r)).
Proof.
  eapply yields_weaken.
  - apply (gen_ml_basic_string_yields fuel
             (fun _ st => doc_ok (concat (doc_chars st)))).
    + intros lead [->|(eol & [->| ->] & ->)]; reflexivity.
    + intros lead st st' Hst Hstep.
      destruct Hstep as
        [units Haq Hunits Hdoc Hval Haq' Hws'
        |eol Hne Hws Heol Hdoc Hval Haq' Hws'
        |units w Hdoc Hcat Hne Hw Hval Haq' Hws'
        |d c Hd Hnows Hc Hdoc Hval Haq' Hws'];
        rewrite Hdoc, concat_app; apply doc_ok_app; try exact Hst.
      * destruct Hunits as [->| ->]; reflexivity.
      * destruct Heol as [->| ->]; reflexivity.
      * rewrite Hcat. apply doc_ok_cons; [reflexivity|].
        revert Hw. apply forallb_impl. intros c Hc.
        unfold is_ws_nl_char in Hc.
        repeat rewrite orb_true_iff in Hc. rewrite !Z.eqb_eq in Hc.
        destruct Hc as [[[->| ->]| ->]| ->]; reflexivity.
      * simpl. rewrite app_nil_r.
        apply spec_ok, basic_char_unit_spec_chars, Hd.
  - intros [doc val] (lead & st & Hst & Hdoc & _). simpl in *.
    rewrite Hdoc. doc_ok_tac.
Qed.

Lemma gen_ml_literal_string_doc_ok :
  returns _gen_ml_literal_string (fun r => doc_ok (fst r)).
Proof.
  eapply returns_weaken.
  - apply (gen_ml_literal_string_returns
             (fun _ st => doc_ok (concat (doc_chars st)))).
    + intros lead [->|(eol & [->| ->] & ->)]; reflexivity.
    + intros lead st st' Hst Hstep.
      destruct Hstep as
        [units Haq Hunits Hdoc Hval Haq'
        |eol Hne Heol Hdoc Hval Haq'
        |c Hc Hdoc Hval Haq'];
        rewrite Hdoc, concat_app; apply doc_ok_app; try exact Hst.
      * destruct Hunits as [->| ->]; reflexivity.
      * destruct Heol as [->| ->]; reflexivity.
      * simpl. apply spec_ok. simpl.
        rewrite (literal_spec_char c Hc). reflexivity.
  - intros [doc val] (lead & st & Hst & Hdoc & _). simpl in *.
    rewrite Hdoc. doc_ok_tac.
Qed.

Lemma gen_basic_string_doc_ok :
  returns _gen_basic_string (fun r => doc_ok (fst r)).
Proof.
  eapply returns_weaken; [apply gen_basic_string_returns|].
  intros [d v] [(units & Hd & Hunits) _]. simpl in *. rewrite Hd.
  apply doc_ok_cons; [reflexivity|]. apply doc_ok_app; [|reflexivity].
  apply spec_ok, forallb_concat.
  revert Hunits. apply Forall_impl, basic_char_unit_spec_chars.
Qed.

Lemma gen_literal_string_doc_ok :
  returns _gen_literal_string (fun r => doc_ok (fst r)).
Proof.
  eapply returns_weaken; [apply gen_literal_string_returns|].
  intros [d v] [Hd Hv]. simpl in *. rewrite Hd.
  apply doc_ok_cons; [reflexivity|]. apply doc_ok_app; [|reflexivity].
  apply spec_ok. revert Hv. apply forallb_impl, literal_spec_char.
Qed.

Lemma gen_string_doc_ok fuel :
  yields (_gen_string fuel) (fun r => doc_ok (fst r)).
Proof.
  unfold _gen_string.
  eapply yields_bind; [apply returns_yields, returns_choice; discriminate|].
  cbv beta. intros func Hfunc. simpl in Hfunc.
  destruct Hfunc as [<-|[<-|[<-|[<-|[]]]]].
  - apply gen_ml_basic_string_doc_ok.
  - apply returns_yields, gen_basic_string_doc_ok.
  - apply returns_yields, gen_ml_literal_string_doc_ok.
  - apply returns_yields, gen_literal_string_doc_ok.
Qed.

Lemma gen_ws_comment_newline_doc_ok :
  returns _gen_ws_comment_newline doc_ok.
Proof.
  unfold _gen_ws_comment_newline.
  eapply returns_bind; [apply returns_rand_exp; lia|]. intros n _.
  eapply returns_bind.
  - apply (returns_for_range (fun parts => doc_ok (concat parts)));
      [reflexivity|].
    intros j parts Hparts.
    eapply returns_bind; [apply returns_randint; lia|]. intros r _.
    eapply returns_bind with (P := fun parts => doc_ok (concat parts)).
    { destruct (r <? 4); [|apply returns_ret; exact Hparts].
      eapply returns_bind; [apply gen_ws_doc_ok|].
      cbv beta. intros ws Hws. apply returns_ret.
      rewrite concat_app. simpl. rewrite app_nil_r. doc_ok_tac. }
    cbv beta. intros parts1 Hparts1.
    eapply returns_bind with (P := fun parts => doc_ok (concat parts)).
    { destruct ((r =? 2) || (r =? 4)); [|apply returns_ret; exact Hparts1].
      eapply returns_bind; [apply gen_comment_doc_ok|].
      cbv beta. intros c Hc. apply returns_ret.
      rewrite concat_app. simpl. rewrite app_nil_r. doc_ok_tac. }
    cbv beta. intros parts2 Hparts2.
    destruct (2 <=? r); [|apply returns_ret; exact Hparts2].
    eapply returns_bind; [apply gen_newline_doc_ok|].
    cbv beta. intros eol Heol. apply returns_ret.
    rewrite concat_app. simpl. rewrite app_nil_r. doc_ok_tac.
  - cbv beta. intros parts Hparts. apply returns_ret. exact Hparts.
Qed.

Lemma concat_snoc2 {A} (l : list (list A)) a b :
  concat (l ++ [a; b]) = concat l ++ a ++ b.
Proof. rewrite concat_app. simpl. rewrite app_nil_r. reflexivity. Qed.

Lemma concat_snoc1 {A} (l : list (list A)) a :
  concat (l ++ [a]) = concat l ++ a.
Proof. rewrite concat_app. simpl. rewrite app_nil_r. reflexivity. Qed.

Lemma gen_array_with_doc_ok gen_val :
  yields gen_val (fun r => doc_ok (fst r)) ->
  yields (gen_array_with gen_val) (fun r => doc_ok (fst r)).
Proof.
  intros Hval. unfold gen_array_with.
  eapply yields_bind;
    [apply returns_yields, returns_rand_exp; unfold MAX_ARRAY_ELEMS; lia|].
  intros n _.
  eapply yields_bind.
  - apply (yields_for_range
             (fun acc : list pystr * list value => doc_ok (concat (fst acc))));
      [reflexivity|].
    intros i [parts val] Hparts. simpl in Hparts. simpl fst; simpl snd.
    eapply yields_bind with (P := fun parts => doc_ok (concat parts)).
    { destruct (0 <? i); [|apply yields_ret; exact Hparts].
      eapply yields_bind;
        [apply returns_yields, gen_ws_comment_newline_doc_ok|].
      cbv beta. intros w Hw. apply yields_ret.
      rewrite concat_snoc2. doc_ok_tac. }
    cbv beta. intros parts1 Hparts1.
    eapply yields_bind;
      [apply returns_yields, gen_ws_comment_newline_doc_ok|].
    cbv beta. intros w Hw.
    eapply yields_bind; [exact Hval|].
    cbv beta. intros [s v] Hs. simpl in Hs. apply yields_ret. simpl fst.
    rewrite concat_snoc2. doc_ok_tac.
  - cbv beta. intros [parts val] Hparts. simpl in Hparts.
    eapply yields_bind with (P := fun parts => doc_ok (concat parts)).
    { eapply yields_bind with (P := fun _ => True).
      { destruct (0 <? n); [|apply yields_ret; exact I].
        eapply yields_bind; [apply returns_yields, returns_random|].
        intros r _. apply yields_ret. exact I. }
      intros trailing _. destruct trailing; [|apply yields_ret; exact Hparts].
      eapply yields_bind;
        [apply returns_yields, gen_ws_comment_newline_doc_ok|].
      cbv beta. intros w Hw. apply yields_ret.
      rewrite concat_snoc2. doc_ok_tac. }
    cbv beta. intros parts1 Hparts1.
    eapply yields_bind;
      [apply returns_yields, gen_ws_comment_newline_doc_ok|].
    cbv beta. intros w Hw. apply yields_ret. simpl fst.
    rewrite concat_snoc1. doc_ok_tac.
Qed.

(** ** Inline tables *)

Lemma key_in_app_l k a b : key_in k a = true -> key_in k (a ++ b) = true.
Proof.
  intros H. apply key_in_In. apply in_or_app. left. apply key_in_In, H.
Qed.

Lemma inline_ok_more item_keys k : forall v path,
  inline_ok item_keys path v = true ->
  inline_ok (item_keys ++ [k]) path v = true.
Proof.
  fix IH 1. intros v path H.
  destruct v as [s|b|z|l|y m d|h mi s us|y mo d h mi s us tz|l|d];
    cbn [inline_ok] in *;
    try (rewrite orb_false_r in *; apply key_in_app_l; exact H).
  apply orb_true_iff in H. apply orb_true_iff.
  destruct H as [H|H]; [left; apply key_in_app_l, H|]. right.
  revert H. induction d as [|[q w] d IHd]; [reflexivity|].
  cbn [forallb fst snd]. intros H. apply andb_true_iff in H.
  destruct H as [Hw Hd]. apply andb_true_iff. split.
  - apply IH, Hw.
  - apply IHd, Hd.
Qed.

Lemma inline_tbl_ok_more item_keys k path tbl :
  inline_tbl_ok item_keys path tbl = true ->
  inline_tbl_ok (item_keys ++ [k]) path tbl = true.
Proof.
  unfold inline_tbl_ok. apply forallb_impl. intros kv.
  apply inline_ok_more.
Qed.

(** The nested insertion does not raise when no proper prefix of the key is
    an item, and it keeps the dictionary in shape. *)
Lemma inline_insert_ok key v : forall tbl path item_keys,
  key <> [] ->
  inline_tbl_ok item_keys path tbl = true ->
  (forall i, (0 < i < length key)%nat ->
             key_in (path ++ firstn i key) item_keys = false) ->
  exists tbl',
    inline_insert tbl key v = Ok tbl'
    /\ inline_tbl_ok (item_keys ++ [path ++ key]) path tbl' = true.
Proof.
  induction key as [|p key IH]; intros tbl path item_keys Hne Hok Hpre;
    [congruence|].
  cbn [inline_insert].
  destruct key as [|q key].
  - eexists. split; [reflexivity|].
    apply forallb_dict_set; [apply inline_tbl_ok_more, Hok|].
    cbn [fst snd].
    destruct v; cbn [inline_ok]; apply orb_true_iff; left;
      apply key_in_In, in_or_app; right; left; reflexivity.
  - assert (Hp : key_in (path ++ [p]) item_keys = false).
    { apply (Hpre 1%nat). simpl. lia. }
    assert (Hsub : forall sub,
      inline_tbl_ok item_keys (path ++ [p]) sub = true ->
      exists sub',
        inline_insert sub (q :: key) v = Ok sub'
        /\ inline_tbl_ok (item_keys ++ [path ++ p :: q :: key])
             (path ++ [p]) sub' = true).
    { intros sub Hsubok.
      destruct (IH sub (path ++ [p]) item_keys ltac:(discriminate) Hsubok)
        as (sub' & E & Hok').
      - intros i Hi. rewrite <- app_assoc. apply (Hpre (S i)).
        simpl in *. lia.
      - exists sub'. rewrite <- app_assoc in Hok'. auto. }
    assert (Hset : forall sub' base,
      inline_tbl_ok item_keys path base = true ->
      inline_tbl_ok (item_keys ++ [path ++ p :: q :: key]) (path ++ [p]) sub'
      = true ->
      inline_tbl_ok (item_keys ++ [path ++ p :: q :: key]) path
        (dict_set p (VDict sub') base) = true).
    { intros sub' base Hbase Hsub'.
      apply forallb_dict_set; [apply inline_tbl_ok_more, Hbase|].
      cbn [fst snd inline_ok]. apply orb_true_iff. right. exact Hsub'. }
    unfold dict_has.
    destruct (dict_get p tbl) as [w|] eqn:Eget; cbn [negb].
    + rewrite Eget.
      pose proof (forallb_dict_get
                    (fun kv => inline_ok item_keys (path ++ [fst kv]) (snd kv))
                    p w tbl Hok Eget) as Hw.
      cbn [fst snd] in Hw.
      destruct w as [s|b|z|l|y m d|h mi s us|y mo d h mi s us tz|l|d];
        cbn [inline_ok] in Hw; rewrite Hp in Hw; try discriminate.
      cbn [orb] in Hw.
      destruct (Hsub d Hw) as (sub' & -> & Hok').
      eexists. split; [reflexivity|]. apply Hset; assumption.
    + rewrite dict_get_set_same.
      destruct (Hsub [] eq_refl) as (sub' & -> & Hok').
      eexists. split; [reflexivity|]. cbn [rbind].
      rewrite dict_set_set. apply Hset; assumption.
Qed.

Lemma sampled_key_nonempty ep ek rp rk key :
  sampled_key ep ek rp rk key -> ~ In [] rk -> key <> [].
Proof.
  intros [Hin|(prefix & fresh & -> & _ & Hlen & _)] Hrk.
  - intros ->. contradiction.
  - intros H. apply app_eq_nil in H. destruct H as [_ ->]. simpl in Hlen. lia.
Qed.

Lemma has_excluded_prefix_false key exclude_prefix i :
  has_excluded_prefix key exclude_prefix = false ->
  (0 < i < length key)%nat ->
  key_in (firstn i key) exclude_prefix = false.
Proof.
  unfold has_excluded_prefix. intros H Hi.
  destruct (key_in (firstn i key) exclude_prefix) eqn:E; [|reflexivity].
  assert (existsb (fun i => key_in (firstn i key) exclude_prefix)
                  (seq 1 (length key - 1)) = true); [|congruence].
  apply existsb_exists. exists i. split; [apply in_seq; lia | exact E].
Qed.

Lemma gen_inline_table_with_doc_ok gen_val fuel :
  yields gen_val (fun r => doc_ok (fst r)) ->
  yields (gen_inline_table_with gen_val fuel) (fun r => doc_ok (fst r)).
Proof.
  intros Hval. unfold gen_inline_table_with.
  eapply yields_bind;
    [apply returns_yields, returns_rand_exp; unfold MAX_ARRAY_ELEMS; lia|].
  intros n _.
  eapply yields_bind.
  - apply (yields_for_range
             (fun st => doc_ok (concat (il_parts st))
                        /\ inline_tbl_ok (il_item_keys st) [] (il_tbl st)
                           = true));
      [split; reflexivity|].
    intros i st [Hparts Htbl].
    eapply yields_bind; [apply gen_key_yields|].
    cbv beta. intros [key_str key] [Hks Hkey]. simpl in Hks, Hkey.
    eapply yields_bind; [exact Hval|].
    cbv beta. intros [val_str v] Hvs. simpl in Hvs.
    eapply yields_bind with (P := fun parts => doc_ok (concat parts)).
    { destruct (0 <? i); [|apply yields_ret; exact Hparts].
      eapply yields_bind; [apply returns_yields, gen_ws_doc_ok|].
      cbv beta. intros ws Hws. apply yields_ret.
      rewrite concat_snoc2. doc_ok_tac. }
    cbv beta. intros parts Hparts1.
    eapply yields_bind; [apply returns_yields, gen_ws_doc_ok|].
    cbv beta. intros ws1 Hws1.
    eapply yields_bind; [apply returns_yields, gen_ws_doc_ok|].
    cbv beta. intros ws2 Hws2.
    eapply yields_bind; [apply returns_yields, gen_ws_doc_ok|].
    cbv beta. intros ws3 Hws3.
    assert (Hne : key <> []).
    { apply (sampled_key_nonempty _ _ _ _ _ Hkey). tauto. }
    destruct Hkey as [[]|(prefix & fresh & Hk & _ & _ & _ & Hexcl)].
    destruct (inline_insert_ok key v (il_tbl st) [] (il_item_keys st) Hne Htbl)
      as (tbl' & Eins & Htbl').
    { intros i0 Hi0. apply (has_excluded_prefix_false _ _ _ Hexcl Hi0). }
    rewrite Eins. unfold lift. cbn [rbind].
    eapply yields_bind with (P := fun t => t = tbl').
    { intros rng. reflexivity. }
    intros tbl2 ->. apply yields_ret. simpl. split; [|exact Htbl'].
    rewrite concat_app. simpl. rewrite !app_nil_r.
    apply spec_ok in Hks. doc_ok_tac.
  - cbv beta. intros st [Hparts _].
    eapply yields_bind; [apply returns_yields, gen_ws_doc_ok|].
    cbv beta. intros ws Hws. apply yields_ret. simpl fst.
    rewrite concat_snoc1. doc_ok_tac.
Qed.

(** Every value comes with a text made of document characters. *)
Lemma gen_val_doc_ok fuel :
  yields (_gen_val fuel) (fun r => doc_ok (fst r)).
Proof.
  induction fuel as [|fuel IH]; [apply yields_diverge|].
  cbn [_gen_val].
  eapply yields_bind; [apply returns_yields, returns_choice; discriminate|].
  cbv beta. intros func Hfunc. simpl in Hfunc.
  destruct Hfunc as [<-|[<-|[<-|[<-|[<-|[<-|[<-|[]]]]]]]].
  - eapply yields_bind; [apply gen_string_doc_ok|].
    cbv beta. intros [s v] Hs. apply yields_ret. exact Hs.
  - apply returns_yields, gen_boolean_doc_ok.
  - eapply yields_bind; [apply returns_yields, gen_integer_returns|].
    cbv beta. intros [s v] (prefix & digits & Hs & Hp & Hd).
    simpl in Hs. apply yields_ret. simpl fst. rewrite Hs.
    apply doc_ok_app; [|exact (digit_run_doc_ok _ _ Hd)].
    simpl in Hp.
    destruct Hp as [<-|[<-|[<-|[<-|[<-|[<-|[]]]]]]]; reflexivity.
  - apply returns_yields, gen_float_doc_ok.
  - apply gen_array_with_doc_ok, IH.
  - apply gen_inline_table_with_doc_ok, IH.
  - apply returns_yields, gen_date_time_doc_ok.
Qed.

(** ** Induction on the table tree *)

Section NodeInduction.
Variable P : node -> Prop.
Hypothesis Hvalue : forall v, P (NValue v).
Hypothesis Htable :
  forall d dt elems, Forall (fun pv => P (snd pv)) elems -> P (Table d dt elems).
Hypothesis Harray :
  forall elems, Forall (Forall (fun pv => P (snd pv))) elems ->
                P (TableArray elems).

Lemma node_induction : forall v, P v.
Proof.
  fix IH 1. intros [x|d dt elems|elems].
  - apply Hvalue.
  - apply Htable.
    induction elems as [|[p c] l IHl]; constructor; [apply IH | exact IHl].
  - apply Harray.
    induction elems as [|t a IHa]; constructor; [|exact IHa].
    induction t as [|[p c] l IHl]; constructor; [apply IH | exact IHl].
Qed.
End NodeInduction.

(** ** Sorting and collecting *)

Lemma insert_sorted_In k x l : In x (insert_sorted k l) <-> x = k \/ In x l.
Proof.
  induction l as [|y l IH]; simpl; [intuition auto|].
  destruct (key_ltb k y); simpl; [intuition auto|].
  rewrite IH. intuition auto.
Qed.

Lemma sorted_In x l : In x (sorted l) <-> In x l.
Proof.
  unfold sorted. induction l as [|y l IH]; simpl; [tauto|].
  rewrite insert_sorted_In, IH. intuition auto.
Qed.

Section CollectFacts.
Context {X R : Type} (f : X -> result (list R)).

Lemma collect_Ok_In l keys x :
  collect f l = Ok keys -> In x l ->
  exists ks, f x = Ok ks /\ incl ks keys.
Proof.
  revert keys. induction l as [|y l IH]; intros keys H Hin; [contradiction|].
  simpl in H. destruct (f y) as [a| | |] eqn:Ey; try discriminate.
  simpl in H. destruct (collect f l) as [b| | |] eqn:El; try discriminate.
  inversion H; subst. destruct Hin as [->|Hin].
  - exists a. split; [exact Ey | apply incl_appl, incl_refl].
  - destruct (IH b eq_refl Hin) as (ks & Hks & Hincl).
    exists ks. split; [exact Hks | apply incl_appr, Hincl].
Qed.

Lemma collect_In_inv l keys k :
  collect f l = Ok keys -> In k keys ->
  exists x ks, In x l /\ f x = Ok ks /\ In k ks.
Proof.
  revert keys. induction l as [|y l IH]; intros keys H Hin.
  - inversion H; subst. contradiction.
  - simpl in H. destruct (f y) as [a| | |] eqn:Ey; try discriminate.
    simpl in H. destruct (collect f l) as [b| | |] eqn:El; try discriminate.
    inversion H; subst. apply in_app_or in Hin. destruct Hin as [Hin|Hin].
    + exists y, a. simpl. auto.
    + destruct (IH b eq_refl Hin) as (x & ks & Hx & Hks & Hk).
      exists x, ks. simpl. auto.
Qed.

Lemma collect_total l :
  Forall (fun x => exists ks, f x = Ok ks) l -> exists keys, collect f l = Ok keys.
Proof.
  induction 1 as [|x l (ks & Hx) Hl (keys & IH)]; simpl.
  - eexists. reflexivity.
  - rewrite Hx. simpl. rewrite IH. simpl. eexists. reflexivity.
Qed.

Lemma on_last_snoc init t : on_last f (init ++ [t]) = f t.
Proof.
  induction init as [|x init IH]; [reflexivity|].
  simpl. destruct (init ++ [t]) eqn:E; [destruct init; discriminate|].
  exact IH.
Qed.
End CollectFacts.

(** ** The queries return on well-formed trees *)

Lemma Forall_forallb_combine {A} (P : A -> Prop) (f : A -> bool) l :
  Forall P l -> forallb f l = true -> Forall (fun x => P x /\ f x = true) l.
Proof.
  induction 1 as [|x l Hx Hl IH]; intros H; constructor.
  - simpl in H. apply andb_true_iff in H. tauto.
  - simpl in H. apply andb_true_iff in H. apply IH. tauto.
Qed.

Lemma rec_item_keys_total v :
  forall path, node_wf v = true -> exists keys, rec_item_keys v path = Ok keys.
Proof.
  induction v as [x|d dt elems IH|elems IH] using node_induction;
    intros path Hwf.
  - eexists. reflexivity.
  - rewrite node_wf_table in Hwf. apply andb_true_iff in Hwf.
    destruct Hwf as [Hwf _]. apply table_wf_split in Hwf.
    destruct Hwf as [_ Hall].
    cbn [rec_item_keys]. apply collect_total.
    pose proof (Forall_forallb_combine _ _ _ IH Hall) as Hc.
    revert Hc. apply Forall_impl. intros pv [Hp Hw]. apply Hp, Hw.
  - destruct (wf_array_last elems Hwf) as (init & t & -> & _ & Ht & _).
    cbn [rec_item_keys]. rewrite on_last_snoc.
    apply Forall_app in IH. destruct IH as [_ IH].
    inversion IH as [|? ? IHt _]; subst.
    apply table_wf_split in Ht. destruct Ht as [_ Hall].
    apply collect_total.
    pose proof (Forall_forallb_combine _ _ _ IHt Hall) as Hc.
    revert Hc. apply Forall_impl. intros pv [Hp Hw]. apply Hp, Hw.
Qed.

Lemma item_keys_of_total tbl :
  table_wf tbl = true -> exists keys, item_keys_of tbl = Ok keys.
Proof.
  intros Hwf. apply table_wf_split in Hwf. destruct Hwf as [_ Hall].
  unfold item_keys_of. apply collect_total.
  apply Forall_forall. intros pv Hin.
  apply rec_item_keys_total. exact (in_forallb _ _ _ Hall Hin).
Qed.

Lemma rec_table_keys_total defined array v :
  forall path, node_wf v = true ->
               exists keys, rec_table_keys defined array v path = Ok keys.
Proof.
  induction v as [x|d dt elems IH|elems IH] using node_induction;
    intros path Hwf.
  - eexists. reflexivity.
  - rewrite node_wf_table in Hwf. apply andb_true_iff in Hwf.
    destruct Hwf as [Hwf _]. apply table_wf_split in Hwf.
    destruct Hwf as [_ Hall].
    cbn [rec_table_keys].
    destruct (collect_total
                (fun pv => rec_table_keys defined array (snd pv)
                             (path ++ [fst pv])) elems) as (below & ->).
    + pose proof (Forall_forallb_combine _ _ _ IH Hall) as Hc.
      revert Hc. apply Forall_impl. intros pv [Hp Hw]. apply Hp, Hw.
    + eexists. reflexivity.
  - destruct (wf_array_last elems Hwf) as (init & t & -> & _ & Ht & _).
    cbn [rec_table_keys]. rewrite on_last_snoc.
    apply Forall_app in IH. destruct IH as [_ IH].
    inversion IH as [|? ? IHt _]; subst.
    apply table_wf_split in Ht. destruct Ht as [_ Hall].
    destruct (collect_total
                (fun pv => rec_table_keys defined array (snd pv)
                             (path ++ [fst pv])) t) as (below & ->).
    + pose proof (Forall_forallb_combine _ _ _ IHt Hall) as Hc.
      revert Hc. apply Forall_impl. intros pv [Hp Hw]. apply Hp, Hw.
    + eexists. reflexivity.
Qed.

Lemma table_keys_of_total defined array tbl :
  table_wf tbl = true ->
  exists keys, table_keys_of defined array tbl = Ok keys.
Proof.
  intros Hwf. apply table_wf_split in Hwf. destruct Hwf as [_ Hall].
  unfold table_keys_of. apply collect_total.
  apply Forall_forall. intros pv Hin.
  apply rec_table_keys_total. exact (in_forallb _ _ _ Hall Hin).
Qed.

(** ** The queries list what the tree holds *)

Lemma snoc_app {A} (path : list A) p k : path ++ p :: k = (path ++ [p]) ++ k.
Proof. rewrite <- app_assoc. reflexivity. Qed.

Lemma item_keys_complete key : forall tbl path keys x,
  collect (fun pv => rec_item_keys (snd pv) (path ++ [fst pv])) tbl = Ok keys ->
  find_node tbl key = Some (NValue x) ->
  In (path ++ key) keys.
Proof.
  induction key as [|p key IH]; intros tbl path keys x Hc Hf; [discriminate|].
  destruct key as [|q key].
  - cbn [find_node] in Hf. apply dict_get_In in Hf.
    destruct (collect_Ok_In _ _ _ _ Hc Hf) as (ks & Hks & Hincl).
    cbn [rec_item_keys fst snd] in Hks. inversion Hks; subst.
    apply Hincl. left. reflexivity.
  - rewrite find_node_cons in Hf by discriminate.
    destruct (dict_get p tbl) as [[v|d dt elems|elems]|] eqn:Eg;
      try discriminate.
    + apply dict_get_In in Eg.
      destruct (collect_Ok_In _ _ _ _ Hc Eg) as (ks & Hks & Hincl).
      cbn [rec_item_keys fst snd] in Hks.
      apply Hincl. rewrite snoc_app. eapply IH; eassumption.
    + destruct (split_last elems) as [[init t]|] eqn:Es; [|discriminate].
      apply split_last_Some in Es. subst elems.
      apply dict_get_In in Eg.
      destruct (collect_Ok_In _ _ _ _ Hc Eg) as (ks & Hks & Hincl).
      cbn [rec_item_keys fst snd] in Hks. rewrite on_last_snoc in Hks.
      apply Hincl. rewrite snoc_app. eapply IH; eassumption.
Qed.

Lemma item_keys_of_complete tbl keys key x :
  item_keys_of tbl = Ok keys ->
  find_node tbl key = Some (NValue x) ->
  In key keys.
Proof.
  intros Hc Hf. exact (item_keys_complete key tbl [] keys x Hc Hf).
Qed.

Lemma table_keys_complete defined array key : forall tbl path keys n,
  collect (fun pv => rec_table_keys defined array (snd pv) (path ++ [fst pv]))
          tbl = Ok keys ->
  find_node tbl key = Some n ->
  listed_table defined array n = true ->
  In (path ++ key) keys.
Proof.
  induction key as [|p key IH]; intros tbl path keys n Hc Hf Hl;
    [discriminate|].
  destruct key as [|q key].
  - cbn [find_node] in Hf. apply dict_get_In in Hf.
    destruct (collect_Ok_In _ _ _ _ Hc Hf) as (ks & Hks & Hincl).
    apply Hincl. cbn [fst snd] in Hks.
    destruct n as [v|d dt elems|elems]; cbn [listed_table] in Hl;
      [discriminate| |]; cbn [rec_table_keys] in Hks.
    + destruct (collect _ elems) as [below| | |]; try discriminate.
      cbn [rbind] in Hks. rewrite Hl in Hks. inversion Hks; subst.
      left. reflexivity.
    + destruct (on_last _ elems) as [below| | |]; try discriminate.
      cbn [rbind] in Hks. rewrite Hl in Hks. inversion Hks; subst.
      left. reflexivity.
  - rewrite find_node_cons in Hf by discriminate.
    destruct (dict_get p tbl) as [[v|d dt elems|elems]|] eqn:Eg;
      try discriminate.
    + apply dict_get_In in Eg.
      destruct (collect_Ok_In _ _ _ _ Hc Eg) as (ks & Hks & Hincl).
      cbn [rec_table_keys fst snd] in Hks.
      destruct (collect _ elems) as [below| | |] eqn:Eb; try discriminate.
      cbn [rbind] in Hks. inversion Hks; subst.
      apply Hincl, in_or_app. right.
      rewrite snoc_app. eapply IH; eassumption.
    + destruct (split_last elems) as [[init t]|] eqn:Es; [|discriminate].
      apply split_last_Some in Es. subst elems.
      apply dict_get_In in Eg.
      destruct (collect_Ok_In _ _ _ _ Hc Eg) as (ks & Hks & Hincl).
      cbn [rec_table_keys fst snd] in Hks. rewrite on_last_snoc in Hks.
      destruct (collect _ t) as [below| | |] eqn:Eb; try discriminate.
      cbn [rbind] in Hks. inversion Hks; subst.
      apply Hincl, in_or_app. right.
      rewrite snoc_app. eapply IH; eassumption.
Qed.

Lemma table_keys_of_complete defined array tbl keys key n :
  table_keys_of defined array tbl = Ok keys ->
  find_node tbl key = Some n ->
  listed_table defined array n = true ->
  In key keys.
Proof.
  intros Hc Hf Hl.
  exact (table_keys_complete defined array key tbl [] keys n Hc Hf Hl).
Qed.

Lemma item_prefixes_complete key : forall tbl path,
  dotted_path tbl key = true ->
  In (path ++ key)
     (flat_map (fun pv => rec_item_prefixes (snd pv) (path ++ [fst pv])) tbl).
Proof.
  induction key as [|p key IH]; intros tbl path H; [discriminate|].
  cbn [dotted_path] in H.
  destruct (dict_get p tbl) as [[v|d [|] elems|elems]|] eqn:Eg;
    try discriminate.
  apply dict_get_In in Eg. apply in_flat_map.
  exists (p, Table d true elems). split; [exact Eg|].
  cbn [rec_item_prefixes fst snd].
  destruct key as [|q key].
  - left. reflexivity.
  - right. rewrite snoc_app. apply IH, H.
Qed.

Lemma item_prefixes_of_complete tbl key :
  dotted_path tbl key = true -> In key (item_prefixes_of tbl).
Proof. intros H. exact (item_prefixes_complete key tbl [] H). Qed.

Lemma subtable_keys_complete (tbl : list (pystr * node)) p n :
  dict_get p tbl = Some n -> is_subtable n = true ->
  In [p] (flat_map (fun pv =>
                      match snd pv with
                      | Table _ dotted _ =>
                          if negb dotted then [[fst pv]] else []
                      | TableArray _ => [[fst pv]]
                      | NValue _ => []
                      end) tbl).
Proof.
  intros Hg Hs. apply dict_get_In in Hg. apply in_flat_map.
  exists (p, n). split; [exact Hg|]. cbn [fst snd].
  destruct n as [v|d dt elems|elems]; cbn [is_subtable] in Hs;
    [discriminate| |].
  - rewrite Hs. left. reflexivity.
  - left. reflexivity.
Qed.

(** ** What the queries list is in the tree *)

Lemma find_node_enter tbl p k v t :
  k <> [] -> dict_get p tbl = Some v -> enter v = Some t ->
  find_node tbl (p :: k) = find_node t k.
Proof.
  intros Hk Hg He. rewrite find_node_cons by exact Hk. rewrite Hg.
  destruct v as [x|d dt elems|elems]; cbn [enter] in He.
  - discriminate.
  - inversion He; subst. reflexivity.
  - destruct (split_last elems) as [[init t0]|]; [|discriminate].
    inversion He; subst. reflexivity.
Qed.

Lemma table_keys_sound_step defined array tbl :
  Forall (fun pv => forall path keys,
            node_wf (snd pv) = true ->
            rec_table_keys defined array (snd pv) path = Ok keys ->
            forall k, In k keys ->
                      table_keys_at defined array (snd pv) path k) tbl ->
  forall path keys,
    table_wf tbl = true ->
    collect (fun pv => rec_table_keys defined array (snd pv) (path ++ [fst pv]))
            tbl = Ok keys ->
    forall k, In k keys ->
    exists k' n, k' <> [] /\ k = path ++ k' /\ find_node tbl k' = Some n
                 /\ listed_table defined array n = true.
Proof.
  intros Hall path keys Hwf Hc k Hin.
  apply table_wf_split in Hwf. destruct Hwf as [Hok Hnodes].
  destruct (collect_In_inv _ _ _ _ Hc Hin) as ([p v] & ks & Hpv & Hks & Hk).
  cbn [fst snd] in Hks.
  rewrite Forall_forall in Hall.
  pose proof (Hall _ Hpv (path ++ [p]) ks
                (in_forallb _ _ _ Hnodes Hpv) Hks k Hk) as Hat.
  cbn [snd] in Hat.
  pose proof (dict_ok_In_get p v tbl Hok Hpv) as Hget.
  destruct Hat as [[-> Hl]|(t & k' & n & He & Hk' & -> & Hf & Hl)].
  - exists [p], v. repeat split; [discriminate | exact Hget | exact Hl].
  - exists (p :: k'), n. split; [discriminate|].
    split; [symmetry; apply snoc_app|].
    split; [|exact Hl].
    rewrite (find_node_enter tbl p k' v t Hk' Hget He). exact Hf.
Qed.

Lemma rec_table_keys_sound defined array v :
  forall path keys,
    node_wf v = true ->
    rec_table_keys defined array v path = Ok keys ->
    forall k, In k keys -> table_keys_at defined array v path k.
Proof.
  induction v as [x|d dt elems IH|elems IH] using node_induction;
    intros path keys Hwf Hr k Hin.
  - inversion Hr; subst. contradiction.
  - rewrite node_wf_table in Hwf. apply andb_true_iff in Hwf.
    destruct Hwf as [Hwf _].
    cbn [rec_table_keys] in Hr.
    destruct (collect _ elems) as [below| | |] eqn:Eb; try discriminate.
    cbn [rbind] in Hr. inversion Hr; subst. clear Hr.
    apply in_app_or in Hin. destruct Hin as [Hin|Hin].
    + left. cbn [listed_table].
      destruct (is_not_true array && none_or_eq defined d);
        [|contradiction].
      destruct Hin as [<-|[]]. split; reflexivity.
    + right.
      destruct (table_keys_sound_step defined array elems IH path below
                  Hwf Eb k Hin) as (k' & n & Hk' & -> & Hf & Hl).
      exists elems, k', n. repeat split; assumption.
  - destruct (wf_array_last elems Hwf) as (init & t & -> & _ & Ht & _).
    cbn [rec_table_keys] in Hr. rewrite on_last_snoc in Hr.
    destruct (collect _ t) as [below| | |] eqn:Eb; try discriminate.
    cbn [rbind] in Hr. inversion Hr; subst. clear Hr.
    apply Forall_app in IH. destruct IH as [_ IH].
    inversion IH as [|? ? IHt _]; subst.
    apply in_app_or in Hin. destruct Hin as [Hin|Hin].
    + left. cbn [listed_table].
      destruct (is_not_false array); [|contradiction].
      destruct Hin as [<-|[]]. split; reflexivity.
    + right.
      destruct (table_keys_sound_step defined array t IHt path below
                  Ht Eb k Hin) as (k' & n & Hk' & -> & Hf & Hl).
      exists t, k', n. cbn [enter]. rewrite split_last_snoc.
      repeat split; assumption.
Qed.

Lemma table_keys_of_sound defined array tbl keys k :
  table_wf tbl = true ->
  table_keys_of defined array tbl = Ok keys ->
  In k keys ->
  exists n, k <> [] /\ find_node tbl k = Some n
            /\ listed_table defined array n = true.
Proof.
  intros Hwf Hc Hin.
  destruct (table_keys_sound_step defined array tbl) with
    (path := @nil pystr) (keys := keys) (k := k)
    as (k' & n & Hk' & -> & Hf & Hl); try assumption.
  - apply Forall_forall. intros pv _. apply rec_table_keys_sound.
  - exists n. repeat split; assumption.
Qed.

Lemma find_node_prefix key : forall tbl n i v,
  find_node tbl key = Some n ->
  (0 < i < length key)%nat ->
  find_node tbl (firstn i key) <> Some (NValue v).
Proof.
  induction key as [|p key IH]; intros tbl n i v Hf Hi; [simpl in Hi; lia|].
  destruct key as [|q key]; [simpl in Hi; lia|].
  rewrite find_node_cons in Hf by discriminate.
  destruct i as [|j]; [lia|].
  cbn [firstn]. destruct j as [|j].
  - cbn [firstn find_node].
    destruct (dict_get p tbl) as [[x|d dt elems|elems]|]; discriminate.
  - rewrite find_node_cons by discriminate.
    cbn [length] in Hi.
    destruct (dict_get p tbl) as [[x|d dt elems|elems]|]; try discriminate.
    + apply (IH elems n (S j) v Hf). cbn [length]. lia.
    + destruct (split_last elems) as [[init t]|]; [|discriminate].
      apply (IH t n (S j) v Hf). cbn [length]. lia.
Qed.

Lemma find_node_wf key : forall tbl n,
  table_wf tbl = true -> find_node tbl key = Some n -> node_wf n = true.
Proof.
  induction key as [|p key IH]; intros tbl n Hwf Hf; [discriminate|].
  destruct key as [|q key].
  - cbn [find_node] in Hf. exact (table_wf_get _ _ _ Hwf Hf).
  - rewrite find_node_cons in Hf by discriminate.
    destruct (dict_get p tbl) as [[x|d dt elems|elems]|] eqn:Eg;
      try discriminate.
    + pose proof (table_wf_get _ _ _ Hwf Eg) as Hn.
      rewrite node_wf_table in Hn. apply andb_true_iff in Hn.
      apply (IH elems n (proj1 Hn) Hf).
    + pose proof (table_wf_get _ _ _ Hwf Eg) as Hn.
      destruct (wf_array_last elems Hn) as (init & t & -> & _ & Ht & _).
      rewrite split_last_snoc in Hf. apply (IH t n Ht Hf).
Qed.

(** ** Assignments keep the invariant *)

Lemma pure_not_subtable n : is_pure n = true -> is_subtable n = false.
Proof.
  destruct n as [x|d dt elems|elems]; cbn [is_pure is_subtable]; intros H.
  - reflexivity.
  - apply andb_true_iff in H. destruct H as [-> _]. reflexivity.
  - discriminate.
Qed.

Lemma all_pure_active_ok tbl : all_pure tbl = true -> active_ok tbl = true.
Proof.
  unfold all_pure, active_ok. intros H.
  apply forallb_forall. intros pv Hin.
  rewrite (in_forallb _ _ _ H Hin). apply orb_true_r.
Qed.

Lemma all_subtables_active_ok tbl :
  all_subtables tbl = true -> active_ok tbl = true.
Proof.
  unfold all_subtables, active_ok. intros H.
  apply forallb_forall. intros pv Hin.
  rewrite (in_forallb _ _ _ H Hin). reflexivity.
Qed.

Lemma can_assign_nil parent p : can_assign [] parent p = true.
Proof. destruct parent; reflexivity. Qed.

Lemma is_pure_table d dt elems :
  is_pure (Table d dt elems) = dt && all_pure elems.
Proof. reflexivity. Qed.

Lemma insert_at_assign parent p v : forall tbl,
  table_wf tbl = true -> active_ok tbl = true ->
  can_assign tbl parent p = true ->
  exists tbl',
    insert_at tbl parent true (set_item p v) = Ok tbl'
    /\ table_wf tbl' = true /\ active_ok tbl' = true
    /\ (all_pure tbl = true -> all_pure tbl' = true).
Proof.
  induction parent as [|q rest IH]; intros tbl Hwf Hact Hcan.
  - cbn [insert_at can_assign] in *. unfold set_item.
    apply negb_true_iff in Hcan. rewrite Hcan.
    eexists. split; [reflexivity|]. split; [|split].
    + apply table_wf_set; [exact Hwf | reflexivity].
    + apply forallb_dict_set; [exact Hact | reflexivity].
    + intros Hp. apply forallb_dict_set; [exact Hp | reflexivity].
  - cbn [insert_at can_assign] in *.
    destruct (dict_get q tbl) as [[x|d dt elems|elems]|] eqn:Eg;
      try discriminate.
    + apply andb_true_iff in Hcan. destruct Hcan as [Hcan Hrest].
      apply andb_true_iff in Hcan. destruct Hcan as [-> Hpure].
      pose proof (table_wf_get _ _ _ Hwf Eg) as Hn.
      rewrite node_wf_table in Hn. apply andb_true_iff in Hn.
      destruct Hn as [Hewf Hd]. cbn [negb andb] in Hd.
      rewrite orb_false_r in Hd. subst d.
      destruct (IH elems Hewf (all_pure_active_ok _ Hpure) Hrest)
        as (sub & -> & Hswf & _ & Hsp).
      cbn [rbind]. eexists. split; [reflexivity|].
      assert (Hnp : is_pure (Table true true sub) = true).
      { rewrite is_pure_table. rewrite (Hsp Hpure). reflexivity. }
      split; [|split].
      * apply table_wf_set; [exact Hwf|].
        rewrite node_wf_table, Hswf. reflexivity.
      * apply forallb_dict_set; [exact Hact|].
        cbn [snd]. rewrite Hnp. apply orb_true_r.
      * intros Hp. apply forallb_dict_set; [exact Hp | exact Hnp].
    + destruct (IH [] table_wf_nil eq_refl (can_assign_nil rest p))
        as (sub & -> & Hswf & _ & Hsp).
      cbn [rbind]. eexists. split; [reflexivity|].
      assert (Hnp : is_pure (Table true true sub) = true).
      { rewrite is_pure_table. rewrite (Hsp eq_refl). reflexivity. }
      split; [|split].
      * apply table_wf_set; [exact Hwf|].
        rewrite node_wf_table, Hswf. reflexivity.
      * apply forallb_dict_set; [exact Hact|].
        cbn [snd]. rewrite Hnp. apply orb_true_r.
      * intros Hp. apply forallb_dict_set; [exact Hp | exact Hnp].
Qed.

Lemma dotted_path_cons tbl p k d elems :
  k <> [] -> dict_get p tbl = Some (Table d true elems) ->
  dotted_path tbl (p :: k) = dotted_path elems k.
Proof.
  intros Hk Hg. cbn [dotted_path]. rewrite Hg.
  destruct k; [congruence | reflexivity].
Qed.

Lemma firstn_not_nil {A} (l : list A) i :
  (0 < i <= length l)%nat -> firstn i l <> [].
Proof.
  destruct i as [|i]; [lia|]. destruct l; simpl; [lia | discriminate].
Qed.

Lemma can_assign_from_exclusions parent p : forall tbl,
  active_ok tbl = true ->
  (forall n, dict_get (hd p parent) tbl = Some n -> is_subtable n = false) ->
  (forall i x, (0 < i <= length parent)%nat ->
               find_node tbl (firstn i parent) <> Some (NValue x)) ->
  (forall x, find_node tbl (parent ++ [p]) <> Some (NValue x)) ->
  dotted_path tbl (parent ++ [p]) = false ->
  can_assign tbl parent p = true.
Proof.
  induction parent as [|q rest IH]; intros tbl Hact Hsub Hpre Hkey Hdot.
  - cbn [can_assign app hd] in *. unfold dict_has.
    destruct (dict_get p tbl) as [n|] eqn:Eg; [|reflexivity].
    pose proof (forallb_dict_get _ _ _ _ Hact Eg) as Hn. cbn [snd] in Hn.
    rewrite (Hsub n eq_refl) in Hn. cbn [orb] in Hn.
    destruct n as [x|d dt elems|elems].
    + exfalso. apply (Hkey x). cbn [find_node]. exact Eg.
    + rewrite is_pure_table in Hn. apply andb_true_iff in Hn.
      destruct Hn as [-> _]. cbn [dotted_path] in Hdot. rewrite Eg in Hdot.
      discriminate.
    + discriminate.
  - cbn [can_assign hd] in *.
    destruct (dict_get q tbl) as [n|] eqn:Eg; [|reflexivity].
    pose proof (forallb_dict_get _ _ _ _ Hact Eg) as Hn. cbn [snd] in Hn.
    rewrite (Hsub n eq_refl) in Hn. cbn [orb] in Hn.
    destruct n as [x|d dt elems|elems].
    + exfalso. apply (Hpre 1%nat x); [cbn [length]; lia|].
      cbn [firstn find_node]. exact Eg.
    + rewrite is_pure_table in Hn. apply andb_true_iff in Hn.
      destruct Hn as [-> Hpure]. rewrite Hpure. cbn [andb].
      apply IH.
      * apply all_pure_active_ok, Hpure.
      * intros n Hg. apply pure_not_subtable.
        exact (forallb_dict_get (fun pv => is_pure (snd pv)) _ _ _ Hpure Hg).
      * intros i x Hi. specialize (Hpre (S i) x).
        cbn [firstn length] in Hpre.
        rewrite find_node_cons in Hpre by (apply firstn_not_nil; exact Hi).
        rewrite Eg in Hpre. apply Hpre. lia.
      * intros x. specialize (Hkey x). cbn [app] in Hkey.
        rewrite find_node_cons in Hkey by (apply app_not_nil_r; discriminate).
        rewrite Eg in Hkey. exact Hkey.
      * cbn [app] in Hdot.
        rewrite (dotted_path_cons tbl q (rest ++ [p]) d elems) in Hdot;
          [exact Hdot | apply app_not_nil_r; discriminate | exact Eg].
    + discriminate.
Qed.

Lemma update_at_ok key f : forall tbl t t',
  table_wf tbl = true -> ends_defined tbl key = true ->
  table_at tbl key = Ok t -> f t = Ok t' -> table_wf t' = true ->
  exists tbl',
    update_at tbl key f = Ok tbl' /\ table_wf tbl' = true
    /\ table_at tbl' key = Ok t' /\ ends_defined tbl' key = true
    /\ (key <> [] -> all_subtables tbl = true -> all_subtables tbl' = true).
Proof.
  induction key as [|p rest IH]; intros tbl t t' Hwf Hend Hat Hf Ht'.
  - cbn [table_at] in Hat. inversion Hat; subst.
    exists t'. cbn [update_at table_at ends_defined].
    repeat split; try assumption. congruence.
  - cbn [table_at update_at] in *.
    destruct (dict_get p tbl) as [[x|d dt elems|elems]|] eqn:Eg;
      try discriminate.
    + pose proof (table_wf_get _ _ _ Hwf Eg) as Hn.
      rewrite node_wf_table in Hn. apply andb_true_iff in Hn.
      destruct Hn as [Hewf Hflags].
      assert (Hend' : ends_defined elems rest = true).
      { cbn [ends_defined] in Hend. rewrite Eg in Hend.
        destruct rest; [reflexivity | exact Hend]. }
      destruct (IH elems t t' Hewf Hend' Hat Hf Ht')
        as (sub & -> & Hswf & Hsat & Hsend & Hssub).
      cbn [rbind]. eexists. split; [reflexivity|].
      split; [|split; [|split]].
      * apply table_wf_set; [exact Hwf|].
        rewrite node_wf_table, Hswf. cbn [andb].
        destruct d; [reflexivity|]. cbn [orb] in *.
        apply andb_true_iff in Hflags. destruct Hflags as [-> Hall].
        cbn [andb]. apply Hssub; [|exact Hall].
        intros ->. cbn [ends_defined] in Hend. rewrite Eg in Hend.
        discriminate.
      * rewrite dict_get_set_same. exact Hsat.
      * cbn [ends_defined]. rewrite dict_get_set_same.
        cbn [ends_defined] in Hend. rewrite Eg in Hend.
        destruct rest; [exact Hend | exact Hsend].
      * intros _ Hall. apply all_subtables_set; [exact Hall|].
        exact (forallb_dict_get (fun pv => is_subtable (snd pv)) _ _ _
                 Hall Eg).
    + pose proof (table_wf_get _ _ _ Hwf Eg) as Hn.
      destruct (wf_array_last elems Hn) as (init & t0 & -> & Hlast & Ht0 & Hinit).
      rewrite Hlast in *. cbn [rbind fst snd] in *.
      assert (Hend' : ends_defined t0 rest = true).
      { cbn [ends_defined] in Hend. rewrite Eg, split_last_snoc in Hend.
        exact Hend. }
      destruct (IH t0 t t' Ht0 Hend' Hat Hf Ht')
        as (sub & -> & Hswf & Hsat & Hsend & Hssub).
      cbn [rbind]. eexists. split; [reflexivity|].
      split; [|split; [|split]].
      * apply table_wf_set; [exact Hwf|]. apply wf_array_snoc; assumption.
      * rewrite dict_get_set_same, last_table_snoc. exact Hsat.
      * cbn [ends_defined]. rewrite dict_get_set_same, split_last_snoc.
        exact Hsend.
      * intros _ Hall. apply all_subtables_set; [exact Hall | reflexivity].
Qed.

Lemma table_at_wf key : forall tbl t,
  table_wf tbl = true -> table_at tbl key = Ok t -> table_wf t = true.
Proof.
  induction key as [|p rest IH]; intros tbl t Hwf Hat.
  - inversion Hat; subst. exact Hwf.
  - cbn [table_at] in Hat.
    destruct (dict_get p tbl) as [[x|d dt elems|elems]|] eqn:Eg;
      try discriminate.
    + pose proof (table_wf_get _ _ _ Hwf Eg) as Hn.
      rewrite node_wf_table in Hn. apply andb_true_iff in Hn.
      exact (IH elems t (proj1 Hn) Hat).
    + pose proof (table_wf_get _ _ _ Hwf Eg) as Hn.
      destruct (wf_array_last elems Hn) as (init & t0 & -> & Hlast & Ht0 & _).
      rewrite Hlast in Hat. exact (IH t0 t Ht0 Hat).
Qed.

Lemma assign_ok ctx key v :
  ctx_ok ctx -> key <> [] ->
  (forall act parent p,
      table_at (data ctx) (active_table ctx) = Ok act ->
      key = parent ++ [p] -> can_assign act parent p = true) ->
  exists ctx', assign ctx key v = Ok ctx' /\ ctx_ok ctx'.
Proof.
  intros (Hwf & Hend & act & Hat & Hact) Hne Hcan.
  rewrite assign_insert.
  destruct (split_last key) as [[parent p]|] eqn:Esplit;
    [|apply split_last_None in Esplit; congruence].
  apply split_last_Some in Esplit.
  pose proof (table_at_wf _ _ _ Hwf Hat) as Hawf.
  destruct (insert_at_assign parent p v act Hawf Hact
              (Hcan act parent p Hat Esplit))
    as (act' & Hins & Hwf' & Hact' & _).
  destruct (update_at_ok (active_table ctx)
              (fun act => insert_at act parent true (set_item p v))
              (data ctx) act act' Hwf Hend Hat Hins Hwf')
    as (data' & -> & Hdwf & Hdat & Hdend & _).
  cbn [rbind]. eexists. split; [reflexivity|].
  split; [exact Hdwf|]. split; [exact Hdend|].
  exists act'. split; [exact Hdat | exact Hact'].
Qed.

(** ** Table headers keep the invariant *)

Lemma open_table_ok ctx key :
  table_wf (data ctx) = true ->
  key <> [] ->
  (forall i v, (0 < i < length key)%nat ->
               find_node (data ctx) (firstn i key) <> Some (NValue v)) ->
  (find_node (data ctx) key = None
   \/ exists elems, find_node (data ctx) key = Some (Table false false elems)) ->
  exists ctx', open_table ctx key = Ok ctx' /\ ctx_ok ctx'.
Proof.
  intros Hwf Hne Hnov Hterm.
  rewrite open_table_insert.
  destruct (split_last key) as [[parent p]|] eqn:Esplit;
    [|apply split_last_None in Esplit; congruence].
  apply split_last_Some in Esplit. subst key.
  rewrite length_app in Hnov. simpl in Hnov.
  destruct (target_ok parent (data ctx) Hwf) as (t & Ht & Htwf).
  { intros i v Hi. rewrite <- (firstn_snoc_prefix parent p i) by lia.
    apply Hnov. lia. }
  rewrite (find_node_target parent p _ _ Ht) in Hterm.
  destruct (define_table_Ok p t Hterm) as (t' & elems & Hdef & Hget' & Hold).
  destruct (insert_at_ok parent false (define_table p) _ _ _ Ht Hdef)
    as (data' & Hins & Hat).
  rewrite Hins. cbn [rbind]. eexists. split; [reflexivity|].
  split; [|split]; cbn [data active_table].
  - exact (proj1 (insert_at_header_step parent _
                    (define_table_header_step p) _ _ Hwf Hins)).
  - rewrite (ends_defined_app parent _ [p] _ Hat) by discriminate.
    cbn [ends_defined]. rewrite Hget'. reflexivity.
  - exists elems. split.
    + rewrite table_at_app, Hat. cbn [rbind table_at]. rewrite Hget'.
      reflexivity.
    + destruct Hold as [[_ ->]|Hold]; [reflexivity|].
      pose proof (table_wf_get _ _ _ Htwf Hold) as Hn.
      rewrite node_wf_table in Hn. apply andb_true_iff in Hn.
      destruct Hn as [_ Hn]. cbn [orb negb andb] in Hn.
      apply all_subtables_active_ok, Hn.
Qed.

Lemma open_table_array_ok ctx key :
  table_wf (data ctx) = true ->
  key <> [] ->
  (forall i v, (0 < i < length key)%nat ->
               find_node (data ctx) (firstn i key) <> Some (NValue v)) ->
  (find_node (data ctx) key = None
   \/ exists old, find_node (data ctx) key = Some (TableArray old)) ->
  exists ctx', open_table_array ctx key = Ok ctx' /\ ctx_ok ctx'.
Proof.
  intros Hwf Hne Hnov Hterm.
  destruct (open_table_array_post ctx key Hwf Hne Hnov Hterm)
    as (ctx' & Hopen & Hwf' & _ & _ & Hkey & Hact & Hend).
  exists ctx'. split; [exact Hopen|].
  split; [exact Hwf'|]. split; [rewrite Hkey; exact Hend|].
  exists []. split; [exact Hact | reflexivity].
Qed.

Lemma new_Context_ok : ctx_ok new_Context.
Proof.
  split; [reflexivity|]. split; [reflexivity|].
  exists []. split; reflexivity.
Qed.

(** ** The keys of key/value pairs *)

Lemma not_in_app {A} (x : A) a b : ~ In x (a ++ b) -> ~ In x a /\ ~ In x b.
Proof. intros H. split; intros Hin; apply H, in_or_app; auto. Qed.

Lemma not_in_sorted x l : ~ In x (sorted l) -> ~ In x l.
Proof. intros H Hin. apply H, sorted_In, Hin. Qed.

Lemma excluded_prefix_not_in key exclude_prefix i :
  has_excluded_prefix key exclude_prefix = false ->
  (0 < i < length key)%nat ->
  ~ In (firstn i key) exclude_prefix.
Proof.
  intros H Hi. apply key_in_false.
  exact (has_excluded_prefix_false key exclude_prefix i H Hi).
Qed.

Lemma keyval_key_ok act ik sub key :
  active_ok act = true ->
  item_keys_of act = Ok ik ->
  (forall p n, dict_get p act = Some n -> is_subtable n = true ->
               In [p] sub) ->
  sampled_key (sorted ik ++ sorted sub)
              (sorted ik ++ sorted (item_prefixes_of act) ++ sorted sub)
              (sorted (item_prefixes_of act)) [] key ->
  key <> []
  /\ forall parent p, key = parent ++ [p] -> can_assign act parent p = true.
Proof.
  intros Hact Hik Hsub [[]|(prefix & fresh & Hkey & _ & Hlen & Hek & Hep)].
  assert (Hne : key <> []).
  { rewrite Hkey. intros H. apply app_eq_nil in H. destruct H as [_ ->].
    simpl in Hlen. lia. }
  clear prefix fresh Hkey Hlen.
  split; [exact Hne|].
  apply key_in_false in Hek.
  apply not_in_app in Hek. destruct Hek as [Hk1 Hek].
  apply not_in_app in Hek. destruct Hek as [Hk2 Hk3].
  apply not_in_sorted in Hk1, Hk2, Hk3.
  intros parent p ->.
  assert (Hpre : forall i, (0 < i <= length parent)%nat ->
                           ~ In (firstn i parent) ik
                           /\ ~ In (firstn i parent) sub).
  { intros i Hi.
    assert (Hi' : (0 < i < length (parent ++ [p]))%nat)
      by (rewrite length_app; simpl; lia).
    pose proof (excluded_prefix_not_in _ _ i Hep Hi') as H.
    rewrite (firstn_snoc_prefix parent p i) in H by lia.
    apply not_in_app in H. destruct H as [H1 H2].
    split; apply not_in_sorted; assumption. }
  apply can_assign_from_exclusions.
  - exact Hact.
  - intros n Hg. destruct (is_subtable n) eqn:Es; [|reflexivity].
    exfalso. pose proof (Hsub _ _ Hg Es) as Hin.
    destruct parent as [|q rest]; cbn [hd] in Hin.
    + exact (Hk3 Hin).
    + apply (proj2 (Hpre 1%nat ltac:(cbn [length]; lia))).
      cbn [firstn]. exact Hin.
  - intros i x Hi Hf.
    apply (proj1 (Hpre i Hi)).
    exact (item_keys_of_complete act ik _ x Hik Hf).
  - intros x Hf. apply Hk1.
    exact (item_keys_of_complete act ik _ x Hik Hf).
  - destruct (dotted_path act (parent ++ [p])) eqn:Ed; [|reflexivity].
    exfalso. apply Hk2. apply item_prefixes_of_complete, Ed.
Qed.

Lemma gen_keyval_yields fuel ctx :
  ctx_ok ctx ->
  yields (_gen_keyval fuel ctx)
         (fun r => doc_ok (fst r) /\ ctx_ok (snd r)).
Proof.
  intros Hctx. pose proof Hctx as (Hwf & Hend & act & Hat & Hact).
  pose proof (table_at_wf _ _ _ Hwf Hat) as Hawf.
  destruct (item_keys_of_total act Hawf) as (ik & Hik).
  unfold _gen_keyval, get_active_item_keys, get_active_item_prefixes,
    get_active_subtable_keys, get_active_table.
  rewrite Hat. cbn [rbind]. rewrite Hik. cbn [rbind].
  eapply yields_bind; [apply yields_lift; exact eq_refl|].
  cbv beta. intros ? <-.
  eapply yields_bind; [apply yields_lift; exact eq_refl|].
  cbv beta. intros ? <-.
  eapply yields_bind; [apply yields_lift; exact eq_refl|].
  cbv beta. intros ? <-.
  eapply yields_bind; [apply gen_key_yields|].
  cbv beta. intros [key_str key] [Hstr Hkey]. cbn [fst snd] in Hstr, Hkey.
  destruct (keyval_key_ok act ik _ key Hact Hik
              (subtable_keys_complete act) Hkey) as [Hne Hcan].
  eapply yields_bind; [apply gen_val_doc_ok|].
  cbv beta. intros [val_str val] Hval. cbn [fst] in Hval.
  eapply yields_bind; [apply returns_yields, gen_ws_doc_ok|].
  cbv beta. intros ws1 Hws1.
  eapply yields_bind; [apply returns_yields, gen_ws_doc_ok|].
  cbv beta. intros ws2 Hws2.
  destruct (assign_ok ctx key val Hctx Hne) as (ctx' & Hassign & Hctx').
  { intros act0 parent p Hat0 Hk. rewrite Hat in Hat0.
    inversion Hat0; subst act0. apply Hcan, Hk. }
  rewrite Hassign.
  eapply yields_bind; [apply yields_lift; exact eq_refl|].
  cbv beta. intros ? <-.
  apply yields_ret. cbn [fst snd]. split; [|exact Hctx'].
  apply spec_ok in Hstr.
  repeat (apply doc_ok_app; [assumption || reflexivity|]). assumption.
Qed.

(** ** The keys of table headers *)

Lemma header_prefixes_ok tbl ik key :
  item_keys_of tbl = Ok ik ->
  has_excluded_prefix key (sorted ik) = false ->
  forall i v, (0 < i < length key)%nat ->
              find_node tbl (firstn i key) <> Some (NValue v).
Proof.
  intros Hik Hep i v Hi Hf.
  apply (not_in_sorted _ _ (excluded_prefix_not_in _ _ i Hep Hi)).
  exact (item_keys_of_complete tbl ik _ v Hik Hf).
Qed.

Lemma sampled_fresh_nonempty {A} (prefix fresh : list A) :
  (1 <= length fresh <= 3)%nat -> prefix ++ fresh <> [].
Proof.
  intros Hlen H. apply app_eq_nil in H. destruct H as [_ ->].
  simpl in Hlen. lia.
Qed.

Lemma table_header_key_ok tbl ik imp def ak rp key :
  table_wf tbl = true ->
  item_keys_of tbl = Ok ik ->
  table_keys_of (Some false) (Some false) tbl = Ok imp ->
  table_keys_of (Some true) (Some false) tbl = Ok def ->
  table_keys_of None (Some true) tbl = Ok ak ->
  sampled_key (sorted ik) (sorted ik ++ sorted def ++ sorted ak) rp
              (sorted imp) key ->
  key <> []
  /\ (forall i v, (0 < i < length key)%nat ->
                  find_node tbl (firstn i key) <> Some (NValue v))
  /\ (find_node tbl key = None
      \/ exists elems, find_node tbl key = Some (Table false false elems)).
Proof.
  intros Hwf Hik Himp Hdef Hak
    [Hin|(prefix & fresh & Hkey & _ & Hlen & Hek & Hep)].
  - apply (proj1 (sorted_In _ _)) in Hin.
    destruct (table_keys_of_sound _ _ _ _ _ Hwf Himp Hin)
      as (n & Hne & Hf & Hl).
    split; [exact Hne|]. split.
    + intros i v Hi. exact (find_node_prefix key tbl n i v Hf Hi).
    + right. pose proof (find_node_wf _ _ _ Hwf Hf) as Hn.
      destruct n as [x|d dt elems|elems]; cbn [listed_table] in Hl;
        try discriminate.
      cbn [is_not_true none_or_eq andb] in Hl. destruct d; [discriminate|].
      rewrite node_wf_table in Hn. apply andb_true_iff in Hn.
      destruct Hn as [_ Hn]. cbn [orb] in Hn. apply andb_true_iff in Hn.
      destruct Hn as [Hdt _]. destruct dt; [discriminate|].
      exists elems. exact Hf.
  - split; [rewrite Hkey; apply sampled_fresh_nonempty, Hlen|].
    split; [exact (header_prefixes_ok tbl ik key Hik Hep)|].
    apply key_in_false in Hek.
    apply not_in_app in Hek. destruct Hek as [Hk1 Hek].
    apply not_in_app in Hek. destruct Hek as [Hk2 Hk3].
    apply not_in_sorted in Hk1, Hk2, Hk3.
    destruct (find_node tbl key) as [n|] eqn:Ef; [|left; reflexivity].
    right. pose proof (find_node_wf _ _ _ Hwf Ef) as Hn.
    destruct n as [x|d dt elems|elems].
    + exfalso. apply Hk1.
      exact (item_keys_of_complete tbl ik _ x Hik Ef).
    + destruct d.
      * exfalso. apply Hk2.
        exact (table_keys_of_complete _ _ tbl def key _ Hdef Ef eq_refl).
      * rewrite node_wf_table in Hn. apply andb_true_iff in Hn.
        destruct Hn as [_ Hn]. cbn [orb] in Hn. apply andb_true_iff in Hn.
        destruct Hn as [Hdt _]. destruct dt; [discriminate|].
        exists elems. reflexivity.
    + exfalso. apply Hk3.
      exact (table_keys_of_complete _ _ tbl ak key _ Hak Ef eq_refl).
Qed.

Lemma array_header_key_ok tbl ik tk ak rp key :
  table_wf tbl = true ->
  item_keys_of tbl = Ok ik ->
  table_keys_of None (Some false) tbl = Ok tk ->
  table_keys_of None (Some true) tbl = Ok ak ->
  sampled_key (sorted ik) (sorted ik ++ sorted tk) rp (sorted ak) key ->
  key <> []
  /\ (forall i v, (0 < i < length key)%nat ->
                  find_node tbl (firstn i key) <> Some (NValue v))
  /\ (find_node tbl key = None
      \/ exists old, find_node tbl key = Some (TableArray old)).
Proof.
  intros Hwf Hik Htk Hak
    [Hin|(prefix & fresh & Hkey & _ & Hlen & Hek & Hep)].
  - apply (proj1 (sorted_In _ _)) in Hin.
    destruct (table_keys_of_sound _ _ _ _ _ Hwf Hak Hin)
      as (n & Hne & Hf & Hl).
    split; [exact Hne|]. split.
    + intros i v Hi. exact (find_node_prefix key tbl n i v Hf Hi).
    + right. destruct n as [x|d dt elems|elems]; cbn [listed_table] in Hl;
        try discriminate.
      exists elems. exact Hf.
  - split; [rewrite Hkey; apply sampled_fresh_nonempty, Hlen|].
    split; [exact (header_prefixes_ok tbl ik key Hik Hep)|].
    apply key_in_false in Hek.
    apply not_in_app in Hek. destruct Hek as [Hk1 Hk2].
    apply not_in_sorted in Hk1, Hk2.
    destruct (find_node tbl key) as [n|] eqn:Ef; [|left; reflexivity].
    right. destruct n as [x|d dt elems|elems].
    + exfalso. apply Hk1.
      exact (item_keys_of_complete tbl ik _ x Hik Ef).
    + exfalso. apply Hk2.
      exact (table_keys_of_complete _ _ tbl tk key _ Htk Ef eq_refl).
    + exists elems. reflexivity.
Qed.

Lemma gen_table_yields fuel ctx :
  ctx_ok ctx ->
  yields (_gen_table fuel ctx)
         (fun r => doc_ok (fst r) /\ ctx_ok (snd r)).
Proof.
  intros Hctx. pose proof Hctx as (Hwf & _).
  destruct (item_keys_of_total _ Hwf) as (ik & Hik).
  destruct (table_keys_of_total (Some false) (Some false) _ Hwf)
    as (imp & Himp).
  destruct (table_keys_of_total (Some true) (Some false) _ Hwf)
    as (def & Hdef).
  destruct (table_keys_of_total None (Some false) _ Hwf) as (tk & Htk).
  destruct (table_keys_of_total None (Some true) _ Hwf) as (ak & Hak).
  unfold _gen_table, get_item_keys, get_table_keys.
  rewrite Hik, Himp, Hdef, Htk, Hak. cbn [rbind].
  eapply yields_bind; [apply returns_yields, returns_randint; lia|].
  cbv beta. intros b _.
  destruct (0 <? b).
  - eapply yields_bind; [apply yields_lift; exact eq_refl|].
    cbv beta. intros ? <-.
    eapply yields_bind; [apply yields_lift; exact eq_refl|].
    cbv beta. intros ? <-.
    eapply yields_bind; [apply yields_lift; exact eq_refl|].
    cbv beta. intros ? <-.
    eapply yields_bind; [apply gen_key_yields|].
    cbv beta. intros [key_str key] [Hstr Hkey]. cbn [fst snd] in Hstr, Hkey.
    destruct (array_header_key_ok _ _ _ _ _ _ Hwf Hik Htk Hak Hkey)
      as (Hne & Hpre & Hterm).
    destruct (open_table_array_ok ctx key Hwf Hne Hpre Hterm)
      as (ctx' & Hopen & Hctx').
    rewrite Hopen.
    eapply yields_bind; [apply yields_lift; exact eq_refl|].
    cbv beta. intros ? <-.
    eapply yields_bind; [apply returns_yields, gen_ws_doc_ok|].
    cbv beta. intros ws1 Hws1.
    eapply yields_bind; [apply returns_yields, gen_ws_doc_ok|].
    cbv beta. intros ws2 Hws2.
    apply yields_ret. cbn [fst snd]. split; [|exact Hctx'].
    apply spec_ok in Hstr.
    repeat (apply doc_ok_app; [assumption || reflexivity|]). reflexivity.
  - eapply yields_bind; [apply yields_lift; exact eq_refl|].
    cbv beta. intros ? <-.
    eapply yields_bind; [apply yields_lift; exact eq_refl|].
    cbv beta. intros ? <-.
    eapply yields_bind; [apply yields_lift; exact eq_refl|].
    cbv beta. intros ? <-.
    eapply yields_bind; [apply yields_lift; exact eq_refl|].
    cbv beta. intros ? <-.
    eapply yields_bind; [apply gen_key_yields|].
    cbv beta. intros [key_str key] [Hstr Hkey]. cbn [fst snd] in Hstr, Hkey.
    destruct (table_header_key_ok _ _ _ _ _ _ _ Hwf Hik Himp Hdef Hak Hkey)
      as (Hne & Hpre & Hterm).
    destruct (open_table_ok ctx key Hwf Hne Hpre Hterm)
      as (ctx' & Hopen & Hctx').
    rewrite Hopen.
    eapply yields_bind; [apply yields_lift; exact eq_refl|].
    cbv beta. intros ? <-.
    eapply yields_bind; [apply returns_yields, gen_ws_doc_ok|].
    cbv beta. intros ws1 Hws1.
    eapply yields_bind; [apply returns_yields, gen_ws_doc_ok|].
    cbv beta. intros ws2 Hws2.
    apply yields_ret. cbn [fst snd]. split; [|exact Hctx'].
    apply spec_ok in Hstr.
    repeat (apply doc_ok_app; [assumption || reflexivity|]). reflexivity.
Qed.

Lemma gen_expression_yields fuel ctx :
  ctx_ok ctx ->
  yields (_gen_expression fuel ctx)
         (fun r => doc_ok (fst r) /\ ctx_ok (snd r)).
Proof.
  intros Hctx. unfold _gen_expression.
  eapply yields_bind; [apply returns_yields, gen_ws_doc_ok|].
  cbv beta. intros doc Hdoc.
  eapply yields_bind; [apply returns_yields, returns_random|].
  cbv beta. intros r _.
  eapply yields_bind
    with (P := fun r => doc_ok (fst r) /\ ctx_ok (snd r)).
  - destruct (Qltb r PROB_EXPR_KEYVAL);
      [|destruct (Qltb r (dbl (PROB_EXPR_KEYVAL + PROB_EXPR_TABLE)))].
    + eapply yields_bind; [apply gen_keyval_yields, Hctx|].
      cbv beta. intros [s ctx'] [Hs Hctx']. cbn [fst snd] in Hs, Hctx'.
      eapply yields_bind; [apply returns_yields, gen_ws_doc_ok|].
      cbv beta. intros ws Hws.
      apply yields_ret. cbn [fst snd]. split; [|exact Hctx'].
      repeat apply doc_ok_app; assumption.
    + eapply yields_bind; [apply gen_table_yields, Hctx|].
      cbv beta. intros [s ctx'] [Hs Hctx']. cbn [fst snd] in Hs, Hctx'.
      eapply yields_bind; [apply returns_yields, gen_ws_doc_ok|].
      cbv beta. intros ws Hws.
      apply yields_ret. cbn [fst snd]. split; [|exact Hctx'].
      repeat apply doc_ok_app; assumption.
    + apply yields_ret. split; assumption.
  - cbv beta. intros [doc' ctx'] [Hdoc' Hctx']. cbn [fst snd] in Hdoc', Hctx'.
    eapply yields_bind; [apply returns_yields, returns_random|].
    cbv beta. intros c _.
    destruct (Qltb c PROB_COMMENT).
    + eapply yields_bind; [apply returns_yields, gen_comment_doc_ok|].
      cbv beta. intros s Hs.
      apply yields_ret. cbn [fst snd]. split; [|exact Hctx'].
      apply doc_ok_app; assumption.
    + apply yields_ret. split; assumption.
Qed.

Lemma gen_toml_yields fuel :
  yields (gen_toml fuel) (fun r => doc_ok (fst r)).
Proof.
  unfold gen_toml.
  eapply yields_bind;
    [apply returns_yields, returns_randint; unfold MAX_EXPRESSIONS; lia|].
  cbv beta. intros n _.
  eapply yields_bind.
  - apply (yields_for_range
             (fun acc => doc_ok (concat (fst acc)) /\ ctx_ok (snd acc))).
    + split; [apply doc_ok_nil | apply new_Context_ok].
    + intros i acc [Hdoc Hctx].
      eapply yields_bind with (P := fun d => doc_ok (concat d)).
      * destruct (0 <? i).
        -- eapply yields_bind; [apply returns_yields, gen_newline_doc_ok|].
           cbv beta. intros eol Heol. apply yields_ret.
           rewrite concat_snoc1. apply doc_ok_app; assumption.
        -- apply yields_ret. exact Hdoc.
      * cbv beta. intros d Hd.
        eapply yields_bind; [apply gen_expression_yields, Hctx|].
        cbv beta. intros [expr ctx'] [He Hctx']. cbn [fst snd] in He, Hctx'.
        apply yields_ret. cbn [fst snd]. split; [|exact Hctx'].
        rewrite concat_snoc1. apply doc_ok_app; assumption.
  - cbv beta. intros [doc ctx] [Hdoc _]. apply yields_ret. exact Hdoc.
Qed.

(** ** Runs that do not end

    The rejection loop of [_gen_key] has no bound in the source.  On a
    random source that keeps proposing an excluded key it does not end:
    with draws that are all 0 the key is always the one empty segment.  So
    what is stated of a run of [gen_toml] is stated of the runs that
    return. *)

Remark gen_key_search_rejects_forever :
  forall fuel, gen_key_search fuel [] [] [[[]]] [] = Diverged.
Proof.
  induction fuel as [|fuel IH]; [reflexivity|].
  cbn [gen_key_search]. unfold bind at 1.
  replace (_gen_dotted_key [] [])
    with (Ok (([34; 34], [@nil Z]), @nil Z) : result (pystr * KeyType * Rng))
    by (vm_compute; reflexivity).
  change (key_in [[]] [[[]]]) with true. cbv iota. exact IH.
Qed.


(** ** Characters of the document (claim C3) *)

(** C3, as the code has it: every code point of a document returned by
    [gen_toml] is U+0009, U+000A, U+000D, or lies in [U+0020, U+D7FF] or in
    [U+E000, U+10FFFF].  The line feed and the carriage return are the
    characters of the newlines that [_gen_newline] returns. *)
Theorem gen_toml_charset fuel rng doc model rng' :
  gen_toml fuel rng = Ok (doc, model, rng') ->
  forallb is_doc_char doc = true.
Proof.
  intros H. exact (yields_Ok _ _ _ _ _ (gen_toml_yields fuel) H).
Qed.

Lemma gen_toml_charset_witness :
  gen_toml 3 [0]
  = Ok ([34; 34; 61; 34; 34; 34; 34; 34; 34; 35], [([], VStr [])], [])
  /\ forallb is_doc_char [34; 34; 61; 34; 34; 34; 34; 34; 34; 35] = true.
Proof.
  assert (E : gen_toml 3 [0]
              = Ok ([34; 34; 61; 34; 34; 34; 34; 34; 34; 35],
                    [([], VStr [])], []))
    by (vm_compute; reflexivity).
  split; [exact E|].
  exact (gen_toml_charset _ _ _ _ _ E).
Defined.

(** C3 as stated fails: a document of two empty expressions is a single
    line feed, U+000A, which is outside the stated set. *)
Lemma gen_toml_line_feed :
  gen_toml 1 [1; 0; 2 ^ 53 - 1; 2 ^ 53 - 1; 0; 0; 2 ^ 53 - 1; 2 ^ 53 - 1]
  = Ok ([0x0a], [], [])
  /\ forallb is_spec_char [0x0a] = false.
Proof. split; vm_compute; reflexivity. Qed.

(** ** Assertions (claim C4) *)

(** C4: no run of [gen_toml] fails an assertion of the tree model, and none
    raises.  The reason is the invariant [ctx_ok] of the context: it holds
    of the new context, and from a context that satisfies it a key/value
    pair and a table header, with the keys that [_gen_key] returns for the
    exclusion sets they pass, neither fail an assertion in [assign],
    [open_table], [open_table_array] or [_make_subtable] nor raise, and
    leave a context that satisfies it again. *)
Theorem gen_toml_assertions_unreachable :
  (forall fuel rng,
      match gen_toml fuel rng with
      | AssertionError | Raised => False
      | Ok _ | Diverged => True
      end)
  /\ ctx_ok new_Context
  /\ (forall fuel ctx,
         ctx_ok ctx ->
         yields (_gen_keyval fuel ctx) (fun r => ctx_ok (snd r))
         /\ yields (_gen_table fuel ctx) (fun r => ctx_ok (snd r))).
Proof.
  split; [|split].
  - intros fuel rng. pose proof (gen_toml_yields fuel rng) as H.
    destruct (gen_toml fuel rng) as [[a r]| | |]; auto.
  - apply new_Context_ok.
  - intros fuel ctx Hctx. split.
    + eapply yields_weaken; [apply gen_keyval_yields, Hctx|].
      intros r [_ H]. exact H.
    + eapply yields_weaken; [apply gen_table_yields, Hctx|].
      intros r [_ H]. exact H.
Qed.

Lemma gen_toml_assertions_unreachable_witness :
  ctx_ok new_Context
  /\ yields (_gen_keyval 3 new_Context) (fun r => ctx_ok (snd r))
  /\ yields (_gen_table 3 new_Context) (fun r => ctx_ok (snd r)).
Proof.
  assert (H : ctx_ok new_Context).
  { split; [reflexivity|]. split; [reflexivity|].
    exists []. split; reflexivity. }
  split; [exact H|].
  exact (proj2 (proj2 gen_toml_assertions_unreachable) 3%nat new_Context H).
Defined.

(** ** The fuel only cuts runs short *)

Lemma refines_refl {A} (m : M A) : refines m m.
Proof. intros rng x H. exact H. Qed.

Lemma refines_diverge {A} (m : M A) : refines diverge m.
Proof. intros rng x H. discriminate. Qed.

Lemma refines_bind {A B} (m1 m2 : M A) (k1 k2 : A -> M B) :
  refines m1 m2 -> (forall a, refines (k1 a) (k2 a)) ->
  refines (bind m1 k1) (bind m2 k2).
Proof.
  intros Hm Hk rng x. unfold bind.
  destruct (m1 rng) as [[a rng']| | |] eqn:E; try discriminate.
  rewrite (Hm _ _ E). apply Hk.
Qed.

Lemma refines_for_range_from {A} (b1 b2 : Z -> A -> M A) n :
  (forall j acc, refines (b1 j acc) (b2 j acc)) ->
  forall i acc,
    refines (for_range_from i n b1 acc) (for_range_from i n b2 acc).
Proof.
  intros Hb. induction n as [|n IH]; intros i acc; cbn [for_range_from].
  - apply refines_refl.
  - apply refines_bind; [apply Hb|]. intros acc'. apply IH.
Qed.

Lemma refines_for_range {A} (b1 b2 : Z -> A -> M A) n acc :
  (forall j acc, refines (b1 j acc) (b2 j acc)) ->
  refines (for_range n b1 acc) (for_range n b2 acc).
Proof. intros Hb. apply refines_for_range_from, Hb. Qed.

Lemma Forall2_nth_refines {A} (l1 l2 : list (M A)) d1 d2 n :
  Forall2 refines l1 l2 -> refines d1 d2 ->
  refines (nth n l1 d1) (nth n l2 d2).
Proof.
  intros H Hd. revert n.
  induction H as [|x y l1 l2 Hxy Hl IH]; intros [|n]; cbn [nth]; auto.
Qed.

(** A generator chosen from a list and then run. *)
Lemma refines_choice_run {A} (l1 l2 : list (M A)) :
  Forall2 refines l1 l2 ->
  refines (func <- rng_choice l1 ;; func) (func <- rng_choice l2 ;; func).
Proof.
  intros H rng x. unfold bind, rng_choice.
  pose proof (Forall2_length H) as Hlen.
  destruct H as [|d1 d2 l1 l2 Hd Hl]; [discriminate|].
  destruct (next_raw rng) as [z rng'].
  unfold len. rewrite Hlen.
  apply Forall2_nth_refines; [constructor; assumption | exact Hd].
Qed.

Ltac refines_step :=
  first
    [ assumption
    | apply refines_refl
    | apply refines_bind; [|intros ?]
    | apply refines_for_range; intros ? ?
    | match goal with
      | |- refines (let (_, _) := ?x in _) _ => destruct x
      | |- refines (if ?b then _ else _) _ => destruct b
      end ].

Lemma ml_basic_char_mono allow_ws : forall f1 f2,
  (f1 <= f2)%nat ->
  refines (ml_basic_char f1 allow_ws) (ml_basic_char f2 allow_ws).
Proof.
  induction f1 as [|f1 IH]; intros f2 Hle; [apply refines_diverge|].
  destruct f2 as [|f2]; [lia|]. cbn [ml_basic_char].
  assert (H : refines (ml_basic_char f1 allow_ws) (ml_basic_char f2 allow_ws))
    by (apply IH; lia).
  repeat refines_step.
Qed.

Lemma gen_ml_basic_string_mono f1 f2 :
  (f1 <= f2)%nat ->
  refines (_gen_ml_basic_string f1) (_gen_ml_basic_string f2).
Proof.
  intros Hle. unfold _gen_ml_basic_string, ml_basic_iteration.
  pose proof (fun b => ml_basic_char_mono b f1 f2 Hle) as H.
  repeat first [apply H | refines_step].
Qed.

Lemma gen_string_mono f1 f2 :
  (f1 <= f2)%nat -> refines (_gen_string f1) (_gen_string f2).
Proof.
  intros Hle. unfold _gen_string. apply refines_choice_run.
  repeat constructor; try apply refines_refl.
  apply gen_ml_basic_string_mono, Hle.
Qed.

Lemma gen_key_search_mono prefix exclude_prefix exclude_key : forall f1 f2,
  (f1 <= f2)%nat ->
  refines (gen_key_search f1 prefix exclude_prefix exclude_key)
          (gen_key_search f2 prefix exclude_prefix exclude_key).
Proof.
  induction f1 as [|f1 IH]; intros f2 Hle; [apply refines_diverge|].
  destruct f2 as [|f2]; [lia|]. cbn [gen_key_search].
  assert (H : refines (gen_key_search f1 prefix exclude_prefix exclude_key)
                      (gen_key_search f2 prefix exclude_prefix exclude_key))
    by (apply IH; lia).
  repeat refines_step.
Qed.

Lemma gen_key_mono exclude_prefix exclude_key reuse_prefix reuse_key f1 f2 :
  (f1 <= f2)%nat ->
  refines (_gen_key f1 exclude_prefix exclude_key reuse_prefix reuse_key)
          (_gen_key f2 exclude_prefix exclude_key reuse_prefix reuse_key).
Proof.
  intros Hle. unfold _gen_key.
  pose proof (fun p => gen_key_search_mono p exclude_prefix exclude_key
                         f1 f2 Hle) as H.
  repeat first [apply H | refines_step].
Qed.

Lemma gen_array_with_mono g1 g2 :
  refines g1 g2 -> refines (gen_array_with g1) (gen_array_with g2).
Proof.
  intros Hg. unfold gen_array_with. repeat refines_step.
Qed.

Lemma gen_inline_table_with_mono g1 g2 f1 f2 :
  refines g1 g2 -> (f1 <= f2)%nat ->
  refines (gen_inline_table_with g1 f1) (gen_inline_table_with g2 f2).
Proof.
  intros Hg Hle. unfold gen_inline_table_with.
  pose proof (fun a b c d => gen_key_mono a b c d f1 f2 Hle) as H.
  repeat first [apply H | refines_step].
Qed.

Lemma gen_val_mono : forall f1 f2,
  (f1 <= f2)%nat -> refines (_gen_val f1) (_gen_val f2).
Proof.
  induction f1 as [|f1 IH]; intros f2 Hle; [apply refines_diverge|].
  destruct f2 as [|f2]; [lia|]. cbn [_gen_val].
  assert (Hle' : (f1 <= f2)%nat) by lia.
  apply refines_choice_run.
  repeat constructor; try apply refines_refl.
  - apply refines_bind; [apply gen_string_mono, Hle'|].
    intros a. apply refines_refl.
  - apply gen_array_with_mono, IH, Hle'.
  - apply gen_inline_table_with_mono; [apply IH, Hle' | exact Hle'].
Qed.

Lemma gen_keyval_mono ctx f1 f2 :
  (f1 <= f2)%nat -> refines (_gen_keyval f1 ctx) (_gen_keyval f2 ctx).
Proof.
  intros Hle. unfold _gen_keyval.
  pose proof (fun a b c d => gen_key_mono a b c d f1 f2 Hle) as H.
  pose proof (gen_val_mono f1 f2 Hle) as Hv.
  repeat first [apply H | refines_step].
Qed.

Lemma gen_table_mono ctx f1 f2 :
  (f1 <= f2)%nat -> refines (_gen_table f1 ctx) (_gen_table f2 ctx).
Proof.
  intros Hle. unfold _gen_table.
  pose proof (fun a b c d => gen_key_mono a b c d f1 f2 Hle) as H.
  repeat first [apply H | refines_step].
Qed.

Lemma gen_expression_mono ctx f1 f2 :
  (f1 <= f2)%nat -> refines (_gen_expression f1 ctx) (_gen_expression f2 ctx).
Proof.
  intros Hle. unfold _gen_expression.
  pose proof (fun c => gen_keyval_mono c f1 f2 Hle) as Hk.
  pose proof (fun c => gen_table_mono c f1 f2 Hle) as Ht.
  repeat first [apply Hk | apply Ht | refines_step].
Qed.

Lemma gen_toml_mono f1 f2 :
  (f1 <= f2)%nat -> refines (gen_toml f1) (gen_toml f2).
Proof.
  intros Hle. unfold gen_toml.
  pose proof (fun c => gen_expression_mono c f1 f2 Hle) as He.
  repeat first [apply He | refines_step].
Qed.

(** The fuel that bounds the rejection loops and the nesting of values in
    this model has no influence on a run that completes: two completed runs
    from the same state of the random source return the same document, the
    same model and the same final state of the source, whatever their
    fuel. *)
Theorem gen_toml_fuel_independent f1 f2 rng r1 r2 :
  gen_toml f1 rng = Ok r1 -> gen_toml f2 rng = Ok r2 -> r1 = r2.
Proof.
  intros H1 H2. destruct (Nat.le_ge_cases f1 f2) as [Hle|Hle].
  - pose proof (gen_toml_mono f1 f2 Hle rng r1 H1) as H. congruence.
  - pose proof (gen_toml_mono f2 f1 Hle rng r2 H2) as H. congruence.
Qed.

Lemma gen_toml_fuel_independent_example :
  gen_toml 3 [0]
  = Ok ([34; 34; 61; 34; 34; 34; 34; 34; 34; 35], [([], VStr [])], [])
  /\ gen_toml 5 [0]
     = Ok ([34; 34; 61; 34; 34; 34; 34; 34; 34; 35], [([], VStr [])], [])
  /\ (([34; 34; 61; 34; 34; 34; 34; 34; 34; 35], [([], VStr [])], [])
      : pystr * list (pystr * value) * Rng)
     = ([34; 34; 61; 34; 34; 34; 34; 34; 34; 35], [([], VStr [])], []).
Proof.
  assert (E1 : gen_toml 3 [0]
               = Ok ([34; 34; 61; 34; 34; 34; 34; 34; 34; 35],
                     [([], VStr [])], []))
    by (vm_compute; reflexivity).
  assert (E2 : gen_toml 5 [0]
               = Ok ([34; 34; 61; 34; 34; 34; 34; 34; 34; 35],
                     [([], VStr [])], []))
    by (vm_compute; reflexivity).
  split; [exact E1|]. split; [exact E2|].
  exact (gen_toml_fuel_independent _ _ _ _ _ E1 E2).
Defined.

(** * Further properties of the generator *)

(** ** Hexadecimal digits, white space and comments *)

(** [_rand_format_hex(val, minwidth)] for [val >= 0]: it always returns;
    the text consists of hexadecimal digits in either case, denotes [val],
    has at least [minwidth] digits, and no more digits than [minwidth] and
    [val] need. *)
Theorem rand_format_hex_denotes val minwidth rng :
  0 <= val ->
  exists h rng',
    _rand_format_hex val minwidth rng = Ok (h, rng')
    /\ forallb is_hex_digit h = true
    /\ hex_value h = val
    /\ minwidth <= len h
    /\ forall k, 0 <= k -> minwidth <= k -> val < 16 ^ k -> len h <= k.
Proof.
  intros Hval.
  destruct (rand_format_hex_returns val minwidth Hval rng)
    as (h & rng' & E & H).
  exists h, rng'. split; [exact E | exact H].
Qed.

Lemma rand_format_hex_denotes_witness :
  0 <= 0xbeef
  /\ exists h rng',
       _rand_format_hex 0xbeef 8 [0; 1; 0; 1] = Ok (h, rng')
       /\ forallb is_hex_digit h = true
       /\ hex_value h = 0xbeef
       /\ 8 <= len h
       /\ forall k, 0 <= k -> 8 <= k -> 0xbeef < 16 ^ k -> len h <= k.
Proof.
  split; [lia|].
  apply (rand_format_hex_denotes 0xbeef 8 [0; 1; 0; 1]). lia.
Defined.

Lemma choices_length {A} (population : list A) weights k rng l rng' :
  rng_choices population weights k rng = Ok (l, rng') -> length l = k.
Proof.
  revert rng l rng'. induction k as [|k IH]; intros rng l rng' H.
  - inversion H; subst. reflexivity.
  - cbn [rng_choices] in H. apply bind_Ok in H.
    destruct H as (x & rng1 & _ & H). apply bind_Ok in H.
    destruct H as (xs & rng2 & Hxs & H). inversion H; subst.
    simpl. rewrite (IH _ _ _ Hxs). reflexivity.
Qed.

(** [_gen_ws] always returns a run of at most [MAX_WS_LEN] tabs and
    spaces. *)
Theorem gen_ws_run rng :
  exists s rng',
    _gen_ws rng = Ok (s, rng')
    /\ forallb is_wschar s = true
    /\ len s <= MAX_WS_LEN.
Proof.
  destruct (gen_ws_returns rng) as (s & rng' & E & Hs).
  exists s, rng'. split; [exact E|]. split; [exact Hs|].
  unfold _gen_ws in E. apply bind_Ok in E.
  destruct E as (n & rng1 & Hn & E).
  pose proof (returns_Ok _ _ _ _ _
                (returns_rand_exp MEAN_WS_LEN 0 MAX_WS_LEN
                   ltac:(unfold MAX_WS_LEN; lia)) Hn) as Hrange.
  cbv beta in Hrange.
  destruct (n =? 0).
  - inversion E; subst. unfold len, MAX_WS_LEN. simpl. lia.
  - apply choices_length in E. unfold len. rewrite E. lia.
Qed.

Lemma gen_comment_non_eol :
  returns _gen_comment
    (fun s => exists chars, s = 0x23 :: chars
                            /\ forallb is_non_eol chars = true
                            /\ len chars <= MAX_COMMENT_LEN).
Proof.
  unfold _gen_comment.
  eapply returns_bind;
    [apply returns_rand_exp; unfold MAX_COMMENT_LEN; lia|].
  cbv beta. intros n Hn.
  eapply returns_bind; [apply returns_choices; discriminate|].
  cbv beta. intros char_types [_ Hlen].
  eapply returns_bind.
  - apply (returns_for_each_indexed
             (fun done acc => forallb is_non_eol acc = true
                              /\ length acc = length done)
             (fun _ => True) _ char_types [] []).
    + split; reflexivity.
    + apply Forall_forall. auto.
    + intros t done acc _ [Hacc Hl].
      eapply returns_bind with (P := fun c => is_non_eol c = true).
      * destruct (t =? 1).
        { eapply returns_weaken; [apply returns_choice; discriminate|].
          cbv beta. intros c Hc.
          eapply in_forallb; [|exact Hc]. reflexivity. }
        destruct (t =? 2).
        { eapply returns_weaken; [apply returns_choice; discriminate|].
          cbv beta. intros c Hc.
          eapply in_forallb; [|exact Hc]. reflexivity. }
        destruct (t =? 3).
        { eapply returns_weaken; [apply returns_randint; lia|].
          cbv beta. intros c Hc. unfold is_non_eol. char_lia. }
        destruct (t =? 4).
        { eapply returns_weaken; [apply returns_randint; lia|].
          cbv beta. intros c Hc. unfold is_non_eol. char_lia. }
        eapply returns_weaken; [apply returns_randint; lia|].
        cbv beta. intros c Hc. unfold is_non_eol. char_lia.
      * cbv beta. intros c Hc. apply returns_ret.
        rewrite forallb_app, Hacc, !length_app, Hl. simpl. rewrite Hc.
        split; reflexivity.
  - cbv beta. intros chars [Hc Hl]. apply returns_ret.
    exists chars. split; [reflexivity|]. split; [exact Hc|].
    unfold len. simpl in Hl. rewrite Hl, Hlen. lia.
Qed.

(** [_gen_comment] always returns [#] followed by at most
    [MAX_COMMENT_LEN] characters, each a [non-eol] character of the TOML
    grammar: a tab, or in [U+0020, U+007E], [U+0080, U+D7FF] or
    [U+E000, U+10FFFF]. *)
Theorem gen_comment_grammar rng :
  exists chars rng',
    _gen_comment rng = Ok (0x23 :: chars, rng')
    /\ forallb is_non_eol chars = true
    /\ len chars <= MAX_COMMENT_LEN.
Proof.
  destruct (gen_comment_non_eol rng) as (s & rng' & E & chars & -> & Hc & Hl).
  exists chars, rng'. auto.
Qed.

(** ** Strings read back as their values *)

Lemma gen_basic_char_renders :
  returns _gen_basic_char
    (fun r => exists c, snd r = [c] /\ is_scalar c = true
                        /\ renders c (fst r)).
Proof.
  unfold _gen_basic_char.
  eapply returns_bind; [apply returns_random|]. intros r _.
  destruct (Qltb r (half * PROB_ESCAPE_CHAR)).
  - eapply returns_bind; [apply returns_randint; vm_compute; discriminate|].
    cbv beta. intros i Hi.
    assert (Hin : In (nth (Z.to_nat i) ESCAPE_CHARS (0, [])) ESCAPE_CHARS).
    { apply nth_In. unfold len in Hi. simpl in Hi. simpl. lia. }
    destruct (nth (Z.to_nat i) ESCAPE_CHARS (0, [])) as [c escsym].
    apply returns_ret. simpl fst; simpl snd.
    unfold ESCAPE_CHARS in Hin. simpl in Hin.
    repeat (destruct Hin as [Hin|Hin];
            [inversion Hin; subst; eexists; split; [reflexivity|];
             split; [reflexivity|];
             right; left; eexists; split; reflexivity |]).
    contradiction.
  - destruct (Qltb r PROB_ESCAPE_CHAR).
    + eapply returns_bind; [apply returns_random|]. intros r2 _.
      eapply returns_bind with (P := fun c => 0 <= c <= 0x10ffff
                                             /\ is_scalar c = true).
      * destruct (Qltb r2 half);
          (eapply returns_weaken; [apply returns_randint; lia|]);
          cbv beta; intros c Hc; (split; [lia | char_lia]).
      * cbv beta. intros c [Hc Hs].
        eapply returns_bind; [apply unicode_escape_returns; exact Hc|].
        intros e He. apply returns_ret. simpl.
        exists c. split; [reflexivity|]. split; [exact Hs|].
        right. right. exact He.
    + eapply returns_bind; [apply returns_random|]. intros r2 _.
      eapply returns_bind with (P := fun c => is_basic_unescaped c = true).
      * destruct (Qltb r2 (dbl (1 # 10))).
        { eapply returns_bind; [apply returns_randint; lia|].
          cbv beta. intros c Hc. apply returns_ret.
          destruct (Z.eqb_spec c 0x22); [reflexivity | char_lia]. }
        destruct (Qltb r2 (dbl (8 # 10))).
        { eapply returns_bind; [apply returns_randint; lia|].
          cbv beta. intros c Hc. apply returns_ret.
          destruct (Z.eqb_spec c 0x5c); [reflexivity | char_lia]. }
        destruct (Qltb r2 (dbl (9 # 10)));
          (eapply returns_weaken; [apply returns_randint; lia|]);
          cbv beta; intros c Hc; char_lia.
      * cbv beta. intros c Hc. apply returns_ret. simpl.
        exists c. split; [reflexivity|]. split; [char_lia|].
        left. split; [reflexivity | exact Hc].
Qed.

Lemma Forall2_snoc {A B} (R : A -> B -> Prop) l1 l2 x y :
  Forall2 R l1 l2 -> R x y -> Forall2 R (l1 ++ [x]) (l2 ++ [y]).
Proof.
  intros H Hxy. apply Forall2_app; [exact H|]. constructor; [exact Hxy|].
  constructor.
Qed.

Lemma gen_basic_string_units :
  returns _gen_basic_string
    (fun r => exists units,
         fst r = 0x22 :: concat units ++ [0x22]
         /\ Forall2 renders (snd r) units
         /\ forallb is_scalar (snd r) = true
         /\ len (snd r) <= MAX_STRING_LEN).
Proof.
  unfold _gen_basic_string.
  eapply returns_bind;
    [apply returns_rand_exp; unfold MAX_STRING_LEN; lia|].
  cbv beta. intros n Hn.
  eapply returns_bind.
  - unfold for_range.
    apply (returns_for_range_from_counted
             (fun k acc => Forall2 renders (concat (snd acc)) (fst acc)
                           /\ forallb is_scalar (concat (snd acc)) = true
                           /\ length (concat (snd acc)) = k)
             _ (Z.to_nat n) 0 O ([], [])).
    + split; [constructor|]. split; reflexivity.
    + intros j k acc (Hr & Hs & Hl).
      eapply returns_bind; [apply gen_basic_char_renders|].
      cbv beta. intros [d v] (c & Hv & Hc & Hd). cbn [fst snd] in *. subst v.
      apply returns_ret. cbn [fst snd].
      rewrite concat_app. cbn [concat]. rewrite app_nil_r.
      split; [apply Forall2_snoc; assumption|].
      split.
      * rewrite forallb_app, Hs. simpl. rewrite Hc. reflexivity.
      * rewrite length_app, Hl. simpl. lia.
  - cbv beta. intros [docs vals] (Hr & Hs & Hl). apply returns_ret.
    cbn [fst snd] in *. exists docs.
    split; [reflexivity|]. split; [exact Hr|]. split; [exact Hs|].
    unfold len. rewrite Hl. simpl. lia.
Qed.

(** [_gen_basic_string] always returns a text in double quotes whose body
    reads, by the grammar of basic strings with its escapes, as the value
    returned with it; the value has at most [MAX_STRING_LEN] characters, all
    of them Unicode scalar values. *)
Theorem gen_basic_string_reads_back rng :
  exists doc val rng',
    _gen_basic_string rng = Ok ((doc, val), rng')
    /\ (exists body, doc = 0x22 :: body ++ [0x22]
                     /\ decode_basic RNormal body [] = Some val)
    /\ forallb is_scalar val = true
    /\ len val <= MAX_STRING_LEN.
Proof.
  destruct (gen_basic_string_units rng)
    as ([doc val] & rng' & E & units & Hdoc & Hr & Hs & Hl).
  cbn [fst snd] in *.
  exists doc, val, rng'. split; [exact E|].
  split; [|split; assumption].
  exists (concat units). split; [exact Hdoc|].
  exact (decode_units val units [] Hs Hr).
Qed.

Lemma gen_literal_string_chars :
  returns _gen_literal_string
    (fun r => fst r = 0x27 :: snd r ++ [0x27]
              /\ forallb is_literal_char (snd r) = true
              /\ len (snd r) <= MAX_STRING_LEN).
Proof.
  unfold _gen_literal_string.
  eapply returns_bind;
    [apply returns_rand_exp; unfold MAX_STRING_LEN; lia|].
  cbv beta. intros n Hn.
  eapply returns_bind.
  - unfold for_range.
    apply (returns_for_range_from_counted
             (fun k chars => forallb is_literal_char (concat chars) = true
                             /\ length (concat chars) = k)
             _ (Z.to_nat n) 0 O []).
    + split; reflexivity.
    + intros j k chars (Hs & Hl).
      eapply returns_bind; [apply gen_literal_char_returns|].
      cbv beta. intros s (c & -> & Hc).
      apply returns_ret.
      rewrite concat_app. cbn [concat]. rewrite app_nil_r.
      rewrite forallb_app, Hs, length_app, Hl. simpl. rewrite Hc.
      split; [reflexivity | lia].
  - cbv beta. intros chars (Hs & Hl). apply returns_ret. cbn [fst snd].
    split; [reflexivity|]. split; [exact Hs|].
    unfold len. rewrite Hl. simpl. lia.
Qed.

(** [_gen_literal_string] always returns its value between single quotes;
    the value has at most [MAX_STRING_LEN] characters, each a
    [literal-char] of the TOML grammar, so neither a single quote nor a
    newline. *)
Theorem gen_literal_string_verbatim rng :
  exists val rng',
    _gen_literal_string rng = Ok ((0x27 :: val ++ [0x27], val), rng')
    /\ forallb is_literal_char val = true
    /\ len val <= MAX_STRING_LEN.
Proof.
  destruct (gen_literal_string_chars rng)
    as ([doc val] & rng' & E & Hdoc & Hs & Hl).
  cbn [fst snd] in *. subst doc.
  exists val, rng'. auto.
Qed.

Lemma gen_unquoted_key_chars :
  returns _gen_unquoted_key
    (fun r => fst r = snd r /\ forallb is_bare_char (snd r) = true
              /\ 1 <= len (snd r) <= MAX_KEY_LEN).
Proof.
  unfold _gen_unquoted_key.
  eapply returns_bind; [apply returns_rand_exp; unfold MAX_KEY_LEN; lia|].
  cbv beta. intros n Hn.
  eapply returns_bind.
  - unfold for_range.
    apply (returns_for_range_from_counted
             (fun k chars => forallb is_bare_char chars = true
                             /\ length chars = k)
             _ (Z.to_nat n) 0 O []).
    + split; reflexivity.
    + intros j k chars (Hs & Hl).
      eapply returns_bind; [apply returns_random|]. intros r _.
      eapply returns_bind with (P := fun c => is_bare_char c = true).
      * destruct (Qltb r half);
          (eapply returns_weaken; [apply returns_choice; discriminate|]);
          cbv beta; intros c Hc;
          (eapply in_forallb; [|exact Hc]); reflexivity.
      * cbv beta. intros c Hc. apply returns_ret.
        rewrite forallb_app, Hs, length_app, Hl. simpl. rewrite Hc.
        split; [reflexivity | lia].
  - cbv beta. intros chars (Hs & Hl). apply returns_ret. cbn [fst snd].
    split; [reflexivity|]. split; [exact Hs|].
    unfold len. rewrite Hl. simpl. lia.
Qed.

(** [_gen_simple_key] always returns a text that reads, as a bare, literal
    or basic key of the TOML grammar, as the segment returned with it, and
    the segment consists of Unicode scalar values. *)
Theorem gen_simple_key_reads_back rng :
  exists s k rng',
    _gen_simple_key rng = Ok ((s, k), rng')
    /\ read_simple_key s = Some k
    /\ forallb is_scalar k = true.
Proof.
  assert (H : returns _gen_simple_key
                (fun r => read_simple_key (fst r) = Some (snd r)
                          /\ forallb is_scalar (snd r) = true)).
  { unfold _gen_simple_key.
    eapply returns_bind; [apply returns_random|]. intros r _.
    destruct (Qltb r PROB_QUOTED_KEY);
      [destruct (Qltb r (half * PROB_QUOTED_KEY))|].
    - eapply returns_weaken; [apply gen_basic_string_units|].
      intros [doc val] (units & Hdoc & Hr & Hs & _). cbn [fst snd] in *.
      split; [|exact Hs]. subst doc.
      apply rendering_reads_back; [exact Hs|].
      right. right. exists units. auto.
    - eapply returns_weaken; [apply gen_literal_string_chars|].
      intros [doc val] (Hdoc & Hs & _). cbn [fst snd] in *.
      assert (Hsc : forallb is_scalar val = true).
      { revert Hs. apply forallb_impl, literal_scalar. }
      split; [|exact Hsc]. subst doc.
      apply rendering_reads_back; [exact Hsc|].
      right. left. auto.
    - eapply returns_weaken; [apply gen_unquoted_key_chars|].
      intros [doc val] (Hdoc & Hs & Hl). cbn [fst snd] in *.
      assert (Hsc : forallb is_scalar val = true).
      { revert Hs. apply forallb_impl, bare_scalar. }
      split; [|exact Hsc]. subst doc.
      apply rendering_reads_back; [exact Hsc|].
      left. split; [reflexivity|]. split; [|exact Hs].
      intros ->. unfold len in Hl. simpl in Hl. lia. }
  destruct (H rng) as ([s k] & rng' & E & Hr & Hs).
  exists s, k, rng'. auto.
Qed.

(** ** Multi-line strings read back as their values *)

Lemma ml_basic_scan_app a : forall m b out,
  ml_basic_scan m (a ++ b) out
  = match ml_basic_scan m a out with
    | Some (m', out') => ml_basic_scan m' b out'
    | None => None
    end.
Proof.
  induction a as [|c a IH]; intros m b out; [reflexivity|].
  cbn [app ml_basic_scan].
  destruct (ml_basic_next m c out) as [[m' out']|]; [apply IH | reflexivity].
Qed.

Lemma ml_scan_ws_skip ws out :
  forallb is_wschar ws = true -> ml_basic_scan MSkip ws out = Some (MSkip, out).
Proof.
  induction ws as [|c ws IH]; intros H; [reflexivity|].
  simpl in H. apply andb_true_iff in H. destruct H as [Hc Hws].
  cbn [ml_basic_scan ml_basic_next]. rewrite Hc. apply IH, Hws.
Qed.

Lemma ml_scan_ws_cont ws out :
  forallb is_wschar ws = true ->
  ml_basic_scan MContWs ws out = Some (MContWs, out).
Proof.
  induction ws as [|c ws IH]; intros H; [reflexivity|].
  simpl in H. apply andb_true_iff in H. destruct H as [Hc Hws].
  cbn [ml_basic_scan ml_basic_next]. rewrite Hc. apply IH, Hws.
Qed.

Lemma ml_scan_eol_skip eol out :
  is_newline eol -> ml_basic_scan MSkip eol out = Some (MSkip, out).
Proof. intros [->| ->]; reflexivity. Qed.

Lemma ml_next_backslash m out :
  ml_unit_start m -> ml_basic_next m 0x5c out = Some (MEsc, out).
Proof. intros [->|[->| ->]]; reflexivity. Qed.

Lemma ml_next_quote m out :
  ml_unit_start m -> ml_basic_next m 0x22 out = Some (MNormal, out ++ [0x22]).
Proof. intros [->|[->| ->]]; reflexivity. Qed.

Lemma ml_scan_continuation m ws eol out :
  ml_unit_start m -> forallb is_wschar ws = true -> is_newline eol ->
  ml_basic_scan m (0x5c :: ws ++ eol) out = Some (MSkip, out).
Proof.
  intros Hm Hws Heol. cbn [ml_basic_scan]. rewrite (ml_next_backslash m out Hm).
  destruct ws as [|c ws].
  - destruct Heol as [->| ->]; reflexivity.
  - simpl in Hws. apply andb_true_iff in Hws. destruct Hws as [Hc Hws].
    cbn [app ml_basic_scan ml_basic_next].
    assert (Hu : (c =? 117) = false /\ (c =? 85) = false).
    { unfold is_wschar in Hc. apply orb_true_iff in Hc.
      destruct Hc as [Hc|Hc]; apply Z.eqb_eq in Hc; subst; split; reflexivity. }
    destruct Hu as [-> ->]. rewrite Hc.
    rewrite ml_basic_scan_app, (ml_scan_ws_cont ws out Hws).
    destruct Heol as [->| ->]; reflexivity.
Qed.

Lemma ml_scan_hex h : forall n acc rest out,
  length h = S n -> forallb is_hex_digit h = true ->
  ml_basic_scan (MHex (S n) acc) (h ++ rest) out
  = let v := fold_left (fun a c => 16 * a + match hex_digit_val c with
                                            | Some d => d
                                            | None => 0
                                            end) h acc in
    if is_scalar v then ml_basic_scan MNormal rest (out ++ [v]) else None.
Proof.
  induction h as [|c h IH]; intros n acc rest out Hlen Hhex;
    [discriminate|].
  simpl in Hhex. apply andb_true_iff in Hhex. destruct Hhex as [Hc Hh].
  unfold is_hex_digit in Hc.
  cbn [app ml_basic_scan ml_basic_next fold_left].
  destruct (hex_digit_val c) as [d|]; [|discriminate].
  destruct n as [|n].
  - destruct h; [|discriminate]. cbn [fold_left app]. cbv zeta.
    destruct (is_scalar (16 * acc + d)); reflexivity.
  - cbv zeta. apply IH; [simpl in Hlen; lia | exact Hh].
Qed.

Lemma str_in_wschar c : str_in [c] [0x09; 0x20] = is_wschar c.
Proof.
  unfold is_wschar. cbn [str_in starts_with].
  destruct (c =? 0x09), (c =? 0x20); reflexivity.
Qed.

Lemma basic_unescaped_plain c out :
  is_basic_unescaped c = true -> ml_plain c out = Some (MNormal, out ++ [c]).
Proof.
  intros Hc. unfold ml_plain. rewrite Hc.
  assert (H : c <> 0x5c /\ c <> 0x0a /\ c <> 0x0d) by char_lia.
  destruct H as (H1 & H2 & H3).
  apply Z.eqb_neq in H1, H2, H3. rewrite H1, H2, H3. reflexivity.
Qed.

Lemma ml_scan_unit m c d out :
  ml_unit_start m -> is_scalar c = true -> renders c d ->
  (m = MSkip -> str_in d [0x09; 0x20] = false) ->
  ml_basic_scan m d out = Some (MNormal, out ++ [c]).
Proof.
  intros Hm Hc [[-> Hu]|[(e & -> & He)|(h & Hhex & Hv & Hform)]] Hws.
  - cbn [ml_basic_scan].
    pose proof (basic_unescaped_plain c out Hu) as Hp.
    assert (H : c <> 0x0a /\ c <> 0x0d) by char_lia.
    destruct H as (H2 & H3). apply Z.eqb_neq in H2, H3.
    destruct Hm as [->|[->| ->]]; cbn [ml_basic_next].
    + rewrite H2, H3, Hp. reflexivity.
    + rewrite Hp. reflexivity.
    + specialize (Hws eq_refl). rewrite str_in_wschar in Hws.
      rewrite Hws, H2, H3, Hp. reflexivity.
  - cbn [ml_basic_scan]. rewrite (ml_next_backslash m out Hm).
    unfold short_escape in He.
    repeat match type of He with
           | (if ?x =? ?y then _ else _) = _ =>
               destruct (Z.eqb_spec x y) as [E|];
               [subst e; inversion He; subst; reflexivity|]
           end.
    discriminate.
  - unfold hex_value in Hv.
    destruct Hform as [(-> & Hlen & _)|(-> & Hlen)];
      change (py "\u" ++ h) with (0x5c :: 117 :: h);
      change (py "\U" ++ h) with (0x5c :: 85 :: h);
      cbn [ml_basic_scan]; rewrite (ml_next_backslash m out Hm);
      cbn [ml_basic_next]; simpl (117 =? 117); simpl (85 =? 117);
      simpl (85 =? 85); cbv iota;
      rewrite <- (app_nil_r h).
    + rewrite (ml_scan_hex h 3 0); [|unfold len in Hlen; lia | exact Hhex].
      cbv zeta. rewrite Hv, Hc. reflexivity.
    + rewrite (ml_scan_hex h 7 0); [|unfold len in Hlen; lia | exact Hhex].
      cbv zeta. rewrite Hv, Hc. reflexivity.
Qed.

Lemma ml_basic_char_renders fuel allow_ws :
  yields (ml_basic_char fuel allow_ws)
    (fun r => exists c, snd r = [c] /\ is_scalar c = true
                        /\ renders c (fst r)
                        /\ (allow_ws = false ->
                            str_in (fst r) [0x09; 0x20] = false)).
Proof.
  induction fuel as [|fuel IH]; [apply yields_diverge|].
  cbn [ml_basic_char].
  eapply yields_bind; [apply returns_yields, gen_basic_char_renders|].
  cbv beta. intros [d v] (c & Hv & Hc & Hd). cbn [fst snd] in *.
  destruct (allow_ws || negb (str_in d [0x09; 0x20])) eqn:E.
  - apply yields_ret. cbn [fst snd]. exists c.
    split; [exact Hv|]. split; [exact Hc|]. split; [exact Hd|].
    intros ->. cbn [orb] in E. apply negb_true_iff in E. exact E.
  - exact IH.
Qed.

Lemma ml_basic_reads_start m (st : ml_state) :
  (m = MStart /\ val_chars st = []) \/ m = MNormal
  \/ (m = MSkip /\ allow_whitespace st = false) ->
  ml_unit_start m.
Proof. unfold ml_unit_start. intros [[-> _]|[->|[-> _]]]; auto. Qed.

Lemma ml_basic_iteration_reads fuel st :
  ml_basic_reads st -> yields (ml_basic_iteration fuel st) ml_basic_reads.
Proof.
  intros (m & Hscan & Hm).
  pose proof (ml_basic_reads_start m st Hm) as Hstart.
  unfold ml_basic_iteration.
  eapply yields_bind; [apply returns_yields, returns_random|]. intros r _.
  destruct (allow_quote st && Qltb r PROB_ML_QUOTE) eqn:Equote.
  - apply yields_ret. exists MNormal. split; [|right; left; reflexivity].
    destruct (Qltb r (half * PROB_ML_QUOTE)); cbn [ml_flags ml_append
      doc_chars val_chars]; rewrite !concat_app; cbn [concat];
      rewrite !app_nil_r, <- ?app_assoc;
      rewrite ml_basic_scan_app, Hscan; cbn [app ml_basic_scan];
      rewrite (ml_next_quote m _ Hstart);
      rewrite ?(ml_next_quote MNormal _ (or_intror (or_introl eq_refl)));
      rewrite <- ?app_assoc; reflexivity.
  - eapply yields_bind; [apply returns_yields, returns_random|]. intros r2 _.
    cbn [val_chars allow_whitespace ml_flags].
    destruct (Qltb r2 PROB_ML_NEWLINE && nonempty (val_chars st)
              && allow_whitespace st) eqn:Enl.
    + apply andb_true_iff in Enl. destruct Enl as [Enl Ews].
      apply andb_true_iff in Enl. destruct Enl as [_ Eval].
      apply nonempty_true in Eval.
      assert (m = MNormal) as ->.
      { destruct Hm as [[_ Hv]|[Hm|[_ Hw]]]; [contradiction | exact Hm|].
        congruence. }
      eapply yields_bind; [apply returns_yields, gen_newline_returns|].
      cbv beta. intros eol Heol. apply yields_ret.
      exists MNormal. split; [|right; left; reflexivity].
      cbn [ml_flags ml_append doc_chars val_chars].
      rewrite !concat_app. cbn [concat]. rewrite !app_nil_r.
      rewrite ml_basic_scan_app, Hscan.
      destruct Heol as [->| ->]; reflexivity.
    + destruct (Qltb r2 (dbl (PROB_ML_NEWLINE + PROB_ML_ESCAPED_NEWLINE))).
      * eapply yields_bind; [apply returns_yields, gen_ws_returns|].
        cbv beta. intros ws Hws.
        eapply yields_bind; [apply returns_yields, gen_newline_returns|].
        cbv beta. intros eol Heol.
        eapply yields_bind;
          [apply returns_yields, returns_randint; lia|].
        cbv beta. intros k Hk.
        eapply yields_bind.
        { apply returns_yields.
          apply (returns_for_range
                   (fun s : ml_state =>
                      ml_basic_scan MStart (concat (doc_chars s)) []
                      = Some (MSkip, concat (val_chars s)))).
          - cbn [ml_flags ml_append_doc doc_chars val_chars].
            rewrite concat_app. cbn [concat]. rewrite app_nil_r.
            rewrite ml_basic_scan_app, Hscan.
            apply ml_scan_continuation; assumption.
          - intros j s Hs.
            eapply returns_bind; [apply gen_ws_returns|].
            cbv beta. intros ws2 Hws2.
            eapply returns_bind; [apply gen_newline_returns|].
            cbv beta. intros eol2 Heol2. apply returns_ret.
            cbn [ml_append_doc doc_chars val_chars].
            rewrite concat_app. cbn [concat]. rewrite app_nil_r.
            rewrite ml_basic_scan_app, Hs.
            rewrite ml_basic_scan_app, (ml_scan_ws_skip ws2 _ Hws2).
            apply ml_scan_eol_skip, Heol2. }
        cbv beta. intros s Hs.
        eapply yields_bind; [apply returns_yields, gen_ws_returns|].
        cbv beta. intros ws3 Hws3. apply yields_ret.
        exists MSkip. split; [|right; right; split; reflexivity].
        cbn [ml_flags ml_append_doc doc_chars val_chars].
        rewrite concat_app. cbn [concat]. rewrite app_nil_r.
        rewrite ml_basic_scan_app, Hs. apply ml_scan_ws_skip, Hws3.
      * eapply yields_bind; [apply ml_basic_char_renders|].
        cbv beta. intros [d v] (c & Hv & Hc & Hd & Hnows).
        cbn [fst snd] in *. subst v.
        apply yields_ret.
        exists MNormal. split; [|right; left; reflexivity].
        cbn [ml_flags ml_append doc_chars val_chars].
        rewrite !concat_app. cbn [concat]. rewrite !app_nil_r.
        rewrite ml_basic_scan_app, Hscan.
        apply ml_scan_unit; try assumption.
        intros ->. apply Hnows.
        destruct Hm as [[Hm _]|[Hm|[_ Hw]]]; [discriminate..|exact Hw].
Qed.

Lemma gen_ml_basic_string_reads fuel :
  yields (_gen_ml_basic_string fuel)
    (fun r => exists body,
         fst r = [0x22; 0x22; 0x22] ++ body ++ [0x22; 0x22; 0x22]
         /\ read_ml_basic body = Some (snd r)).
Proof.
  unfold _gen_ml_basic_string.
  eapply yields_bind;
    [apply returns_yields, returns_rand_exp; unfold MAX_MLSTRING_LEN; lia|].
  cbv beta. intros n Hn.
  eapply yields_bind; [apply returns_yields, ml_leading_newline_returns|].
  cbv beta. intros lead Hlead.
  eapply yields_bind.
  - apply (yields_for_range ml_basic_reads).
    + destruct Hlead as [->|(eol & Heol & ->)].
      * exists MStart. split; [reflexivity|]. left. split; reflexivity.
      * exists MNormal. split; [|right; left; reflexivity].
        destruct Heol as [->| ->]; reflexivity.
    + intros j st Hst. apply ml_basic_iteration_reads, Hst.
  - cbv beta. intros st (m & Hscan & Hm). apply yields_ret.
    exists (concat (doc_chars st)). cbn [fst snd]. split; [reflexivity|].
    unfold read_ml_basic. rewrite Hscan.
    destruct Hm as [[-> _]|[->|[-> _]]]; reflexivity.
Qed.

(** The text that [_gen_ml_basic_string] returns is a body between
    [three double quotes] on either side, and the body reads, by the grammar
    of multi-line basic strings (the newline after the opening delimiter
    dropped, escapes decoded, line-ending backslashes and the white space
    after them dropped, newlines read as line feeds), as the value returned
    with it. *)
Theorem gen_ml_basic_string_reads_back fuel rng doc val rng' :
  _gen_ml_basic_string fuel rng = Ok ((doc, val), rng') ->
  exists body,
    doc = [0x22; 0x22; 0x22] ++ body ++ [0x22; 0x22; 0x22]
    /\ read_ml_basic body = Some val.
Proof.
  intros E. exact (yields_Ok _ _ _ _ _ (gen_ml_basic_string_reads fuel) E).
Qed.

Lemma gen_ml_basic_string_reads_back_witness :
  _gen_ml_basic_string 1 [2; 0; 2 ^ 52; 2 ^ 52; 0; 5; 0]
  = Ok (([0x22; 0x22; 0x22; 0x5c; 0x22; 0x22; 0x22; 0x22; 0x22; 0x22],
         [0x22; 0x22; 0x22]), [])
  /\ exists body,
       [0x22; 0x22; 0x22; 0x5c; 0x22; 0x22; 0x22; 0x22; 0x22; 0x22]
       = [0x22; 0x22; 0x22] ++ body ++ [0x22; 0x22; 0x22]
       /\ read_ml_basic body = Some [0x22; 0x22; 0x22].
Proof.
  assert (E : _gen_ml_basic_string 1 [2; 0; 2 ^ 52; 2 ^ 52; 0; 5; 0]
              = Ok (([0x22; 0x22; 0x22; 0x5c; 0x22; 0x22; 0x22; 0x22; 0x22;
                      0x22], [0x22; 0x22; 0x22]), []))
    by (vm_compute; reflexivity).
  split; [exact E|].
  exact (gen_ml_basic_string_reads_back _ _ _ _ _ E).
Defined.

Lemma ml_literal_scan_app a : forall m b out,
  ml_literal_scan m (a ++ b) out
  = match ml_literal_scan m a out with
    | Some (m', out') => ml_literal_scan m' b out'
    | None => None
    end.
Proof.
  induction a as [|c a IH]; intros m b out; [reflexivity|].
  cbn [app ml_literal_scan].
  destruct (ml_literal_next m c out) as [[m' out']|]; [apply IH | reflexivity].
Qed.

Lemma ml_literal_iteration_reads st :
  ml_literal_reads st -> returns (ml_literal_iteration st) ml_literal_reads.
Proof.
  intros (m & Hscan & Hm).
  assert (Hstart : m = LStart \/ m = LNormal) by (destruct Hm as [[-> _]| ->]; auto).
  unfold ml_literal_iteration.
  eapply returns_bind; [apply returns_random|]. intros r _.
  destruct (allow_quote st && Qltb r PROB_ML_QUOTE) eqn:Equote.
  - apply returns_ret. exists LNormal. split; [|right; reflexivity].
    destruct (Qltb r (half * PROB_ML_QUOTE)); cbn [ml_flags ml_append
      doc_chars val_chars]; rewrite !concat_app; cbn [concat];
      rewrite !app_nil_r, <- ?app_assoc;
      rewrite ml_literal_scan_app, Hscan;
      destruct Hstart as [->| ->]; cbn; rewrite <- ?app_assoc; reflexivity.
  - eapply returns_bind; [apply returns_random|]. intros r2 _.
    cbn [val_chars allow_whitespace ml_flags].
    destruct (Qltb r2 PROB_ML_NEWLINE && nonempty (val_chars st)) eqn:Enl.
    + apply andb_true_iff in Enl. destruct Enl as [_ Eval].
      apply nonempty_true in Eval.
      assert (m = LNormal) as ->.
      { destruct Hm as [[_ Hv]|Hm]; [contradiction | exact Hm]. }
      eapply returns_bind; [apply gen_newline_returns|].
      cbv beta. intros eol Heol. apply returns_ret.
      exists LNormal. split; [|right; reflexivity].
      cbn [ml_flags ml_append doc_chars val_chars].
      rewrite !concat_app. cbn [concat]. rewrite !app_nil_r.
      rewrite ml_literal_scan_app, Hscan.
      destruct Heol as [->| ->]; reflexivity.
    + eapply returns_bind; [apply gen_literal_char_returns|].
      cbv beta. intros s (c & -> & Hc). apply returns_ret.
      exists LNormal. split; [|right; reflexivity].
      cbn [ml_flags ml_append doc_chars val_chars].
      rewrite !concat_app. cbn [concat]. rewrite !app_nil_r.
      rewrite ml_literal_scan_app, Hscan.
      assert (H : c <> 0x0a /\ c <> 0x0d) by char_lia.
      destruct H as (H2 & H3). apply Z.eqb_neq in H2, H3.
      cbn [ml_literal_scan].
      destruct Hstart as [->| ->]; cbn [ml_literal_next]; unfold mll_plain;
        rewrite H2, H3, Hc; reflexivity.
Qed.

Lemma gen_ml_literal_string_reads :
  returns _gen_ml_literal_string
    (fun r => exists body,
         fst r = [0x27; 0x27; 0x27] ++ body ++ [0x27; 0x27; 0x27]
         /\ read_ml_literal body = Some (snd r)).
Proof.
  unfold _gen_ml_literal_string.
  eapply returns_bind;
    [apply returns_rand_exp; unfold MAX_MLSTRING_LEN; lia|].
  cbv beta. intros n Hn.
  eapply returns_bind; [apply ml_leading_newline_returns|].
  cbv beta. intros lead Hlead.
  eapply returns_bind.
  - apply (returns_for_range ml_literal_reads).
    + destruct Hlead as [->|(eol & Heol & ->)].
      * exists LStart. split; [reflexivity|]. left. split; reflexivity.
      * exists LNormal. split; [|right; reflexivity].
        destruct Heol as [->| ->]; reflexivity.
    + intros j st Hst. apply ml_literal_iteration_reads, Hst.
  - cbv beta. intros st (m & Hscan & Hm). apply returns_ret.
    exists (concat (doc_chars st)). cbn [fst snd]. split; [reflexivity|].
    unfold read_ml_literal. rewrite Hscan.
    destruct Hm as [[-> _]| ->]; reflexivity.
Qed.

(** [_gen_ml_literal_string] always returns a body between [three single
    quotes] on either side, and the body reads, by the grammar of multi-line
    literal strings (the newline after the opening delimiter dropped,
    newlines read as line feeds, everything else verbatim), as the value
    returned with it. *)
Theorem gen_ml_literal_string_reads_back rng :
  exists doc val rng',
    _gen_ml_literal_string rng = Ok ((doc, val), rng')
    /\ exists body,
         doc = [0x27; 0x27; 0x27] ++ body ++ [0x27; 0x27; 0x27]
         /\ read_ml_literal body = Some val.
Proof.
  destruct (gen_ml_literal_string_reads rng) as ([doc val] & rng' & E & Hb).
  exists doc, val, rng'. auto.
Qed.

(** ** The four string forms together *)

Lemma starts_with_app q rest : starts_with q (q ++ rest) = true.
Proof.
  induction q as [|x q IH]; [destruct rest; reflexivity|].
  simpl. rewrite Z.eqb_refl. exact IH.
Qed.

Lemma unquote_wrap q body : unquote q (q ++ body ++ q) = Some body.
Proof.
  unfold unquote. rewrite starts_with_app.
  rewrite !length_app.
  replace (2 * length q <=? length q + (length body + length q))%nat
    with true by (symmetry; apply Nat.leb_le; lia).
  replace (length q + (length body + length q) - length q)%nat
    with (length q + length body)%nat by lia.
  replace (length q + (length body + length q) - 2 * length q)%nat
    with (length body) by lia.
  rewrite app_assoc, skipn_app, length_app.
  replace (length q + length body - (length q + length body))%nat
    with O by lia.
  rewrite skipn_all2 by (rewrite length_app; lia).
  cbn [skipn app]. rewrite pystr_eqb_refl. cbn [andb].
  rewrite <- app_assoc, skipn_app, skipn_all, Nat.sub_diag. cbn [skipn app].
  rewrite firstn_app, firstn_all, Nat.sub_diag. cbn [firstn].
  rewrite app_nil_r. reflexivity.
Qed.

Lemma unquote_other_start q x rest y :
  x <> y -> unquote (x :: q) (y :: rest) = None.
Proof.
  intros H. unfold unquote. cbn [starts_with].
  apply Z.eqb_neq in H. rewrite H. reflexivity.
Qed.

Lemma unquote_triple_short q a : unquote [q; q; q] [a; q] = None.
Proof.
  unfold unquote. cbn [length]. rewrite andb_false_r. reflexivity.
Qed.

Lemma unquote_triple_second q x rest :
  x <> q -> unquote [q; q; q] (q :: x :: rest) = None.
Proof.
  intros H. unfold unquote. cbn [starts_with].
  assert (E : (q =? x) = false) by (apply Z.eqb_neq; congruence).
  rewrite E, andb_false_r. reflexivity.
Qed.

Lemma renders_head c u :
  renders c u -> exists x rest, u = x :: rest /\ x <> 0x22.
Proof.
  intros [[-> Hu]|[(e & -> & He)|(h & _ & _ & [(-> & _)|(-> & _)])]].
  - exists c, []. split; [reflexivity | char_lia].
  - exists 0x5c, [e]. split; [reflexivity | discriminate].
  - eexists _, _. split; [reflexivity | discriminate].
  - eexists _, _. split; [reflexivity | discriminate].
Qed.

Lemma basic_doc_not_triple val units :
  Forall2 renders val units ->
  unquote [0x22; 0x22; 0x22] (0x22 :: concat units ++ [0x22]) = None.
Proof.
  intros [|c u val' units' Hu _].
  - apply unquote_triple_short.
  - destruct (renders_head c u Hu) as (x & rest & -> & Hx).
    apply unquote_triple_second, Hx.
Qed.

Lemma literal_doc_not_triple val :
  forallb is_literal_char val = true ->
  unquote [0x27; 0x27; 0x27] (0x27 :: val ++ [0x27]) = None.
Proof.
  destruct val as [|c val]; intros H.
  - apply unquote_triple_short.
  - apply unquote_triple_second. simpl in H. apply andb_true_iff in H.
    destruct H as [Hc _]. char_lia.
Qed.

Lemma gen_string_reads fuel :
  yields (_gen_string fuel) (fun r => read_string (fst r) = Some (snd r)).
Proof.
  unfold _gen_string.
  eapply yields_bind; [apply returns_yields, returns_choice; discriminate|].
  cbv beta. intros func Hfunc. simpl in Hfunc.
  destruct Hfunc as [<-|[<-|[<-|[<-|[]]]]].
  - eapply yields_weaken; [apply gen_ml_basic_string_reads|].
    intros [doc val] (body & -> & Hb). cbn [fst snd] in *.
    unfold read_string. rewrite unquote_wrap. exact Hb.
  - apply returns_yields.
    eapply returns_weaken; [apply gen_basic_string_units|].
    intros [doc val] (units & -> & Hr & Hs & _). cbn [fst snd] in *.
    unfold read_string.
    rewrite (basic_doc_not_triple val units Hr).
    rewrite unquote_other_start by discriminate.
    change (0x22 :: concat units ++ [0x22])
      with ([0x22] ++ concat units ++ [0x22]).
    rewrite unquote_wrap.
    exact (decode_units val units [] Hs Hr).
  - apply returns_yields.
    eapply returns_weaken; [apply gen_ml_literal_string_reads|].
    intros [doc val] (body & -> & Hb). cbn [fst snd] in *.
    unfold read_string.
    cbn [app]. rewrite unquote_other_start by discriminate.
    change (0x27 :: 0x27 :: 0x27 :: body ++ [0x27; 0x27; 0x27])
      with ([0x27; 0x27; 0x27] ++ body ++ [0x27; 0x27; 0x27]).
    rewrite unquote_wrap. exact Hb.
  - apply returns_yields.
    eapply returns_weaken; [apply gen_literal_string_chars|].
    intros [doc val] (-> & Hs & _). cbn [fst snd] in *.
    unfold read_string.
    rewrite unquote_other_start by discriminate.
    rewrite (literal_doc_not_triple val Hs).
    rewrite unquote_other_start by discriminate.
    change (0x27 :: val ++ [0x27]) with ([0x27] ++ val ++ [0x27]).
    rewrite unquote_wrap, Hs. reflexivity.
Qed.

(** Whatever form [_gen_string] chooses, the text it returns reads, as a
    TOML string of that form, as the value returned with it. *)
Theorem gen_string_reads_back fuel rng doc val rng' :
  _gen_string fuel rng = Ok ((doc, val), rng') ->
  read_string doc = Some val.
Proof.
  intros E. exact (yields_Ok _ _ _ _ _ (gen_string_reads fuel) E).
Qed.

Lemma gen_string_reads_back_witness :
  _gen_string 1 [1; 2; 0; 3; 2 ^ 52; 2 ^ 52; 70]
  = Ok (([0x22; 0x5c; 102; 118; 0x22], [0x0c; 118]), [])
  /\ read_string [0x22; 0x5c; 102; 118; 0x22] = Some [0x0c; 118].
Proof.
  assert (E : _gen_string 1 [1; 2; 0; 3; 2 ^ 52; 2 ^ 52; 70]
              = Ok (([0x22; 0x5c; 102; 118; 0x22], [0x0c; 118]), []))
    by (vm_compute; reflexivity).
  split; [exact E|].
  exact (gen_string_reads_back _ _ _ _ _ E).
Defined.

(** ** Keys *)

(** [_gen_unquoted_key] always returns, as text and as segment, the same
    run of between 1 and [MAX_KEY_LEN] characters, each of them in
    [A-Za-z0-9_-]. *)
Theorem gen_unquoted_key_bare rng :
  exists k rng',
    _gen_unquoted_key rng = Ok ((k, k), rng')
    /\ forallb is_bare_char k = true
    /\ 1 <= len k <= MAX_KEY_LEN.
Proof.
  destruct (gen_unquoted_key_chars rng) as ([s k] & rng' & E & Hs & H).
  cbn [fst snd] in *. subst s. exists k, rng'. auto.
Qed.

(** A key that [_gen_key] returns without taking it from [reuse_key] is
    not in [exclude_key], and no proper prefix of it is in
    [exclude_prefix]; a key taken from [reuse_key] is returned whether it is
    excluded or not. *)
Theorem gen_key_respects_exclusions
  fuel exclude_prefix exclude_key reuse_prefix reuse_key rng key_str key rng' :
  _gen_key fuel exclude_prefix exclude_key reuse_prefix reuse_key rng
  = Ok ((key_str, key), rng') ->
  In key reuse_key
  \/ (~ In key exclude_key
      /\ forall i, (0 < i < length key)%nat ->
                   ~ In (firstn i key) exclude_prefix).
Proof.
  intros E.
  pose proof (yields_Ok _ _ _ _ _
                (gen_key_yields fuel exclude_prefix exclude_key reuse_prefix
                   reuse_key) E) as [_ Hkey].
  cbn [snd] in Hkey.
  destruct Hkey as [Hin|(prefix & fresh & _ & _ & _ & Hek & Hep)];
    [left; exact Hin|].
  right. split; [apply key_in_false, Hek|].
  intros i Hi. exact (excluded_prefix_not_in key exclude_prefix i Hep Hi).
Qed.

Lemma gen_key_respects_exclusions_witness :
  _gen_key 2 [] [[py "0"]] [] [] [0; 2 ^ 52; 1; 0; 0; 0; 2 ^ 52; 1; 0; 1]
  = Ok ((py "1", [py "1"]), [])
  /\ (In [py "1"] []
      \/ (~ In [py "1"] [[py "0"]]
          /\ forall i, (0 < i < length [py "1"])%nat ->
                       ~ In (firstn i [py "1"]) [])).
Proof.
  assert (E : _gen_key 2 [] [[py "0"]] [] []
                [0; 2 ^ 52; 1; 0; 0; 0; 2 ^ 52; 1; 0; 1]
              = Ok ((py "1", [py "1"]), []))
    by (vm_compute; reflexivity).
  split; [exact E|].
  exact (gen_key_respects_exclusions _ _ _ _ _ _ _ _ _ E).
Defined.

(** ** Key texts read back as their keys *)

Lemma key_scan_app a : forall m done b,
  key_scan m done (a ++ b)
  = match key_scan m done a with
    | Some (m', done') => key_scan m' done' b
    | None => None
    end.
Proof.
  induction a as [|c a IH]; intros m done b; [reflexivity|].
  cbn [app key_scan].
  destruct (key_next m c done) as [[m' done']|]; [apply IH | reflexivity].
Qed.

Lemma key_scan_ws_dot ws done :
  forallb is_wschar ws = true -> key_scan KDot done ws = Some (KDot, done).
Proof.
  induction ws as [|c ws IH]; intros H; [reflexivity|].
  simpl in H. apply andb_true_iff in H. destruct H as [Hc Hws].
  cbn [key_scan key_next]. rewrite Hc. apply IH, Hws.
Qed.

Lemma key_scan_ws_ws ws done :
  forallb is_wschar ws = true -> key_scan KWs done ws = Some (KWs, done).
Proof.
  induction ws as [|c ws IH]; intros H; [reflexivity|].
  simpl in H. apply andb_true_iff in H. destruct H as [Hc Hws].
  cbn [key_scan key_next]. rewrite Hc. apply IH, Hws.
Qed.

Lemma key_scan_bare s : forall acc done,
  forallb is_bare_char s = true ->
  key_scan (KBare acc) done s = Some (KBare (acc ++ s), done).
Proof.
  induction s as [|c s IH]; intros acc done H.
  - rewrite app_nil_r. reflexivity.
  - simpl in H. apply andb_true_iff in H. destruct H as [Hc Hs].
    cbn [key_scan key_next]. rewrite Hc, (IH _ _ Hs), <- app_assoc.
    reflexivity.
Qed.

Lemma key_scan_lit s : forall acc done,
  forallb is_literal_char s = true ->
  key_scan (KLit acc) done s = Some (KLit (acc ++ s), done).
Proof.
  induction s as [|c s IH]; intros acc done H.
  - rewrite app_nil_r. reflexivity.
  - simpl in H. apply andb_true_iff in H. destruct H as [Hc Hs].
    cbn [key_scan key_next]. rewrite Hc.
    assert (Hq : (c =? 0x27) = false) by (apply Z.eqb_neq; char_lia).
    rewrite Hq, (IH _ _ Hs), <- app_assoc. reflexivity.
Qed.

Lemma key_scan_hex h : forall n a acc done rest,
  length h = S n -> forallb is_hex_digit h = true ->
  key_scan (KBas (RHex (S n) a) acc) done (h ++ rest)
  = let v := fold_left (fun a c => 16 * a + match hex_digit_val c with
                                            | Some d => d
                                            | None => 0
                                            end) h a in
    if is_scalar v then key_scan (KBas RNormal (acc ++ [v])) done rest
    else None.
Proof.
  induction h as [|c h IH]; intros n a acc done rest Hlen Hhex;
    [discriminate|].
  simpl in Hhex. apply andb_true_iff in Hhex. destruct Hhex as [Hc Hh].
  unfold is_hex_digit in Hc.
  cbn [app key_scan key_next fold_left].
  destruct (hex_digit_val c) as [d|]; [|discriminate].
  destruct n as [|n].
  - destruct h; [|discriminate]. cbn [fold_left app]. cbv zeta.
    destruct (is_scalar (16 * a + d)); reflexivity.
  - cbv zeta. apply IH; [simpl in Hlen; lia | exact Hh].
Qed.

Lemma key_scan_unit c u acc done rest :
  is_scalar c = true -> renders c u ->
  key_scan (KBas RNormal acc) done (u ++ rest)
  = key_scan (KBas RNormal (acc ++ [c])) done rest.
Proof.
  intros Hc [[-> Hu]|[(e & -> & He)|(h & Hhex & Hv & Hform)]].
  - cbn [app key_scan key_next]. rewrite Hu.
    assert (H : c <> 0x22 /\ c <> 0x5c) by char_lia.
    destruct H as [H1 H2]. apply Z.eqb_neq in H1, H2. rewrite H1, H2.
    reflexivity.
  - cbn [app key_scan key_next]. simpl (0x5c =? 0x22). simpl (0x5c =? 0x5c).
    cbv iota. cbn [key_next].
    destruct (Z.eqb_spec e 117) as [E|]; [subst e; discriminate|].
    destruct (Z.eqb_spec e 85) as [E|]; [subst e; discriminate|].
    rewrite He. reflexivity.
  - unfold hex_value in Hv.
    destruct Hform as [(-> & Hlen & _)|(-> & Hlen)];
      change (py "\u" ++ h) with (0x5c :: 117 :: h);
      change (py "\U" ++ h) with (0x5c :: 85 :: h);
      cbn [app key_scan key_next]; simpl (0x5c =? 0x22);
      simpl (0x5c =? 0x5c); cbv iota; cbn [key_next];
      simpl (117 =? 117); simpl (85 =? 117);
      simpl (85 =? 85); cbv iota.
    + rewrite (key_scan_hex h 3 0); [|unfold len in Hlen; lia | exact Hhex].
      cbv zeta. rewrite Hv, Hc. reflexivity.
    + rewrite (key_scan_hex h 7 0); [|unfold len in Hlen; lia | exact Hhex].
      cbv zeta. rewrite Hv, Hc. reflexivity.
Qed.

Lemma key_scan_units s : forall units acc done rest,
  forallb is_scalar s = true -> Forall2 renders s units ->
  key_scan (KBas RNormal acc) done (concat units ++ rest)
  = key_scan (KBas RNormal (acc ++ s)) done rest.
Proof.
  induction s as [|c s IH]; intros units acc done rest Hs Hr;
    inversion Hr; subst.
  - rewrite app_nil_r. reflexivity.
  - simpl in Hs. apply andb_true_iff in Hs. destruct Hs as [Hc Hs].
    cbn [concat]. rewrite <- app_assoc.
    rewrite (key_scan_unit c _ _ _ _ Hc H1), (IH _ _ _ _ Hs H3).
    rewrite <- app_assoc. reflexivity.
Qed.

Lemma key_begin_next m c done :
  m = KStart \/ m = KDot -> is_wschar c = false ->
  key_next m c done = key_begin c done.
Proof. intros [->| ->] H; cbn [key_next]; [|rewrite H]; reflexivity. Qed.

Lemma key_scan_segment m done k out :
  m = KStart \/ m = KDot ->
  forallb is_scalar k = true -> simple_key_rendering k out ->
  exists m' done',
    key_scan m done out = Some (m', done')
    /\ key_closes m' done' (done ++ [k]).
Proof.
  intros Hm Hk [(-> & Hne & Hbare)|[(-> & Hlit)|(units & -> & Hunits)]].
  - destruct k as [|c k]; [congruence|].
    simpl in Hbare. apply andb_true_iff in Hbare. destruct Hbare as [Hc Hb].
    exists (KBare (c :: k)), done. split; [|right; eexists; eauto].
    cbn [key_scan]. rewrite key_begin_next; [|exact Hm|].
    + unfold key_begin. rewrite Hc.
      assert (H : c <> 0x22 /\ c <> 0x27)
        by (destruct (bare_char_cases c Hc) as [H|[H|[H|[H|H]]]]; lia).
      destruct H as [H1 H2]. apply Z.eqb_neq in H1, H2. rewrite H1, H2.
      apply (key_scan_bare k [c] done Hb).
    + unfold is_wschar.
      destruct (bare_char_cases c Hc) as [H|[H|[H|[H|H]]]];
        apply orb_false_iff; split; apply Z.eqb_neq; lia.
  - exists KEnd, (done ++ [k]). split; [|left; auto].
    cbn [key_scan]. rewrite key_begin_next; [|exact Hm | reflexivity].
    unfold key_begin. simpl (0x27 =? 0x22). simpl (0x27 =? 0x27). cbv iota.
    rewrite key_scan_app, (key_scan_lit k [] done Hlit).
    reflexivity.
  - exists KEnd, (done ++ [k]). split; [|left; auto].
    cbn [key_scan]. rewrite key_begin_next; [|exact Hm | reflexivity].
    unfold key_begin. simpl (0x22 =? 0x22). cbv iota.
    rewrite (key_scan_units k units [] done [0x22] Hk Hunits).
    reflexivity.
Qed.

Lemma key_scan_sep m done key ws1 ws2 :
  key_closes m done key ->
  forallb is_wschar ws1 = true -> forallb is_wschar ws2 = true ->
  key_scan m done (ws1 ++ 0x2e :: ws2) = Some (KDot, key).
Proof.
  intros Hclose H1 H2.
  assert (Hws : key_scan KWs key (ws1 ++ 0x2e :: ws2) = Some (KDot, key)).
  { rewrite key_scan_app, (key_scan_ws_ws ws1 key H1).
    cbn [key_scan key_next]. simpl (is_wschar 0x2e). cbv iota.
    simpl (0x2e =? 0x2e). cbv iota. apply key_scan_ws_dot, H2. }
  destruct ws1 as [|c ws1].
  - cbn [app key_scan].
    destruct Hclose as [[-> ->]|(k & -> & ->)]; cbn [key_next];
      simpl (is_bare_char 0x2e); simpl (is_wschar 0x2e);
      simpl (0x2e =? 0x2e); cbv iota; apply key_scan_ws_dot, H2.
  - simpl in H1. apply andb_true_iff in H1. destruct H1 as [Hc H1].
    cbn [app key_scan] in *. cbn [key_next] in Hws. rewrite Hc in Hws.
    destruct Hclose as [[-> ->]|(k & -> & ->)]; cbn [key_next].
    + rewrite Hc. exact Hws.
    + assert (Hb : is_bare_char c = false).
      { unfold is_wschar in Hc. apply orb_true_iff in Hc.
        destruct Hc as [Hc|Hc]; apply Z.eqb_eq in Hc; subst; reflexivity. }
      rewrite Hb, Hc. exact Hws.
Qed.

Lemma dot_sep_ws :
  returns dot_sep
    (fun d => exists ws1 ws2, d = ws1 ++ 0x2e :: ws2
                              /\ forallb is_wschar ws1 = true
                              /\ forallb is_wschar ws2 = true).
Proof.
  unfold dot_sep.
  eapply returns_bind; [apply gen_ws_returns|]. cbv beta. intros ws1 H1.
  eapply returns_bind; [apply gen_ws_returns|]. cbv beta. intros ws2 H2.
  apply returns_ret. exists ws1, ws2. auto.
Qed.

Lemma append_dot_sep_reads key_str key :
  key_text_reads key_str key ->
  returns (append_dot_sep key_str)
    (fun ks => exists m, key_scan KStart [] (concat ks) = Some (m, key)
                         /\ (m = KStart \/ m = KDot)).
Proof.
  intros [[-> ->]|(Hne & m & done & Hscan & Hclose)]; unfold append_dot_sep.
  - apply returns_ret. exists KStart. auto.
  - rewrite (proj2 (nonempty_true key_str) Hne).
    eapply returns_bind; [apply dot_sep_ws|].
    cbv beta. intros d (ws1 & ws2 & -> & H1 & H2). apply returns_ret.
    exists KDot. split; [|auto].
    rewrite concat_app. cbn [concat]. rewrite app_nil_r.
    rewrite key_scan_app, Hscan.
    exact (key_scan_sep m done key ws1 ws2 Hclose H1 H2).
Qed.

Lemma key_text_reads_snoc ks m key k s :
  key_scan KStart [] (concat ks) = Some (m, key) ->
  m = KStart \/ m = KDot ->
  forallb is_scalar k = true -> simple_key_rendering k s ->
  key_text_reads (ks ++ [s]) (key ++ [k]).
Proof.
  intros Hscan Hm Hk Hs. right. split; [destruct ks; discriminate|].
  destruct (key_scan_segment m key k s Hm Hk Hs) as (m' & d' & Hseg & Hcl).
  exists m', d'. split; [|exact Hcl].
  rewrite concat_app. cbn [concat]. rewrite app_nil_r.
  rewrite key_scan_app, Hscan. exact Hseg.
Qed.

Lemma key_text_reads_key ks key :
  key_text_reads ks key -> key <> [] -> read_key (concat ks) = Some key.
Proof.
  intros [[_ ->]|(_ & m & done & Hscan & Hclose)] Hne; [congruence|].
  unfold read_key. rewrite Hscan.
  destruct Hclose as [[-> ->]|(k & -> & ->)]; reflexivity.
Qed.

Lemma gen_simple_key_rendering :
  returns _gen_simple_key
    (fun r => simple_key_rendering (snd r) (fst r)
              /\ forallb is_scalar (snd r) = true).
Proof.
  unfold _gen_simple_key.
  eapply returns_bind; [apply returns_random|]. intros r _.
  destruct (Qltb r PROB_QUOTED_KEY);
    [destruct (Qltb r (half * PROB_QUOTED_KEY))|].
  - eapply returns_weaken; [apply gen_basic_string_units|].
    intros [doc val] (units & Hdoc & Hr & Hs & _). cbn [fst snd] in *.
    split; [|exact Hs]. right. right. exists units. auto.
  - eapply returns_weaken; [apply gen_literal_string_chars|].
    intros [doc val] (Hdoc & Hs & _). cbn [fst snd] in *.
    split; [right; left; auto|].
    revert Hs. apply forallb_impl, literal_scalar.
  - eapply returns_weaken; [apply gen_unquoted_key_chars|].
    intros [doc val] (Hdoc & Hs & Hl). cbn [fst snd] in *. subst doc.
    split.
    + left. split; [reflexivity|]. split; [|exact Hs].
      intros ->. unfold len in Hl. simpl in Hl. lia.
    + revert Hs. apply forallb_impl, bare_scalar.
Qed.

Lemma format_key_text key :
  Forall (fun k => forallb is_scalar k = true) key ->
  returns (_format_key key)
    (fun s => exists ks, s = concat ks /\ key_text_reads ks key).
Proof.
  intros Hkey. unfold _format_key.
  eapply returns_bind.
  - apply (returns_for_each_indexed
             (fun done ks => key_text_reads ks done)
             (fun k => forallb is_scalar k = true) _ key [] []).
    + left. auto.
    + exact Hkey.
    + intros k done ks Hk Hks.
      eapply returns_bind; [apply append_dot_sep_reads, Hks|].
      cbv beta. intros ks' (m & Hscan & Hm).
      eapply returns_bind; [apply format_simple_key_returns, Hk|].
      cbv beta. intros s Hs. apply returns_ret.
      exact (key_text_reads_snoc ks' m done k s Hscan Hm Hk Hs).
  - cbv beta. intros ks Hks. apply returns_ret. exists ks. auto.
Qed.

(** [_format_key] always returns, for a key with at least one segment, all
    segments strings of Unicode scalar values, a text that reads as that
    key: the renderings of the segments joined by dots, with white space
    around the dots only. *)
Theorem format_key_reads_back key rng :
  key <> [] ->
  Forall (fun k => forallb is_scalar k = true) key ->
  exists s rng', _format_key key rng = Ok (s, rng') /\ read_key s = Some key.
Proof.
  intros Hne Hkey.
  destruct (format_key_text key Hkey rng) as (s & rng' & E & ks & -> & Hks).
  exists (concat ks), rng'. split; [exact E|].
  apply key_text_reads_key; assumption.
Qed.

Lemma format_key_reads_back_witness :
  [py "a"; [0x0a]] <> []
  /\ Forall (fun k => forallb is_scalar k = true) [py "a"; [0x0a]]
  /\ exists s rng',
       _format_key [py "a"; [0x0a]] [2 ^ 52; 5; 5; 0; 0] = Ok (s, rng')
       /\ read_key s = Some [py "a"; [0x0a]].
Proof.
  assert (H1 : [py "a"; [0x0a]] <> []) by discriminate.
  assert (H2 : Forall (fun k => forallb is_scalar k = true) [py "a"; [0x0a]])
    by (repeat constructor).
  split; [exact H1|]. split; [exact H2|].
  exact (format_key_reads_back _ _ H1 H2).
Defined.

Lemma gen_dotted_key_text prefix :
  Forall (fun k => forallb is_scalar k = true) prefix ->
  returns (_gen_dotted_key prefix)
    (fun r => read_key (fst r) = Some (snd r)
              /\ exists fresh,
                   snd r = prefix ++ fresh
                   /\ (1 <= length fresh <= 3)%nat).
Proof.
  intros Hprefix. unfold _gen_dotted_key.
  eapply returns_bind.
  - apply (returns_for_each_indexed
             (fun done acc => key_text_reads (fst acc) done /\ snd acc = done)
             (fun k => forallb is_scalar k = true) _ prefix [] ([], [])).
    + split; [left; auto | reflexivity].
    + exact Hprefix.
    + intros k done [ks key] Hk [Hks Hkey]. cbn [fst snd] in *. subst key.
      eapply returns_bind; [apply append_dot_sep_reads, Hks|].
      cbv beta. intros ks' (m & Hscan & Hm).
      eapply returns_bind; [apply format_simple_key_returns, Hk|].
      cbv beta. intros s Hs. apply returns_ret. cbn [fst snd].
      split; [|reflexivity].
      exact (key_text_reads_snoc ks' m done k s Hscan Hm Hk Hs).
  - cbv beta. cbn [app]. intros [ks key] [Hks Hkey]. cbn [fst snd] in *.
    subst key.
    eapply returns_bind;
      [apply returns_randint; unfold MAX_DOTTED_LEN; lia|].
    cbv beta. intros n Hn. unfold MAX_DOTTED_LEN in Hn.
    eapply returns_bind.
    + unfold for_range.
      apply (returns_for_range_from_counted
               (fun count acc =>
                  key_text_reads (fst acc) (snd acc)
                  /\ exists fresh,
                       snd acc = prefix ++ fresh /\ length fresh = count)
               _ (Z.to_nat n) 0 O (ks, prefix)).
      * cbn [fst snd]. split; [exact Hks|]. exists []. rewrite app_nil_r.
        auto.
      * intros j count [ks1 key1] [Hks1 (fresh & Hkey1 & Hcount)].
        cbn [fst snd] in *.
        eapply returns_bind; [apply append_dot_sep_reads, Hks1|].
        cbv beta. intros ks' (m & Hscan & Hm).
        eapply returns_bind; [apply gen_simple_key_rendering|].
        cbv beta. intros [s k] [Hs Hk]. cbn [fst snd] in *.
        apply returns_ret. cbn [fst snd]. split.
        -- exact (key_text_reads_snoc ks' m key1 k s Hscan Hm Hk Hs).
        -- exists (fresh ++ [k]). rewrite Hkey1, <- app_assoc.
           split; [reflexivity|]. rewrite length_app. simpl. lia.
    + cbv beta. intros [ks2 key2] [Hks2 (fresh & Hkey2 & Hcount)].
      cbn [fst snd] in *. apply returns_ret. cbn [fst snd].
      split.
      * apply key_text_reads_key; [exact Hks2|].
        rewrite Hkey2. intros H. apply app_eq_nil in H.
        destruct H as [_ ->]. simpl in Hcount. lia.
      * exists fresh. split; [exact Hkey2 | lia].
Qed.

(** [_gen_dotted_key(prefix)], for a prefix whose segments are strings of
    Unicode scalar values, always returns a key made of the prefix and
    between 1 and [MAX_DOTTED_LEN] new segments, with a text that reads as
    that key. *)
Theorem gen_dotted_key_reads_back prefix rng :
  Forall (fun k => forallb is_scalar k = true) prefix ->
  exists key_str key rng',
    _gen_dotted_key prefix rng = Ok ((key_str, key), rng')
    /\ read_key key_str = Some key
    /\ exists fresh, key = prefix ++ fresh
                     /\ 1 <= len fresh <= MAX_DOTTED_LEN.
Proof.
  intros Hprefix.
  destruct (gen_dotted_key_text prefix Hprefix rng)
    as ([key_str key] & rng' & E & Hr & fresh & Hk & Hl).
  cbn [fst snd] in *.
  exists key_str, key, rng'. split; [exact E|]. split; [exact Hr|].
  exists fresh. split; [exact Hk|]. unfold MAX_DOTTED_LEN, len. lia.
Qed.

Lemma gen_dotted_key_reads_back_witness :
  Forall (fun k => forallb is_scalar k = true) [py "a"]
  /\ exists key_str key rng',
       _gen_dotted_key [py "a"] [2 ^ 52; 0; 0; 0; 2 ^ 52; 1; 0; 0]
       = Ok ((key_str, key), rng')
       /\ read_key key_str = Some key
       /\ exists fresh, key = [py "a"] ++ fresh
                        /\ 1 <= len fresh <= MAX_DOTTED_LEN.
Proof.
  assert (H : Forall (fun k => forallb is_scalar k = true) [py "a"])
    by (repeat constructor).
  split; [exact H|].
  exact (gen_dotted_key_reads_back [py "a"] _ H).
Defined.

Lemma gen_key_search_text fuel prefix exclude_prefix exclude_key :
  Forall (fun k => forallb is_scalar k = true) prefix ->
  yields (gen_key_search fuel prefix exclude_prefix exclude_key)
    (fun r => read_key (fst r) = Some (snd r)).
Proof.
  intros Hprefix. induction fuel as [|fuel IH]; [apply yields_diverge|].
  cbn [gen_key_search].
  eapply yields_bind; [apply returns_yields, gen_dotted_key_text, Hprefix|].
  cbv beta. intros [key_str key] [Hr _]. cbn [fst snd] in Hr.
  destruct (key_in key exclude_key); [exact IH|].
  destruct (has_excluded_prefix key exclude_prefix); [exact IH|].
  apply yields_ret. exact Hr.
Qed.

Lemma nth_Forall {A} (P : A -> Prop) l n d :
  Forall P l -> P d -> P (nth n l d).
Proof.
  intros H Hd. revert n.
  induction H as [|x l Hx Hl IH]; intros [|n]; cbn [nth]; auto.
Qed.

Lemma gen_key_text fuel exclude_prefix exclude_key reuse_prefix reuse_key :
  Forall (Forall (fun k => forallb is_scalar k = true)) reuse_prefix ->
  Forall (Forall (fun k => forallb is_scalar k = true)) reuse_key ->
  ~ In [] reuse_key ->
  yields (_gen_key fuel exclude_prefix exclude_key reuse_prefix reuse_key)
    (fun r => read_key (fst r) = Some (snd r)).
Proof.
  intros Hrp Hrk Hne. unfold _gen_key.
  eapply yields_bind
    with (P := fun b : bool =>
                 b = true -> 0 <= len reuse_prefix + len reuse_key - 1).
  { unfold consider_reuse.
    destruct reuse_prefix as [|p rp]; [destruct reuse_key as [|k rk]|];
      cbn [nonempty orb].
    - apply yields_ret. discriminate.
    - eapply yields_bind; [apply returns_yields, returns_random|].
      intros r _. apply yields_ret. intros _. unfold len. cbn [length]. lia.
    - eapply yields_bind; [apply returns_yields, returns_random|].
      intros r _. apply yields_ret. intros _. unfold len. cbn [length]. lia. }
  cbv beta. intros reuse Hreuse. destruct reuse.
  - specialize (Hreuse eq_refl).
    eapply yields_bind; [apply returns_yields, returns_randint; lia|].
    cbv beta. intros r Hr.
    destruct (Z.ltb_spec r (len reuse_key)) as [Hlt|Hge].
    + assert (Hin : In (nth (Z.to_nat r) reuse_key []) reuse_key).
      { apply nth_In. unfold len in Hlt. lia. }
      eapply yields_bind.
      { apply returns_yields, format_key_text.
        rewrite Forall_forall in Hrk. apply Hrk, Hin. }
      cbv beta. intros s (ks & -> & Hks). apply yields_ret. cbn [fst snd].
      apply key_text_reads_key; [exact Hks|].
      intros E. apply Hne. rewrite <- E. exact Hin.
    + apply gen_key_search_text.
      apply nth_Forall; [exact Hrp | constructor].
  - apply gen_key_search_text. constructor.
Qed.

(** The text that [_gen_key] returns reads as the key returned with it,
    when the keys and prefixes offered for reuse have segments of Unicode
    scalar values and no key offered for reuse is empty. *)
Theorem gen_key_reads_back
  fuel exclude_prefix exclude_key reuse_prefix reuse_key rng key_str key rng' :
  Forall (Forall (fun k => forallb is_scalar k = true)) reuse_prefix ->
  Forall (Forall (fun k => forallb is_scalar k = true)) reuse_key ->
  ~ In [] reuse_key ->
  _gen_key fuel exclude_prefix exclude_key reuse_prefix reuse_key rng
  = Ok ((key_str, key), rng') ->
  read_key key_str = Some key.
Proof.
  intros Hrp Hrk Hne E.
  exact (yields_Ok _ _ _ _ _
           (gen_key_text fuel exclude_prefix exclude_key reuse_prefix
              reuse_key Hrp Hrk Hne) E).
Qed.

Lemma gen_key_reads_back_witness :
  Forall (Forall (fun k => forallb is_scalar k = true)) [[py "a"]]
  /\ Forall (Forall (fun k => forallb is_scalar k = true)) []
  /\ ~ In [] (@nil (list (list Z)))
  /\ _gen_key 1 [] [] [[py "a"]] []
       [0; 0; 2 ^ 52; 2;
        0; 0; 2 ^ 52; 1; 0; 0;
        0; 0; 2 ^ 52; 1; 0; 0;
        0; 0; 2 ^ 52; 1; 0; 0]
     = Ok ((py "a.0.0.0", [py "a"; py "0"; py "0"; py "0"]), [])
  /\ read_key (py "a.0.0.0") = Some [py "a"; py "0"; py "0"; py "0"].
Proof.
  assert (H1 : Forall (Forall (fun k => forallb is_scalar k = true))
                 [[py "a"]]) by (repeat constructor).
  assert (H2 : Forall (Forall (fun k => forallb is_scalar k = true)) [])
    by constructor.
  assert (H3 : ~ In [] (@nil (list (list Z)))) by (intros []).
  assert (E : _gen_key 1 [] [] [[py "a"]] []
                [0; 0; 2 ^ 52; 2;
                 0; 0; 2 ^ 52; 1; 0; 0;
                 0; 0; 2 ^ 52; 1; 0; 0;
                 0; 0; 2 ^ 52; 1; 0; 0]
              = Ok ((py "a.0.0.0", [py "a"; py "0"; py "0"; py "0"]), []))
    by (vm_compute; reflexivity).
  split; [exact H1|]. split; [exact H2|]. split; [exact H3|].
  split; [exact E|].
  exact (gen_key_reads_back _ _ _ _ _ _ _ _ _ H1 H2 H3 E).
Defined.

(** ** Number texts *)

Lemma firstn_slice (s : pystr) p i :
  0 <= p <= i ->
  firstn (Z.to_nat p) s ++ slice s p i = firstn (Z.to_nat i) s.
Proof.
  intros H. unfold slice.
  rewrite <- (firstn_skipn (Z.to_nat p) (firstn (Z.to_nat i) s)).
  rewrite firstn_firstn, skipn_firstn_comm.
  replace (Nat.min (Z.to_nat p) (Z.to_nat i)) with (Z.to_nat p) by lia.
  replace (Z.to_nat i - Z.to_nat p)%nat with (Z.to_nat (i - p)) by lia.
  reflexivity.
Qed.

(** [_splice_number] cuts its argument into non-empty pieces and joins them
    with underscores. *)
Lemma splice_number_pieces s :
  s <> [] ->
  returns (_splice_number s)
    (fun out => exists parts,
                  out = str_join (py "_") parts
                  /\ concat parts = s
                  /\ Forall (fun x => x <> []) parts).
Proof.
  intros Hne. unfold _splice_number.
  assert (Hlen : (0 < length s)%nat) by (destruct s; simpl; [congruence | lia]).
  eapply returns_bind.
  - apply (returns_for_range_from_indexed
             (fun j (acc : list pystr * Z) =>
                0 <= snd acc < j
                /\ concat (fst acc) = firstn (Z.to_nat (snd acc)) s
                /\ Forall (fun x => x <> []) (fst acc))).
    + cbn [fst snd]. split; [lia|]. split; [reflexivity | constructor].
    + intros j [parts p] Hj (Hp & Hcat & Hparts). cbn [fst snd] in *.
      eapply returns_bind; [apply returns_random|]. intros r _.
      destruct (Qltb r (dbl (1 # 10))); apply returns_ret; cbn [fst snd].
      * split; [lia|]. split.
        -- rewrite concat_app, Hcat. cbn [concat]. rewrite app_nil_r.
           apply firstn_slice. lia.
        -- apply Forall_app. split; [exact Hparts|]. constructor; [|constructor].
           unfold slice. apply nonempty_length.
           rewrite length_firstn, length_skipn. lia.
      * split; [lia|]. split; assumption.
  - cbv beta. intros [parts p] (Hp & Hcat & Hparts). cbn [fst snd] in *.
    apply returns_ret. exists (parts ++ [skipn (Z.to_nat p) s]).
    split; [reflexivity|]. split.
    + rewrite concat_app, Hcat. cbn [concat]. rewrite app_nil_r.
      apply firstn_skipn.
    + apply Forall_app. split; [exact Hparts|]. constructor; [|constructor].
      apply nonempty_length. rewrite length_skipn. lia.
Qed.

Lemma strip_underscores_app s t :
  strip_underscores (s ++ t) = strip_underscores s ++ strip_underscores t.
Proof. apply filter_app. Qed.

Lemma strip_underscores_join parts :
  strip_underscores (str_join (py "_") parts) = strip_underscores (concat parts).
Proof.
  induction parts as [|x parts IH]; [reflexivity|].
  destruct parts as [|y parts].
  - cbn [str_join concat]. rewrite app_nil_r. reflexivity.
  - change (str_join (py "_") (x :: y :: parts))
      with (x ++ py "_" ++ str_join (py "_") (y :: parts)).
    cbn [concat] in *. rewrite !strip_underscores_app, IH.
    rewrite strip_underscores_app. reflexivity.
Qed.

Lemma strip_underscores_digits s :
  forallb is_hex_digit s = true -> strip_underscores s = s.
Proof.
  induction s as [|c s IH]; [reflexivity|]. cbn [forallb].
  intros H. apply andb_true_iff in H. destruct H as [Hc Hs].
  unfold strip_underscores in *. cbn [filter].
  destruct (Z.eqb_spec c 0x5f) as [E|_]; [subst c; discriminate|].
  cbn [negb]. rewrite IH by exact Hs. reflexivity.
Qed.

(** The first character of a joined text is the first character of its
    pieces. *)
Lemma str_join_head sep parts c :
  Forall (fun x : pystr => x <> []) parts ->
  starts_with [c] (str_join sep parts) = starts_with [c] (concat parts).
Proof.
  intros H. destruct H as [|x parts Hx Hparts]; [reflexivity|].
  destruct x as [|a x]; [congruence|].
  destruct parts; reflexivity.
Qed.

Lemma str_join_single sep parts c :
  Forall (fun x : pystr => x <> []) parts ->
  concat parts = [c] -> str_join sep parts = [c].
Proof.
  intros H E. destruct H as [|x parts Hx Hparts]; [discriminate|].
  destruct x as [|a x]; [congruence|]. cbn [concat app] in E.
  injection E as -> E. apply app_eq_nil in E. destruct E as [-> E].
  destruct Hparts as [|y parts Hy _]; [reflexivity|].
  destruct y; [congruence | discriminate].
Qed.

Lemma digits_value_snoc base s c :
  digits_value base (s ++ [c])
  = match digits_value base s, hex_digit_val c with
    | Some a, Some d => if d <? base then Some (base * a + d) else None
    | _, _ => None
    end.
Proof. unfold digits_value. rewrite fold_left_app. reflexivity. Qed.

Lemma digit_char_val d :
  0 <= d <= 9 -> hex_digit_val (48 + d) = Some d.
Proof.
  intros H. unfold hex_digit_val, between.
  destruct (Z.leb_spec 48 (48 + d)); [|lia].
  destruct (Z.leb_spec (48 + d) 57); [|lia].
  cbn [andb]. f_equal. lia.
Qed.

(** The digits that [digits_loop] produces denote its argument, and the
    first of them is zero for the number zero only. *)
Lemma digits_loop_value base : forall fuel v acc,
  2 <= base <= 10 ->
  0 <= v < base ^ Z.of_nat (S fuel) ->
  exists c d, digits_loop (S fuel) base v acc = (c :: d) ++ acc
              /\ forallb is_hex_digit (c :: d) = true
              /\ digits_value base (c :: d) = Some v
              /\ (c = 48 -> v = 0 /\ d = []).
Proof.
  intros fuel v acc Hbase. revert v acc.
  induction fuel as [|fuel IH]; intros v acc Hv.
  - assert (Hsmall : v < base) by (rewrite Z.pow_1_r in Hv; lia).
    cbn [digits_loop]. rewrite Z.div_small, Z.mod_small by lia.
    cbn [Z.eqb]. exists (48 + v), []. split; [reflexivity|].
    unfold digits_value. cbn [forallb fold_left]. unfold is_hex_digit.
    rewrite digit_char_val by lia.
    destruct (Z.ltb_spec v base); [|lia].
    repeat split; [f_equal; lia | lia].
  - remember (S fuel) as f eqn:Ef.
    cbn [digits_loop].
    pose proof (Z.mod_pos_bound v base ltac:(lia)) as Hmod.
    pose proof (Z.div_mod v base ltac:(lia)) as Hdm.
    destruct (Z.eqb_spec (v / base) 0) as [E0|Hnz].
    + exists (48 + v mod base), []. split; [reflexivity|].
      unfold digits_value. cbn [forallb fold_left]. unfold is_hex_digit.
      rewrite digit_char_val by lia.
      destruct (Z.ltb_spec (v mod base) base); [|lia].
      repeat split; [f_equal; lia | lia].
    + assert (Hq : 0 <= v / base < base ^ Z.of_nat f).
      { split; [apply Z.div_pos; lia|].
        apply Z.div_lt_upper_bound; [lia|].
        replace (Z.of_nat (S f)) with (Z.succ (Z.of_nat f)) in Hv by lia.
        rewrite Z.pow_succ_r in Hv by lia. lia. }
      subst f.
      destruct (IH (v / base) ((48 + v mod base) :: acc) Hq)
        as (c & d & E & Hhex & Hval & Hlead).
      exists c, (d ++ [48 + v mod base]). rewrite E. split.
      { cbn [app]. rewrite <- app_assoc. reflexivity. }
      split.
      { change (c :: d ++ [48 + v mod base])
          with ((c :: d) ++ [48 + v mod base]).
        rewrite forallb_app, Hhex. cbn [forallb]. unfold is_hex_digit.
        rewrite digit_char_val by lia. reflexivity. }
      split.
      { change (c :: d ++ [48 + v mod base])
          with ((c :: d) ++ [48 + v mod base]).
        rewrite digits_value_snoc, Hval, digit_char_val by lia.
        destruct (Z.ltb_spec (v mod base) base); [|lia]. f_equal. lia. }
      intros Hc. destruct (Hlead Hc) as [Hz _]. congruence.
Qed.

Lemma format_base_value base v :
  2 <= base <= 10 -> 0 <= v ->
  exists c d, format_base base v = c :: d
              /\ forallb is_hex_digit (c :: d) = true
              /\ digits_value base (c :: d) = Some v
              /\ (c = 48 -> v = 0 /\ d = []).
Proof.
  intros Hbase Hv. unfold format_base.
  destruct (digits_loop_value base (Z.to_nat (Z.log2 v)) v [] Hbase)
    as (c & d & E & H).
  - split; [exact Hv|].
    replace (Z.of_nat (S (Z.to_nat (Z.log2 v)))) with (Z.succ (Z.log2 v))
      by (pose proof (Z.log2_nonneg v); lia).
    destruct (Z.eq_dec v 0) as [->|Hnz].
    + cbn. lia.
    + pose proof (Z.log2_spec v ltac:(lia)) as [_ Hlt].
      eapply Z.lt_le_trans; [exact Hlt|].
      apply Z.pow_le_mono_l. lia.
  - exists c, d. rewrite E, app_nil_r. exact (conj eq_refl H).
Qed.

Lemma hex_digit_val_lt c d : hex_digit_val c = Some d -> 0 <= d < 16.
Proof.
  unfold hex_digit_val, between.
  destruct (Z.leb_spec 48 c), (Z.leb_spec c 57), (Z.leb_spec 97 c),
    (Z.leb_spec c 102), (Z.leb_spec 65 c), (Z.leb_spec c 70);
    cbn [andb]; intros E; inversion E; lia.
Qed.

Lemma digits_value_hex h :
  forallb is_hex_digit h = true -> digits_value 16 h = Some (hex_value h).
Proof.
  induction h as [|c h IH] using rev_ind; [reflexivity|].
  rewrite forallb_app. cbn [forallb]. intros H.
  apply andb_true_iff in H. destruct H as [Hh Hc].
  rewrite andb_true_r in Hc.
  rewrite digits_value_snoc, IH by exact Hh.
  unfold hex_value. rewrite fold_left_app. cbn [fold_left].
  unfold is_hex_digit in Hc.
  destruct (hex_digit_val c) as [d|] eqn:Ed; [|discriminate].
  pose proof (hex_digit_val_lt _ _ Ed).
  destruct (Z.ltb_spec d 16); [reflexivity | lia].
Qed.

Lemma digits_value_zeros base n s :
  0 < base ->
  digits_value base (str_repeat n (py "0") ++ s) = digits_value base s.
Proof.
  intros Hbase. unfold digits_value, str_repeat. rewrite fold_left_app.
  f_equal. induction (Z.to_nat n) as [|k IH]; [reflexivity|].
  cbn [repeat concat]. rewrite fold_left_app.
  change (fold_left _ (py "0") (Some 0)) with
    (if 0 <? base then Some (base * 0 + 0) else None).
  destruct (Z.ltb_spec 0 base); [|lia].
  rewrite Z.mul_0_r. exact IH.
Qed.

Lemma splice_number_spliced s :
  is_digits s -> returns (_splice_number s) (spliced s).
Proof.
  intros Hs. pose proof Hs as [Hne Hhex].
  eapply returns_weaken; [apply (splice_number_pieces s Hne)|].
  intros out (parts & -> & Hcat & Hall). unfold spliced.
  assert (Hparts : Forall is_digits parts).
  { subst s. clear Hne Hs. induction Hall as [|x parts Hx _ IH]; [constructor|].
    cbn [concat] in Hhex. rewrite forallb_app in Hhex.
    apply andb_true_iff in Hhex. destruct Hhex as [H1 H2].
    constructor; [split; assumption | apply IH; exact H2]. }
  split.
  { apply digit_run_join; [|exact Hparts]. intros ->. apply Hne.
    symmetry. exact Hcat. }
  split.
  { rewrite strip_underscores_join, Hcat.
    apply strip_underscores_digits, Hhex. }
  split.
  { intros c. rewrite <- Hcat. apply str_join_head, Hall. }
  intros c E. apply str_join_single; [exact Hall | congruence].
Qed.

Lemma starts_with_head c (s : pystr) :
  starts_with [c] s = true -> exists s', s = c :: s'.
Proof.
  destruct s as [|x s]; [discriminate|]. cbn [starts_with].
  rewrite andb_true_r. intros E. apply Z.eqb_eq in E. subst x. eauto.
Qed.

(** A spliced decimal number reads back: zeros, if any are allowed, then
    the digits of [v]. *)
Lemma read_decimal_spliced zero_prefixable k v out :
  0 <= v ->
  (zero_prefixable = false -> k <= 0) ->
  spliced (str_repeat k (py "0") ++ str_int v) out ->
  read_decimal zero_prefixable out = Some v
  /\ exists c out', out = c :: out' /\ is_hex_digit c = true.
Proof.
  intros Hv Hk (Hrun & Hstrip & Hhead & Hone).
  unfold str_int in *. destruct (Z.ltb_spec v 0); [lia|].
  destruct (format_base_value 10 v ltac:(lia) Hv)
    as (c & d & E & Hhex & Hval & Hlead).
  rewrite E in *.
  assert (Hread : read_digits 10 out = Some v).
  { unfold read_digits. rewrite Hrun, Hstrip.
    rewrite digits_value_zeros by lia. exact Hval. }
  assert (Hfirst : exists c' out', out = c' :: out' /\ is_hex_digit c' = true).
  { assert (Hs : exists c0 rest,
               str_repeat k (py "0") ++ c :: d = c0 :: rest
               /\ is_hex_digit c0 = true).
    { unfold str_repeat. destruct (Z.to_nat k) as [|n].
      - exists c, d. split; [reflexivity|].
        cbn [forallb] in Hhex. apply andb_true_iff in Hhex. apply Hhex.
      - exists 48, (concat (repeat (py "0") n) ++ c :: d).
        split; reflexivity. }
    destruct Hs as (c0 & rest & Es & Hc0).
    specialize (Hhead c0). rewrite Es in Hhead. cbn [starts_with] in Hhead.
    rewrite Z.eqb_refl in Hhead.
    apply starts_with_head in Hhead. destruct Hhead as [out' ->].
    exists c0, out'. split; [reflexivity | exact Hc0]. }
  split; [|exact Hfirst].
  unfold read_decimal. destruct zero_prefixable; [exact Hread|].
  cbn [negb andb].
  assert (Ek : str_repeat k (py "0") = []).
  { unfold str_repeat. replace (Z.to_nat k) with O by (specialize (Hk eq_refl); lia).
    reflexivity. }
  rewrite Ek in *. cbn [app] in *.
  destruct (starts_with [48] out) eqn:E48; [|exact Hread].
  rewrite Hhead in E48. cbn [starts_with] in E48. rewrite andb_true_r in E48.
  apply Z.eqb_eq in E48. symmetry in E48. destruct (Hlead E48) as [-> ->].
  rewrite (Hone 48) by congruence. reflexivity.
Qed.

Lemma hex_digit_not_sign c :
  is_hex_digit c = true -> (c =? 0x2b) = false /\ (c =? 0x2d) = false.
Proof.
  unfold is_hex_digit, hex_digit_val, between.
  destruct (Z.eqb_spec c 0x2b) as [->|]; [discriminate|].
  destruct (Z.eqb_spec c 0x2d) as [->|]; [discriminate|]. auto.
Qed.

Lemma read_signed_sign zero_prefixable out v :
  read_decimal zero_prefixable out = Some v ->
  (exists c out', out = c :: out' /\ is_hex_digit c = true) ->
  read_signed zero_prefixable out = Some v
  /\ read_signed zero_prefixable (py "+" ++ out) = Some v
  /\ read_signed zero_prefixable (py "-" ++ out) = Some (- v).
Proof.
  intros Hread (c & out' & -> & Hc).
  destruct (hex_digit_not_sign c Hc) as [E1 E2].
  split; [|split].
  - cbn [read_signed]. rewrite E1, E2. exact Hread.
  - cbn. exact Hread.
  - cbn. rewrite Hread. reflexivity.
Qed.

(** A decimal number without leading zeros does not begin like a number
    in another base. *)
Lemma read_decimal_no_base_prefix out v x :
  read_decimal false out = Some v ->
  (exists c out', out = c :: out' /\ is_hex_digit c = true) ->
  starts_with [48; x] out = false.
Proof.
  intros Hread (c & out' & -> & Hc). cbn [starts_with].
  destruct (Z.eqb_spec 48 c) as [<-|]; [|reflexivity].
  destruct out' as [|y out']; [reflexivity|].
  unfold read_decimal in Hread. cbn [negb andb starts_with] in Hread.
  replace (1 <? len (48 :: y :: out')) with true in Hread.
  - discriminate.
  - symmetry. apply Z.ltb_lt. unfold len. cbn [length]. lia.
Qed.

Lemma read_digits_spliced base n s out v :
  0 < base ->
  digits_value base s = Some v ->
  spliced (str_repeat n (py "0") ++ s) out ->
  read_digits base out = Some v.
Proof.
  intros Hbase Hval (Hrun & Hstrip & _). unfold read_digits.
  rewrite Hrun, Hstrip, digits_value_zeros by exact Hbase. exact Hval.
Qed.

Lemma read_integer_decimal out v :
  read_decimal false out = Some v ->
  (exists c out', out = c :: out' /\ is_hex_digit c = true) ->
  read_integer out = Some v
  /\ read_integer (py "+" ++ out) = Some v
  /\ read_integer (py "-" ++ out) = Some (- v).
Proof.
  intros Hread Hfirst.
  destruct (read_signed_sign false out v Hread Hfirst) as (H0 & H1 & H2).
  split; [|split; [exact H1 | exact H2]].
  unfold read_integer.
  change (py "0x") with [48; 120]. change (py "0o") with [48; 111].
  change (py "0b") with [48; 98].
  rewrite !(read_decimal_no_base_prefix out v) by assumption. exact H0.
Qed.

(** The text of an integer reads back as its value. *)
Lemma gen_integer_from_reads val :
  0 <= val ->
  returns (gen_integer_from val)
    (fun r => read_integer (fst r) = Some (snd r)).
Proof.
  intros Hval. unfold gen_integer_from.
  eapply returns_bind; [apply returns_choice; discriminate|].
  cbv beta. intros [[[prefix fmtfunc] add_zeros] sign] Hin.
  assert (Hdec : forall (sg : pystr) (w : Z),
            returns (s <- ret (str_int val) ;; s <- ret s ;;
                     s <- _splice_number s ;; ret (sg ++ s, w))
              (fun r => exists out, r = (sg ++ out, w)
                          /\ read_decimal false out = Some val
                          /\ exists c out', out = c :: out'
                                            /\ is_hex_digit c = true)).
  { intros sg w.
    eapply returns_bind with (P := eq (str_int val));
      [apply returns_ret; reflexivity|].
    cbv beta. intros s <-.
    eapply returns_bind with (P := eq (str_int val));
      [apply returns_ret; reflexivity|].
    cbv beta. intros s <-.
    eapply returns_bind;
      [apply splice_number_spliced, str_int_digits, Hval|].
    cbv beta. intros out Hout. apply returns_ret. exists out.
    split; [reflexivity|].
    apply (read_decimal_spliced false 0 val out Hval); [lia | exact Hout]. }
  unfold integer_formats in Hin. cbn [In] in Hin.
  destruct Hin as [Hin|[Hin|[Hin|[Hin|[Hin|[Hin|[]]]]]]];
    inversion Hin; subst; clear Hin.
  - eapply returns_weaken; [apply (Hdec [])|].
    intros r (out & -> & Hread & Hfirst). cbn [fst snd app].
    rewrite Z.mul_1_l. apply (read_integer_decimal out val Hread Hfirst).
  - eapply returns_weaken; [apply (Hdec (py "+"))|].
    intros r (out & -> & Hread & Hfirst). cbn [fst snd].
    rewrite Z.mul_1_l. apply (read_integer_decimal out val Hread Hfirst).
  - eapply returns_weaken; [apply (Hdec (py "-"))|].
    intros r (out & -> & Hread & Hfirst). cbn [fst snd].
    replace (-1 * val) with (- val) by lia.
    apply (read_integer_decimal out val Hread Hfirst).
  - clear Hdec.
    eapply returns_bind; [apply rand_format_hex_returns, Hval|].
    cbv beta. intros h (Hh & Hv & Hmin & _).
    assert (Hd : is_digits h).
    { split; [|exact Hh]. intros ->. unfold len in Hmin. simpl in Hmin. lia. }
    eapply returns_bind with
      (P := fun s0 => exists k, s0 = str_repeat k (py "0") ++ h).
    { eapply returns_bind; [apply returns_randint; lia|]. intros k _.
      apply returns_ret. exists k. reflexivity. }
    cbv beta. intros s0 (k & ->).
    eapply returns_bind; [apply splice_number_spliced, zeros_digits, Hd|].
    cbv beta. intros out Hout. apply returns_ret. cbn [fst snd].
    rewrite Z.mul_1_l.
    change (read_integer (py "0x" ++ out)) with (read_digits 16 out).
    apply (read_digits_spliced 16 k h out val); [lia | | exact Hout].
    rewrite digits_value_hex by exact Hh. congruence.
  - clear Hdec.
    destruct (format_base_value 8 val ltac:(lia) Hval)
      as (c & d & E & Hhex & Hv & _).
    eapply returns_bind with (P := eq (format_base 8 val));
      [apply returns_ret; reflexivity|].
    cbv beta. intros s <-. rewrite E.
    eapply returns_bind with
      (P := fun s0 => exists k, s0 = str_repeat k (py "0") ++ c :: d).
    { eapply returns_bind; [apply returns_randint; lia|]. intros k _.
      apply returns_ret. exists k. reflexivity. }
    cbv beta. intros s0 (k & ->).
    eapply returns_bind.
    { apply splice_number_spliced, zeros_digits.
      split; [discriminate | exact Hhex]. }
    cbv beta. intros out Hout. apply returns_ret. cbn [fst snd].
    rewrite Z.mul_1_l.
    change (read_integer (py "0o" ++ out)) with (read_digits 8 out).
    apply (read_digits_spliced 8 k (c :: d) out val); [lia | exact Hv | exact Hout].
  - clear Hdec.
    destruct (format_base_value 2 val ltac:(lia) Hval)
      as (c & d & E & Hhex & Hv & _).
    eapply returns_bind with (P := eq (format_base 2 val));
      [apply returns_ret; reflexivity|].
    cbv beta. intros s <-. rewrite E.
    eapply returns_bind with
      (P := fun s0 => exists k, s0 = str_repeat k (py "0") ++ c :: d).
    { eapply returns_bind; [apply returns_randint; lia|]. intros k _.
      apply returns_ret. exists k. reflexivity. }
    cbv beta. intros s0 (k & ->).
    eapply returns_bind.
    { apply splice_number_spliced, zeros_digits.
      split; [discriminate | exact Hhex]. }
    cbv beta. intros out Hout. apply returns_ret. cbn [fst snd].
    rewrite Z.mul_1_l.
    change (read_integer (py "0b" ++ out)) with (read_digits 2 out).
    apply (read_digits_spliced 2 k (c :: d) out val); [lia | exact Hv | exact Hout].
Qed.

Lemma gen_integer_reads :
  returns _gen_integer (fun r => read_integer (fst r) = Some (snd r)).
Proof.
  intros rng. unfold _gen_integer.
  destruct (next_raw rng) as [z rng1].
  exact (gen_integer_from_reads _ (Z.le_max_l 0 z) rng1).
Qed.

(** [_gen_integer] returns a text that reads, as a TOML integer, as the
    value returned with it: hexadecimal, octal or binary digits after
    their prefix, or a signed decimal number without leading zeros, in
    each case with the underscores between the digits left out. *)
Theorem gen_integer_reads_back rng :
  exists s v rng',
    _gen_integer rng = Ok ((s, v), rng') /\ read_integer s = Some v.
Proof.
  destruct (gen_integer_reads rng) as ([s v] & rng' & E & H).
  exists s, v, rng'. auto.
Qed.

Lemma gen_dec_int_reads max_val signed zero_prefixable :
  0 <= max_val ->
  returns (_gen_dec_int max_val signed zero_prefixable)
    (fun r => - max_val <= snd r <= max_val
              /\ (signed = false -> 0 <= snd r)
              /\ read_signed zero_prefixable (fst r) = Some (snd r)
              /\ (signed = false ->
                  read_decimal zero_prefixable (fst r) = Some (snd r))).
Proof.
  intros Hmax. unfold _gen_dec_int.
  eapply returns_bind; [apply returns_randint; lia|].
  cbv beta. intros v Hv.
  eapply returns_bind with
    (P := fun sg => if signed then In sg [ []; py "+"; py "-" ] else sg = []).
  { destruct signed; [|apply returns_ret; reflexivity].
    apply returns_choice. discriminate. }
  cbv beta. intros sign_str Hsign.
  eapply returns_bind with
    (P := fun prefix => exists n, prefix = str_repeat n (py "0")
                         /\ (zero_prefixable = false -> n <= 0)).
  { destruct zero_prefixable.
    - eapply returns_bind; [apply returns_randint; lia|]. intros n _.
      apply returns_ret. exists n. split; [reflexivity | discriminate].
    - apply returns_ret. exists 0. split; [reflexivity | lia]. }
  cbv beta. intros prefix (n & -> & Hn).
  eapply returns_bind.
  { apply splice_number_spliced, zeros_digits, str_int_digits. lia. }
  cbv beta. intros out Hout. apply returns_ret. cbn [fst snd].
  destruct (read_decimal_spliced zero_prefixable n v out ltac:(lia) Hn Hout)
    as [Hread Hfirst].
  destruct (read_signed_sign zero_prefixable out v Hread Hfirst)
    as (R0 & R1 & R2).
  assert (Hcases : sign_str = [] \/ sign_str = py "+" \/ sign_str = py "-").
  { destruct signed; [|left; exact Hsign].
    cbn [In] in Hsign. destruct Hsign as [<-|[<-|[<-|[]]]]; auto. }
  destruct Hcases as [-> | [-> | ->]].
  - change (pystr_eqb [] (py "-")) with false. cbv iota. cbn [app].
    repeat split; intros; try lia; assumption.
  - change (pystr_eqb (py "+") (py "-")) with false. cbv iota.
    destruct signed; [|discriminate].
    repeat split; intros; try lia; try assumption; discriminate.
  - change (pystr_eqb (py "-") (py "-")) with true. cbv iota.
    destruct signed; [|discriminate].
    repeat split; intros; try lia; try assumption; discriminate.
Qed.

(** [_gen_dec_int] returns a decimal text that reads as the value returned
    with it; the value lies within [max_val] of zero, is not negative
    unless [signed], and the text has no sign then; leading zeros occur
    only if [zero_prefixable]. *)
Theorem gen_dec_int_reads_back max_val signed zero_prefixable rng :
  0 <= max_val ->
  exists s v rng',
    _gen_dec_int max_val signed zero_prefixable rng = Ok ((s, v), rng')
    /\ - max_val <= v <= max_val
    /\ (signed = false -> 0 <= v)
    /\ read_signed zero_prefixable s = Some v
    /\ (signed = false -> read_decimal zero_prefixable s = Some v).
Proof.
  intros Hmax.
  destruct (gen_dec_int_reads max_val signed zero_prefixable Hmax rng)
    as ([s v] & rng' & E & H).
  exists s, v, rng'. auto.
Qed.

Lemma gen_dec_int_reads_back_witness :
  0 <= 100
  /\ exists s v rng',
       _gen_dec_int 100 true true [42; 2; 2; 0] = Ok ((s, v), rng')
       /\ - 100 <= v <= 100
       /\ (true = false -> 0 <= v)
       /\ read_signed true s = Some v
       /\ (true = false -> read_decimal true s = Some v).
Proof.
  split; [lia|]. apply (gen_dec_int_reads_back 100 true true). lia.
Defined.

(** Whatever [_splice_number] is given, it returns that text with
    underscores put in: taking them out gives the argument back, and a
    text of at most one character is returned as it is. *)
Theorem splice_number_strips s rng :
  exists out rng',
    _splice_number s rng = Ok (out, rng')
    /\ strip_underscores out = strip_underscores s
    /\ (len s <= 1 -> out = s).
Proof.
  destruct s as [|c s].
  - exists [], rng. repeat split; reflexivity.
  - destruct (splice_number_pieces (c :: s) ltac:(discriminate) rng)
      as (out & rng' & E & parts & -> & Hcat & Hall).
    exists (str_join (py "_") parts), rng'. split; [exact E|]. split.
    + rewrite strip_underscores_join, Hcat. reflexivity.
    + intros Hlen. destruct s; [|unfold len in Hlen; cbn [length] in Hlen; lia].
      apply str_join_single; assumption.
Qed.

Lemma splice_number_strips_witness :
  exists out rng',
    _splice_number (py "1234") [0; 2 ^ 52; 0] = Ok (out, rng')
    /\ strip_underscores out = strip_underscores (py "1234")
    /\ (len (py "1234") <= 1 -> out = py "1234").
Proof. apply (splice_number_strips (py "1234") [0; 2 ^ 52; 0]). Defined.

(** ** Reading a float *)

Lemma split_at_app p s c t :
  forallb (fun x => negb (p x)) s = true -> p c = true ->
  split_at p (s ++ c :: t) = (s, Some t).
Proof.
  intros Hs Hc. induction s as [|x s IH]; cbn [app split_at].
  - rewrite Hc. reflexivity.
  - cbn [forallb] in Hs. apply andb_true_iff in Hs. destruct Hs as [Hx Hs].
    apply negb_true_iff in Hx. rewrite Hx, IH by exact Hs. reflexivity.
Qed.

Lemma split_at_none p s :
  forallb (fun x => negb (p x)) s = true -> split_at p s = (s, None).
Proof.
  intros Hs. induction s as [|x s IH]; [reflexivity|].
  cbn [forallb] in Hs. apply andb_true_iff in Hs. destruct Hs as [Hx Hs].
  apply negb_true_iff in Hx. cbn [split_at]. rewrite Hx, IH by exact Hs.
  reflexivity.
Qed.

Lemma digits_value_none base s :
  fold_left (fun acc c =>
               match acc, hex_digit_val c with
               | Some a, Some d => if d <? base then Some (base * a + d)
                                   else None
               | _, _ => None
               end) s None = None.
Proof. induction s as [|c s IH]; [reflexivity | exact IH]. Qed.

Lemma digits_value_chars s : forall a v,
  fold_left (fun acc c =>
               match acc, hex_digit_val c with
               | Some a, Some d => if d <? 10 then Some (10 * a + d)
                                   else None
               | _, _ => None
               end) s (Some a) = Some v ->
  forallb (fun c => between 48 c 57) s = true.
Proof.
  induction s as [|c s IH]; intros a v H; [reflexivity|].
  cbn [fold_left forallb] in *.
  destruct (hex_digit_val c) as [d|] eqn:Ed;
    [|rewrite digits_value_none in H; discriminate].
  destruct (Z.ltb_spec d 10) as [Hd|Hd];
    [|rewrite digits_value_none in H; discriminate].
  rewrite (IH _ _ H), andb_true_r.
  unfold hex_digit_val in Ed.
  destruct (between 48 c 57); [reflexivity|].
  unfold between in Ed.
  destruct (Z.leb_spec 97 c), (Z.leb_spec c 102), (Z.leb_spec 65 c),
    (Z.leb_spec c 70); cbn [andb] in Ed; inversion Ed; lia.
Qed.

Lemma read_decimal_chars zp s v :
  read_decimal zp s = Some v -> forallb is_number_char s = true.
Proof.
  unfold read_decimal, read_digits, digits_value.
  destruct (negb zp && starts_with [48] s && (1 <? len s)); [discriminate|].
  destruct (digit_run false s); [|discriminate]. intros H.
  apply digits_value_chars in H. unfold strip_underscores in H.
  induction s as [|c s IH]; [reflexivity|].
  cbn [filter forallb] in *. unfold is_number_char at 1.
  destruct (Z.eqb_spec c 0x5f) as [->|Hc].
  - cbn [negb] in H. rewrite (IH H). reflexivity.
  - cbn [negb forallb] in H. apply andb_true_iff in H. destruct H as [H1 H2].
    rewrite H1, (IH H2). reflexivity.
Qed.

Lemma read_signed_chars zp s v :
  read_signed zp s = Some v -> forallb is_number_char s = true.
Proof.
  destruct s as [|c s]; [discriminate|]. cbn [read_signed].
  destruct (Z.eqb_spec c 0x2b) as [->|].
  { intros H. cbn [forallb]. rewrite (read_decimal_chars _ _ _ H). reflexivity. }
  destruct (Z.eqb_spec c 0x2d) as [->|].
  { destruct (read_decimal zp s) as [w|] eqn:E; [|discriminate]. intros _.
    cbn [forallb]. rewrite (read_decimal_chars _ _ _ E). reflexivity. }
  apply read_decimal_chars.
Qed.

Lemma number_chars_plain s :
  forallb is_number_char s = true ->
  forallb (fun x => negb (is_exp_letter x)) s = true
  /\ forallb (fun x => negb (0x2e =? x)) s = true.
Proof.
  induction s as [|c s IH]; [split; reflexivity|]. cbn [forallb].
  intros H. apply andb_true_iff in H. destruct H as [Hc Hs].
  destruct (IH Hs) as [-> ->]. rewrite !andb_true_r.
  unfold is_number_char, between in Hc. unfold is_exp_letter.
  destruct (Z.eqb_spec c 0x65) as [->|]; [discriminate|].
  destruct (Z.eqb_spec c 0x45) as [->|]; [discriminate|].
  destruct (Z.eqb_spec 0x2e c) as [<-|]; [discriminate|].
  split; reflexivity.
Qed.

Lemma is_some_true {A} (o : option A) : is_some o = true -> exists x, o = Some x.
Proof. destruct o; [eauto | discriminate]. Qed.

(** A text put together from an integer part, a fraction and an exponent
    is a float. *)
Lemma is_float_text_parts ip (fr ex : option pystr) e :
  is_some (read_signed false ip) = true ->
  match fr with Some f => is_some (read_decimal true f) = true | None => True end ->
  match ex with Some x => is_some (read_signed true x) = true | None => True end ->
  is_exp_letter e = true ->
  is_some fr || is_some ex = true ->
  is_float_text (ip ++ match fr with Some f => 0x2e :: f | None => [] end
                    ++ match ex with Some x => e :: x | None => [] end) = true.
Proof.
  intros Hip Hfr Hex He Hsome. unfold is_float_text.
  destruct (existsb _ _); [reflexivity|].
  destruct (is_some_true _ Hip) as [iv Eip].
  destruct (number_chars_plain _ (read_signed_chars _ _ _ Eip)) as [Ipe Ipd].
  assert (Hmant : forallb (fun x => negb (is_exp_letter x))
                    (ip ++ match fr with Some f => 0x2e :: f | None => [] end)
                  = true).
  { rewrite forallb_app, Ipe. destruct fr as [f|]; [|reflexivity].
    destruct (is_some_true _ Hfr) as [fv Ef].
    destruct (number_chars_plain _ (read_decimal_chars _ _ _ Ef)) as [Fe _].
    cbn [forallb]. rewrite Fe. reflexivity. }
  assert (Hsplit : split_at (Z.eqb 0x2e)
                     (ip ++ match fr with Some f => 0x2e :: f | None => [] end)
                   = (ip, fr)).
  { destruct fr as [f|].
    - apply split_at_app; [exact Ipd | reflexivity].
    - rewrite app_nil_r. apply split_at_none, Ipd. }
  destruct ex as [x|].
  - rewrite app_assoc, (split_at_app _ _ e x Hmant He), Hsplit.
    rewrite Hip, Hex. destruct fr; [rewrite Hfr|]; reflexivity.
  - rewrite app_nil_r, (split_at_none _ _ Hmant), Hsplit.
    rewrite Hip. destruct fr; [rewrite Hfr; reflexivity | discriminate].
Qed.

Lemma gen_float_grammar_returns :
  returns _gen_float
    (fun r => snd r = VFloat (strip_underscores (fst r))
              /\ is_float_text (fst r) = true).
Proof.
  unfold _gen_float.
  eapply returns_bind; [apply returns_random|]. intros r _.
  destruct (Qltb r PROB_SPECIAL_FLOAT).
  - eapply returns_bind; [apply returns_choice; discriminate|].
    cbv beta. intros prefix Hp.
    eapply returns_bind; [apply returns_choice; discriminate|].
    cbv beta. intros sym Hs. apply returns_ret. cbn [fst snd].
    cbn [In] in Hp, Hs.
    destruct Hp as [<-|[<-|[<-|[]]]]; destruct Hs as [<-|[<-|[]]];
      split; reflexivity.
  - eapply returns_bind;
      [apply (gen_dec_int_reads 999999 true false); lia|].
    cbv beta. intros [int_str int_val] (_ & _ & Hint & _). cbn [fst snd] in Hint.
    eapply returns_bind; [apply returns_randint; lia|].
    cbv beta. intros k Hk.
    eapply returns_bind with
      (P := fun exp_str =>
              exists (ex : option pystr) e,
                exp_str = match ex with Some x => e :: x | None => [] end
                /\ match ex with
                   | Some x => is_some (read_signed true x) = true
                   | None => True
                   end
                /\ is_exp_letter e = true
                /\ is_some ex = (k =? 0) || (k =? 2)).
    { destruct ((k =? 0) || (k =? 2)).
      - eapply returns_bind;
          [apply (gen_dec_int_reads 100 true true); lia|].
        cbv beta. intros [exp_str exp_val] (_ & _ & Hexp & _).
        cbn [fst snd] in Hexp.
        eapply returns_bind; [apply returns_choice; discriminate|].
        cbv beta. intros e He. apply returns_ret.
        exists (Some exp_str), e. rewrite Hexp.
        repeat split. cbn [In] in He.
        destruct He as [<-|[<-|[]]]; reflexivity.
      - apply returns_ret. exists None, 0x65. repeat split. }
    cbv beta. intros exp_str (ex & e & -> & Hex & He & Esome).
    eapply returns_bind with
      (P := fun frac_str =>
              exists fr : option pystr,
                frac_str = match fr with Some f => 0x2e :: f | None => [] end
                /\ match fr with
                   | Some f => is_some (read_decimal true f) = true
                   | None => True
                   end
                /\ is_some fr = (k =? 1) || (k =? 2)).
    { destruct ((k =? 1) || (k =? 2)).
      - eapply returns_bind;
          [apply (gen_dec_int_reads 99999 false true); lia|].
        cbv beta. intros [frac_str frac_val] (_ & _ & _ & Hfrac).
        cbn [fst snd] in Hfrac. apply returns_ret.
        exists (Some frac_str). rewrite (Hfrac eq_refl). repeat split.
      - apply returns_ret. exists None. repeat split. }
    cbv beta. intros frac_str (fr & -> & Hfr & Fsome).
    apply returns_ret. cbn [fst snd]. split; [reflexivity|].
    apply is_float_text_parts; try assumption.
    + rewrite Hint. reflexivity.
    + rewrite Esome, Fsome.
      destruct (Z.eqb_spec k 0), (Z.eqb_spec k 1), (Z.eqb_spec k 2);
        try reflexivity; lia.
Qed.

(** [_gen_float] returns a text that is a TOML float - a signed decimal
    number without leading zeros followed by a fraction, an exponent or
    both, or an optionally signed [inf] or [nan] - and as value the float
    that this text denotes once its underscores are taken out. *)
Theorem gen_float_grammar rng :
  exists s rng',
    _gen_float rng = Ok ((s, VFloat (strip_underscores s)), rng')
    /\ is_float_text s = true.
Proof.
  destruct (gen_float_grammar_returns rng) as ([s v] & rng' & E & Hv & Hs).
  cbn [fst snd] in Hv, Hs. subst v. exists s, rng'. auto.
Qed.

(** ** Reading dates and times *)

Lemma digits_loop_length base : forall fuel v acc k,
  2 <= base ->
  0 <= v < base ^ Z.of_nat (S k) ->
  (length (digits_loop fuel base v acc) <= S k + length acc)%nat.
Proof.
  intros fuel v acc k Hbase. revert v acc k.
  induction fuel as [|fuel IH]; intros v acc k Hv; cbn [digits_loop]; [lia|].
  destruct (Z.eqb_spec (v / base) 0) as [E0|Hnz]; [cbn [length]; lia|].
  destruct k as [|k].
  { exfalso. apply Hnz. apply Z.div_small. rewrite Z.pow_1_r in Hv. lia. }
  assert (Hq : 0 <= v / base < base ^ Z.of_nat (S k)).
  { split; [apply Z.div_pos; lia|].
    apply Z.div_lt_upper_bound; [lia|].
    replace (Z.of_nat (S (S k))) with (Z.succ (Z.of_nat (S k))) in Hv by lia.
    rewrite Z.pow_succ_r in Hv by lia. lia. }
  specialize (IH (v / base) ((48 + v mod base) :: acc) k Hq).
  cbn [length] in IH. lia.
Qed.

Lemma digits_value_repeat_zero n s :
  digits_value 10 (repeat 48 n ++ s) = digits_value 10 s.
Proof.
  unfold digits_value. rewrite fold_left_app. f_equal.
  induction n as [|n IH]; [reflexivity | exact IH].
Qed.

(** A zero-padded field has its width and denotes its number. *)
Lemma zero_pad_value width v :
  (0 < width)%nat -> 0 <= v < 10 ^ Z.of_nat width ->
  length (zero_pad width v) = width
  /\ digits_value 10 (zero_pad width v) = Some v.
Proof.
  intros Hw Hv. unfold zero_pad.
  destruct (format_base_value 10 v ltac:(lia) ltac:(lia))
    as (c & d & E & _ & Hval & _).
  assert (Hlen : (length (format_base 10 v) <= width)%nat).
  { unfold format_base. destruct width as [|k]; [lia|].
    pose proof (digits_loop_length 10 (S (Z.to_nat (Z.log2 v))) v [] k
                  ltac:(lia) Hv) as H.
    cbn [length] in H. lia. }
  split.
  - rewrite length_app, repeat_length. lia.
  - rewrite digits_value_repeat_zero, E. exact Hval.
Qed.

Lemma zero_pad_two v :
  0 <= v < 100 ->
  exists a b, zero_pad 2 v = [a; b] /\ digits_value 10 [a; b] = Some v.
Proof.
  intros Hv. destruct (zero_pad_value 2 v ltac:(lia) ltac:(lia)) as [Hlen Hval].
  destruct (zero_pad 2 v) as [|a [|b [|c l]]]; try discriminate.
  exists a, b. auto.
Qed.

Lemma zero_pad_four v :
  0 <= v < 10000 ->
  exists a b c d, zero_pad 4 v = [a; b; c; d]
                  /\ digits_value 10 [a; b; c; d] = Some v.
Proof.
  intros Hv. destruct (zero_pad_value 4 v ltac:(lia) ltac:(lia)) as [Hlen Hval].
  destruct (zero_pad 4 v) as [|a [|b [|c [|d [|e l]]]]]; try discriminate.
  exists a, b, c, d. auto.
Qed.

(** The last day that [_gen_local_date] allows in a month is the last day
    of that month in the calendar. *)
Lemma maxday_days_in_month year month :
  1 <= month <= 12 ->
  (if month =? 2 then
     if (year mod 400 =? 0)
        || ((year mod 4 =? 0) && negb (year mod 100 =? 0))
     then 29 else 28
   else if existsb (Z.eqb month) [4; 6; 9; 11] then 30
   else 31) = days_in_month year month.
Proof.
  intros Hm. unfold days_in_month, is_leap_year.
  assert (Hcases : month = 1 \/ month = 2 \/ month = 3 \/ month = 4
                   \/ month = 5 \/ month = 6 \/ month = 7 \/ month = 8
                   \/ month = 9 \/ month = 10 \/ month = 11 \/ month = 12)
    by lia.
  destruct Hcases as [-> | [-> | [-> | [-> | [-> | [-> | [-> | [-> | [-> | [-> | [-> | ->]]]]]]]]]]];
    try reflexivity.
  cbn [Z.eqb Pos.eqb andb].
  destruct (Z.eqb_spec (year mod 400) 0), (Z.eqb_spec (year mod 4) 0),
    (Z.eqb_spec (year mod 100) 0); cbn [andb orb negb]; try reflexivity;
    exfalso; Z.div_mod_to_equations; lia.
Qed.

Lemma digits_value_dash (s : pystr) : digits_value 10 (s ++ [45]) = None.
Proof.
  rewrite digits_value_snoc. destruct (digits_value 10 s); reflexivity.
Qed.

Lemma gen_local_date_reads : returns _gen_local_date local_date_post.
Proof.
  unfold _gen_local_date.
  eapply returns_bind; [apply returns_randint; lia|]. cbv beta. intros year Hy.
  eapply returns_bind; [apply returns_randint; lia|]. cbv beta. intros month Hm.
  rewrite (maxday_days_in_month year month Hm).
  assert (Hdays : 28 <= days_in_month year month <= 31).
  { rewrite <- (maxday_days_in_month year month Hm).
    destruct (month =? 2);
      [destruct (_ || _) | destruct (existsb _ _)]; lia. }
  eapply returns_bind; [apply returns_randint; lia|]. cbv beta. intros day Hd.
  apply returns_ret. unfold local_date_post, date_isoformat.
  destruct (zero_pad_four year ltac:(lia)) as (y1 & y2 & y3 & y4 & -> & Ey).
  destruct (zero_pad_two month ltac:(lia)) as (m1 & m2 & -> & Em).
  destruct (zero_pad_two day ltac:(lia)) as (d1 & d2 & -> & Ed).
  split; [lia|]. split; [|split; [reflexivity|]].
  - change (read_date _) with
      (match digits_value 10 [y1; y2; y3; y4], digits_value 10 [m1; m2],
             digits_value 10 [d1; d2] with
       | Some year, Some month, Some day =>
           if (0x2d =? 0x2d) && (0x2d =? 0x2d)
              && (1 <=? month) && (month <=? 12)
              && (1 <=? day) && (day <=? days_in_month year month)
           then Some (year, month, day) else None
       | _, _, _ => None
       end).
    rewrite Ey, Em, Ed. cbn [Z.eqb Pos.eqb andb].
    destruct (Z.leb_spec 1 month); [|lia].
    destruct (Z.leb_spec month 12); [|lia].
    destruct (Z.leb_spec 1 day); [|lia].
    destruct (Z.leb_spec day (days_in_month year month)); [|lia].
    reflexivity.
  - intros rest.
    change (read_time _) with
      (match digits_value 10 [y1; y2], digits_value 10 ([y4] ++ [45]),
             digits_value 10 [m2; 45],
             read_fraction (d1 :: d2 :: rest) with
       | Some hour, Some minute, Some second, Some usec =>
           if (y3 =? 0x3a) && (m1 =? 0x3a)
              && (hour <=? 23) && (minute <=? 59) && (second <=? 59)
           then Some (hour, minute, second, usec) else None
       | _, _, _, _ => None
       end).
    rewrite digits_value_dash. destruct (digits_value 10 [y1; y2]); reflexivity.
Qed.

(** [_gen_local_date] returns a date of the Gregorian calendar in the years
    1000 to 9999 with the ten characters [YYYY-MM-DD] that denote it. *)
Theorem gen_local_date_reads_back rng :
  exists s year month day rng',
    _gen_local_date rng = Ok ((s, (year, month, day)), rng')
    /\ 1000 <= year <= 9999
    /\ 1 <= month <= 12
    /\ 1 <= day <= days_in_month year month
    /\ read_date s = Some (year, month, day).
Proof.
  destruct (gen_local_date_reads rng)
    as ([s [[year month] day]] & rng' & E & Hy & Hread & _).
  exists s, year, month, day, rng'. split; [exact E|]. split; [exact Hy|].
  assert (Hvalid : 1 <= month <= 12 /\ 1 <= day <= days_in_month year month).
  { destruct s as [|y1 [|y2 [|y3 [|y4 [|c1 [|m1 [|m2 [|c2 [|d1 [|d2 [|x s]]]]]]]]]]];
      try discriminate.
    unfold read_date in Hread.
    destruct (digits_value 10 [y1; y2; y3; y4]) as [y|]; [|discriminate].
    destruct (digits_value 10 [m1; m2]) as [m|]; [|discriminate].
    destruct (digits_value 10 [d1; d2]) as [d|]; [|discriminate].
    destruct ((c1 =? 0x2d) && (c2 =? 0x2d) && (1 <=? m) && (m <=? 12)
              && (1 <=? d) && (d <=? days_in_month y m)) eqn:Ev;
      [|discriminate].
    injection Hread as -> -> ->.
    repeat (apply andb_true_iff in Ev; destruct Ev as [Ev ?]). lia. }
  tauto.
Qed.

Lemma read_time_fields h1 h2 m1 m2 s1 s2 fraction hour minute second usec :
  digits_value 10 [h1; h2] = Some hour ->
  digits_value 10 [m1; m2] = Some minute ->
  digits_value 10 [s1; s2] = Some second ->
  read_fraction fraction = Some usec ->
  hour <= 23 -> minute <= 59 -> second <= 59 ->
  read_time (h1 :: h2 :: 0x3a :: m1 :: m2 :: 0x3a :: s1 :: s2 :: fraction)
  = Some (hour, minute, second, usec).
Proof.
  intros Eh Em Es Ef Hh Hm Hs. unfold read_time.
  rewrite Eh, Em, Es, Ef. cbn [Z.eqb Pos.eqb andb].
  destruct (Z.leb_spec hour 23); [|lia].
  destruct (Z.leb_spec minute 59); [|lia].
  destruct (Z.leb_spec second 59); [|lia]. reflexivity.
Qed.

Lemma digits_time_chars s v :
  digits_value 10 s = Some v -> forallb is_time_char s = true.
Proof.
  intros H. apply digits_value_chars in H.
  induction s as [|c s IH]; [reflexivity|]. cbn [forallb] in *.
  apply andb_true_iff in H. destruct H as [Hc Hs].
  rewrite (IH Hs). unfold is_time_char. rewrite Hc. reflexivity.
Qed.

Lemma str_repeat_zero_length r :
  0 <= r -> len (str_repeat r (py "0")) = r.
Proof.
  intros Hr. unfold str_repeat, len.
  replace r with (Z.of_nat (Z.to_nat r)) at 2 by lia. f_equal.
  induction (Z.to_nat r) as [|n IH]; [reflexivity|].
  cbn [repeat concat]. rewrite length_app, IH. reflexivity.
Qed.

Lemma read_fraction_zeros r :
  1 <= r <= 6 ->
  read_fraction (py "." ++ str_repeat r (py "0")) = Some 0
  /\ forallb is_time_char (py "." ++ str_repeat r (py "0")) = true.
Proof.
  intros Hr.
  pose proof (str_repeat_zero_length r ltac:(lia)) as Hlen.
  pose proof (digits_value_zeros 10 r [] ltac:(lia)) as Hval.
  rewrite app_nil_r in Hval. change (digits_value 10 []) with (Some 0) in Hval.
  split.
  - change (py "." ++ str_repeat r (py "0"))
      with (0x2e :: str_repeat r (py "0")).
    unfold read_fraction. rewrite Hlen, Hval. cbn [Z.eqb Pos.eqb andb].
    assert (Hne : nonempty (str_repeat r (py "0")) = true).
    { destruct (str_repeat r (py "0")); [|reflexivity].
      unfold len in Hlen. cbn [length] in Hlen. lia. }
    rewrite Hne. destruct (Z.leb_spec r 6); [|lia]. reflexivity.
  - change (py "." ++ str_repeat r (py "0"))
      with (0x2e :: str_repeat r (py "0")).
    cbn [forallb]. rewrite (digits_time_chars _ _ Hval). reflexivity.
Qed.

Lemma read_fraction_usec usec :
  0 <= usec <= 999999 ->
  read_fraction (if usec =? 0 then [] else py "." ++ zero_pad 6 usec)
  = Some usec
  /\ forallb is_time_char
       (if usec =? 0 then [] else py "." ++ zero_pad 6 usec) = true.
Proof.
  intros Hu. destruct (Z.eqb_spec usec 0) as [->|Hnz]; [split; reflexivity|].
  destruct (zero_pad_value 6 usec ltac:(lia) ltac:(lia)) as [Hlen Hval].
  change (py "." ++ zero_pad 6 usec) with (0x2e :: zero_pad 6 usec).
  split.
  - unfold read_fraction. unfold len. rewrite Hlen, Hval.
    destruct (zero_pad 6 usec); [discriminate|].
    cbn. f_equal. lia.
  - cbn [forallb]. rewrite (digits_time_chars _ _ Hval). reflexivity.
Qed.

Lemma gen_local_time_reads : returns _gen_local_time local_time_post.
Proof.
  unfold _gen_local_time.
  eapply returns_bind; [apply returns_randint; lia|]. cbv beta. intros hour Hh.
  eapply returns_bind; [apply returns_randint; lia|]. cbv beta. intros minute Hm.
  eapply returns_bind; [apply returns_randint; lia|]. cbv beta. intros second Hs.
  eapply returns_bind; [apply returns_random|]. cbv beta. intros b _.
  eapply returns_bind with
    (P := fun p : Z * pystr =>
            let fraction := (if fst p =? 0 then [] else py "." ++ zero_pad 6 (fst p))
                            ++ snd p in
            read_fraction fraction = Some (fst p)
            /\ 0 <= fst p <= 999999
            /\ forallb is_time_char fraction = true).
  { destruct (Qltb b half).
    - eapply returns_bind; [apply returns_randint; lia|]. cbv beta. intros r Hr.
      apply returns_ret. cbn [fst snd Z.eqb app].
      destruct (read_fraction_zeros r Hr) as [H1 H2].
      split; [exact H1|]. split; [lia | exact H2].
    - eapply returns_bind; [apply returns_randint; lia|]. cbv beta. intros r Hr.
      eapply returns_bind; [apply returns_randint; lia|]. cbv beta. intros u Hu.
      apply returns_ret. cbn [fst snd]. rewrite app_nil_r.
      assert (Hrange : 0 <= u - u mod 10 ^ r <= 999999).
      { assert (0 < 10 ^ r) by (apply Z.pow_pos_nonneg; lia).
        pose proof (Z.mod_pos_bound u (10 ^ r) ltac:(lia)).
        pose proof (Z.mod_le u (10 ^ r) ltac:(lia) ltac:(lia)). lia. }
      destruct (read_fraction_usec _ Hrange) as [H1 H2].
      split; [exact H1|]. split; [exact Hrange | exact H2]. }
  cbv beta. intros [usec suffix] (Hfrac & Hu & Hchars). cbn [fst snd] in *.
  apply returns_ret. unfold local_time_post, time_isoformat.
  destruct (zero_pad_two hour ltac:(lia)) as (h1 & h2 & -> & Eh).
  destruct (zero_pad_two minute ltac:(lia)) as (m1 & m2 & -> & Em).
  destruct (zero_pad_two second ltac:(lia)) as (s1 & s2 & -> & Es).
  change (py ":") with [0x3a]. cbn [app]. split; [|split; [exact Hu|]].
  - apply read_time_fields; try assumption; lia.
  - pose proof (digits_time_chars _ _ Eh) as Ch.
    pose proof (digits_time_chars _ _ Em) as Cm.
    pose proof (digits_time_chars _ _ Es) as Cs.
    cbn [forallb] in *. rewrite !andb_true_r in *.
    apply andb_true_iff in Ch, Cm, Cs.
    destruct Ch as [-> ->], Cm as [-> ->], Cs as [-> ->].
    rewrite Hchars. reflexivity.
Qed.

(** [_gen_local_time] returns a time of day and a text [HH:MM:SS], with or
    without a fraction of one to six digits, that denotes it: the
    microseconds are the fraction, which may be all zeros. *)
Theorem gen_local_time_reads_back rng :
  exists s hour minute second usec rng',
    _gen_local_time rng = Ok ((s, (hour, minute, second, usec)), rng')
    /\ read_time s = Some (hour, minute, second, usec)
    /\ 0 <= usec <= 999999.
Proof.
  destruct (gen_local_time_reads rng)
    as ([s [[[hour minute] second] usec]] & rng' & E & Hread & Hu & _).
  exists s, hour, minute, second, usec, rng'. auto.
Qed.

Lemma split_offset_app s t :
  forallb is_time_char s = true ->
  (t = [] \/ exists c t', t = c :: t' /\ char_in c (py "Zz+-") = true) ->
  split_offset (s ++ t) = (s, t).
Proof.
  intros Hs Ht. induction s as [|x s IH]; cbn [app].
  - destruct Ht as [->|(c & t' & -> & Hc)]; [reflexivity|].
    cbn [split_offset]. rewrite Hc. reflexivity.
  - cbn [forallb] in Hs. apply andb_true_iff in Hs. destruct Hs as [Hx Hs].
    cbn [split_offset]. rewrite (IH Hs).
    replace (char_in x (py "Zz+-")) with false; [reflexivity|].
    symmetry. unfold is_time_char, between in Hx.
    change (py "Zz+-") with [90; 122; 43; 45]. cbn [char_in existsb].
    destruct (Z.eqb_spec x 90) as [->|]; [discriminate|].
    destruct (Z.eqb_spec x 122) as [->|]; [discriminate|].
    destruct (Z.eqb_spec x 43) as [->|]; [discriminate|].
    destruct (Z.eqb_spec x 45) as [->|]; [discriminate|]. reflexivity.
Qed.

Lemma read_time_offset_text s tz :
  (s = py "Z" /\ tz = 0) \/ read_offset s = Some tz ->
  read_time_offset s = Some (Some tz)
  /\ exists c t, s = c :: t /\ char_in c (py "Zz+-") = true.
Proof.
  intros [[-> ->]|H].
  - split; [reflexivity|]. exists 90, []. split; reflexivity.
  - destruct s as [|sg [|h1 [|h2 [|colon [|m1 [|m2 [|x s]]]]]]];
      try discriminate.
    assert (Hsg : sg = 0x2b \/ sg = 0x2d).
    { unfold read_offset in H.
      destruct (digit_val h1), (digit_val h2), (digit_val m1), (digit_val m2);
        try discriminate.
      destruct (negb (colon =? 0x3a)); [discriminate|].
      destruct (Z.eqb_spec sg 0x2b); [auto|].
      destruct (Z.eqb_spec sg 0x2d); [auto | discriminate]. }
    split.
    + unfold read_time_offset.
      change (py "Z") with [90]. change (py "z") with [122].
      cbn [pystr_eqb]. rewrite !andb_false_r.
      cbn [orb]. rewrite H. reflexivity.
    + exists sg, [h1; h2; colon; m1; m2]. split; [reflexivity|].
      destruct Hsg as [-> | ->]; reflexivity.
Qed.

Lemma firstn_skipn_date (s rest : pystr) :
  length s = 10%nat -> firstn 10 (s ++ rest) = s /\ skipn 10 (s ++ rest) = rest.
Proof.
  intros H. split.
  - rewrite firstn_app, H, Nat.sub_diag, <- H, firstn_all.
    cbn [firstn]. apply app_nil_r.
  - rewrite skipn_app, H, Nat.sub_diag, <- H, skipn_all. reflexivity.
Qed.

(** A date, a delimiter, a time and an optional offset read as the
    date-time that they make up. *)
Lemma read_date_time_parts date_str time_str tz_str delim
  year month day hour minute second usec tz :
  local_date_post (date_str, (year, month, day)) ->
  local_time_post (time_str, (hour, minute, second, usec)) ->
  read_time_offset tz_str = Some tz ->
  (tz_str = [] \/ exists c t, tz_str = c :: t /\ char_in c (py "Zz+-") = true) ->
  In delim (py "Tt ") ->
  read_date_time (date_str ++ delim :: time_str ++ tz_str)
  = Some (VDateTime year month day hour minute second usec tz).
Proof.
  intros (_ & Hdate & Hlen & Hnot) (Htime & _ & Hchars) Htz Hstart Hdelim.
  unfold read_date_time. rewrite Hnot.
  destruct (firstn_skipn_date date_str (delim :: time_str ++ tz_str) Hlen)
    as [-> ->].
  rewrite Hdate, (split_offset_app _ _ Hchars Hstart), Htime, Htz.
  replace (char_in delim (py "Tt ")) with true; [reflexivity|].
  cbn [In] in Hdelim. destruct Hdelim as [<-|[<-|[<-|[]]]]; reflexivity.
Qed.

Lemma gen_date_time_reads :
  returns _gen_date_time (fun r => read_date_time (fst r) = Some (snd r)).
Proof.
  unfold _gen_date_time.
  eapply returns_bind; [apply returns_choice; discriminate|].
  cbv beta. intros func Hin. cbn [In] in Hin.
  destruct Hin as [<-|[<-|[<-|[<-|[]]]]].
  - unfold _gen_offset_date_time.
    eapply returns_bind; [apply gen_local_date_reads|].
    cbv beta. intros [date_str [[year month] day]] Hdate.
    eapply returns_bind; [apply gen_local_time_reads|].
    cbv beta. intros [time_str [[[hour minute] second] usec]] Htime.
    eapply returns_bind; [apply gen_timezone_returns|].
    cbv beta. intros [tz_str tz] Htz. cbn [fst snd] in Htz.
    eapply returns_bind; [apply returns_choice; discriminate|].
    cbv beta. intros delim Hdelim. apply returns_ret. cbn [fst snd].
    assert (Hoff : (tz_str = py "Z" /\ tz = 0) \/ read_offset tz_str = Some tz)
      by tauto.
    destruct (read_time_offset_text tz_str tz Hoff) as [Hread Hstart].
    apply read_date_time_parts; auto.
  - unfold _gen_local_date_time.
    eapply returns_bind; [apply gen_local_date_reads|].
    cbv beta. intros [date_str [[year month] day]] Hdate.
    eapply returns_bind; [apply gen_local_time_reads|].
    cbv beta. intros [time_str [[[hour minute] second] usec]] Htime.
    eapply returns_bind; [apply returns_choice; discriminate|].
    cbv beta. intros delim Hdelim. apply returns_ret. cbn [fst snd].
    rewrite <- (app_nil_r time_str).
    apply read_date_time_parts; auto.
  - eapply returns_bind; [apply gen_local_date_reads|].
    cbv beta. intros [date_str [[year month] day]] (_ & Hdate & Hlen & Hnot).
    apply returns_ret. cbn [fst snd]. unfold read_date_time.
    rewrite <- (app_nil_r date_str) at 1. rewrite Hnot.
    rewrite <- Hlen, firstn_all, skipn_all, Hdate. reflexivity.
  - eapply returns_bind; [apply gen_local_time_reads|].
    cbv beta. intros [time_str [[[hour minute] second] usec]] (Htime & _).
    apply returns_ret. cbn [fst snd]. unfold read_date_time.
    rewrite Htime. reflexivity.
Qed.

(** [_gen_date_time] returns a text that reads as the value returned with
    it: a time of day, a calendar date, or a date, one of the delimiters
    [T], [t] and space, a time and, for an offset date-time, [Z] or a
    numeric offset. *)
Theorem gen_date_time_reads_back rng :
  exists s v rng',
    _gen_date_time rng = Ok ((s, v), rng') /\ read_date_time s = Some v.
Proof.
  destruct (gen_date_time_reads rng) as ([s v] & rng' & E & H).
  exists s, v, rng'. auto.
Qed.

(** ** The queries list exactly what the tree holds *)

Lemma item_keys_sound_step tbl :
  Forall (fun pv => forall path keys,
            node_wf (snd pv) = true ->
            rec_item_keys (snd pv) path = Ok keys ->
            forall k, In k keys -> item_keys_at (snd pv) path k) tbl ->
  forall path keys,
    table_wf tbl = true ->
    collect (fun pv => rec_item_keys (snd pv) (path ++ [fst pv])) tbl = Ok keys ->
    forall k, In k keys ->
    exists k' x, k' <> [] /\ k = path ++ k'
                 /\ find_node tbl k' = Some (NValue x).
Proof.
  intros Hall path keys Hwf Hc k Hin.
  apply table_wf_split in Hwf. destruct Hwf as [Hok Hnodes].
  destruct (collect_In_inv _ _ _ _ Hc Hin) as ([p v] & ks & Hpv & Hks & Hk).
  cbn [fst snd] in Hks.
  rewrite Forall_forall in Hall.
  pose proof (Hall _ Hpv (path ++ [p]) ks
                (in_forallb _ _ _ Hnodes Hpv) Hks k Hk) as Hat.
  cbn [snd] in Hat.
  pose proof (dict_ok_In_get p v tbl Hok Hpv) as Hget.
  destruct Hat as [[-> [x ->]]|(t & k' & x & He & Hk' & -> & Hf)].
  - exists [p], x. repeat split; [discriminate | exact Hget].
  - exists (p :: k'), x. split; [discriminate|].
    split; [symmetry; apply snoc_app|].
    rewrite (find_node_enter tbl p k' v t Hk' Hget He). exact Hf.
Qed.

Lemma rec_item_keys_sound v :
  forall path keys,
    node_wf v = true ->
    rec_item_keys v path = Ok keys ->
    forall k, In k keys -> item_keys_at v path k.
Proof.
  induction v as [x|d dt elems IH|elems IH] using node_induction;
    intros path keys Hwf Hr k Hin.
  - inversion Hr; subst. destruct Hin as [<-|[]]. left. eauto.
  - rewrite node_wf_table in Hwf. apply andb_true_iff in Hwf.
    destruct Hwf as [Hwf _]. cbn [rec_item_keys] in Hr. right.
    destruct (item_keys_sound_step elems IH path keys Hwf Hr k Hin)
      as (k' & x & Hk' & -> & Hf).
    exists elems, k', x. repeat split; assumption.
  - destruct (wf_array_last elems Hwf) as (init & t & -> & _ & Ht & _).
    cbn [rec_item_keys] in Hr. rewrite on_last_snoc in Hr.
    apply Forall_app in IH. destruct IH as [_ IH].
    inversion IH as [|? ? IHt _]; subst. right.
    destruct (item_keys_sound_step t IHt path keys Ht Hr k Hin)
      as (k' & x & Hk' & -> & Hf).
    exists t, k', x. cbn [enter]. rewrite split_last_snoc.
    repeat split; assumption.
Qed.

Lemma item_keys_of_sound tbl keys k :
  table_wf tbl = true ->
  item_keys_of tbl = Ok keys ->
  In k keys ->
  exists x, find_node tbl k = Some (NValue x).
Proof.
  intros Hwf Hc Hin.
  destruct (item_keys_sound_step tbl) with
    (path := @nil pystr) (keys := keys) (k := k)
    as (k' & x & Hk' & -> & Hf); try assumption.
  - apply Forall_forall. intros pv _. apply rec_item_keys_sound.
  - exists x. exact Hf.
Qed.

(** On a well-formed tree [get_item_keys] returns, and it lists exactly
    the keys that name a value, walking into the last element of every
    table array on the way. *)
Lemma get_item_keys_listing ctx :
  table_wf (data ctx) = true ->
  exists keys,
    get_item_keys ctx = Ok keys
    /\ forall k, In k keys <-> exists x, find_node (data ctx) k = Some (NValue x).
Proof.
  intros Hwf. unfold get_item_keys.
  destruct (item_keys_of_total _ Hwf) as [keys Hk]. rewrite Hk.
  exists (sorted keys). split; [reflexivity|]. intros k.
  rewrite sorted_In. split.
  - apply (item_keys_of_sound _ _ _ Hwf Hk).
  - intros [x Hx]. exact (item_keys_of_complete _ _ _ _ Hk Hx).
Qed.

(** On a well-formed tree [get_table_keys] returns, and it lists exactly
    the keys that name a table or table array of the kind asked for: with
    [array] false or true, tables only or table arrays only; with
    [defined] given, the tables whose flag has that value. *)
Lemma get_table_keys_listing ctx defined array :
  table_wf (data ctx) = true ->
  exists keys,
    get_table_keys ctx defined array = Ok keys
    /\ forall k, In k keys
                 <-> exists n, find_node (data ctx) k = Some n
                               /\ listed_table defined array n = true.
Proof.
  intros Hwf. unfold get_table_keys.
  destruct (table_keys_of_total defined array _ Hwf) as [keys Hk]. rewrite Hk.
  exists (sorted keys). split; [reflexivity|]. intros k.
  rewrite sorted_In. split.
  - intros Hin.
    destruct (table_keys_of_sound _ _ _ _ _ Hwf Hk Hin) as (n & _ & Hf & Hl).
    eauto.
  - intros (n & Hf & Hl). exact (table_keys_of_complete _ _ _ _ _ _ Hk Hf Hl).
Qed.

(** ** Opening a table *)

Lemma open_table_post ctx key :
  table_wf (data ctx) = true ->
  key <> [] ->
  (forall i v, (0 < i < length key)%nat ->
               find_node (data ctx) (firstn i key) <> Some (NValue v)) ->
  (find_node (data ctx) key = None
   \/ exists elems, find_node (data ctx) key = Some (Table false false elems)) ->
  exists ctx',
    open_table ctx key = Ok ctx'
    /\ (forall i, (0 < i < length key)%nat ->
          exists n, find_node (data ctx') (firstn i key) = Some n
                    /\ ancestor_kept (find_node (data ctx) (firstn i key)) n)
    /\ (exists elems,
          ((find_node (data ctx) key = None /\ elems = [])
           \/ find_node (data ctx) key = Some (Table false false elems))
          /\ find_node (data ctx') key = Some (Table true false elems)
          /\ get_active_table ctx' = Ok elems)
    /\ active_table ctx' = key.
Proof.
  intros Hwf Hne Hnov Hterm.
  rewrite open_table_insert.
  destruct (split_last key) as [[parent p]|] eqn:Esplit;
    [|apply split_last_None in Esplit; congruence].
  apply split_last_Some in Esplit. subst key.
  rewrite length_app in Hnov. simpl in Hnov.
  destruct (target_ok parent (data ctx) Hwf) as (t & Ht & Htwf).
  { intros i v Hi. rewrite <- (firstn_snoc_prefix parent p i) by lia.
    apply Hnov. lia. }
  rewrite (find_node_target parent p _ _ Ht) in Hterm.
  destruct (define_table_Ok p t Hterm) as (t' & elems & Hdef & Hget' & Hold).
  destruct (insert_at_ok parent false (define_table p) _ _ _ Ht Hdef)
    as (data' & Hins & Hat).
  rewrite Hins. cbn [rbind]. eexists. split; [reflexivity|].
  cbn [data active_table].
  split.
  { intros i Hi. rewrite length_app in Hi. simpl in Hi.
    rewrite (firstn_snoc_prefix parent p i) by lia.
    apply (insert_at_ancestors parent _ _ _ i Hins). lia. }
  split; [|reflexivity].
  exists elems. rewrite (find_node_target parent p _ _ Ht).
  split; [exact Hold|].
  rewrite (find_node_target parent p _ _ (table_at_target _ _ _ Hat)).
  split; [exact Hget'|].
  unfold get_active_table. cbn [data active_table].
  rewrite table_at_app, Hat. cbn [rbind table_at]. rewrite Hget'.
  reflexivity.
Qed.

(** Under its precondition (the key names nothing, or a table that no
    header has defined and no dotted key made, and no proper prefix of it
    names a value) [open_table] returns; every proper prefix of the key
    then names a table or a table array, created as a table neither
    defined nor dotted where it was missing and unchanged in kind and flags
    where it was not; the key names a defined table with the entries it
    had, none if it is new; and that table is the active one. *)
Theorem open_table_spec ctx key :
  table_wf (data ctx) = true ->
  key <> [] ->
  (forall i v, (0 < i < length key)%nat ->
               find_node (data ctx) (firstn i key) <> Some (NValue v)) ->
  (find_node (data ctx) key = None
   \/ exists elems, find_node (data ctx) key = Some (Table false false elems)) ->
  exists ctx',
    open_table ctx key = Ok ctx'
    /\ (forall i, (0 < i < length key)%nat ->
          exists n, find_node (data ctx') (firstn i key) = Some n
                    /\ ancestor_kept (find_node (data ctx) (firstn i key)) n)
    /\ (exists elems,
          ((find_node (data ctx) key = None /\ elems = [])
           \/ find_node (data ctx) key = Some (Table false false elems))
          /\ find_node (data ctx') key = Some (Table true false elems)
          /\ get_active_table ctx' = Ok elems)
    /\ active_table ctx' = key.
Proof. exact (open_table_post ctx key). Qed.

Lemma open_table_spec_witness :
  let ctx := mkContext
               [ (py "a", Table false false
                            [ (py "b", Table true false []) ]) ]
               [py "a"; py "b"] in
  let key := [py "a"] in
  table_wf (data ctx) = true
  /\ key <> []
  /\ exists ctx',
       open_table ctx key = Ok ctx'
       /\ (forall i, (0 < i < length key)%nat ->
             exists n, find_node (data ctx') (firstn i key) = Some n
                       /\ ancestor_kept (find_node (data ctx) (firstn i key)) n)
       /\ (exists elems,
             ((find_node (data ctx) key = None /\ elems = [])
              \/ find_node (data ctx) key = Some (Table false false elems))
             /\ find_node (data ctx') key = Some (Table true false elems)
             /\ get_active_table ctx' = Ok elems)
       /\ active_table ctx' = key.
Proof.
  split; [reflexivity|]. split; [discriminate|].
  apply open_table_spec.
  - reflexivity.
  - discriminate.
  - intros i v Hi. simpl in Hi. lia.
  - right. eexists. reflexivity.
Defined.

(** ** What the context refuses *)

(** The walk along the parent of a key that names something ends in the
    dictionary that holds it. *)
Lemma find_node_snoc_inv parent p : forall tbl n,
  find_node tbl (parent ++ [p]) = Some n ->
  exists t, target tbl parent = Ok t /\ table_at tbl parent = Ok t
            /\ dict_get p t = Some n.
Proof.
  induction parent as [|q parent IH]; intros tbl n H.
  - exists tbl. auto.
  - cbn [app] in H.
    rewrite find_node_cons in H by (apply app_not_nil_r; discriminate).
    cbn [target table_at].
    destruct (dict_get q tbl) as [[v|d dt elems|elems]|]; try discriminate.
    + apply IH, H.
    + destruct (split_last elems) as [[init t0]|] eqn:Es; [|discriminate].
      unfold last_table. rewrite Es. cbn [rbind snd]. apply IH, H.
Qed.

Lemma insert_at_refused key dotted f : forall tbl t,
  target tbl key = Ok t -> f t = AssertionError ->
  insert_at tbl key dotted f = AssertionError.
Proof.
  induction key as [|p key IH]; intros tbl t Ht Hf.
  - inversion Ht; subst. exact Hf.
  - cbn [target insert_at] in *.
    destruct (dict_get p tbl) as [[v|d dt elems|elems]|]; try discriminate.
    + rewrite (IH elems t Ht Hf). reflexivity.
    + destruct (last_table elems) as [[init t0]| | |]; try discriminate.
      cbn [rbind snd] in *. rewrite (IH t0 t Ht Hf). reflexivity.
    + inversion Ht; subst.
      rewrite (IH [] [] (target_nil key) Hf). reflexivity.
Qed.

Lemma update_at_refused key f : forall tbl t,
  table_at tbl key = Ok t -> f t = AssertionError ->
  update_at tbl key f = AssertionError.
Proof.
  induction key as [|p key IH]; intros tbl t Ht Hf.
  - inversion Ht; subst. exact Hf.
  - cbn [table_at update_at] in *.
    destruct (dict_get p tbl) as [[v|d dt elems|elems]|]; try discriminate.
    + rewrite (IH elems t Ht Hf). reflexivity.
    + destruct (last_table elems) as [[init t0]| | |]; try discriminate.
      cbn [rbind snd] in *. rewrite (IH t0 t Ht Hf). reflexivity.
Qed.

(** A table header is refused with an assertion failure when its key names
    something that the header cannot open: for [open_table] anything but a
    table that no header has defined and no dotted key made, so a second
    header for the same table fails; for [open_table_array] anything but a
    table array. *)
Lemma headers_refuse ctx key n :
  find_node (data ctx) key = Some n ->
  ((forall elems, n <> Table false false elems) ->
   open_table ctx key = AssertionError)
  /\ ((forall elems, n <> TableArray elems) ->
      open_table_array ctx key = AssertionError).
Proof.
  intros Hf.
  assert (Hne : key <> []) by (intros ->; discriminate).
  destruct (split_last key) as [[parent p]|] eqn:Esplit;
    [|apply split_last_None in Esplit; congruence].
  pose proof Esplit as Ekey. apply split_last_Some in Ekey. subst key.
  destruct (find_node_snoc_inv parent p _ _ Hf) as (t & Ht & _ & Hget).
  split; intros Hn.
  - rewrite open_table_insert, Esplit.
    rewrite (insert_at_refused parent false (define_table p) _ t Ht);
      [reflexivity|].
    unfold define_table, dict_has. rewrite Hget. cbn [negb]. rewrite Hget.
    destruct n as [x|d dt elems|elems]; try reflexivity.
    destruct d; [reflexivity|]. destruct dt; [reflexivity|].
    exfalso. exact (Hn elems eq_refl).
  - rewrite open_table_array_insert, Esplit.
    rewrite (insert_at_refused parent false (append_table p) _ t Ht);
      [reflexivity|].
    unfold append_table, dict_has. rewrite Hget. cbn [negb]. rewrite Hget.
    destruct n as [x|d dt elems|elems]; try reflexivity.
    exfalso. exact (Hn elems eq_refl).
Qed.

(** ** Assignment *)

Lemma update_at_inv key f : forall tbl tbl',
  update_at tbl key f = Ok tbl' ->
  exists t t', table_at tbl key = Ok t /\ f t = Ok t'
               /\ table_at tbl' key = Ok t'.
Proof.
  induction key as [|p key IH]; intros tbl tbl' H.
  - exists tbl, tbl'. auto.
  - cbn [table_at update_at] in *.
    destruct (dict_get p tbl) as [[v|d dt elems|elems]|] eqn:Eget;
      try discriminate.
    + destruct (update_at elems key f) as [sub| | |] eqn:Esub;
        try discriminate.
      inversion H; subst. rewrite dict_get_set_same.
      exact (IH elems sub Esub).
    + destruct (last_table elems) as [[init t0]| | |] eqn:El;
        try discriminate.
      cbn [rbind fst snd] in *.
      destruct (update_at t0 key f) as [sub| | |] eqn:Esub;
        try discriminate.
      inversion H; subst. rewrite dict_get_set_same, last_table_snoc.
      exact (IH t0 sub Esub).
Qed.

(** [assign] fails its assertion when the key already names something in
    the active table - a value, a table or a table array - so that no key
    is assigned twice. *)
Lemma assign_refuses ctx key v act n :
  get_active_table ctx = Ok act ->
  find_node act key = Some n ->
  assign ctx key v = AssertionError.
Proof.
  intros Hat Hf.
  assert (Hne : key <> []) by (intros ->; discriminate).
  destruct (split_last key) as [[parent p]|] eqn:Esplit;
    [|apply split_last_None in Esplit; congruence].
  pose proof Esplit as Ekey. apply split_last_Some in Ekey. subst key.
  destruct (find_node_snoc_inv parent p _ _ Hf) as (t & Ht & _ & Hget).
  rewrite assign_insert, Esplit.
  rewrite (update_at_refused _ _ _ act Hat); [reflexivity|].
  apply (insert_at_refused parent true (set_item p v) act t Ht).
  unfold set_item, dict_has. rewrite Hget. reflexivity.
Qed.

(** ** Looking into the data *)

Lemma value_at_cons d p k :
  k <> [] ->
  value_at d (p :: k)
  = match dict_get p d with
    | Some (VDict sub) => value_at sub k
    | Some (VList l) =>
        match split_last l with
        | Some (_, VDict sub) => value_at sub k
        | _ => None
        end
    | _ => None
    end.
Proof. destruct k; [congruence | reflexivity]. Qed.






(** ** The dictionary of an inline table *)

(** After the insertion that ends an iteration of [_gen_inline_table], the
    key names the inserted value in the dictionary. *)
Lemma inline_insert_lookup key v : forall tbl tbl',
  inline_insert tbl key v = Ok tbl' -> value_at tbl' key = Some v.
Proof.
  induction key as [|p key IH]; intros tbl tbl' H; [discriminate|].
  destruct key as [|q key].
  - cbn [inline_insert] in H. inversion H; subst.
    cbn [value_at]. apply dict_get_set_same.
  - remember (q :: key) as k eqn:Ek.
    assert (Hk : k <> []) by (subst k; discriminate).
    assert (E : inline_insert tbl (p :: k) v
                = let tbl1 := if negb (dict_has p tbl)
                              then dict_set p (VDict []) tbl else tbl in
                  match dict_get p tbl1 with
                  | Some (VDict sub) =>
                      sub' <-r inline_insert sub k v ;;
                      Ok (dict_set p (VDict sub') tbl1)
                  | _ => Raised
                  end) by (subst k; reflexivity).
    rewrite E in H. cbv zeta in H.
    destruct (dict_get p _) as [[| | | | | | | |sub]|]; try discriminate.
    destruct (inline_insert sub k v) as [sub'| | |] eqn:Es; try discriminate.
    cbn [rbind] in H. inversion H; subst tbl'.
    rewrite value_at_cons by exact Hk. rewrite dict_get_set_same.
    apply (IH sub sub' Es).
Qed.

(** ** Keys that part ways *)

Lemma find_node_ext t1 t2 p k :
  dict_get p t1 = dict_get p t2 ->
  find_node t1 (p :: k) = find_node t2 (p :: k).
Proof.
  intros E. destruct k as [|q k].
  - exact E.
  - rewrite !find_node_cons by discriminate. rewrite E. reflexivity.
Qed.

Lemma value_at_ext d1 d2 p k :
  dict_get p d1 = dict_get p d2 ->
  value_at d1 (p :: k) = value_at d2 (p :: k).
Proof.
  intros E. destruct k as [|q k].
  - exact E.
  - rewrite !value_at_cons by discriminate. rewrite E. reflexivity.
Qed.

Lemma diverges_cons q k key :
  diverges k (q :: key) = true ->
  exists x k', k = x :: k'
               /\ (x <> q \/ (x = q /\ diverges k' key = true)).
Proof.
  destruct k as [|x k']; [discriminate|]. cbn [diverges].
  intros H. exists x, k'. split; [reflexivity|].
  destruct (pystr_eqb x q) eqn:E.
  - right. apply pystr_eqb_eq in E. auto.
  - left. apply pystr_eqb_neq, E.
Qed.

Lemma diverges_not_nil k key : diverges k key = true -> k <> [] /\ key <> [].
Proof. destruct k, key; try discriminate. split; discriminate. Qed.

(** What [insert_at] changes lies under the key it walks: a key that parts
    ways with it names what it named before. *)
Lemma insert_at_frame parent p dotted f :
  touches_only p f ->
  forall tbl tbl' k,
    insert_at tbl parent dotted f = Ok tbl' ->
    diverges k (parent ++ [p]) = true ->
    find_node tbl' k = find_node tbl k.
Proof.
  intros Hf. induction parent as [|q parent IH]; intros tbl tbl' k H Hd.
  - cbn [app] in Hd. destruct (diverges_cons _ _ _ Hd) as (x & k' & -> & Hx).
    destruct Hx as [Hx|[_ Hx]]; [|destruct k'; discriminate].
    apply find_node_ext. apply (Hf _ _ _ H Hx).
  - cbn [app] in Hd. destruct (diverges_cons _ _ _ Hd) as (x & k' & -> & Hx).
    cbn [insert_at] in H.
    destruct Hx as [Hx|[-> Hx]].
    + apply find_node_ext.
      destruct (dict_get q tbl) as [[v|d dt elems|elems]|]; try discriminate.
      * destruct (insert_at elems parent dotted f); try discriminate.
        inversion H; subst. apply dict_get_set_other. congruence.
      * destruct (last_table elems) as [[init t0]| | |]; try discriminate.
        cbn [rbind fst snd] in H.
        destruct (insert_at t0 parent dotted f); try discriminate.
        inversion H; subst. apply dict_get_set_other. congruence.
      * destruct (insert_at [] parent dotted f); try discriminate.
        inversion H; subst. apply dict_get_set_other. congruence.
    + destruct (diverges_not_nil _ _ Hx) as [Hk' _].
      rewrite !find_node_cons by exact Hk'.
      destruct (dict_get q tbl) as [[v|d dt elems|elems]|] eqn:Eg;
        try discriminate.
      * destruct (insert_at elems parent dotted f) as [sub| | |] eqn:Es;
          try discriminate.
        inversion H; subst. rewrite dict_get_set_same.
        apply (IH elems sub k' Es Hx).
      * destruct (last_table elems) as [[init t0]| | |] eqn:El;
          try discriminate.
        cbn [rbind fst snd] in H.
        destruct (insert_at t0 parent dotted f) as [sub| | |] eqn:Es;
          try discriminate.
        inversion H; subst. rewrite dict_get_set_same, split_last_snoc.
        rewrite (last_table_Ok _ _ _ El).
        apply (IH t0 sub k' Es Hx).
      * destruct (insert_at [] parent dotted f) as [sub| | |] eqn:Es;
          try discriminate.
        inversion H; subst. rewrite dict_get_set_same.
        rewrite (IH [] sub k' Es Hx). apply find_node_nil_tbl.
Qed.

Lemma set_item_touches_only p v : touches_only p (set_item p v).
Proof.
  intros t t' q H Hq. unfold set_item in H.
  destruct (dict_has p t); [discriminate|]. inversion H; subst.
  apply dict_get_set_other. congruence.
Qed.

(** What [inline_insert] changes lies under its key. *)
Lemma inline_insert_frame key v : forall tbl tbl' k,
  inline_insert tbl key v = Ok tbl' ->
  diverges k key = true ->
  value_at tbl' k = value_at tbl k.
Proof.
  induction key as [|p key IH]; intros tbl tbl' k H Hd; [discriminate|].
  destruct (diverges_cons _ _ _ Hd) as (x & k' & -> & Hx).
  destruct key as [|q key].
  - cbn [inline_insert] in H. inversion H; subst.
    destruct Hx as [Hx|[_ Hx]]; [|destruct k'; discriminate].
    apply value_at_ext, dict_get_set_other. congruence.
  - remember (q :: key) as rest eqn:Er.
    assert (E : inline_insert tbl (p :: rest) v
                = let tbl1 := if negb (dict_has p tbl)
                              then dict_set p (VDict []) tbl else tbl in
                  match dict_get p tbl1 with
                  | Some (VDict sub) =>
                      sub' <-r inline_insert sub rest v ;;
                      Ok (dict_set p (VDict sub') tbl1)
                  | _ => Raised
                  end) by (subst rest; reflexivity).
    rewrite E in H. cbv zeta in H. clear E.
    unfold dict_has in H.
    destruct Hx as [Hx|[-> Hx]].
    + apply value_at_ext.
      destruct (dict_get p tbl) as [w|] eqn:Eg; cbn [negb] in H.
      * rewrite Eg in H.
        destruct w as [| | | | | | | |sub]; try discriminate.
        destruct (inline_insert sub rest v); try discriminate.
        inversion H; subst. apply dict_get_set_other. congruence.
      * rewrite dict_get_set_same in H.
        destruct (inline_insert [] rest v); try discriminate.
        inversion H; subst.
        rewrite !dict_get_set_other by congruence. reflexivity.
    + destruct (diverges_not_nil _ _ Hx) as [Hk' _].
      rewrite !value_at_cons by exact Hk'.
      destruct (dict_get p tbl) as [w|] eqn:Eg; cbn [negb] in H.
      * rewrite Eg in H.
        destruct w as [| | | | | | | |sub]; try discriminate.
        destruct (inline_insert sub rest v) as [sub'| | |] eqn:Es;
          try discriminate.
        inversion H; subst. rewrite dict_get_set_same.
        apply (IH sub sub' k' Es Hx).
      * rewrite dict_get_set_same in H.
        destruct (inline_insert [] rest v) as [sub'| | |] eqn:Es;
          try discriminate.
        inversion H; subst. rewrite dict_get_set_same.
        rewrite (IH [] sub' k' Es Hx).
        destruct k' as [|a [|b k2]]; reflexivity.
Qed.

Lemma assign_lookup ctx key v ctx' :
  assign ctx key v = Ok ctx' ->
  active_table ctx' = active_table ctx
  /\ exists act act',
       get_active_table ctx = Ok act
       /\ get_active_table ctx' = Ok act'
       /\ find_node act key = None
       /\ find_node act' key = Some (NValue v)
       /\ forall k, diverges k key = true ->
                    find_node act' k = find_node act k.
Proof.
  rewrite assign_insert.
  destruct (split_last key) as [[parent p]|] eqn:Esplit; [|discriminate].
  apply split_last_Some in Esplit. subst key.
  destruct (update_at _ _ _) as [data1| | |] eqn:Eu; try discriminate.
  cbn [rbind]. intros H. inversion H; subst. clear H.
  split; [reflexivity|].
  destruct (update_at_inv _ _ _ _ Eu) as (act & act' & Hat & Hins & Hat').
  destruct (insert_at_inv _ _ _ _ _ Hins) as (t & t' & Ht & Hset & Ht').
  exists act, act'. unfold get_active_table. cbn [data active_table].
  split; [exact Hat|]. split; [exact Hat'|].
  pose proof Hset as Hset'. unfold set_item, dict_has in Hset'.
  destruct (dict_get p t) eqn:Eg; [discriminate|].
  inversion Hset'; subst. split; [|split].
  - rewrite (find_node_target parent p _ _ Ht). exact Eg.
  - rewrite (find_node_target parent p _ _ (table_at_target _ _ _ Ht')).
    apply dict_get_set_same.
  - intros k Hk.
    exact (insert_at_frame parent p true _ (set_item_touches_only p v)
             act act' k Hins Hk).
Qed.

(** After [assign] has returned, the key names the assigned value in the
    active table, which is the table that was active before; the key named
    nothing there before, and a key that parts ways with it names what it
    named before. *)
Theorem assign_then_find ctx key v ctx' :
  assign ctx key v = Ok ctx' ->
  active_table ctx' = active_table ctx
  /\ exists act act',
       get_active_table ctx = Ok act
       /\ get_active_table ctx' = Ok act'
       /\ find_node act key = None
       /\ find_node act' key = Some (NValue v)
       /\ forall k, diverges k key = true ->
                    find_node act' k = find_node act k.
Proof. exact (assign_lookup ctx key v ctx'). Qed.

Lemma assign_then_find_witness :
  exists ctx1 ctx',
    assign new_Context [py "a"; py "c"] (VInt 0) = Ok ctx1
    /\ assign ctx1 [py "a"; py "b"] (VInt 1) = Ok ctx'
    /\ active_table ctx' = active_table ctx1
    /\ exists act act',
         get_active_table ctx1 = Ok act
         /\ get_active_table ctx' = Ok act'
         /\ find_node act [py "a"; py "b"] = None
         /\ find_node act' [py "a"; py "b"] = Some (NValue (VInt 1))
         /\ forall k, diverges k [py "a"; py "b"] = true ->
                      find_node act' k = find_node act k.
Proof.
  eexists. eexists. split; [reflexivity|]. split; [reflexivity|].
  apply (assign_then_find _ [py "a"; py "b"] (VInt 1)).
  reflexivity.
Defined.

(** The insertion that ends an iteration of [_gen_inline_table] makes the
    key name the inserted value in the dictionary, and a key that parts
    ways with it names what it named before. *)
Theorem inline_insert_spec tbl key v tbl' :
  inline_insert tbl key v = Ok tbl' ->
  value_at tbl' key = Some v
  /\ forall k, diverges k key = true -> value_at tbl' k = value_at tbl k.
Proof.
  intros H. split.
  - exact (inline_insert_lookup key v tbl tbl' H).
  - intros k Hk. exact (inline_insert_frame key v tbl tbl' k H Hk).
Qed.

Lemma inline_insert_spec_witness :
  exists tbl',
    inline_insert [ (py "a", VDict [ (py "b", VInt 1) ]) ]
                  [py "a"; py "c"; py "d"] (VBool true) = Ok tbl'
    /\ value_at tbl' [py "a"; py "c"; py "d"] = Some (VBool true)
    /\ forall k, diverges k [py "a"; py "c"; py "d"] = true ->
                 value_at tbl' k
                 = value_at [ (py "a", VDict [ (py "b", VInt 1) ]) ] k.
Proof.
  eexists. split; [reflexivity|].
  apply (inline_insert_spec [ (py "a", VDict [ (py "b", VInt 1) ]) ]
           [py "a"; py "c"; py "d"] (VBool true)).
  reflexivity.
Defined.

(** ** White space, comments and newlines *)

Lemma wcn_scan_app a b : forall m,
  wcn_scan m a = true -> wcn_scan m (a ++ b) = wcn_scan WOut b.
Proof.
  induction a as [|c a IH]; intros m H.
  - destruct m; [reflexivity | discriminate | discriminate].
  - cbn [app wcn_scan] in *. destruct m.
    + destruct (is_wschar c || (c =? 0x0a)); [exact (IH _ H)|].
      destruct (c =? 0x0d); [exact (IH _ H)|].
      destruct (c =? 0x23); [exact (IH _ H) | discriminate].
    + destruct (c =? 0x0a); [exact (IH _ H)|].
      destruct (c =? 0x0d); [exact (IH _ H)|].
      destruct (is_non_eol c); [exact (IH _ H) | discriminate].
    + destruct (c =? 0x0a); [exact (IH _ H) | discriminate].
Qed.

Lemma wcn_scan_ws s :
  forallb (fun c => (c =? 0x09) || (c =? 0x20)) s = true ->
  wcn_scan WOut s = true.
Proof.
  induction s as [|c s IH]; [reflexivity|]. cbn [forallb wcn_scan].
  intros H. apply andb_true_iff in H. destruct H as [Hc Hs].
  unfold is_wschar. rewrite Hc. cbn [orb]. exact (IH Hs).
Qed.

Lemma wcn_scan_newline eol :
  eol = [0x0a] \/ eol = [0x0d; 0x0a] ->
  wcn_scan WOut eol = true /\ wcn_scan WComment eol = true.
Proof. intros [->| ->]; split; reflexivity. Qed.

Lemma wcn_scan_comment chars eol :
  forallb is_non_eol chars = true ->
  eol = [0x0a] \/ eol = [0x0d; 0x0a] ->
  wcn_scan WOut ((0x23 :: chars) ++ eol) = true.
Proof.
  intros Hc He.
  change (wcn_scan WOut ((0x23 :: chars) ++ eol))
    with (wcn_scan WComment (chars ++ eol)).
  induction chars as [|c chars IH]; [apply wcn_scan_newline, He|].
  cbn [forallb] in Hc. apply andb_true_iff in Hc. destruct Hc as [Hc Hs].
  cbn [app wcn_scan]. rewrite Hc.
  destruct (Z.eqb_spec c 0x0a) as [->|]; [discriminate|].
  destruct (Z.eqb_spec c 0x0d) as [->|]; [discriminate|].
  exact (IH Hs).
Qed.

Lemma gen_ws_comment_newline_scans :
  returns _gen_ws_comment_newline (fun s => is_ws_comment_newline s = true).
Proof.
  unfold _gen_ws_comment_newline, is_ws_comment_newline.
  eapply returns_bind; [apply returns_rand_exp; lia|]. cbv beta. intros n _.
  eapply returns_bind.
  - apply (returns_for_range (fun parts => wcn_scan WOut (concat parts) = true)).
    + reflexivity.
    + intros j parts Hparts.
      eapply returns_bind; [apply returns_randint; lia|]. cbv beta. intros r Hr.
      eapply returns_bind with
        (P := fun p1 => wcn_scan WOut (concat p1) = true).
      { destruct (r <? 4); [|apply returns_ret; exact Hparts].
        eapply returns_bind; [apply gen_ws_returns|]. cbv beta. intros ws Hws.
        apply returns_ret. rewrite concat_app. cbn [concat].
        rewrite app_nil_r, (wcn_scan_app _ _ _ Hparts).
        apply wcn_scan_ws, Hws. }
      cbv beta. intros p1 Hp1.
      destruct ((r =? 2) || (r =? 4)) eqn:Ecomment.
      * assert (Hge : (2 <=? r) = true).
        { apply Z.leb_le. apply orb_true_iff in Ecomment.
          destruct Ecomment as [E|E]; apply Z.eqb_eq in E; lia. }
        rewrite Hge.
        eapply returns_bind with
          (P := fun p2 => exists chars, p2 = p1 ++ [0x23 :: chars]
                            /\ forallb is_non_eol chars = true).
        { eapply returns_bind; [apply gen_comment_non_eol|].
          cbv beta. intros c (chars & -> & Hc & _).
          apply returns_ret. exists chars. auto. }
        cbv beta. intros p2 (chars & -> & Hc).
        eapply returns_bind; [apply gen_newline_returns|].
        cbv beta. intros eol He. apply returns_ret.
        rewrite <- app_assoc, concat_app. cbn [app concat].
        rewrite app_nil_r, (wcn_scan_app _ _ _ Hp1).
        apply (wcn_scan_comment chars eol Hc He).
      * eapply returns_bind with (P := eq p1);
          [apply returns_ret; reflexivity|].
        cbv beta. intros p2 <-.
        destruct (2 <=? r); [|apply returns_ret; exact Hp1].
        eapply returns_bind; [apply gen_newline_returns|].
        cbv beta. intros eol He. apply returns_ret.
        rewrite concat_app. cbn [concat].
        rewrite app_nil_r, (wcn_scan_app _ _ _ Hp1).
        apply wcn_scan_newline, He.
  - cbv beta. intros parts Hparts. apply returns_ret. exact Hparts.
Qed.

(** [_gen_ws_comment_newline] returns a text of the grammar's
    [ws-comment-newline]: tabs, spaces and newlines (a line feed, alone or
    after a carriage return), and comments of [non-eol] characters, each of
    which is followed by a newline. *)
Theorem gen_ws_comment_newline_grammar rng :
  exists s rng',
    _gen_ws_comment_newline rng = Ok (s, rng')
    /\ is_ws_comment_newline s = true.
Proof. exact (gen_ws_comment_newline_scans rng). Qed.

(** ** Key/value pairs and table headers *)

Lemma lift_Ok {A} (r : result A) rng a rng' :
  lift r rng = Ok (a, rng') -> r = Ok a /\ rng' = rng.
Proof.
  unfold lift. destruct r; cbn [rbind]; intros H; inversion H; auto.
Qed.

Lemma ret_Ok {A} (x : A) rng a rng' :
  ret x rng = Ok (a, rng') -> a = x /\ rng' = rng.
Proof. unfold ret. intros H. inversion H. auto. Qed.




Lemma open_table_active ctx key ctx' :
  open_table ctx key = Ok ctx' -> active_table ctx' = key.
Proof.
  unfold open_table. destruct (split_last key) as [[parent p]|]; [|discriminate].
  destruct (_make_subtable _ _ _); try discriminate. cbn [rbind].
  destruct (update_at _ _ _); try discriminate. cbn [rbind].
  intros H. inversion H. reflexivity.
Qed.

Lemma open_table_array_active ctx key ctx' :
  open_table_array ctx key = Ok ctx' -> active_table ctx' = key.
Proof.
  unfold open_table_array.
  destruct (split_last key) as [[parent p]|]; [|discriminate].
  destruct (_make_subtable _ _ _); try discriminate. cbn [rbind].
  destruct (update_at _ _ _); try discriminate. cbn [rbind].
  intros H. inversion H. reflexivity.
Qed.

Lemma get_table_keys_nonempty ctx defined array keys :
  table_wf (data ctx) = true ->
  get_table_keys ctx defined array = Ok keys -> ~ In [] keys.
Proof.
  intros Hwf H Hin. unfold get_table_keys in H.
  destruct (table_keys_of defined array (data ctx)) as [ks| | |] eqn:E;
    try discriminate.
  cbn [rbind] in H. inversion H; subst.
  apply (proj1 (sorted_In _ _)) in Hin.
  destruct (table_keys_of_sound _ _ _ _ _ Hwf E Hin) as (n & Hne & _).
  congruence.
Qed.

(** A table header that [_gen_table] returns is a key between single or
    double brackets, with white space around the key; on a well-formed
    tree whose tables have keys of Unicode scalar values the key text
    reads as the key that was opened, as a table for single brackets and
    as a table array for double ones, and the opened table is the active
    one afterwards. *)
Theorem gen_table_opens_its_key fuel ctx rng s ctx' rng' :
  table_wf (data ctx) = true ->
  (forall defined array keys,
      get_table_keys ctx defined array = Ok keys ->
      Forall (Forall (fun k => forallb is_scalar k = true)) keys) ->
  _gen_table fuel ctx rng = Ok ((s, ctx'), rng') ->
  exists key_str key ws1 ws2,
    read_key key_str = Some key
    /\ forallb is_wschar ws1 = true
    /\ forallb is_wschar ws2 = true
    /\ active_table ctx' = key
    /\ ((s = py "[" ++ ws1 ++ key_str ++ ws2 ++ py "]"
         /\ open_table ctx key = Ok ctx')
        \/ (s = py "[[" ++ ws1 ++ key_str ++ ws2 ++ py "]]"
            /\ open_table_array ctx key = Ok ctx')).
Proof.
  intros Hwf Hscalar E. unfold _gen_table in E.
  apply bind_Ok in E. destruct E as (b & r0 & _ & E).
  destruct (0 <? b).
  - apply bind_Ok in E. destruct E as (item_keys & r1 & H1 & E).
    apply lift_Ok in H1. destruct H1 as [Hik ->].
    apply bind_Ok in E. destruct E as (table_keys & r2 & H2 & E).
    apply lift_Ok in H2. destruct H2 as [Htk ->].
    apply bind_Ok in E. destruct E as (array_keys & r3 & H3 & E).
    apply lift_Ok in H3. destruct H3 as [Hak ->].
    apply bind_Ok in E. destruct E as ([key_str key] & r4 & Hkey & E).
    apply bind_Ok in E. destruct E as (ctx1 & r5 & Hopen & E).
    apply lift_Ok in Hopen. destruct Hopen as [Hopen ->].
    apply bind_Ok in E. destruct E as (ws1 & r6 & Hws1 & E).
    apply bind_Ok in E. destruct E as (ws2 & r7 & Hws2 & E).
    apply ret_Ok in E. destruct E as [E ->]. inversion E; subst. clear E.
    exists key_str, key, ws1, ws2. split.
    { apply (yields_Ok _ _ _ _ _
               (gen_key_text fuel _ _ (table_keys ++ array_keys) array_keys
                  (proj2 (Forall_app _ _ _)
                     (conj (Hscalar _ _ _ Htk) (Hscalar _ _ _ Hak)))
                  (Hscalar _ _ _ Hak)
                  (get_table_keys_nonempty _ _ _ _ Hwf Hak)) Hkey). }
    split; [exact (returns_Ok _ _ _ _ _ gen_ws_returns Hws1)|].
    split; [exact (returns_Ok _ _ _ _ _ gen_ws_returns Hws2)|].
    split; [exact (open_table_array_active _ _ _ Hopen)|].
    right. split; [reflexivity | exact Hopen].
  - apply bind_Ok in E. destruct E as (item_keys & r1 & H1 & E).
    apply lift_Ok in H1. destruct H1 as [Hik ->].
    apply bind_Ok in E. destruct E as (implicit_keys & r2 & H2 & E).
    apply lift_Ok in H2. destruct H2 as [Himp ->].
    apply bind_Ok in E. destruct E as (defined_keys & r3 & H3 & E).
    apply lift_Ok in H3. destruct H3 as [Hdef ->].
    apply bind_Ok in E. destruct E as (array_keys & r4 & H4 & E).
    apply lift_Ok in H4. destruct H4 as [Hak ->].
    apply bind_Ok in E. destruct E as ([key_str key] & r5 & Hkey & E).
    apply bind_Ok in E. destruct E as (ctx1 & r6 & Hopen & E).
    apply lift_Ok in Hopen. destruct Hopen as [Hopen ->].
    apply bind_Ok in E. destruct E as (ws1 & r7 & Hws1 & E).
    apply bind_Ok in E. destruct E as (ws2 & r8 & Hws2 & E).
    apply ret_Ok in E. destruct E as [E ->]. inversion E; subst. clear E.
    exists key_str, key, ws1, ws2. split.
    { apply (yields_Ok _ _ _ _ _
               (gen_key_text fuel _ _ (implicit_keys ++ defined_keys)
                  implicit_keys
                  (proj2 (Forall_app _ _ _)
                     (conj (Hscalar _ _ _ Himp) (Hscalar _ _ _ Hdef)))
                  (Hscalar _ _ _ Himp)
                  (get_table_keys_nonempty _ _ _ _ Hwf Himp)) Hkey). }
    split; [exact (returns_Ok _ _ _ _ _ gen_ws_returns Hws1)|].
    split; [exact (returns_Ok _ _ _ _ _ gen_ws_returns Hws2)|].
    split; [exact (open_table_active _ _ _ Hopen)|].
    left. split; [reflexivity | exact Hopen].
Qed.

Lemma gen_table_opens_its_key_witness :
  table_wf (data new_Context) = true
  /\ (forall defined array keys,
         get_table_keys new_Context defined array = Ok keys ->
         Forall (Forall (fun k => forallb is_scalar k = true)) keys)
  /\ exists ctx',
       _gen_table 1 new_Context [1; 0; 2 ^ 52; 1; 0; 0; 0; 0]
       = Ok ((py "[[0]]", ctx'), [])
       /\ exists key_str key ws1 ws2,
            read_key key_str = Some key
            /\ forallb is_wschar ws1 = true
            /\ forallb is_wschar ws2 = true
            /\ active_table ctx' = key
            /\ ((py "[[0]]" = py "[" ++ ws1 ++ key_str ++ ws2 ++ py "]"
                 /\ open_table new_Context key = Ok ctx')
                \/ (py "[[0]]" = py "[[" ++ ws1 ++ key_str ++ ws2 ++ py "]]"
                    /\ open_table_array new_Context key = Ok ctx')).
Proof.
  assert (Hs : forall defined array keys,
             get_table_keys new_Context defined array = Ok keys ->
             Forall (Forall (fun k => forallb is_scalar k = true)) keys).
  { intros defined array keys H. inversion H. constructor. }
  split; [reflexivity|]. split; [exact Hs|].
  eexists. split; [vm_compute; reflexivity|].
  apply (gen_table_opens_its_key 1 new_Context
           [1; 0; 2 ^ 52; 1; 0; 0; 0; 0] _ _ [] eq_refl Hs).
  vm_compute. reflexivity.
Defined.

(** ** The queries and the refusals of the context, together *)

(** On a well-formed tree the queries [get_item_keys] and [get_table_keys]
    return, and each lists exactly what it is asked for: the first the keys
    that name a value, the second the keys that name a table or table array
    of the kind asked for (with [array] false or true, tables only or table
    arrays only; with [defined] given, the tables whose flag has that
    value); both walk into the last element of every table array. *)
Theorem queries_list_exactly ctx defined array :
  table_wf (data ctx) = true ->
  (exists keys,
      get_item_keys ctx = Ok keys
      /\ forall k, In k keys
                   <-> exists x, find_node (data ctx) k = Some (NValue x))
  /\ (exists keys,
         get_table_keys ctx defined array = Ok keys
         /\ forall k, In k keys
                      <-> exists n, find_node (data ctx) k = Some n
                                    /\ listed_table defined array n = true).
Proof.
  intros Hwf. split.
  - exact (get_item_keys_listing ctx Hwf).
  - exact (get_table_keys_listing ctx defined array Hwf).
Qed.

Lemma queries_list_exactly_witness :
  let ctx := mkContext
               [ (py "a", NValue (VInt 1));
                 (py "t", Table true false
                            [ (py "b", NValue (VBool true));
                              (py "u", TableArray [ []; [] ]) ]) ]
               [py "t"] in
  table_wf (data ctx) = true
  /\ (exists keys,
         get_item_keys ctx = Ok keys
         /\ forall k, In k keys
                      <-> exists x, find_node (data ctx) k = Some (NValue x))
  /\ (exists keys,
         get_table_keys ctx None (Some true) = Ok keys
         /\ forall k, In k keys
                      <-> exists n, find_node (data ctx) k = Some n
                                    /\ listed_table None (Some true) n = true).
Proof.
  split; [reflexivity|]. apply queries_list_exactly. reflexivity.
Defined.

(** The context refuses, with an assertion failure, a key that already
    names something the operation cannot take: [open_table] anything but a
    table that no header has defined and no dotted key made, so that a
    second header for the same table fails; [open_table_array] anything but
    a table array; and [assign] anything at all in the active table, so
    that no key is assigned twice. *)
Theorem context_refuses_redefinition ctx key n :
  (find_node (data ctx) key = Some n ->
   ((forall elems, n <> Table false false elems) ->
    open_table ctx key = AssertionError)
   /\ ((forall elems, n <> TableArray elems) ->
       open_table_array ctx key = AssertionError))
  /\ (forall act v,
         get_active_table ctx = Ok act ->
         find_node act key = Some n ->
         assign ctx key v = AssertionError).
Proof.
  split.
  - exact (headers_refuse ctx key n).
  - intros act v. exact (assign_refuses ctx key v act n).
Qed.

Lemma context_refuses_redefinition_witness :
  exists ctx1 ctx2,
    open_table new_Context [py "a"; py "b"] = Ok ctx1
    /\ assign ctx1 [py "c"] (VInt 1) = Ok ctx2
    /\ find_node (data ctx2) [py "a"; py "b"] = Some (Table true false [ (py "c", NValue (VInt 1)) ])
    /\ open_table ctx2 [py "a"; py "b"] = AssertionError
    /\ open_table_array ctx2 [py "a"; py "b"] = AssertionError
    /\ get_active_table ctx2 = Ok [ (py "c", NValue (VInt 1)) ]
    /\ assign ctx2 [py "c"] (VInt 2) = AssertionError.
Proof.
  eexists. eexists. split; [reflexivity|]. split; [reflexivity|].
  split; [reflexivity|].
  pose proof (context_refuses_redefinition
                {| data := [ (py "a", Table false false
                                        [ (py "b", Table true false
                                                     [ (py "c", NValue (VInt 1)) ]) ]) ];
                   active_table := [py "a"; py "b"] |}
                [py "a"; py "b"]
                (Table true false [ (py "c", NValue (VInt 1)) ])) as [H _].
  destruct (H eq_refl) as [H1 H2].
  split; [apply H1; discriminate|]. split; [apply H2; discriminate|].
  split; [reflexivity|].
  pose proof (context_refuses_redefinition
                {| data := [ (py "a", Table false false
                                        [ (py "b", Table true false
                                                     [ (py "c", NValue (VInt 1)) ]) ]) ];
                   active_table := [py "a"; py "b"] |}
                [py "c"] (NValue (VInt 1))) as [_ H3].
  apply (H3 _ (VInt 2) eq_refl eq_refl).
Defined.
